(** * Gyroad: chain accessibility, path reconstruction and turn rules

    A shallow embedding of the rule core of the Gyroad canvas game
    ([src/game.js], with the older [src/main.js] variant in [Module MainJs]).

    Conventions of the embedding:
    - JavaScript numbers that the program only ever uses as integers
      (coordinates, degrees, scores, ids) are [Z]; [%] is [Z.rem]
      (the sign follows the dividend, as in JavaScript);
    - the string keys ["x,y"] built by [keyXY] are pairs [(x, y)];
      [keyXY] is injective on integers and [unkeyXY] is its inverse, which
      is all the program uses of them;
    - a JavaScript [Set] is a duplicate-free list in insertion order
      ([Set.prototype.add] appends when the element is new);
    - the grid [board[y][x]] is a list of rows; reading a missing row is the
      [TypeError] the program would raise, reading a missing column of an
      existing row is [undefined], i.e. an empty cell;
    - loops whose termination is not structural take a fuel argument, and
      every use of such a loop comes with a theorem that the fuel the
      embedding supplies is enough;
    - the values of the bot's evaluation are multiples of one half and are
      rationals ([Q]); what the bot reads off the clock or ranks with
      floating-point weights (the chosen action, the rotation candidates)
      is an argument of the functions that use it;
    - a pointer event is the record of the handler's hit tests; the
      rotation of a piece under way in rotate mode is kept in a table keyed
      by the piece's id;
    - a frame of the game loop turns the rotating pieces by a whole number
      of degrees, the amount the duration of the frame allows. *)

From Stdlib Require Import ZArith QArith Qabs List String Ascii Bool Lia Lqa
  Permutation.
Import ListNotations.
Local Open Scope string_scope.
Local Open Scope list_scope.
Local Open Scope Z_scope.

(** ** Positions, keys and sets of keys *)

Definition Pos : Type := (Z * Z)%type.

Definition keyXY (x y : Z) : Pos := (x, y).
Definition unkeyXY (k : Pos) : Z * Z := k.

Definition pos_eqb (a b : Pos) : bool :=
  (fst a =? fst b) && (snd a =? snd b).

Definition mem (k : Pos) (s : list Pos) : bool := existsb (pos_eqb k) s.

(** [Set.prototype.add]. *)
Definition add (k : Pos) (s : list Pos) : list Pos :=
  if mem k s then s else s ++ [k].

(** ** Board constants *)

Definition BOARD_WIDTH : Z := 7.
Definition BOARD_HEIGHT : Z := 8.

Definition isValidPosition (x y : Z) : bool :=
  (0 <=? x) && (x <? BOARD_WIDTH) && (0 <=? y) && (y <? BOARD_HEIGHT).

(** ** Pieces *)

Record Piece : Type := mkPiece {
  piece_id : Z;
  piece_x : Z;
  piece_y : Z;
  piece_type : string;        (* "PR", "DPe", ... *)
  player : Z;                 (* 1 or 2 *)
  rotation : Z;               (* degrees *)
  movedLastTurn : bool;
  rotatedThisTurn : bool;
  movementPath : list Pos;
  isMoving : bool
}.

Definition piece_key (p : Piece) : Pos := keyXY (piece_x p) (piece_y p).

(** [type.replace(/e$/, "")]: drop one trailing ["e"]. *)
Fixpoint strip_e (s : string) : string :=
  match s with
  | EmptyString => EmptyString
  | String c EmptyString => if Ascii.eqb c "e"%char then EmptyString else s
  | String c rest => String c (strip_e rest)
  end.

(** The outcome of a computation of the program: a value, the [TypeError]
    of reading a property of [undefined], or the embedding's fuel running
    out. *)
Inductive Outcome (A : Type) : Type :=
| Done (a : A)
| TypeError
| OutOfFuel.
Arguments Done {A} a.
Arguments TypeError {A}.
Arguments OutOfFuel {A}.

Definition bind {A B : Type} (m : Outcome A) (f : A -> Outcome B) : Outcome B :=
  match m with
  | Done a => f a
  | TypeError => TypeError
  | OutOfFuel => OutOfFuel
  end.

Notation "x <- m ;; k" := (bind m (fun x => k))
  (at level 61, m at next level, right associativity).
Notation "' pat <- m ;; k" := (bind m (fun x => match x with pat => k end))
  (at level 61, pat pattern, m at next level, right associativity).

(** ** The older variant, [src/main.js] *)

Module MainJs.

(** [type.replace('e', '')]: drop the first ["e"]. *)
Fixpoint remove_first_e (s : string) : string :=
  match s with
  | EmptyString => EmptyString
  | String c rest =>
      if Ascii.eqb c "e"%char then rest else String c (remove_first_e rest)
  end.

(** The direction table of [Piece.getAvailableSquares] of [main.js], before
    rotation: the frame vectors are arrays [[dx, dy]]. *)
Definition dirs (type : string) (player : Z) : list Pos :=
  let up : Pos := if player =? 1 then (0, -1) else (0, 1) in
  let down : Pos := if player =? 1 then (0, 1) else (0, -1) in
  let left : Pos := if player =? 1 then (-1, 0) else (1, 0) in
  let right : Pos := if player =? 1 then (1, 0) else (-1, 0) in
  let t := remove_first_e type in
  if (t =? "PR")%string then [left; (fst right, snd right + snd up)]
  else if (t =? "PL")%string then [right; (fst left, snd left + snd up)]
  else if (t =? "PX")%string then
    [ (fst right + fst up, snd right + snd up);
      (fst right + fst down, snd right + snd down);
      (fst left + fst up, snd left + snd up);
      (fst left + fst down, snd left + snd down) ]
  else if (t =? "DP")%string then [up; (fst up * 2, snd up * 2); left; right]
  else if (t =? "DT")%string then
    [ up; (fst up + fst left, snd up + snd left);
      (fst up + fst right, snd up + snd right); down ]
  else if (t =? "DN")%string then
    [up; down; (fst left * 2, snd left * 2); (fst right * 2, snd right * 2)]
  else if (t =? "C")%string then
    [ up; (fst down + fst left, snd down + snd left);
      (fst down + fst right, snd down + snd right) ]
  else [].

(** [rotateDirection(dx, dy, angle)] with the rounded cosine and sine of
    the angle given: [main.js] always goes through [Math.cos]/[Math.sin]. *)
Definition rotateDirection (cosTheta sinTheta : Z) (dx dy : Z) : Pos :=
  (cosTheta * dx - sinTheta * dy, sinTheta * dx + cosTheta * dy).

(** The offsets of an unrotated piece ([this.rotation = 0]): the angle is
    [-0], whose cosine is exactly 1 and whose sine is exactly [-0]. *)
Definition unrotatedOffsets (type : string) (player : Z) : list Pos :=
  map (fun d => rotateDirection 1 0 (fst d) (snd d)) (dirs type player).

(** [getAvailableSquares] of an unrotated piece at [(x, y)]. *)
Definition getAvailableSquares0 (x y : Z) (type : string) (player : Z)
  : list Pos :=
  filter (fun p => isValidPosition (fst p) (snd p))
    (map (fun d => (x + fst d, y + snd d)) (unrotatedOffsets type player)).

End MainJs.

(** The closed examples at the end only use rotations that are multiples
    of 90, where the floating-point fallback of [rotateDir] is never reached;
    they instantiate its two roundings with this placeholder. *)
Definition noRound : Z -> Z := fun _ => 0.

(** ** The piece catalogue of [src/game.js] *)

Section Gyroad.

(** [rotateDir] has a floating-point fallback for angles that are not
    multiples of 90: [Math.round(Math.cos(rad))] and
    [Math.round(Math.sin(rad))] at [a] degrees.  The two roundings are left
    abstract; nothing below depends on their values. *)
Variables roundCos roundSin : Z -> Z.

Definition rotateDir (dx dy angle : Z) : Pos :=
  let a := Z.rem (Z.rem angle 360 + 360) 360 in
  if a =? 0 then (dx, dy)
  else if a =? 90 then (- dy, dx)
  else if a =? 180 then (- dx, - dy)
  else if a =? 270 then (dy, - dx)
  else
    let cos := roundCos a in
    let sin := roundSin a in
    (cos * dx - sin * dy, sin * dx + cos * dy).

(** The unrotated direction set of [Piece.getAvailableSquares]. *)
Definition baseDirs (type : string) (pl : Z) : list Pos :=
  let up : Pos := if pl =? 1 then (0, -1) else (0, 1) in
  let down : Pos := if pl =? 1 then (0, 1) else (0, -1) in
  let left : Pos := if pl =? 1 then (-1, 0) else (1, 0) in
  let right : Pos := if pl =? 1 then (1, 0) else (-1, 0) in
  let t := strip_e type in
  if (t =? "PR")%string then [left; (fst right, snd right + snd down)]
  else if (t =? "PL")%string then [right; (fst left, snd left + snd down)]
  else if (t =? "PX")%string then
    [ (fst right + fst up, snd right + snd up);
      (fst right + fst down, snd right + snd down);
      (fst left + fst up, snd left + snd up);
      (fst left + fst down, snd left + snd down) ]
  else if (t =? "DP")%string then [up; (fst up * 2, snd up * 2); left; right]
  else if (t =? "DT")%string then
    [ up; (fst up + fst left, snd up + snd left);
      (fst up + fst right, snd up + snd right); down ]
  else if (t =? "DN")%string then
    [up; down; (fst left * 2, snd left * 2); (fst right * 2, snd right * 2)]
  else if (t =? "C")%string then
    [ up; (fst down + fst left, snd down + snd left);
      (fst down + fst right, snd down + snd right) ]
  else [].

(** The offsets of a piece after the rotation transform and before the
    bounds filter ([adjusted] in the source).  The source memoises this list
    per piece in [relativeDirsCache], keyed by the angle; type and player of
    a piece never change and [clonePiece] starts from an empty cache, so the
    cached list is always the list computed here. *)
Definition candidateOffsets (type : string) (pl rot : Z) : list Pos :=
  let rotation := Z.rem (Z.rem rot 360 + 360) 360 in
  let angle := Z.rem (- rotation + 360) 360 in
  map (fun d => rotateDir (fst d) (snd d) angle) (baseDirs type pl).

Definition getAvailableSquares (p : Piece) : list Pos :=
  let x := piece_x p in
  let y := piece_y p in
  filter (fun q => isValidPosition (fst q) (snd q))
    (map (fun d => (x + fst d, y + snd d))
       (candidateOffsets (piece_type p) (player p) (rotation p))).

(** The method as written, with the cache of the piece threaded through:
    [relativeDirsCache] is a [Map] from the angle to the rotated
    directions, filled on a miss. *)
Definition DirsCache : Type := list (Z * list Pos).

Definition cacheGet (cache : DirsCache) (angle : Z) : option (list Pos) :=
  match find (fun e => fst e =? angle) cache with
  | Some e => Some (snd e)
  | None => None
  end.

Definition getAvailableSquares_cached (p : Piece) (cache : DirsCache)
  : list Pos * DirsCache :=
  let x := piece_x p in
  let y := piece_y p in
  let rotation := Z.rem (Z.rem (rotation p) 360 + 360) 360 in
  let dirs := baseDirs (piece_type p) (player p) in
  let angle := Z.rem (- rotation + 360) 360 in
  let '(adjusted, cache') :=
    match cacheGet cache angle with
    | Some adjusted => (adjusted, cache)
    | None =>
        let adjusted := map (fun d => rotateDir (fst d) (snd d) angle) dirs in
        (adjusted, cache ++ [(angle, adjusted)])
    end in
  (filter (fun q => isValidPosition (fst q) (snd q))
     (map (fun d => (x + fst d, y + snd d)) adjusted),
   cache').

(** ** The grid *)

Definition Board : Type := list (list (option Piece)).

(** [a[i]] on a JavaScript array: [undefined] outside the array. *)
Definition nth_js {A : Type} (l : list A) (i : Z) : option A :=
  if i <? 0 then None else nth_error l (Z.to_nat i).

(** [boardRef[y][x]]. *)
Definition boardRead (b : Board) (x y : Z) : Outcome (option Piece) :=
  match nth_js b y with
  | None => TypeError
  | Some row =>
      match nth_js row x with
      | None => Done None
      | Some cell => Done cell
      end
  end.

(** The occupant of a square, for stating properties. *)
Definition cellAt (b : Board) (k : Pos) : option Piece :=
  match boardRead b (fst k) (snd k) with
  | Done cell => cell
  | _ => None
  end.

(** ** The chain-accessibility resolver *)

Record Resolved : Type := mkResolved {
  accessibleSquares : list Pos;
  visitedPositions : list Pos;
  visitedPieces : list Pos
}.

(** The order in which the pieces found on the candidate squares of a piece
    are processed, in the second and in the third loop of the resolver.  The
    source processes them in the order of [piecesOnAvailable]
    ([sourceOrder]); the parameter is there to state that the order does not
    matter. *)
Record ProcessingOrder : Type := mkOrder {
  recurseOrder : Piece -> list Piece -> list Piece;
  harvestOrder : Piece -> list Piece -> list Piece
}.

Definition sourceOrder : ProcessingOrder :=
  {| recurseOrder := fun _ l => l; harvestOrder := fun _ l => l |}.

(** First loop: the occupied candidate squares and their occupants. *)
Fixpoint scanAvailable (b : Board) (available : list Pos)
    (acc : list Pos) (piecesOnAvailable : list Piece)
  : Outcome (list Pos * list Piece) :=
  match available with
  | [] => Done (acc, piecesOnAvailable)
  | pos :: rest =>
      if isValidPosition (fst pos) (snd pos) then
        target <- boardRead b (fst pos) (snd pos) ;;
        match target with
        | Some t =>
            scanAvailable b rest (add (keyXY (fst pos) (snd pos)) acc)
              (piecesOnAvailable ++ [t])
        | None => scanAvailable b rest acc piecesOnAvailable
        end
      else scanAvailable b rest acc piecesOnAvailable
  end.

(** Second loop: recursion into unvisited friendly occupants; [self] is the
    recursive call.  The sets [visitedPositions] and [visitedPieces] are
    shared by all levels of the recursion, so they are threaded through. *)
Fixpoint recurseLoop
    (self : Piece -> list Pos -> list Pos -> Outcome Resolved)
    (piece originPiece : Piece) (targets : list Piece)
    (acc vpos vpcs : list Pos)
  : Outcome (list Pos * list Pos * list Pos) :=
  match targets with
  | [] => Done (acc, vpos, vpcs)
  | target :: rest =>
      let tkey := piece_key target in
      if (player target =? player piece) && negb (mem tkey vpcs) then
        if negb (pos_eqb tkey (piece_key originPiece)) then
          res <- self target vpos vpcs ;;
          recurseLoop self piece originPiece rest
            (fold_left (fun a k => add k a) (accessibleSquares res) acc)
            (visitedPositions res) (visitedPieces res)
        else recurseLoop self piece originPiece rest acc vpos vpcs
      else if negb (player target =? player piece) then
        recurseLoop self piece originPiece rest (add tkey acc) vpos vpcs
      else recurseLoop self piece originPiece rest acc vpos vpcs
  end.

(** Third loop, inner part: the candidate squares of one friendly occupant. *)
Fixpoint harvestTarget (targetAvail : list Pos) (acc vpos : list Pos)
  : list Pos * list Pos :=
  match targetAvail with
  | [] => (acc, vpos)
  | pos :: rest =>
      let k := keyXY (fst pos) (snd pos) in
      if isValidPosition (fst pos) (snd pos) && negb (mem k vpos)
      then harvestTarget rest (add k acc) (add k vpos)
      else harvestTarget rest acc vpos
  end.

(** Third loop. *)
Fixpoint harvestLoop (piece originPiece : Piece) (targets : list Piece)
    (acc vpos : list Pos) : list Pos * list Pos :=
  match targets with
  | [] => (acc, vpos)
  | target :: rest =>
      let tkey := piece_key target in
      if (player target =? player piece)
         && negb (pos_eqb tkey (piece_key originPiece))
      then
        let '(acc', vpos') :=
          harvestTarget (getAvailableSquares target) acc vpos in
        harvestLoop piece originPiece rest acc' vpos'
      else harvestLoop piece originPiece rest acc vpos
  end.

(** [getAllAccessibleSquaresForBoard], with the processing order and the
    recursion fuel explicit. *)
Fixpoint resolve (ord : ProcessingOrder) (fuel : nat)
    (piece originPiece : Piece) (boardRef : Board)
    (visitedPositions0 visitedPieces0 : list Pos) : Outcome Resolved :=
  match fuel with
  | O => OutOfFuel
  | S fuel' =>
      let vpcs := add (piece_key piece) visitedPieces0 in
      let available := getAvailableSquares piece in
      '(acc1, piecesOnAvailable) <- scanAvailable boardRef available [] [] ;;
      '(acc2, vpos2, vpcs2) <-
        recurseLoop
          (fun t vp vq => resolve ord fuel' t originPiece boardRef vp vq)
          piece originPiece (recurseOrder ord piece piecesOnAvailable)
          acc1 visitedPositions0 vpcs ;;
      let '(acc3, vpos3) :=
        harvestLoop piece originPiece
          (harvestOrder ord piece piecesOnAvailable) acc2 vpos2 in
      Done {| accessibleSquares := acc3;
              visitedPositions := vpos3;
              visitedPieces := vpcs2 |}
  end.

(** Every recursive call marks a square of the grid that was not marked
    before, so the depth of the recursion is at most the number of squares. *)
Definition resolverFuel : nat := S (Z.to_nat (BOARD_WIDTH * BOARD_HEIGHT)).

Definition getAllAccessibleSquaresForBoard (piece originPiece : Piece)
    (boardRef : Board) (visitedPositions0 visitedPieces0 : list Pos)
  : Outcome Resolved :=
  resolve sourceOrder resolverFuel piece originPiece boardRef
    visitedPositions0 visitedPieces0.

(** ** The path finder *)

(** The path finder keeps pieces in [Set]s of objects.  Two cells of a
    consistent grid never hold pieces with the same coordinates, so on the
    pieces of one grid object identity is equality of the records. *)
Definition Pos_eq_dec (a b : Pos) : {a = b} + {a <> b}.
Proof. decide equality; apply Z.eq_dec. Defined.

Definition Piece_eq_dec (p q : Piece) : {p = q} + {p <> q}.
Proof.
  decide equality;
    first [ apply Z.eq_dec | apply string_dec | apply bool_dec
          | apply (list_eq_dec Pos_eq_dec) ].
Defined.

Definition piece_eqb (p q : Piece) : bool :=
  if Piece_eq_dec p q then true else false.

Definition addPiece (p : Piece) (s : list Piece) : list Piece :=
  if existsb (piece_eqb p) s then s else s ++ [p].

Definition deletePiece (p : Piece) (s : list Piece) : list Piece :=
  filter (fun q => negb (piece_eqb p q)) s.

(** The friendly pieces standing on the visited keys. *)
Fixpoint collectPieces (selected : Piece) (b : Board) (keys : list Pos)
    (accessiblePieces : list Piece) : Outcome (list Piece) :=
  match keys with
  | [] => Done accessiblePieces
  | k :: rest =>
      let '(px, py) := unkeyXY k in
      cell <- boardRead b px py ;;
      match cell with
      | Some p =>
          if player p =? player selected
          then collectPieces selected b rest (addPiece p accessiblePieces)
          else collectPieces selected b rest accessiblePieces
      | None => collectPieces selected b rest accessiblePieces
      end
  end.

(** The [for (const p of consider)] loop of one dequeued entry. *)
Fixpoint expand (pos : Pos) (path : list Pos) (consider : list Piece)
    (queue : list (Pos * list Pos)) (visited : list Pos)
  : list (Pos * list Pos) * list Pos :=
  match consider with
  | [] => (queue, visited)
  | p :: rest =>
      if existsb (fun s => (fst s =? fst pos) && (snd s =? snd pos))
           (getAvailableSquares p)
      then
        let pkey := piece_key p in
        if negb (mem pkey visited)
        then expand pos path rest
               (queue ++ [((piece_x p, piece_y p),
                           path ++ [(piece_x p, piece_y p)])])
               (add pkey visited)
        else expand pos path rest queue visited
      else expand pos path rest queue visited
  end.

(** The [while (queue.length > 0)] loop. *)
Fixpoint searchLoop (fuel : nat) (selected : Piece)
    (accessibleFirstStep accessiblePieces : list Piece)
    (queue : list (Pos * list Pos)) (visited : list Pos)
  : Outcome (option (list Pos)) :=
  match fuel with
  | O => OutOfFuel
  | S fuel' =>
      match queue with
      | [] => Done None
      | (pos, path) :: rest =>
          if (fst pos =? piece_x selected) && (snd pos =? piece_y selected)
          then Done (Some (rev path))
          else
            let consider :=
              if (List.length path =? 1)%nat
              then accessibleFirstStep else accessiblePieces in
            let '(queue', visited') := expand pos path consider rest visited in
            searchLoop fuel' selected accessibleFirstStep accessiblePieces
              queue' visited'
      end
  end.

(** [findMovementPathForBoard]; [None] is the source's [null].  Every pass
    of the loop removes one entry, and an entry is only added for a piece of
    [accessiblePieces] whose key is new, hence the fuel. *)
Definition findMovementPathForBoard (selected : Piece) (destination : Pos)
    (boardRef : Board) : Outcome (option (list Pos)) :=
  res <- getAllAccessibleSquaresForBoard selected selected boardRef [] [] ;;
  accessiblePieces <-
    collectPieces selected boardRef (visitedPieces res) [] ;;
  destCell <- boardRead boardRef (fst destination) (snd destination) ;;
  let destEmpty := match destCell with None => true | Some _ => false end in
  let accessibleFirstStep :=
    if destEmpty then deletePiece selected accessiblePieces
    else accessiblePieces in
  searchLoop (S (S (List.length accessiblePieces))) selected
    accessibleFirstStep accessiblePieces
    [(destination, [destination])]
    [keyXY (fst destination) (snd destination)].

(** ** Sample data *)

Definition newPiece (id x y : Z) (type : string) (pl : Z) : Piece :=
  {| piece_id := id; piece_x := x; piece_y := y; piece_type := type;
     player := pl; rotation := 0; movedLastTurn := false;
     rotatedThisTurn := false; movementPath := []; isMoving := false |}.

(** [initPieces]. *)
Definition initPieces : list Piece :=
  [ newPiece 1 0 7 "DP" 1; newPiece 2 1 7 "DT" 1; newPiece 3 2 7 "DN" 1;
    newPiece 4 3 7 "C" 1; newPiece 5 4 7 "DN" 1; newPiece 6 5 7 "DT" 1;
    newPiece 7 6 7 "DP" 1;
    newPiece 8 0 6 "PR" 1; newPiece 9 1 6 "PL" 1; newPiece 10 2 6 "PR" 1;
    newPiece 11 3 6 "PX" 1; newPiece 12 4 6 "PL" 1; newPiece 13 5 6 "PR" 1;
    newPiece 14 6 6 "PL" 1;
    newPiece 15 0 0 "DPe" 2; newPiece 16 1 0 "DTe" 2; newPiece 17 2 0 "DNe" 2;
    newPiece 18 3 0 "Ce" 2; newPiece 19 4 0 "DNe" 2; newPiece 20 5 0 "DTe" 2;
    newPiece 21 6 0 "DPe" 2;
    newPiece 22 0 1 "PLe" 2; newPiece 23 1 1 "PRe" 2; newPiece 24 2 1 "PLe" 2;
    newPiece 25 3 1 "PXe" 2; newPiece 26 4 1 "PRe" 2; newPiece 27 5 1 "PLe" 2;
    newPiece 28 6 1 "PRe" 2 ].

(** [makeEmptyBoard]. *)
Definition makeEmptyBoard : Board :=
  repeat (repeat None (Z.to_nat BOARD_WIDTH)) (Z.to_nat BOARD_HEIGHT).

Fixpoint setNth {A : Type} (l : list A) (i : nat) (a : A) : list A :=
  match l, i with
  | [], _ => []
  | _ :: t, O => a :: t
  | h :: t, S j => h :: setNth t j a
  end.

(** [board[y][x] = v] for a square of the grid (the program writes nowhere
    else; a write outside the grid is left out of the embedding). *)
Definition boardWrite (b : Board) (x y : Z) (v : option Piece) : Board :=
  match nth_js b y with
  | Some row =>
      match nth_js row x with
      | Some _ => setNth b (Z.to_nat y) (setNth row (Z.to_nat x) v)
      | None => b
      end
  | None => b
  end.

(** The grid of a piece list: [for (const p of pieces) board[p.y][p.x] = p]. *)
Definition boardOf (ps : list Piece) : Board :=
  fold_left (fun b p => boardWrite b (piece_x p) (piece_y p) (Some p))
    ps makeEmptyBoard.

(** ** Vocabulary of the properties *)

(** The grid has [BOARD_HEIGHT] rows of [BOARD_WIDTH] cells
    ([makeEmptyBoard]). *)
Definition shaped (b : Board) : Prop :=
  List.length b = Z.to_nat BOARD_HEIGHT /\
  Forall (fun row => List.length row = Z.to_nat BOARD_WIDTH) b.

(** Grid and pieces agree: the piece in cell [(x, y)] has coordinates
    [(x, y)]. *)
Definition consistent (b : Board) : Prop :=
  forall k p, cellAt b k = Some p -> piece_key p = k.

Definition wf_board (b : Board) : Prop := shaped b /\ consistent b.

(** The piece stands on the grid, at its own coordinates. *)
Definition onBoard (b : Board) (p : Piece) : Prop :=
  cellAt b (piece_key p) = Some p.

(** [t] is a friendly piece standing on a raw candidate square of [p]. *)
Definition link (b : Board) (p t : Piece) : Prop :=
  exists pos, In pos (getAvailableSquares p) /\ cellAt b pos = Some t
              /\ player t = player p.

(** The pieces linked to [s]: [s] itself and every piece reached through a
    chain of friendly pieces standing on each other's raw candidate
    squares. *)
Inductive linked (b : Board) (s : Piece) : Piece -> Prop :=
| linked_refl : linked b s s
| linked_step : forall p t, linked b s p -> link b p t -> linked b s t.

(** The cache of a piece holds, for each angle it knows, the directions of
    the piece rotated by that angle. *)
Definition coherent (p : Piece) (cache : DirsCache) : Prop :=
  forall angle adjusted,
    cacheGet cache angle = Some adjusted ->
    adjusted = map (fun d => rotateDir (fst d) (snd d) angle)
                 (baseDirs (piece_type p) (player p)).

(** A processing order only reorders. *)
Definition fair (ord : ProcessingOrder) : Prop :=
  forall p l, Permutation (recurseOrder ord p l) l
              /\ Permutation (harvestOrder ord p l) l.

(** The squares of the grid, and how many of them a set of keys misses. *)
Definition allSquares : list Pos :=
  flat_map (fun y => map (fun x => (x, y)) [0; 1; 2; 3; 4; 5; 6])
    [0; 1; 2; 3; 4; 5; 6; 7].

Definition unvisited (vpcs : list Pos) : nat :=
  List.length (filter (fun k => negb (mem k vpcs)) allSquares).

(** The number of pieces on the grid. *)
Definition pieceCount (b : Board) : nat :=
  List.length
    (filter (fun k => match cellAt b k with Some _ => true | None => false end)
       allSquares).

(** [x] is a raw candidate square of the piece standing at [y]. *)
Definition hop (b : Board) (x y : Pos) : Prop :=
  exists p, cellAt b y = Some p /\ In x (getAvailableSquares p).

(** Every consecutive pair of the sequence is a hop. *)
Fixpoint hops (b : Board) (l : list Pos) : Prop :=
  match l with
  | x :: ((y :: _) as tl) => hop b x y /\ hops b tl
  | _ => True
  end.

(** *** Invariants of the resolver

    [root] is the piece a call was made for, [vpos0] and [vpcs0] the shared
    sets when the call started. *)

(** Why a key may be in the accessible set: it is an occupied raw candidate
    square of a linked piece, or a raw candidate square of a linked piece
    that does not stand on the origin's square. *)
Definition accSound (b : Board) (origin root : Piece) (k : Pos) : Prop :=
  (exists t, linked b root t /\ In k (getAvailableSquares t)
             /\ cellAt b k <> None)
  \/ (exists u, linked b root u /\ piece_key u <> piece_key origin
                /\ In k (getAvailableSquares u)).

Record Sound (b : Board) (origin root : Piece)
    (vpos0 vpcs0 acc vpos vpcs : list Pos) : Prop := mkSound {
  s_vpos : incl vpos0 vpos;
  s_vpcs : incl vpcs0 vpcs;
  s_linked : forall k, In k vpcs ->
      In k vpcs0 \/ exists t, cellAt b k = Some t /\ linked b root t;
  s_acc : forall k, In k acc -> accSound b origin root k;
  s_harv : forall k, In k vpos -> In k vpos0 \/ In k acc;
  s_nd_acc : NoDup acc;
  s_nd_vpos : NoDup vpos0 -> NoDup vpos;
  s_nd_vpcs : NoDup vpcs0 -> NoDup vpcs
}.

(** The three loops have done their work for the piece [t]. *)
Definition served (b : Board) (origin : Piece) (acc vpos vpcs : list Pos)
    (t : Piece) : Prop :=
  (forall u, link b t u ->
     In (piece_key u) vpcs \/ piece_key u = piece_key origin)
  /\ (forall c, In c (getAvailableSquares t) -> cellAt b c <> None -> In c acc)
  /\ (forall u c, link b t u -> piece_key u <> piece_key origin ->
        In c (getAvailableSquares u) -> In c vpos).

(** Every piece visited since the call started, except on the keys [skip],
    has been served. *)
Definition Complete (b : Board) (origin : Piece) (skip : Pos -> Prop)
    (vpcs0 acc vpos vpcs : list Pos) : Prop :=
  forall k t, In k vpcs -> ~ In k vpcs0 -> ~ skip k ->
    cellAt b k = Some t -> served b origin acc vpos vpcs t.

Definition Post (b : Board) (origin root : Piece) (vpos0 vpcs0 : list Pos)
    (r : Resolved) : Prop :=
  Sound b origin root vpos0 vpcs0
    (accessibleSquares r) (visitedPositions r) (visitedPieces r)
  /\ In (piece_key root) (visitedPieces r)
  /\ Complete b origin (fun _ => False) vpcs0
       (accessibleSquares r) (visitedPositions r) (visitedPieces r).

(** What the chain rule makes accessible from [s]: the occupied raw
    candidate squares of [s] itself, and every raw candidate square of a
    linked piece other than [s]. *)
Definition chainAccessible (b : Board) (s : Piece) (k : Pos) : Prop :=
  (In k (getAvailableSquares s) /\ cellAt b k <> None)
  \/ (exists t, linked b s t /\ t <> s /\ In k (getAvailableSquares t)).

(** *** Invariants of the path finder *)

(** The pieces considered as owners of a hop into [k]: the first-step set
    for the destination [dest] itself, every accessible piece otherwise. *)
Definition considerOf (firstStep pieces : list Piece) (dest k : Pos)
  : list Piece :=
  if pos_eqb k dest then firstStep else pieces.

(** [rpath] is a queue entry's path read backwards, from its last position
    [pos] to the destination. *)
Inductive trail (firstStep pieces : list Piece) (dest : Pos)
  : Pos -> list Pos -> Prop :=
| trail_start : trail firstStep pieces dest dest [dest]
| trail_step : forall pos rpath p,
    trail firstStep pieces dest pos rpath ->
    In p (considerOf firstStep pieces dest pos) ->
    In pos (getAvailableSquares p) ->
    piece_key p <> dest ->
    trail firstStep pieces dest (piece_key p) (piece_key p :: rpath).

(** The returned sequence, from the selected piece to the destination:
    each position is followed by a raw candidate square of the piece
    standing on it. *)
Fixpoint chain (b : Board) (l : list Pos) : Prop :=
  match l with
  | y :: ((x :: _) as tl) => hop b x y /\ chain b tl
  | _ => True
  end.

Record QInv (s : Piece) (firstStep pieces : list Piece) (dest : Pos)
    (queue : list (Pos * list Pos)) (visited : list Pos) : Prop := mkQInv {
  q_dest : In dest visited;
  q_items : forall pos path, In (pos, path) queue ->
      In pos visited /\ trail firstStep pieces dest pos (rev path);
  q_black : forall k, In k visited -> ~ In k (map fst queue) ->
      k <> piece_key s
      /\ forall p, In p (considerOf firstStep pieces dest k) ->
           In k (getAvailableSquares p) -> In (piece_key p) visited
}.

(** The accessible pieces whose key the search has not reached yet. *)
Definition pending (pieces : list Piece) (visited : list Pos) : nat :=
  List.length (filter (fun p => negb (mem (piece_key p) visited)) pieces).

(** A processing order other than the source's: last found, first
    processed. *)
Definition reverseOrder : ProcessingOrder :=
  {| recurseOrder := fun _ l => rev l; harvestOrder := fun _ l => rev l |}.

(** ** The turn engine

    Pieces are mutable objects shared by the piece collection, the grid
    and the selection.  The collection [pieces] is the store; the grid and
    the selection hold references, which are the ids of the pieces. *)

Definition Grid : Type := list (list (option Z)).

Record Game : Type := mkGame {
  pieces : list Piece;
  board : Grid;
  selectedPiece : option Z;
  currentPlayer : Z;
  rotationChances : Z;
  playerScores : Z * Z;            (* playerScores[1], playerScores[2] *)
  gameOver : bool;
  highlightedPositions : list Pos;
  piecesAreAnimating : bool;
  animatingPieces : list Z
}.

Definition findPiece (id : Z) (ps : list Piece) : option Piece :=
  find (fun p => piece_id p =? id) ps.

(** A mutation of the object with the given id. *)
Definition updatePiece (id : Z) (f : Piece -> Piece) (ps : list Piece)
  : list Piece :=
  map (fun p => if piece_id p =? id then f p else p) ps.

Definition emptyGrid : Grid :=
  repeat (repeat None (Z.to_nat BOARD_WIDTH)) (Z.to_nat BOARD_HEIGHT).

(** [board[y][x] = v] for a square of the grid (the program writes nowhere
    else; a write outside the grid is left out of the embedding). *)
Definition gridWrite (g : Grid) (x y : Z) (v : option Z) : Grid :=
  match nth_js g y with
  | Some row =>
      match nth_js row x with
      | Some _ => setNth g (Z.to_nat y) (setNth row (Z.to_nat x) v)
      | None => g
      end
  | None => g
  end.

(** [board[y][x]] for a square of the grid (the turn engine reads at the
    tapped square and at the coordinates of pieces). *)
Definition gridRead (g : Grid) (x y : Z) : option Z :=
  match nth_js g y with
  | Some row => match nth_js row x with Some c => c | None => None end
  | None => None
  end.

(** The grid as the resolver and the path finder see it. *)
Definition viewBoard (ps : list Piece) (g : Grid) : Board :=
  map (map (fun c => match c with
                     | Some id => findPiece id ps
                     | None => None
                     end)) g.

(** [rebuildBoard]. *)
Definition rebuildBoard (ps : list Piece) : Grid :=
  fold_left (fun g p => gridWrite g (piece_x p) (piece_y p) (Some (piece_id p)))
    ps emptyGrid.

Definition canBeSelected (p : Piece) (currPlayer : Z) : bool :=
  (player p =? currPlayer) && negb (movedLastTurn p)
  && negb (rotatedThisTurn p).

Definition setFlags (moved rotated : bool) (p : Piece) : Piece :=
  {| piece_id := piece_id p; piece_x := piece_x p; piece_y := piece_y p;
     piece_type := piece_type p; player := player p; rotation := rotation p;
     movedLastTurn := moved; rotatedThisTurn := rotated;
     movementPath := movementPath p; isMoving := isMoving p |}.

Definition otherPlayer (p : Z) : Z := if p =? 1 then 2 else 1.

(** The flag loop of [endTurn] (and of [applyAction]). *)
Definition resetFlags (newPlayer : Z) (ps : list Piece) : list Piece :=
  map (fun p =>
         if player p =? newPlayer then setFlags false false p
         else if movedLastTurn p then setFlags false (rotatedThisTurn p) p
         else p) ps.

Definition endTurn (g : Game) : Game :=
  let cp := if currentPlayer g =? 1 then 2 else 1 in
  {| pieces := resetFlags cp (pieces g); board := board g;
     selectedPiece := selectedPiece g; currentPlayer := cp;
     rotationChances := 2; playerScores := playerScores g;
     gameOver := gameOver g;
     highlightedPositions := highlightedPositions g;
     piecesAreAnimating := piecesAreAnimating g;
     animatingPieces := animatingPieces g |}.

Definition startMoving (path : list Pos) (p : Piece) : Piece :=
  {| piece_id := piece_id p; piece_x := piece_x p; piece_y := piece_y p;
     piece_type := piece_type p; player := player p; rotation := rotation p;
     movedLastTurn := movedLastTurn p; rotatedThisTurn := rotatedThisTurn p;
     movementPath := path; isMoving := true |}.

(** The block that starts a move or a swap, once the path is found: the
    same statements in [onPointerDown] (for the selected piece) and in
    [thinkAndMove] (for the piece the bot chose). *)
Definition commitMove (g : Game) (sel : Piece) (sq : Pos) (path : list Pos)
  : Game :=
  let sid := piece_id sel in
  match gridRead (board g) (fst sq) (snd sq) with
  | None =>
      (* Move only *)
      {| pieces := updatePiece sid (startMoving path) (pieces g);
         board := gridWrite (board g) (piece_x sel) (piece_y sel) None;
         selectedPiece := None;
         currentPlayer := currentPlayer g;
         rotationChances := rotationChances g;
         playerScores := playerScores g;
         gameOver := gameOver g;
         highlightedPositions := [];
         piecesAreAnimating := true;
         animatingPieces := [sid] |}
  | Some tid =>
      (* Swap *)
      let tpos :=
        match findPiece tid (pieces g) with
        | Some t => (piece_x t, piece_y t)
        | None => sq
        end in
      let ps1 := updatePiece sid (startMoving path) (pieces g) in
      let ps2 :=
        updatePiece tid
          (startMoving [tpos; (piece_x sel, piece_y sel)]) ps1 in
      {| pieces := ps2;
         board :=
           gridWrite
             (gridWrite (board g) (piece_x sel) (piece_y sel) (Some tid))
             (fst tpos) (snd tpos) None;
         selectedPiece := None;
         currentPlayer := currentPlayer g;
         rotationChances := rotationChances g;
         playerScores := playerScores g;
         gameOver := gameOver g;
         highlightedPositions := [];
         piecesAreAnimating := true;
         animatingPieces := [sid; tid] |}
  end.

Definition BOT_PLAYER : Z := 2.

Definition deselect (g : Game) : Game :=
  {| pieces := pieces g; board := board g; selectedPiece := None;
     currentPlayer := currentPlayer g;
     rotationChances := rotationChances g; playerScores := playerScores g;
     gameOver := gameOver g; highlightedPositions := [];
     piecesAreAnimating := piecesAreAnimating g;
     animatingPieces := animatingPieces g |}.

(** [onPointerDown] for a tap on the square [sq] of the grid while a piece
    is selected, outside rotate mode and while the bot is not thinking.
    [highlightedPositions] is filled by the presentation layer. *)
Definition onPointerDown_selected (g : Game) (sq : Pos) : Outcome Game :=
  if gameOver g then Done g
  else if currentPlayer g =? BOT_PLAYER then Done g
  else if piecesAreAnimating g then Done g
  else
    match selectedPiece g with
    | None => Done g
    | Some sid =>
        match findPiece sid (pieces g) with
        | None => Done g
        | Some sel =>
            if (fst sq =? piece_x sel) && (snd sq =? piece_y sel)
            then Done (deselect g)
            else if mem (keyXY (fst sq) (snd sq)) (highlightedPositions g)
            then
              path <- findMovementPathForBoard sel sq
                        (viewBoard (pieces g) (board g)) ;;
              match path with
              | Some path => Done (commitMove g sel sq path)
              | None => Done g
              end
            else Done g
        end
    end.

(** [Piece.update] in the frame in which a moving piece finishes the last
    segment of its path: it takes the coordinates of the last position (a
    path in use is never empty).  The frames before only change the drawing
    position; the animation of a rotation is [turnPiece], further down. *)
Definition arrive (p : Piece) : Piece :=
  if isMoving p then
    let lastPos := last (movementPath p) (piece_x p, piece_y p) in
    {| piece_id := piece_id p; piece_x := fst lastPos; piece_y := snd lastPos;
       piece_type := piece_type p; player := player p; rotation := rotation p;
       movedLastTurn := movedLastTurn p; rotatedThisTurn := rotatedThisTurn p;
       movementPath := []; isMoving := false |}
  else p.

Definition promotes (p : Piece) : bool :=
  let t := strip_e (piece_type p) in
  let promoRow := if player p =? 1 then 0 else BOARD_HEIGHT - 1 in
  ((t =? "PR")%string || (t =? "PL")%string) && (piece_y p =? promoRow).

(** [playerScores[pl] += 1], for the players 1 and 2. *)
Definition addScore (scores : Z * Z) (pl : Z) : Z * Z :=
  if pl =? 1 then (fst scores + 1, snd scores)
  else (fst scores, snd scores + 1).

Fixpoint removeNth {A : Type} (i : nat) (l : list A) : list A :=
  match l, i with
  | [], _ => []
  | _ :: t, O => t
  | h :: t, S j => h :: removeNth j t
  end.

(** The promotion loop of [update]:
    [for (let i = pieces.length - 1; i >= 0; i--)], with [n = i + 1]. *)
Fixpoint promotionLoop (n : nat) (ps : list Piece) (g : Grid)
    (scores : Z * Z) : list Piece * Grid * (Z * Z) :=
  match n with
  | O => (ps, g, scores)
  | S i =>
      match nth_error ps i with
      | Some p =>
          if promotes p
          then promotionLoop i (removeNth i ps)
                 (gridWrite g (piece_x p) (piece_y p) None)
                 (addScore scores (player p))
          else promotionLoop i ps g scores
      | None => promotionLoop i ps g scores
      end
  end.

(** [update] in the frame in which the moving pieces arrive: the pieces are
    updated, then the end of the movement is handled (the progressive
    highlighting and the start of the bot's turn are left out). *)
Definition update (g : Game) : Game :=
  let ps := map arrive (pieces g) in
  let moving id :=
    match findPiece id ps with Some p => isMoving p | None => false end in
  if piecesAreAnimating g
     && forallb (fun id => negb (moving id)) (animatingPieces g)
  then
    let '(ps', grid, scores) :=
      promotionLoop (List.length ps) ps (rebuildBoard ps) (playerScores g) in
    let over := (6 <=? fst scores) || (6 <=? snd scores) in
    let g' :=
      {| pieces := ps'; board := grid; selectedPiece := selectedPiece g;
         currentPlayer := currentPlayer g;
         rotationChances := rotationChances g; playerScores := scores;
         gameOver := gameOver g || over;
         highlightedPositions := highlightedPositions g;
         piecesAreAnimating := false; animatingPieces := [] |} in
    if negb (gameOver g') then endTurn g' else g'
  else
    {| pieces := ps; board := board g; selectedPiece := selectedPiece g;
       currentPlayer := currentPlayer g;
       rotationChances := rotationChances g; playerScores := playerScores g;
       gameOver := gameOver g;
       highlightedPositions := highlightedPositions g;
       piecesAreAnimating := piecesAreAnimating g;
       animatingPieces := animatingPieces g |}.

(** ** The bot's simulation of a turn *)

Record State : Type := mkState {
  st_pieces : list Piece;
  st_board : Grid;
  st_idMap : list Z;               (* the keys of [idMap] *)
  st_currentPlayer : Z;
  st_playerScores : Z * Z;
  st_gameOver : bool
}.

Record Action : Type := mkAction {
  rotations : list (Z * Z);        (* {id, times} *)
  move_id : Z;
  move_dest : Pos
}.

(** [state.idMap.get(id)]. *)
Definition idMap_get (st : State) (id : Z) : option Piece :=
  if existsb (Z.eqb id) (st_idMap st) then findPiece id (st_pieces st)
  else None.

Definition canRotateType (type : string) : bool :=
  let t := strip_e type in
  (t =? "DP")%string || (t =? "DT")%string || (t =? "DN")%string
  || (t =? "C")%string.

Definition rotateOnce (p : Piece) : Piece :=
  {| piece_id := piece_id p; piece_x := piece_x p; piece_y := piece_y p;
     piece_type := piece_type p; player := player p;
     rotation := Z.rem (rotation p - 90 + 360) 360;
     movedLastTurn := movedLastTurn p; rotatedThisTurn := rotatedThisTurn p;
     movementPath := movementPath p; isMoving := isMoving p |}.

Fixpoint iterate {A : Type} (n : nat) (f : A -> A) (a : A) : A :=
  match n with
  | O => a
  | S m => iterate m f (f a)
  end.

(** The rotation loop of [applyAction]. *)
Fixpoint applyRotations (idMap : list Z) (rs : list (Z * Z)) (chances : Z)
    (ps : list Piece) : list Piece :=
  match rs with
  | [] => ps
  | (id, n) :: rest =>
      if chances <=? 0 then ps
      else
        let times := Z.min n chances in
        match (if existsb (Z.eqb id) idMap then findPiece id ps else None) with
        | Some p =>
            if canRotateType (piece_type p)
            then applyRotations idMap rest (chances - Z.max times 0)
                   (updatePiece id (iterate (Z.to_nat times) rotateOnce) ps)
            else applyRotations idMap rest chances ps
        | None => applyRotations idMap rest chances ps
        end
  end.

Definition moveTo (x y : Z) (p : Piece) : Piece :=
  {| piece_id := piece_id p; piece_x := x; piece_y := y;
     piece_type := piece_type p; player := player p; rotation := rotation p;
     movedLastTurn := movedLastTurn p; rotatedThisTurn := rotatedThisTurn p;
     movementPath := movementPath p; isMoving := isMoving p |}.

(** [applyAction]. *)
Definition applyAction (st : State) (action : Action) : State :=
  let ps0 := applyRotations (st_idMap st) (rotations action) 2 (st_pieces st) in
  let st0 := {| st_pieces := ps0; st_board := st_board st;
                st_idMap := st_idMap st;
                st_currentPlayer := st_currentPlayer st;
                st_playerScores := st_playerScores st;
                st_gameOver := st_gameOver st |} in
  match idMap_get st0 (move_id action) with
  | None => st0
  | Some sel =>
      let sid := piece_id sel in
      let dest := move_dest action in
      let target := gridRead (st_board st) (fst dest) (snd dest) in
      (* Remove origin *)
      let g1 := gridWrite (st_board st) (piece_x sel) (piece_y sel) None in
      let '(ps1, g2) :=
        match target with
        | None =>
            (updatePiece sid (moveTo (fst dest) (snd dest)) ps0,
             gridWrite g1 (fst dest) (snd dest) (Some sid))
        | Some tid =>
            let ox := piece_x sel in
            let oy := piece_y sel in
            (updatePiece tid (moveTo ox oy)
               (updatePiece sid (moveTo (fst dest) (snd dest)) ps0),
             gridWrite (gridWrite g1 (fst dest) (snd dest) (Some sid))
               ox oy (Some tid))
        end in
      (* Promotion check for moved piece *)
      let '(ps2, g3, ids, scores) :=
        match findPiece sid ps1 with
        | Some sel' =>
            if promotes sel'
            then (filter (fun pp => negb (piece_id pp =? sid)) ps1,
                  gridWrite g2 (piece_x sel') (piece_y sel') None,
                  filter (fun i => negb (i =? sid)) (st_idMap st),
                  addScore (st_playerScores st) (player sel'))
            else (ps1, g2, st_idMap st, st_playerScores st)
        | None => (ps1, g2, st_idMap st, st_playerScores st)
        end in
      (* End turn *)
      let cp := otherPlayer (st_currentPlayer st) in
      {| st_pieces := resetFlags cp ps2; st_board := g3; st_idMap := ids;
         st_currentPlayer := cp; st_playerScores := scores;
         st_gameOver :=
           st_gameOver st || (6 <=? fst scores) || (6 <=? snd scores) |}
  end.

(** [snapshotState], on the rule state. *)
Definition snapshotState (g : Game) : State :=
  {| st_pieces := pieces g; st_board := rebuildBoard (pieces g);
     st_idMap := map piece_id (pieces g);
     st_currentPlayer := currentPlayer g;
     st_playerScores := playerScores g; st_gameOver := gameOver g |}.

(** *** Vocabulary of the turn rules *)

(** The points the promotion loop gives to player 1 and to player 2 for the
    pieces of [ps]. *)
Definition gain1 (ps : list Piece) : Z :=
  Z.of_nat (List.length (filter (fun p => promotes p && (player p =? 1)) ps)).

Definition gain2 (ps : list Piece) : Z :=
  Z.of_nat
    (List.length (filter (fun p => promotes p && negb (player p =? 1)) ps)).

(** The statement of the promotion invariant for one committed move:
    between [before] and [after] exactly the moved piece left the collection
    and exactly the mover's score grew, by one. *)
Definition exactlyOnePromoted (before after : Game) (mover movedId : Z)
  : Prop :=
  (List.length (pieces after) + 1 = List.length (pieces before))%nat
  /\ ~ In movedId (map piece_id (pieces after))
  /\ playerScores after = addScore (playerScores before) mover.

(** A checker for [wf_board], for concrete grids. *)
Definition wf_boardb (b : Board) : bool :=
  (List.length b =? Z.to_nat BOARD_HEIGHT)%nat
  && forallb (fun row => (List.length row =? Z.to_nat BOARD_WIDTH)%nat) b
  && forallb (fun k => match cellAt b k with
                       | Some p => pos_eqb (piece_key p) k
                       | None => true
                       end) allSquares.

(** *** Sample positions *)

Definition sampleBoard : Board := boardOf initPieces.

(** The piece in the corner of the starting layout. *)
Definition sampleSelected : Piece := newPiece 1 0 7 "DP" 1.

(** Scenario B: a friendly "PR" on the square in front of a "DP"; the
    square to the left of the "PR" is empty and is no raw candidate square
    of the "DP". *)
Definition chainA : Piece := newPiece 1 3 4 "DP" 1.
Definition chainB : Piece := newPiece 2 3 3 "PR" 1.
Definition chainBoard : Board := boardOf [chainA; chainB].

Definition gameOf (ps : list Piece) (selected : option Z) (cp : Z)
    (highlighted : list Pos) : Game :=
  {| pieces := ps; board := rebuildBoard ps; selectedPiece := selected;
     currentPlayer := cp; rotationChances := 2; playerScores := (0, 0);
     gameOver := false; highlightedPositions := highlighted;
     piecesAreAnimating := false; animatingPieces := [] |}.

(** The starting layout, the corner piece selected, the square (2, 5)
    highlighted. *)
Definition openingGame : Game := gameOf initPieces (Some 1) 1 [(2, 5)].

(** A chain from player 1's back row to the far row: the "PL" on (1, 7) is
    selected and can swap with the enemy "PLe" on (2, 0). *)
Definition promoPieces : list Piece :=
  [ newPiece 1 1 7 "PL" 1; newPiece 2 2 7 "DP" 1; newPiece 3 2 5 "DP" 1;
    newPiece 4 2 3 "DP" 1; newPiece 5 2 1 "DP" 1; newPiece 6 2 0 "PLe" 2 ].

Definition promoGame : Game := gameOf promoPieces (Some 1) 1 [(2, 0)].

(** Player 1's "DP" on (3, 7) selected, an enemy "PRe" on the square in
    front of it. *)
Definition partnerPieces : list Piece :=
  [ newPiece 1 3 7 "DP" 1; newPiece 2 3 6 "PRe" 2 ].

Definition partnerGame : Game := gameOf partnerPieces (Some 1) 1 [(3, 6)].

(** The sample games after the tap that starts the move. *)
Definition committed (g : Game) (sq : Pos) : Game :=
  match onPointerDown_selected g sq with
  | Done g1 => g1
  | _ => g
  end.

Definition openingCommitted : Game := committed openingGame (2, 5).
Definition promoCommitted : Game := committed promoGame (2, 0).
Definition partnerCommitted : Game := committed partnerGame (3, 6).

(** What the examples observe of a piece. *)
Definition observe (id : Z) (g : Game) : option (Pos * bool) :=
  match findPiece id (pieces g) with
  | Some p => Some ((piece_x p, piece_y p), movedLastTurn p)
  | None => None
  end.

(** ** The highlight layers

    [getAccessibleHighlightLayers] computes what the user may tap after a
    selection, layer by layer; [update] reveals one layer at a time into
    [highlightedPositions].  The sets of pieces are [Set]s of objects, as in
    the path finder. *)

(** The first loop for the selected piece: its raw candidate squares that
    are occupied. *)
Fixpoint occupiedOnly (b : Board) (check : list Pos) : Outcome (list Pos) :=
  match check with
  | [] => Done []
  | pos :: rest =>
      cell <- boardRead b (fst pos) (snd pos) ;;
      available <- occupiedOnly b rest ;;
      Done (match cell with
            | Some _ => pos :: available
            | None => available
            end)
  end.

(** The [for (const pos of available)] loop of one piece of the layer. *)
Fixpoint layerScan (selected : Piece) (b : Board) (visitedPositions : list Pos)
    (available : list Pos) (emptyLayer occupiedLayer : list Pos)
    (nextLayerPieces visitedPieces : list Piece)
  : Outcome (list Pos * list Pos * list Piece * list Piece) :=
  match available with
  | [] => Done (emptyLayer, occupiedLayer, nextLayerPieces, visitedPieces)
  | pos :: rest =>
      if negb (isValidPosition (fst pos) (snd pos))
      then layerScan selected b visitedPositions rest emptyLayer occupiedLayer
             nextLayerPieces visitedPieces
      else
        let key := keyXY (fst pos) (snd pos) in
        if mem key visitedPositions
        then layerScan selected b visitedPositions rest emptyLayer
               occupiedLayer nextLayerPieces visitedPieces
        else
          target <- boardRead b (fst pos) (snd pos) ;;
          match target with
          | None =>
              layerScan selected b visitedPositions rest (add key emptyLayer)
                occupiedLayer nextLayerPieces visitedPieces
          | Some t =>
              if (player t =? player selected)
                 && negb (existsb (piece_eqb t) visitedPieces)
              then layerScan selected b visitedPositions rest emptyLayer
                     (add key occupiedLayer) (addPiece t nextLayerPieces)
                     (addPiece t visitedPieces)
              else layerScan selected b visitedPositions rest emptyLayer
                     (add key occupiedLayer) nextLayerPieces visitedPieces
          end
  end.

(** The [for (const piece of currentLayerPieces)] loop. *)
Fixpoint layerPieces (selected : Piece) (b : Board)
    (visitedPositions : list Pos) (currentLayerPieces : list Piece)
    (emptyLayer occupiedLayer : list Pos)
    (nextLayerPieces visitedPieces : list Piece)
  : Outcome (list Pos * list Pos * list Piece * list Piece) :=
  match currentLayerPieces with
  | [] => Done (emptyLayer, occupiedLayer, nextLayerPieces, visitedPieces)
  | piece :: rest =>
      available <-
        (if piece_eqb piece selected
         then occupiedOnly b (getAvailableSquares piece)
         else Done (getAvailableSquares piece)) ;;
      '(e, o, n, v) <-
        layerScan selected b visitedPositions available emptyLayer
          occupiedLayer nextLayerPieces visitedPieces ;;
      layerPieces selected b visitedPositions rest e o n v
  end.

Definition Layer : Type := (list Pos * list Pos)%type.

(** The [while (currentLayerPieces.size > 0)] loop. *)
Fixpoint layersLoop (fuel : nat) (selected : Piece) (b : Board)
    (currentLayerPieces visitedPieces : list Piece)
    (visitedPositions : list Pos) (layers : list Layer)
  : Outcome (list Layer) :=
  match currentLayerPieces with
  | [] => Done layers
  | _ :: _ =>
      match fuel with
      | O => OutOfFuel
      | S fuel' =>
          '(emptyLayer, occupiedLayer, nextLayerPieces, visitedPieces') <-
            layerPieces selected b visitedPositions currentLayerPieces
              [] [] [] visitedPieces ;;
          let layers' :=
            if (0 <? Z.of_nat (List.length emptyLayer))
               || (0 <? Z.of_nat (List.length occupiedLayer))
            then layers ++ [(emptyLayer, occupiedLayer)] else layers in
          let visitedPositions' :=
            fold_left (fun a k => add k a) occupiedLayer
              (fold_left (fun a k => add k a) emptyLayer visitedPositions) in
          layersLoop fuel' selected b nextLayerPieces visitedPieces'
            visitedPositions' layers'
      end
  end.

(** [getAccessibleHighlightLayers], reading the grid [b].  A layer with a
    piece in it brings a piece that was not visited before, hence the
    fuel. *)
Definition getAccessibleHighlightLayers (selected : Piece) (b : Board)
  : Outcome (list Layer) :=
  layersLoop resolverFuel selected b [selected] (addPiece selected [])
    [] [].

(** The layer reveal of [update], in a frame in which the layer delay has
    elapsed: the sets [emptyAccessibleSquares], [occupiedAccessibleSquares]
    and [highlightedPositions] and the index [currentHighlightLayer]. *)
Record Highlights : Type := mkHighlights {
  emptyAccessibleSquares : list Pos;
  occupiedAccessibleSquares : list Pos;
  highlighted : list Pos;
  currentHighlightLayer : nat
}.

Definition noHighlights : Highlights :=
  {| emptyAccessibleSquares := []; occupiedAccessibleSquares := [];
     highlighted := []; currentHighlightLayer := 0 |}.

Definition revealLayer (layers : list Layer) (h : Highlights) : Highlights :=
  match nth_error layers (currentHighlightLayer h) with
  | Some (emptyLayer, occupiedLayer) =>
      {| emptyAccessibleSquares :=
           fold_left (fun a k => add k a) emptyLayer
             (emptyAccessibleSquares h);
         occupiedAccessibleSquares :=
           fold_left (fun a k => add k a) occupiedLayer
             (occupiedAccessibleSquares h);
         highlighted :=
           fold_left (fun a k => add k a) occupiedLayer
             (fold_left (fun a k => add k a) emptyLayer (highlighted h));
         currentHighlightLayer := S (currentHighlightLayer h) |}
  | None => h
  end.

(** What a layer offers: a piece other than the selected one offers its raw
    candidate squares, the selected piece the occupied ones. *)
Definition offers (b : Board) (s p : Piece) (pos : Pos) : Prop :=
  In pos (getAvailableSquares p) /\ (p = s -> cellAt b pos <> None).

(** The state of one layer: [base] are the pieces visited when the layer
    started, [vpos] the positions of the layers before. *)
Record LInv (b : Board) (s : Piece) (vpos : list Pos) (base : list Piece)
    (e o : list Pos) (next visited : list Piece) : Prop := mkLInv {
  l_vis : visited = base ++ next;
  l_nd : NoDup visited;
  l_linked : forall p, In p visited -> linked b s p;
  l_sound : forall k, In k e \/ In k o ->
      (exists p, linked b s p /\ offers b s p k) /\ ~ In k vpos;
  l_empty : forall k, In k e -> cellAt b k = None;
  l_occ : forall k, In k o -> cellAt b k <> None;
  l_owner : forall k u, In k vpos \/ In k e \/ In k o ->
      cellAt b k = Some u -> player u = player s -> In u visited;
  l_nde : NoDup e;
  l_ndo : NoDup o
}.

(** The state between two layers: [done] are the pieces of the layers
    before, [current] the pieces of the next one. *)
Record OInv (b : Board) (s : Piece) (done current : list Piece)
    (vpos : list Pos) (layers : list Layer) : Prop := mkOInv {
  o_nd : NoDup (done ++ current);
  o_self : In s (done ++ current);
  o_linked : forall p, In p (done ++ current) -> linked b s p;
  o_sound : forall k, In k vpos -> exists p, linked b s p /\ offers b s p k;
  o_owner : forall k u, In k vpos -> cellAt b k = Some u ->
      player u = player s -> In u (done ++ current);
  o_closed : forall p k, In p done -> offers b s p k -> In k vpos;
  o_layers : forall k, In k vpos <->
      exists l, In l layers /\ (In k (fst l) \/ In k (snd l));
  o_kinds : forall l, In l layers ->
      (forall k, In k (fst l) -> cellAt b k = None)
      /\ (forall k, In k (snd l) -> cellAt b k <> None)
      /\ (fst l <> [] \/ snd l <> [])
}.

(** *** Vocabulary of the grid invariant *)

(** The pieces have distinct ids and stand on distinct squares of the
    grid. *)
Definition wellPlaced (ps : list Piece) : Prop :=
  NoDup (map piece_id ps) /\ NoDup (map piece_key ps)
  /\ forall p, In p ps -> isValidPosition (piece_x p) (piece_y p) = true.

(** The grid of references has [BOARD_HEIGHT] rows of [BOARD_WIDTH]
    cells. *)
Definition shapedGrid (g : Grid) : Prop :=
  List.length g = Z.to_nat BOARD_HEIGHT /\
  Forall (fun row => List.length row = Z.to_nat BOARD_WIDTH) g.

(** The piece with the given id stands on the given square. *)
Definition stands (ps : list Piece) (id : Z) (k : Pos) : Prop :=
  exists p, In p ps /\ piece_id p = id /\ piece_key p = k.

(** The exchange of two squares. *)
Definition exchange (a b k : Pos) : Pos :=
  if pos_eqb k a then b else if pos_eqb k b then a else k.

(** The game between two moves: the pieces are well placed and at rest, and
    the grid is the grid of the pieces. *)
Definition coherentGame (g : Game) : Prop :=
  wellPlaced (pieces g)
  /\ board g = rebuildBoard (pieces g)
  /\ piecesAreAnimating g = false
  /\ forall p, In p (pieces g) -> isMoving p = false.

(** *** Vocabulary of the rotation rules *)

(** [p.rotation = r]. *)
Definition withRotation (r : Z) (p : Piece) : Piece :=
  {| piece_id := piece_id p; piece_x := piece_x p; piece_y := piece_y p;
     piece_type := piece_type p; player := player p; rotation := r;
     movedLastTurn := movedLastTurn p; rotatedThisTurn := rotatedThisTurn p;
     movementPath := movementPath p; isMoving := isMoving p |}.

(** The cache of a piece after calls of [getAvailableSquares] at the given
    rotations, one after the other. *)
Fixpoint cacheAfter (p : Piece) (rots : list Z) (cache : DirsCache)
  : DirsCache :=
  match rots with
  | [] => cache
  | r :: rest =>
      cacheAfter p rest
        (snd (getAvailableSquares_cached (withRotation r p) cache))
  end.

(** The rotation is one of the four right angles. *)
Definition rightAngle (p : Piece) : Prop := In (rotation p) [0; 90; 180; 270].

(** ** The bot's evaluation and move generation

    The evaluation and the move score measure distances to the centre
    (3, 3.5) of the grid: their values are multiples of one half, which
    JavaScript numbers represent and add exactly; they are rationals
    here. *)

(** [playerScores[pl]], for the players 1 and 2. *)
Definition scoreOf (scores : Z * Z) (pl : Z) : Z :=
  if pl =? 1 then fst scores else snd scores.

Definition baseVal (t : string) : Z :=
  if (t =? "C")%string then 40
  else if (t =? "DN")%string || (t =? "DT")%string || (t =? "DP")%string
  then 30
  else if (t =? "PX")%string then 22
  else 18.

(** [state.board[y][x]] for a square of the grid: the piece the cell refers
    to. *)
Definition stateCell (st : State) (x y : Z) : option Piece :=
  match gridRead (st_board st) x y with
  | Some id => findPiece id (st_pieces st)
  | None => None
  end.

(** The mobility loop of [evaluateState]. *)
Fixpoint mobilityLoop (st : State) (p : Piece) (av : list Pos)
    (mobile pressure : Z) : Z * Z :=
  match av with
  | [] => (mobile, pressure)
  | sq :: rest =>
      if negb (isValidPosition (fst sq) (snd sq))
      then mobilityLoop st p rest mobile pressure
      else
        match stateCell st (fst sq) (snd sq) with
        | None => mobilityLoop st p rest (mobile + 1) pressure
        | Some target =>
            if negb (player target =? player p)
            then mobilityLoop st p rest (mobile + 1) (pressure + 1)
            else mobilityLoop st p rest (mobile + 1) pressure
        end
  end.

Definition centerX : Q := (inject_Z (BOARD_WIDTH - 1) / 2)%Q.
Definition centerY : Q := (inject_Z (BOARD_HEIGHT - 1) / 2)%Q.

(** The body of the loop over the pieces in [evaluateState]. *)
Definition evalPiece (st : State) (perspectivePlayer : Z) (score : Q)
    (p : Piece) : Q :=
  let t := strip_e (piece_type p) in
  let me : Q := if player p =? perspectivePlayer then 1%Q else (-1)%Q in
  let score1 := (score + me * inject_Z (baseVal t))%Q in
  let score2 :=
    if (t =? "PR")%string || (t =? "PL")%string
    then
      let dist :=
        if player p =? 1 then piece_y p else BOARD_HEIGHT - 1 - piece_y p in
      (score1 + me * inject_Z (40 - dist * 6))%Q
    else score1 in
  let '(mobile, pressure) :=
    mobilityLoop st p (getAvailableSquares p) 0 0 in
  let score3 := (score2 + me * inject_Z (mobile * 2 + pressure * 2))%Q in
  let md :=
    (Qabs (inject_Z (piece_x p) - centerX)
     + Qabs (inject_Z (piece_y p) - centerY))%Q in
  (score3 + me * (8 - md))%Q.

(** [evaluateState]. *)
Definition evaluateState (st : State) (perspectivePlayer : Z) : Q :=
  let opp := otherPlayer perspectivePlayer in
  let mine := scoreOf (st_playerScores st) perspectivePlayer in
  let theirs := scoreOf (st_playerScores st) opp in
  if (6 <=? mine) && (6 <=? theirs) then 0%Q
  else if 6 <=? mine then 100000%Q
  else if 6 <=? theirs then (-100000)%Q
  else
    fold_left (evalPiece st perspectivePlayer) (st_pieces st)
      (0 + inject_Z ((mine - theirs) * 5000))%Q.

(** The score of a move of [generateMovesForState]. *)
Definition moveScore (st : State) (p : Piece) (k : Pos) : Q :=
  let '(x, y) := unkeyXY k in
  let target := stateCell st x y in
  let t := strip_e (piece_type p) in
  let promoRow := if player p =? 1 then 0 else BOARD_HEIGHT - 1 in
  let willPromote :=
    ((t =? "PR")%string || (t =? "PL")%string) && (y =? promoRow) in
  let md := (Qabs (inject_Z x - centerX) + Qabs (inject_Z y - centerY))%Q in
  let score0 := 0%Q in
  let score1 := if willPromote then (score0 + 10000)%Q else score0 in
  let score2 :=
    match target with
    | Some tg =>
        if negb (player tg =? player p) then (score1 + 40)%Q else score1
    | None => score1
    end in
  let score3 := (score2 + (8 - md))%Q in
  if (t =? "PR")%string || (t =? "PL")%string
  then
    let adv := if player p =? 1 then piece_y p - y else y - piece_y p in
    (score3 + inject_Z (adv * 10))%Q
  else score3.

(** A generated move: [{ move: { id, dest }, score }]. *)
Record ScoredMove : Type := mkScoredMove {
  sm_id : Z;
  sm_dest : Pos;
  sm_score : Q
}.

(** The loop over the pieces in [generateMovesForState]. *)
Fixpoint generateMovesLoop (st : State) (ps : list Piece)
    (res : list ScoredMove) : Outcome (list ScoredMove) :=
  match ps with
  | [] => Done res
  | p :: rest =>
      if negb (player p =? st_currentPlayer st)
      then generateMovesLoop st rest res
      else if movedLastTurn p || rotatedThisTurn p
      then generateMovesLoop st rest res
      else
        r <- getAllAccessibleSquaresForBoard p p
               (viewBoard (st_pieces st) (st_board st)) [] [] ;;
        generateMovesLoop st rest
          (res ++ map (fun k =>
                         {| sm_id := piece_id p;
                            sm_dest := (fst (unkeyXY k), snd (unkeyXY k));
                            sm_score := moveScore st p k |})
                    (accessibleSquares r))
  end.

Definition generateMovesForState (st : State) : Outcome (list ScoredMove) :=
  generateMovesLoop st (st_pieces st) [].

(** [moves.sort((A, B) => B.score - A.score)]: the sort is stable, and the
    order of the scores is total, so that the result is the one of any
    stable sort by decreasing score. *)
Fixpoint insertByScore (m : ScoredMove) (l : list ScoredMove)
  : list ScoredMove :=
  match l with
  | [] => [m]
  | h :: t =>
      if Qle_bool (sm_score h) (sm_score m)
      then m :: l
      else h :: insertByScore m t
  end.

Definition sortByScore (l : list ScoredMove) : list ScoredMove :=
  fold_right insertByScore [] l.

(** The moves kept for one rotation plan in [generateTurnActionsLimited]:
    [moves.slice(0, beamWidth)] after the sort. *)
Definition limitedMoves (beamWidth : nat) (moves : list ScoredMove)
  : list ScoredMove :=
  firstn beamWidth (sortByScore moves).

(** The move is a promotion: the piece named by the move is a "PR" or a
    "PL" and the destination is on its owner's far row. *)
Definition promotingMove (st : State) (m : ScoredMove) : Prop :=
  exists p, In p (st_pieces st) /\ piece_id p = sm_id m
            /\ promotes (moveTo (fst (sm_dest m)) (snd (sm_dest m)) p) = true.

(** The current state of the bot's search is coherent. *)
Definition coherentState (st : State) : Prop :=
  wellPlaced (st_pieces st) /\ st_board st = rebuildBoard (st_pieces st).

(** ** The pointer handler

    The rotation state of a piece ([initialRotation], [targetRotation],
    [isRotating]) is kept beside the piece collection, in a table indexed by
    the piece id; a piece without an entry has the values its constructor
    gives.  The two sets that only serve the drawing of the highlights are
    left out. *)

Record Turning : Type := mkTurning {
  initialRotation : Z;
  targetRotation : Z;
  isRotating : bool
}.

Record Ui : Type := mkUi {
  ui_game : Game;
  rotateMode : bool;
  turning : list (Z * Turning);
  accessibleHighlightLayers : list Layer;
  layerIndex : nat;                  (* currentHighlightLayer *)
  highlightingInProgress : bool;
  botThinking : bool                 (* ai.isThinking *)
}.

(** What the hit tests of [onPointerDown] say about a pointer position. *)
Record Pointer : Type := mkPointer {
  inRotateButton : bool;
  inDoneButton : bool;
  inCancelButton : bool;
  aboveUi : bool;                    (* y < boardAreaHeight *)
  square : option Pos                (* pointToSquare(x, y) *)
}.

Definition turningOf (tt : list (Z * Turning)) (id : Z) : Turning :=
  match find (fun e => fst e =? id) tt with
  | Some e => snd e
  | None =>
      {| initialRotation := 0; targetRotation := 0; isRotating := false |}
  end.

(** The selected piece, through the reference. *)
Definition selected (g : Game) : option Piece :=
  match selectedPiece g with
  | Some sid => findPiece sid (pieces g)
  | None => None
  end.

Definition setGame (u : Ui) (g : Game) : Ui :=
  {| ui_game := g; rotateMode := rotateMode u; turning := turning u;
     accessibleHighlightLayers := accessibleHighlightLayers u;
     layerIndex := layerIndex u;
     highlightingInProgress := highlightingInProgress u;
     botThinking := botThinking u |}.

(** The statements that clear the highlights. *)
Definition clearHighlights (g : Game) : Game :=
  {| pieces := pieces g; board := board g; selectedPiece := selectedPiece g;
     currentPlayer := currentPlayer g;
     rotationChances := rotationChances g; playerScores := playerScores g;
     gameOver := gameOver g; highlightedPositions := [];
     piecesAreAnimating := piecesAreAnimating g;
     animatingPieces := animatingPieces g |}.

(** The Rotate button, outside rotate mode, for a piece that may rotate. *)
Definition enterRotateMode (u : Ui) (sel : Piece) : Ui :=
  {| ui_game := clearHighlights (ui_game u);
     rotateMode := true;
     turning :=
       (piece_id sel,
        {| initialRotation := rotation sel; targetRotation := rotation sel;
           isRotating := false |}) :: turning u;
     accessibleHighlightLayers := [];
     layerIndex := 0;
     highlightingInProgress := false;
     botThinking := botThinking u |}.

(** The Done button. *)
Definition doneRotate (u : Ui) : Ui :=
  let g := ui_game u in
  let ps :=
    match selected g with
    | Some sel =>
        updatePiece (piece_id sel) (setFlags (movedLastTurn sel) true)
          (pieces g)
    | None => pieces g
    end in
  {| ui_game :=
       {| pieces := ps; board := board g; selectedPiece := None;
          currentPlayer := currentPlayer g;
          rotationChances := rotationChances g - 1;
          playerScores := playerScores g; gameOver := gameOver g;
          highlightedPositions := [];
          piecesAreAnimating := piecesAreAnimating g;
          animatingPieces := animatingPieces g |};
     rotateMode := false;
     turning := turning u;
     accessibleHighlightLayers := [];
     layerIndex := 0;
     highlightingInProgress := false;
     botThinking := botThinking u |}.

(** The Cancel button: the rotation goes back to the one the piece had when
    rotate mode was entered, and the highlights are computed again. *)
Definition cancelRotate (u : Ui) : Outcome Ui :=
  let g := ui_game u in
  match selected g with
  | Some sel =>
      let t := turningOf (turning u) (piece_id sel) in
      let sel' := withRotation (initialRotation t) sel in
      let ps := updatePiece (piece_id sel)
                  (withRotation (initialRotation t)) (pieces g) in
      layers <- getAccessibleHighlightLayers sel' (viewBoard ps (board g)) ;;
      Done
        {| ui_game :=
             {| pieces := ps; board := board g;
                selectedPiece := selectedPiece g;
                currentPlayer := currentPlayer g;
                rotationChances := rotationChances g;
                playerScores := playerScores g; gameOver := gameOver g;
                highlightedPositions := [];
                piecesAreAnimating := piecesAreAnimating g;
                animatingPieces := animatingPieces g |};
           rotateMode := false;
           turning :=
             (piece_id sel,
              {| initialRotation := initialRotation t;
                 targetRotation := initialRotation t;
                 isRotating := false |}) :: turning u;
           accessibleHighlightLayers := layers;
           layerIndex := 0;
           highlightingInProgress := true;
           botThinking := botThinking u |}
  | None =>
      Done
        {| ui_game := g; rotateMode := false; turning := turning u;
           accessibleHighlightLayers := accessibleHighlightLayers u;
           layerIndex := layerIndex u;
           highlightingInProgress := highlightingInProgress u;
           botThinking := botThinking u |}
  end.

(** [Piece.rotate], for the selected piece. *)
Definition rotateTap (u : Ui) (sel : Piece) : Ui :=
  let t := turningOf (turning u) (piece_id sel) in
  {| ui_game := ui_game u; rotateMode := rotateMode u;
     turning :=
       (piece_id sel,
        {| initialRotation := initialRotation t;
           targetRotation := Z.rem (targetRotation t - 90 + 360) 360;
           isRotating := true |}) :: turning u;
     accessibleHighlightLayers := accessibleHighlightLayers u;
     layerIndex := layerIndex u;
     highlightingInProgress := highlightingInProgress u;
     botThinking := botThinking u |}.

(** The selection of a piece. *)
Definition selectPiece (u : Ui) (clicked : Piece) : Outcome Ui :=
  let g := ui_game u in
  layers <- getAccessibleHighlightLayers clicked
              (viewBoard (pieces g) (board g)) ;;
  Done
    {| ui_game :=
         {| pieces := pieces g; board := board g;
            selectedPiece := Some (piece_id clicked);
            currentPlayer := currentPlayer g;
            rotationChances := rotationChances g;
            playerScores := playerScores g; gameOver := gameOver g;
            highlightedPositions := [];
            piecesAreAnimating := piecesAreAnimating g;
            animatingPieces := animatingPieces g |};
       rotateMode := rotateMode u;
       turning := turning u;
       accessibleHighlightLayers := layers;
       layerIndex := 0;
       highlightingInProgress := true;
       botThinking := botThinking u |}.

(** [onPointerDown]. *)
Definition onPointerDown (u : Ui) (ev : Pointer) : Outcome Ui :=
  let g := ui_game u in
  if gameOver g then Done u
  else if currentPlayer g =? BOT_PLAYER then Done u
  else if botThinking u then Done u
  else if piecesAreAnimating g then Done u
  else if inRotateButton ev then
    if negb (rotateMode u) then
      if 0 <? rotationChances g then
        match selected g with
        | Some sel =>
            if canRotateType (piece_type sel)
               && (player sel =? currentPlayer g)
               && negb (rotatedThisTurn sel)
            then Done (enterRotateMode u sel)
            else Done u
        | None => Done u
        end
      else Done u
    else Done u
  else if rotateMode u then
    if inDoneButton ev then Done (doneRotate u)
    else if inCancelButton ev then cancelRotate u
    else if aboveUi ev then
      match square ev, selected g with
      | Some sq, Some sel =>
          if (fst sq =? piece_x sel) && (snd sq =? piece_y sel)
          then Done (rotateTap u sel)
          else Done u
      | _, _ => Done u
      end
    else Done u
  else if aboveUi ev then
    match square ev with
    | None => Done u
    | Some sq =>
        match selectedPiece g with
        | None =>
            match gridRead (board g) (fst sq) (snd sq) with
            | Some id =>
                match findPiece id (pieces g) with
                | Some clicked =>
                    if canBeSelected clicked (currentPlayer g)
                    then selectPiece u clicked
                    else Done u
                | None => Done u
                end
            | None => Done u
            end
        | Some _ =>
            g1 <- onPointerDown_selected g sq ;;
            match selectedPiece g1 with
            | Some _ => Done (setGame u g1)
            | None =>
                Done
                  {| ui_game := g1; rotateMode := rotateMode u;
                     turning := turning u;
                     accessibleHighlightLayers := [];
                     layerIndex := 0;
                     highlightingInProgress := false;
                     botThinking := botThinking u |}
            end
        end
    end
  else Done u.

(** A sequence of pointer events. *)
Fixpoint pointerEvents (u : Ui) (evs : list Pointer) : Outcome Ui :=
  match evs with
  | [] => Done u
  | ev :: rest => u' <- onPointerDown u ev ;; pointerEvents u' rest
  end.

(** [Piece.update] for the rotation, in the frame in which the rotation
    animation of a piece ends: the piece has its target rotation. *)
Definition settleRotation (tt : list (Z * Turning)) (p : Piece) : Piece :=
  let t := turningOf tt (piece_id p) in
  if isRotating t then withRotation (targetRotation t) p else p.

(** The rule state the handler keeps in bounds. *)
Definition chancesInBounds (u : Ui) : Prop :=
  0 <= rotationChances (ui_game u) <= 2
  /\ (rotateMode u = true ->
      1 <= rotationChances (ui_game u)
      /\ exists sel, selected (ui_game u) = Some sel).

(** One quarter turn of a rotation. *)
Definition quarterTurn (r : Z) : Z := Z.rem (r - 90 + 360) 360.

(** A pointer position on no button. *)
Definition offButtons (ev : Pointer) : Prop :=
  inRotateButton ev = false /\ inDoneButton ev = false
  /\ inCancelButton ev = false.

(** A tap on the square of the selected piece, on no button. *)
Definition tapOn (p : Piece) (ev : Pointer) : Prop :=
  offButtons ev /\ aboveUi ev = true
  /\ square ev = Some (piece_x p, piece_y p).

(** The human player may start rotating the selected piece [sel]. *)
Definition rotatable (u : Ui) (sel : Piece) : Prop :=
  coherentGame (ui_game u)
  /\ gameOver (ui_game u) = false
  /\ currentPlayer (ui_game u) <> BOT_PLAYER
  /\ botThinking u = false
  /\ rotateMode u = false
  /\ selected (ui_game u) = Some sel
  /\ canRotateType (piece_type sel) = true
  /\ player sel = currentPlayer (ui_game u)
  /\ rotatedThisTurn sel = false
  /\ 0 < rotationChances (ui_game u).

(** The handler is in rotate mode for [sel], [taps] quarter turns after the
    Rotate button was used in the state [u]. *)
Definition rotating (u : Ui) (sel : Piece) (taps : nat) (v : Ui) : Prop :=
  ui_game v = clearHighlights (ui_game u)
  /\ rotateMode v = true
  /\ botThinking v = false
  /\ initialRotation (turningOf (turning v) (piece_id sel)) = rotation sel
  /\ targetRotation (turningOf (turning v) (piece_id sel))
     = iterate taps quarterTurn (rotation sel)
  /\ isRotating (turningOf (turning v) (piece_id sel)) = (0 <? Z.of_nat taps).

(** ** The bot's turn

    [computeBestAction] searches against the clock; what it returns is a
    parameter here.  The rest of [thinkAndMove] and the generation of the
    actions from the rotation candidates are embedded; the ranking of the
    rotation candidates, which weighs mobilities with the floating-point
    constant 0.6, is not. *)

(** One step of the rotation loop of [thinkAndMove]. *)
Definition liveRotateOnce (p : Piece) : Piece :=
  setFlags (movedLastTurn p) true (rotateOnce p).

(** The rotation loop of [thinkAndMove]: the pieces and
    [rotationChances]. *)
Fixpoint liveRotations (rs : list (Z * Z)) (chances : Z) (ps : list Piece)
  : list Piece * Z :=
  match rs with
  | [] => (ps, chances)
  | (id, n) :: rest =>
      match findPiece id ps with
      | None => liveRotations rest chances ps
      | Some _ =>
          liveRotations rest
            (iterate (Z.to_nat n) (fun c => Z.max 0 (c - 1)) chances)
            (updatePiece id (iterate (Z.to_nat n) liveRotateOnce) ps)
      end
  end.

Definition setPieces (g : Game) (ps : list Piece) (chances : Z) : Game :=
  {| pieces := ps; board := board g; selectedPiece := selectedPiece g;
     currentPlayer := currentPlayer g; rotationChances := chances;
     playerScores := playerScores g; gameOver := gameOver g;
     highlightedPositions := highlightedPositions g;
     piecesAreAnimating := piecesAreAnimating g;
     animatingPieces := animatingPieces g |}.

(** [thinkAndMove], from the action [best] that the search returned. *)
Definition thinkAndMove (g : Game) (best : Action) : Outcome Game :=
  let '(ps, chances) :=
    match rotations best with
    | [] => (pieces g, rotationChances g)
    | _ :: _ => liveRotations (rotations best) 2 (pieces g)
    end in
  let g0 := setPieces g ps chances in
  match findPiece (move_id best) ps with
  | None => Done g0
  | Some realPiece =>
      path <- findMovementPathForBoard realPiece (move_dest best)
                (viewBoard ps (board g)) ;;
      match path with
      | None => Done g0
      | Some path => Done (commitMove g0 realPiece (move_dest best) path)
      end
  end.

(** The rotation plans of [generateTurnActionsLimited], from the ids of the
    best rotation candidates. *)
Definition rotationPlans (top : list Z) : list (list (Z * Z)) :=
  [[]]
  ++ match top with
     | t0 :: _ => [[(t0, 1)]; [(t0, 2)]]
     | [] => []
     end
  ++ match top with
     | t0 :: t1 :: _ => [[(t1, 1)]; [(t0, 1); (t1, 1)]]
     | _ => []
     end.

(** [clonePiece]. *)
Definition clonePiece (p : Piece) : Piece :=
  {| piece_id := piece_id p; piece_x := piece_x p; piece_y := piece_y p;
     piece_type := piece_type p; player := player p; rotation := rotation p;
     movedLastTurn := movedLastTurn p; rotatedThisTurn := rotatedThisTurn p;
     movementPath := []; isMoving := false |}.

(** [cloneState]. *)
Definition cloneState (st : State) : State :=
  let ps := map clonePiece (st_pieces st) in
  {| st_pieces := ps; st_board := rebuildBoard ps;
     st_idMap := map piece_id ps;
     st_currentPlayer := st_currentPlayer st;
     st_playerScores := st_playerScores st; st_gameOver := st_gameOver st |}.

(** The clone of the state after the rotations of a plan. *)
Definition rotatedClone (st : State) (plan : list (Z * Z)) : State :=
  let s2 := cloneState st in
  {| st_pieces := applyRotations (st_idMap s2) plan 2 (st_pieces s2);
     st_board := st_board s2; st_idMap := st_idMap s2;
     st_currentPlayer := st_currentPlayer s2;
     st_playerScores := st_playerScores s2; st_gameOver := st_gameOver s2 |}.

(** The loop over the rotation plans in [generateTurnActionsLimited]. *)
Fixpoint actionsForPlans (st : State) (beamWidth : nat)
    (plans : list (list (Z * Z))) (actions : list Action)
  : Outcome (list Action) :=
  match plans with
  | [] => Done actions
  | plan :: rest =>
      moves <- generateMovesForState (rotatedClone st plan) ;;
      actionsForPlans st beamWidth rest
        (actions
         ++ map (fun mv => {| rotations := plan; move_id := sm_id mv;
                              move_dest := sm_dest mv |})
              (limitedMoves beamWidth moves))
  end.

(** [generateTurnActionsLimited], from the ids [top] of the best rotation
    candidates. *)
Definition generateTurnActions (st : State) (top : list Z) (beamWidth : nat)
  : Outcome (list Action) :=
  actionsForPlans st beamWidth (rotationPlans top) [].

(** The number of quarter turns a plan asks for. *)
Definition planTurns (plan : list (Z * Z)) : Z :=
  fold_right (fun r acc => snd r + acc) 0 plan.

(** The piece without its mark [rotatedThisTurn]. *)
Definition unflag (p : Piece) : Piece := setFlags (movedLastTurn p) false p.

(** The selection is one the player to move may make. *)
Definition legalSelection (g : Game) : Prop :=
  forall sel, selected g = Some sel ->
    canBeSelected sel (currentPlayer g) = true.

(** *** Sample states of the handler and of the search *)

(** The game after [resetGame]. *)
Definition startGame : Game := gameOf initPieces None 1 [].

Definition uiOf (g : Game) : Ui :=
  {| ui_game := g; rotateMode := false; turning := [];
     accessibleHighlightLayers := []; layerIndex := 0;
     highlightingInProgress := false; botThinking := false |}.

(** The corner piece of player 1 selected in the starting layout. *)
Definition cornerGame : Game := gameOf initPieces (Some 1) 1 [].

Definition onRotate : Pointer :=
  {| inRotateButton := true; inDoneButton := false; inCancelButton := false;
     aboveUi := false; square := None |}.

Definition onDone : Pointer :=
  {| inRotateButton := false; inDoneButton := true; inCancelButton := false;
     aboveUi := false; square := None |}.

Definition onCancel : Pointer :=
  {| inRotateButton := false; inDoneButton := false; inCancelButton := true;
     aboveUi := false; square := None |}.

Definition onSquare (sq : Pos) : Pointer :=
  {| inRotateButton := false; inDoneButton := false; inCancelButton := false;
     aboveUi := true; square := Some sq |}.

(** The corner piece goes to (2, 5), after one quarter turn of the piece
    with id 2. *)
Definition sampleAction : Action :=
  {| rotations := [(2, 1)]; move_id := 1; move_dest := (2, 5) |}.

(** The state of the search in [promoGame]. *)
Definition promoState : State := snapshotState promoGame.

(** The bot to move in the starting layout: one quarter turn of its "DTe"
    with id 20, then its corner piece goes to (4, 2). *)
Definition botGame : Game := gameOf initPieces None 2 [].

Definition botAction : Action :=
  {| rotations := [(20, 1)]; move_id := 21; move_dest := (4, 2) |}.

(** ** The frames between pointer events

    [update(dt)] runs between the pointer events.  A frame is embedded for
    the case in which no piece is on its way to a square at the end of it
    (a moving piece arrives in the frame, as [update] has it) and in which
    the rotation speed allows a whole number of degrees: [s] stands for
    [rotationSpeed * (dt * 60)], and [due] says whether [layerDelay] has
    elapsed since the last highlight layer was revealed. *)

Definition stopped (t : Turning) : Turning :=
  {| initialRotation := initialRotation t;
     targetRotation := targetRotation t; isRotating := false |}.

(** The rotation branch of [Piece.update].  On whole degrees the test
    [Math.abs(...) < 0.001] is the test that the remainder is 0. *)
Definition turnPiece (s : Z) (t : Turning) (p : Piece) : Piece * Turning :=
  if isRotating t then
    if negb (rotation p =? targetRotation t) then
      let diff0 := Z.rem (targetRotation t - rotation p + 360) 360 in
      let diff := if 180 <? diff0 then diff0 - 360 else diff0 in
      let step := Z.min s (Z.abs diff) in
      let r := Z.rem (rotation p + Z.sgn diff * step + 360) 360 in
      if Z.abs (Z.rem (r - targetRotation t + 540) 360 - 180) <? 1
      then (withRotation (targetRotation t) p, stopped t)
      else (withRotation r p, t)
    else (p, stopped t)
  else (p, t).

(** [for (const p of pieces) p.update(dt)], for the rotation: the pieces
    and the table of their rotation states. *)
Definition turnPieces (s : Z) (tt : list (Z * Turning)) (ps : list Piece)
  : list Piece * list (Z * Turning) :=
  (map (fun p => fst (turnPiece s (turningOf tt (piece_id p)) p)) ps,
   map (fun p => (piece_id p, snd (turnPiece s (turningOf tt (piece_id p)) p)))
     ps ++ tt).

(** The progressive reveal of a highlight layer in [update]. *)
Definition revealDue (due : bool) (u : Ui) : Ui :=
  if highlightingInProgress u
     && Nat.ltb (layerIndex u) (List.length (accessibleHighlightLayers u))
     && due
  then
    match nth_error (accessibleHighlightLayers u) (layerIndex u) with
    | Some (emptyLayer, occupiedLayer) =>
        let g := ui_game u in
        {| ui_game :=
             {| pieces := pieces g; board := board g;
                selectedPiece := selectedPiece g;
                currentPlayer := currentPlayer g;
                rotationChances := rotationChances g;
                playerScores := playerScores g; gameOver := gameOver g;
                highlightedPositions :=
                  fold_left (fun a k => add k a) occupiedLayer
                    (fold_left (fun a k => add k a) emptyLayer
                       (highlightedPositions g));
                piecesAreAnimating := piecesAreAnimating g;
                animatingPieces := animatingPieces g |};
           rotateMode := rotateMode u;
           turning := turning u;
           accessibleHighlightLayers := accessibleHighlightLayers u;
           layerIndex := S (layerIndex u);
           highlightingInProgress :=
             negb (Nat.leb (List.length (accessibleHighlightLayers u))
                     (S (layerIndex u)));
           botThinking := botThinking u |}
    | None => u
    end
  else u.

(** [update(dt)]: the rotation of the pieces, the reveal of a layer, then
    the arrival of the moving pieces and the end of the movement (the start
    of the bot's turn is left out). *)
Definition frame (s : Z) (due : bool) (u : Ui) : Ui :=
  let g := ui_game u in
  let '(ps, table) := turnPieces s (turning u) (pieces g) in
  let u1 :=
    {| ui_game := setPieces g ps (rotationChances g);
       rotateMode := rotateMode u; turning := table;
       accessibleHighlightLayers := accessibleHighlightLayers u;
       layerIndex := layerIndex u;
       highlightingInProgress := highlightingInProgress u;
       botThinking := botThinking u |} in
  let u2 := revealDue due u1 in
  setGame u2 (update (ui_game u2)).

(** What happens between two states of the handler: a pointer event or a
    frame. *)
Inductive Step : Type :=
| Tap (ev : Pointer)
| Frame (s : Z) (due : bool).

Fixpoint runSteps (u : Ui) (steps : list Step) : Outcome Ui :=
  match steps with
  | [] => Done u
  | Tap ev :: rest => u' <- onPointerDown u ev ;; runSteps u' rest
  | Frame s due :: rest => runSteps (frame s due u) rest
  end.

(** A pointer event on no button, or a frame. *)
Definition quietStep (st : Step) : Prop :=
  match st with
  | Tap ev => offButtons ev
  | Frame s _ => 0 <= s
  end.

(** No piece is turning. *)
Definition allStill (u : Ui) : Prop :=
  forall p, In p (pieces (ui_game u)) ->
    isRotating (turningOf (turning u) (piece_id p)) = false.

(** The handler is in rotate mode for [sel] since the Rotate button was
    used in the state [u]: the game is as it was but for the highlights and
    the rotation of [sel], whose rotation state remembers the rotation it
    had; no other piece is turning. *)
Definition turningIn (u : Ui) (sel : Piece) (v : Ui) : Prop :=
  (exists r,
     ui_game v
     = setPieces (clearHighlights (ui_game u))
         (updatePiece (piece_id sel) (withRotation r) (pieces (ui_game u)))
         (rotationChances (ui_game u)))
  /\ rotateMode v = true
  /\ botThinking v = false
  /\ highlightingInProgress v = false
  /\ initialRotation (turningOf (turning v) (piece_id sel)) = rotation sel
  /\ forall p, In p (pieces (ui_game u)) -> piece_id p <> piece_id sel ->
       isRotating (turningOf (turning v) (piece_id p)) = false.

(** Rotate, a quarter turn, a frame that completes it, a second quarter
    turn and a frame that does a third of it. *)
Definition sampleSteps : list Step :=
  [ Tap (onSquare (0, 7)); Frame 90 false;
    Tap (onSquare (0, 7)); Frame 30 true ].

(** * Properties *)

(** ** Keys and sets *)

Lemma pos_eqb_eq (a b : Pos) : pos_eqb a b = true <-> a = b.
Proof.
  destruct a as [ax ay], b as [bx by_]. unfold pos_eqb; simpl.
  rewrite andb_true_iff, !Z.eqb_eq. split.
  - intros [-> ->]; reflexivity.
  - intros H; inversion H; auto.
Qed.

Lemma pos_eqb_refl (a : Pos) : pos_eqb a a = true.
Proof. apply pos_eqb_eq; reflexivity. Qed.

Lemma pos_eqb_neq (a b : Pos) : pos_eqb a b = false <-> a <> b.
Proof.
  rewrite <- pos_eqb_eq. destruct (pos_eqb a b); split; congruence.
Qed.

Lemma keyXY_eta (k : Pos) : keyXY (fst k) (snd k) = k.
Proof. destruct k; reflexivity. Qed.

Lemma mem_In (k : Pos) (s : list Pos) : mem k s = true <-> In k s.
Proof.
  unfold mem. rewrite existsb_exists. split.
  - intros [x [Hx He]]. apply pos_eqb_eq in He. subst; assumption.
  - intros H. exists k. split; [assumption | apply pos_eqb_refl].
Qed.

Lemma mem_not_In (k : Pos) (s : list Pos) : mem k s = false <-> ~ In k s.
Proof.
  rewrite <- mem_In. destruct (mem k s); split; congruence.
Qed.

Lemma In_add (x k : Pos) (s : list Pos) : In x (add k s) <-> x = k \/ In x s.
Proof.
  unfold add. destruct (mem k s) eqn:E.
  - apply mem_In in E. split; [auto | intros [-> | H]; assumption].
  - rewrite in_app_iff; simpl. intuition auto.
Qed.

Lemma NoDup_add (k : Pos) (s : list Pos) : NoDup s -> NoDup (add k s).
Proof.
  intros H. unfold add. destruct (mem k s) eqn:E; [assumption |].
  apply mem_not_In in E.
  apply NoDup_rev in H. rewrite <- (rev_involutive (s ++ [k])).
  apply NoDup_rev. rewrite rev_app_distr; simpl.
  constructor; [rewrite <- in_rev; assumption | assumption].
Qed.

Lemma incl_add (k : Pos) (s : list Pos) : incl s (add k s).
Proof. intros x Hx. apply In_add; auto. Qed.

Lemma In_fold_add (l acc : list Pos) (x : Pos) :
  In x (fold_left (fun a k => add k a) l acc) <-> In x l \/ In x acc.
Proof.
  revert acc. induction l as [|k l IH]; intros acc; simpl.
  - tauto.
  - rewrite IH, In_add. intuition auto.
Qed.

Lemma NoDup_fold_add (l acc : list Pos) :
  NoDup acc -> NoDup (fold_left (fun a k => add k a) l acc).
Proof.
  revert acc. induction l as [|k l IH]; intros acc H; simpl; auto using NoDup_add.
Qed.

(** ** The grid *)

Lemma isValidPosition_spec (x y : Z) :
  isValidPosition x y = true <-> 0 <= x < 7 /\ 0 <= y < 8.
Proof.
  unfold isValidPosition, BOARD_WIDTH, BOARD_HEIGHT.
  rewrite !andb_true_iff, !Z.leb_le, !Z.ltb_lt. lia.
Qed.

Lemma nth_js_Some {A : Type} (l : list A) (i : Z) (a : A) :
  nth_js l i = Some a -> 0 <= i < Z.of_nat (List.length l).
Proof.
  unfold nth_js. destruct (i <? 0) eqn:E; [discriminate |].
  apply Z.ltb_ge in E. intros H.
  assert (Hn : nth_error l (Z.to_nat i) <> None) by congruence.
  apply nth_error_Some in Hn. lia.
Qed.

Lemma nth_js_in_range {A : Type} (l : list A) (i : Z) :
  0 <= i < Z.of_nat (List.length l) -> exists a, nth_js l i = Some a /\ In a l.
Proof.
  intros H. unfold nth_js.
  destruct (i <? 0) eqn:E; [apply Z.ltb_lt in E; lia |].
  destruct (nth_error l (Z.to_nat i)) eqn:N.
  - exists a. split; [reflexivity | eapply nth_error_In; eassumption].
  - apply nth_error_None in N. lia.
Qed.

Lemma boardRead_Done (b : Board) (x y : Z) (c : option Piece) :
  boardRead b x y = Done c -> cellAt b (x, y) = c.
Proof. unfold cellAt; simpl. intros ->. reflexivity. Qed.

Lemma boardRead_valid (b : Board) (x y : Z) :
  shaped b -> isValidPosition x y = true ->
  boardRead b x y = Done (cellAt b (x, y)).
Proof.
  intros [Hl Hr] Hv. apply isValidPosition_spec in Hv.
  unfold cellAt, boardRead; simpl.
  destruct (nth_js_in_range b y) as [row [-> Hin]].
  { rewrite Hl. unfold BOARD_HEIGHT. lia. }
  destruct (nth_js row x); reflexivity.
Qed.

Lemma cellAt_valid (b : Board) (k : Pos) (p : Piece) :
  shaped b -> cellAt b k = Some p -> isValidPosition (fst k) (snd k) = true.
Proof.
  intros [Hl Hr] H. unfold cellAt, boardRead in H.
  destruct (nth_js b (snd k)) as [row|] eqn:R; [| discriminate].
  destruct (nth_js row (fst k)) as [c|] eqn:C; [| discriminate].
  apply nth_js_Some in C. pose proof (nth_js_Some _ _ _ R) as R'.
  assert (In row b).
  { unfold nth_js in R. destruct (snd k <? 0); [discriminate |].
    eapply nth_error_In; eassumption. }
  rewrite Forall_forall in Hr. rewrite (Hr row H0) in C. rewrite Hl in R'.
  apply isValidPosition_spec. unfold BOARD_WIDTH, BOARD_HEIGHT in *. lia.
Qed.

Lemma In_allSquares (k : Pos) :
  In k allSquares <-> isValidPosition (fst k) (snd k) = true.
Proof.
  rewrite isValidPosition_spec. destruct k as [x y].
  unfold allSquares. rewrite in_flat_map. unfold fst, snd. split.
  - intros [y' [Hy Hx]]. apply in_map_iff in Hx. destruct Hx as [x' [E Hx]].
    inversion E; subst. simpl in Hy, Hx. lia.
  - intros [Hx Hy]. exists y. split.
    + simpl. lia.
    + apply in_map_iff. exists x. split; [reflexivity | simpl; lia].
Qed.

Lemma NoDup_allSquares : NoDup allSquares.
Proof.
  apply (NoDup_count_occ' Pos_eq_dec). intros k Hk.
  repeat (destruct Hk as [<- | Hk]; [vm_compute; reflexivity |]).
  destruct Hk.
Qed.

(** ** The piece catalogue *)

Lemma find_app_first {A : Type} (f : A -> bool) (l l' : list A) :
  find f (l ++ l')
  = match find f l with Some a => Some a | None => find f l' end.
Proof.
  induction l as [| a l IH]; simpl; [reflexivity |].
  destruct (f a); [reflexivity | exact IH].
Qed.

(** The cache never changes what [getAvailableSquares] returns: a new piece
    and a clone start with the empty cache, which is coherent, and the method
    keeps the cache coherent. *)
Lemma getAvailableSquares_cached_pure (p : Piece) (cache : DirsCache) :
  coherent p cache ->
  fst (getAvailableSquares_cached p cache) = getAvailableSquares p
  /\ coherent p (snd (getAvailableSquares_cached p cache)).
Proof.
  intros Hc. unfold getAvailableSquares_cached, getAvailableSquares,
    candidateOffsets.
  set (angle := Z.rem (- Z.rem (Z.rem (rotation p) 360 + 360) 360 + 360) 360).
  destruct (cacheGet cache angle) as [adjusted |] eqn:G; simpl.
  - rewrite (Hc _ _ G). split; [reflexivity | exact Hc].
  - split; [reflexivity |]. intros a adj Ha. unfold cacheGet in Ha.
    rewrite find_app_first in Ha.
    destruct (find (fun e => fst e =? a) cache) as [e |] eqn:F.
    + apply Hc. unfold cacheGet. rewrite F. exact Ha.
    + simpl in Ha. destruct (angle =? a) eqn:E; [| discriminate].
      apply Z.eqb_eq in E. inversion Ha; subst. reflexivity.
Qed.

Lemma coherent_empty (p : Piece) : coherent p [].
Proof. intros angle adjusted H. discriminate. Qed.

Lemma getAvailableSquares_valid (p : Piece) (q : Pos) :
  In q (getAvailableSquares p) -> isValidPosition (fst q) (snd q) = true.
Proof. unfold getAvailableSquares. intros H. apply filter_In in H. tauto. Qed.

(** ** The resolver *)

Lemma linked_trans (b : Board) (s p t : Piece) :
  linked b s p -> linked b p t -> linked b s t.
Proof.
  intros Hsp Hpt. induction Hpt as [| q t Hpq IH Hqt]; [assumption |].
  eapply linked_step; eassumption.
Qed.

Lemma link_linked (b : Board) (p t : Piece) : link b p t -> linked b p t.
Proof. intros H. eapply linked_step; [apply linked_refl | exact H]. Qed.

Lemma linked_player (b : Board) (s t : Piece) :
  linked b s t -> player t = player s.
Proof.
  induction 1 as [| p t _ IH [pos [_ [_ Hp]]]]; [reflexivity | congruence].
Qed.

Lemma linked_onBoard (b : Board) (s t : Piece) :
  consistent b -> onBoard b s -> linked b s t -> onBoard b t.
Proof.
  intros Hc Hs H. destruct H as [| p t _ [pos [_ [Hcell _]]]]; [assumption |].
  unfold onBoard. rewrite (Hc _ _ Hcell). exact Hcell.
Qed.

Lemma accSound_link (b : Board) (origin piece t : Piece) (k : Pos) :
  link b piece t -> accSound b origin t k -> accSound b origin piece k.
Proof.
  intros Hl [[u [Hu H]] | [u [Hu H]]]; [left | right]; exists u;
    (split; [eapply linked_trans; [apply link_linked; exact Hl | exact Hu]
            | exact H]).
Qed.

Lemma served_mono (b : Board) (origin : Piece)
    (acc vpos vpcs acc' vpos' vpcs' : list Pos) (t : Piece) :
  incl acc acc' -> incl vpos vpos' -> incl vpcs vpcs' ->
  served b origin acc vpos vpcs t -> served b origin acc' vpos' vpcs' t.
Proof.
  intros Ha Hp Hq [H1 [H2 H3]]. repeat split.
  - intros u Hu. destruct (H1 u Hu); auto.
  - intros c Hc Ho. auto.
  - intros u c Hu Hn Hc. eauto.
Qed.

Lemma scanAvailable_spec (b : Board) (available : list Pos) :
  forall acc0 poa0 acc poa,
  scanAvailable b available acc0 poa0 = Done (acc, poa) ->
  (forall k, In k acc <->
     In k acc0 \/ (In k available /\ isValidPosition (fst k) (snd k) = true
                   /\ cellAt b k <> None))
  /\ (forall t, In t poa <->
        In t poa0 \/ exists pos, In pos available
                      /\ isValidPosition (fst pos) (snd pos) = true
                      /\ cellAt b pos = Some t)
  /\ (NoDup acc0 -> NoDup acc).
Proof.
  induction available as [| pos rest IH]; intros acc0 poa0 acc poa H; simpl in H.
  - inversion H; subst. repeat split; try tauto.
    + intros [? | [[] _]]; assumption.
    + intros [? | [? [[] _]]]; assumption.
  - destruct (isValidPosition (fst pos) (snd pos)) eqn:V.
    + destruct (boardRead b (fst pos) (snd pos)) as [cell | |] eqn:R;
        simpl in H; try discriminate.
      apply boardRead_Done in R. rewrite <- surjective_pairing in R.
      destruct cell as [t0 |].
      * apply IH in H. destruct H as [Ha [Hp Hn]]. rewrite keyXY_eta in *.
        repeat split.
        -- intros Hk. apply Ha in Hk. rewrite In_add in Hk.
           destruct Hk as [[-> | Hk] | [Hk Hr]]; simpl; auto.
           right. repeat split; auto. congruence.
        -- intros Hk. apply Ha. rewrite In_add.
           destruct Hk as [Hk | [[<- | Hk] Hr]]; auto.
        -- intros Ht. apply Hp in Ht. rewrite in_app_iff in Ht; simpl in Ht.
           destruct Ht as [[Ht | [<- | []]] | [q [Hq Hr]]]; auto.
           ++ right. exists pos. simpl. auto.
           ++ right. exists q. simpl. auto.
        -- intros Ht. apply Hp. rewrite in_app_iff; simpl.
           destruct Ht as [Ht | [q [[<- | Hq] [Hv Hr]]]]; auto.
           ++ left. right. left. congruence.
           ++ right. exists q. auto.
        -- intros Hd. apply Hn. apply NoDup_add. exact Hd.
      * apply IH in H. destruct H as [Ha [Hp Hn]]. repeat split; auto.
        -- intros Hk. apply Ha in Hk. simpl. intuition auto.
        -- intros Hk. apply Ha. simpl in Hk.
           destruct Hk as [Hk | [[<- | Hk] [Hv Hr]]]; auto. congruence.
        -- intros Ht. apply Hp in Ht. simpl.
           destruct Ht as [Ht | [q [Hq Hr]]]; auto. right; exists q; auto.
        -- intros Ht. apply Hp. simpl in Ht.
           destruct Ht as [Ht | [q [[<- | Hq] [Hv Hr]]]]; auto.
           ++ congruence.
           ++ right; exists q; auto.
    + apply IH in H. destruct H as [Ha [Hp Hn]]. repeat split; auto.
      * intros Hk. apply Ha in Hk. simpl. intuition auto.
      * intros Hk. apply Ha. simpl in Hk.
        destruct Hk as [Hk | [[<- | Hk] [Hv Hr]]]; auto. congruence.
      * intros Ht. apply Hp in Ht. simpl.
        destruct Ht as [Ht | [q [Hq Hr]]]; auto. right; exists q; auto.
      * intros Ht. apply Hp. simpl in Ht.
        destruct Ht as [Ht | [q [[<- | Hq] [Hv Hr]]]]; auto.
        -- congruence.
        -- right; exists q; auto.
Qed.

Lemma harvestTarget_spec (targetAvail : list Pos) :
  forall acc vpos acc' vpos',
  harvestTarget targetAvail acc vpos = (acc', vpos') ->
  incl acc acc' /\ incl vpos vpos'
  /\ (forall k, In k acc' -> In k acc \/ In k targetAvail)
  /\ (forall k, In k vpos' -> In k vpos \/ In k acc')
  /\ (forall c, In c targetAvail ->
        isValidPosition (fst c) (snd c) = true -> In c vpos')
  /\ (NoDup acc -> NoDup acc') /\ (NoDup vpos -> NoDup vpos').
Proof.
  induction targetAvail as [| pos rest IH]; intros acc vpos acc' vpos' H;
    simpl in H.
  - inversion H; subst. repeat split; auto using incl_refl.
    intros c [].
  - rewrite keyXY_eta in H.
    destruct (isValidPosition (fst pos) (snd pos) && negb (mem pos vpos))
      eqn:G.
    + apply IH in H. destruct H as [Ha [Hp [Hs [Hh [Hc [Hn1 Hn2]]]]]].
      repeat split.
      * eapply incl_tran; [apply incl_add | exact Ha].
      * eapply incl_tran; [apply incl_add | exact Hp].
      * intros k Hk. destruct (Hs k Hk) as [Hk' | Hk']; simpl; auto.
        apply In_add in Hk'. destruct Hk' as [-> | Hk']; auto.
      * intros k Hk. destruct (Hh k Hk) as [Hk' | Hk']; auto.
        apply In_add in Hk'. destruct Hk' as [-> | Hk']; auto.
        right. apply Ha. apply In_add. auto.
      * intros c [<- | Hc'] Hv; [| auto].
        apply Hp. apply In_add. auto.
      * intros Hd. apply Hn1. apply NoDup_add. exact Hd.
      * intros Hd. apply Hn2. apply NoDup_add. exact Hd.
    + apply IH in H. destruct H as [Ha [Hp [Hs [Hh [Hc [Hn1 Hn2]]]]]].
      repeat split; auto.
      * intros k Hk. destruct (Hs k Hk); simpl; auto.
      * intros c [<- | Hc'] Hv; [| auto].
        rewrite Hv in G. simpl in G. apply negb_false_iff in G.
        apply mem_In in G. apply Hp. exact G.
Qed.

Lemma harvestLoop_spec (piece originPiece : Piece) (targets : list Piece) :
  forall acc vpos acc' vpos',
  harvestLoop piece originPiece targets acc vpos = (acc', vpos') ->
  incl acc acc' /\ incl vpos vpos'
  /\ (forall k, In k acc' ->
        In k acc \/ exists t, In t targets /\ player t = player piece
                     /\ piece_key t <> piece_key originPiece
                     /\ In k (getAvailableSquares t))
  /\ (forall k, In k vpos' -> In k vpos \/ In k acc')
  /\ (forall t c, In t targets -> player t = player piece ->
        piece_key t <> piece_key originPiece ->
        In c (getAvailableSquares t) -> In c vpos')
  /\ (NoDup acc -> NoDup acc') /\ (NoDup vpos -> NoDup vpos').
Proof.
  induction targets as [| t rest IH]; intros acc vpos acc' vpos' H; simpl in H.
  - inversion H; subst. repeat split; auto using incl_refl.
    intros t c [].
  - destruct ((player t =? player piece)
              && negb (pos_eqb (piece_key t) (piece_key originPiece))) eqn:G.
    + apply andb_true_iff in G. destruct G as [Gp Gk].
      apply Z.eqb_eq in Gp. apply negb_true_iff, pos_eqb_neq in Gk.
      destruct (harvestTarget (getAvailableSquares t) acc vpos)
        as [acc1 vpos1] eqn:HT.
      apply harvestTarget_spec in HT.
      destruct HT as [Ta [Tp [Ts [Th [Tc [Tn1 Tn2]]]]]].
      apply IH in H. destruct H as [Ha [Hp [Hs [Hh [Hc [Hn1 Hn2]]]]]].
      repeat split.
      * eapply incl_tran; eassumption.
      * eapply incl_tran; eassumption.
      * intros k Hk. destruct (Hs k Hk) as [Hk' | [u [Hu Hr]]].
        -- destruct (Ts k Hk') as [Hk2 | Hk2]; auto.
           right. exists t. simpl. auto.
        -- right. exists u. simpl. auto.
      * intros k Hk. destruct (Hh k Hk) as [Hk' | Hk']; auto.
        destruct (Th k Hk') as [Hk2 | Hk2]; auto.
      * intros u c [<- | Hu] Hpl Hne Hin.
        -- apply Hp. apply Tc; [assumption |].
           eapply getAvailableSquares_valid; eassumption.
        -- eapply Hc; eassumption.
      * auto.
      * auto.
    + apply IH in H. destruct H as [Ha [Hp [Hs [Hh [Hc [Hn1 Hn2]]]]]].
      repeat split; auto.
      * intros k Hk. destruct (Hs k Hk) as [Hk' | [u [Hu Hr]]]; auto.
        right. exists u. simpl. auto.
      * intros u c [<- | Hu] Hpl Hne Hin; [| eapply Hc; eassumption].
        apply Z.eqb_eq in Hpl. rewrite Hpl in G. simpl in G.
        apply negb_false_iff, pos_eqb_eq in G. contradiction.
Qed.

Lemma Sound_add_acc (b : Board) (origin root : Piece)
    (vpos0 vpcs0 acc vpos vpcs : list Pos) (k : Pos) :
  Sound b origin root vpos0 vpcs0 acc vpos vpcs ->
  accSound b origin root k ->
  Sound b origin root vpos0 vpcs0 (add k acc) vpos vpcs.
Proof.
  intros [H1 H2 H3 H4 H5 H6 H7 H8] Hk. constructor; auto.
  - intros x Hx. apply In_add in Hx. destruct Hx as [-> | Hx]; auto.
  - intros x Hx. destruct (H5 x Hx); auto. right. apply In_add. auto.
  - apply NoDup_add. exact H6.
Qed.

Lemma Complete_mono (b : Board) (origin : Piece) (skip : Pos -> Prop)
    (vpcs0 acc vpos vpcs acc' vpos' : list Pos) :
  incl acc acc' -> incl vpos vpos' ->
  Complete b origin skip vpcs0 acc vpos vpcs ->
  Complete b origin skip vpcs0 acc' vpos' vpcs.
Proof.
  unfold Complete. intros Ha Hp H k t Hin Hn Hs Hc.
  eapply served_mono; [exact Ha | exact Hp | apply incl_refl |].
  eapply H; eassumption.
Qed.

Lemma recurseLoop_post (b : Board) (origin : Piece)
    (self : Piece -> list Pos -> list Pos -> Outcome Resolved)
    (piece : Piece) :
  consistent b ->
  (forall t vp vq r, onBoard b t -> self t vp vq = Done r ->
                     Post b origin t vp vq r) ->
  forall targets acc vpos vpcs acc' vpos' vpcs' vpos0 vpcs0,
  (forall t, In t targets ->
     exists pos, In pos (getAvailableSquares piece) /\ cellAt b pos = Some t) ->
  recurseLoop self piece origin targets acc vpos vpcs
    = Done (acc', vpos', vpcs') ->
  Sound b origin piece vpos0 vpcs0 acc vpos vpcs ->
  Complete b origin (eq (piece_key piece)) vpcs0 acc vpos vpcs ->
  Sound b origin piece vpos0 vpcs0 acc' vpos' vpcs'
  /\ Complete b origin (eq (piece_key piece)) vpcs0 acc' vpos' vpcs'
  /\ incl acc acc' /\ incl vpos vpos' /\ incl vpcs vpcs'
  /\ (forall t, In t targets -> player t = player piece ->
        In (piece_key t) vpcs' \/ piece_key t = piece_key origin).
Proof.
  intros Hcons Hself.
  induction targets as [| target rest IH];
    intros acc vpos vpcs acc' vpos' vpcs' vpos0 vpcs0 Hon H HS HC; simpl in H.
  - inversion H; subst. split; [exact HS |]. split; [exact HC |].
    repeat split; auto using incl_refl. intros t [].
  - assert (Hrest : forall t, In t rest ->
              exists pos, In pos (getAvailableSquares piece)
                          /\ cellAt b pos = Some t)
      by (intros t Ht; apply Hon; right; exact Ht).
    destruct (Hon target (or_introl eq_refl)) as [pos [Hpos Hcell]].
    pose proof (Hcons _ _ Hcell) as Hkey.
    assert (Hboard : onBoard b target)
      by (unfold onBoard; rewrite Hkey; exact Hcell).
    destruct ((player target =? player piece)
              && negb (mem (piece_key target) vpcs)) eqn:G.
    + apply andb_true_iff in G. destruct G as [Gp Gv].
      apply Z.eqb_eq in Gp. apply negb_true_iff, mem_not_In in Gv.
      destruct (negb (pos_eqb (piece_key target) (piece_key origin))) eqn:Go.
      * destruct (self target vpos vpcs) as [res | |] eqn:R; simpl in H;
          try discriminate.
        destruct (Hself _ _ _ _ Hboard R) as [[C1 C2 C3 C4 C5 C6 C7 C8] [Cin CC]].
        destruct HS as [S1 S2 S3 S4 S5 S6 S7 S8].
        assert (Hlink : link b piece target) by (exists pos; auto).
        assert (Hacc : incl acc
                  (fold_left (fun a k => add k a) (accessibleSquares res) acc))
          by (intros x Hx; apply In_fold_add; auto).
        specialize (IH _ _ _ _ _ _ vpos0 vpcs0 Hrest H).
        destruct IH as [IS [IC [Ia [Ip [Iq It]]]]].
        -- constructor.
           ++ eapply incl_tran; eassumption.
           ++ eapply incl_tran; eassumption.
           ++ intros k Hk. destruct (C3 k Hk) as [Hk' | [t' [Ht' Hl']]]; auto.
              right. exists t'. split; [exact Ht' |].
              eapply linked_trans; [apply link_linked; exact Hlink | exact Hl'].
           ++ intros k Hk. apply In_fold_add in Hk. destruct Hk as [Hk | Hk]; auto.
              eapply accSound_link; [exact Hlink | auto].
           ++ intros k Hk. destruct (C5 k Hk) as [Hk' | Hk'].
              ** destruct (S5 k Hk'); auto.
              ** right. apply In_fold_add. auto.
           ++ apply NoDup_fold_add. exact S6.
           ++ auto.
           ++ auto.
        -- unfold Complete. intros k t Hin Hn0 Hsk Hc.
           destruct (in_dec Pos_eq_dec k vpcs) as [Hold | Hnew].
           ++ eapply served_mono; [exact Hacc | exact C1 | exact C2 |].
              eapply HC; eassumption.
           ++ eapply served_mono;
                [ | apply incl_refl | apply incl_refl
                  | eapply CC; [exact Hin | exact Hnew | tauto | exact Hc] ].
              intros x Hx. apply In_fold_add. auto.
        -- split; [exact IS |]. split; [exact IC |]. repeat split.
           ++ eapply incl_tran; eassumption.
           ++ eapply incl_tran; eassumption.
           ++ eapply incl_tran; eassumption.
           ++ intros t [<- | Ht] Hp; [| auto]. left. apply Iq. exact Cin.
      * apply negb_false_iff, pos_eqb_eq in Go.
        specialize (IH _ _ _ _ _ _ vpos0 vpcs0 Hrest H HS HC).
        destruct IH as [IS [IC [Ia [Ip [Iq It]]]]].
        split; [exact IS |]. split; [exact IC |]. repeat split; auto.
        intros t [<- | Ht] Hp; auto.
    + destruct (negb (player target =? player piece)) eqn:Ge.
      * apply negb_true_iff, Z.eqb_neq in Ge.
        assert (HS' : Sound b origin piece vpos0 vpcs0
                        (add (piece_key target) acc) vpos vpcs).
        { apply Sound_add_acc; [exact HS |].
          left. exists piece. rewrite Hkey.
          split; [apply linked_refl | split; [exact Hpos | congruence]]. }
        assert (HC' : Complete b origin (eq (piece_key piece)) vpcs0
                        (add (piece_key target) acc) vpos vpcs).
        { eapply Complete_mono; [apply incl_add | apply incl_refl | exact HC]. }
        specialize (IH _ _ _ _ _ _ vpos0 vpcs0 Hrest H HS' HC').
        destruct IH as [IS [IC [Ia [Ip [Iq It]]]]].
        split; [exact IS |]. split; [exact IC |]. repeat split; auto.
        -- eapply incl_tran; [apply incl_add | exact Ia].
        -- intros t [<- | Ht] Hp; [congruence | auto].
      * apply negb_false_iff, Z.eqb_eq in Ge.
        rewrite (proj2 (Z.eqb_eq _ _) Ge) in G. simpl in G.
        apply negb_false_iff, mem_In in G.
        specialize (IH _ _ _ _ _ _ vpos0 vpcs0 Hrest H HS HC).
        destruct IH as [IS [IC [Ia [Ip [Iq It]]]]].
        split; [exact IS |]. split; [exact IC |]. repeat split; auto.
        intros t [<- | Ht] Hp; auto.
Qed.

Lemma resolve_post (b : Board) (origin : Piece) (ord : ProcessingOrder) :
  consistent b -> fair ord ->
  forall fuel piece vpos0 vpcs0 r,
  onBoard b piece ->
  resolve ord fuel piece origin b vpos0 vpcs0 = Done r ->
  Post b origin piece vpos0 vpcs0 r.
Proof.
  intros Hcons Hfair.
  induction fuel as [| fuel IH]; intros piece vpos0 vpcs0 r Hon H;
    simpl in H; [discriminate |].
  destruct (scanAvailable b (getAvailableSquares piece) [] [])
    as [[acc1 poa] | |] eqn:Hscan; simpl in H; try discriminate.
  apply scanAvailable_spec in Hscan. destruct Hscan as [Sa [Sp Sn]].
  destruct (recurseLoop
              (fun t vp vq => resolve ord fuel t origin b vp vq)
              piece origin (recurseOrder ord piece poa) acc1 vpos0
              (add (piece_key piece) vpcs0))
    as [[[acc2 vpos2] vpcs2] | |] eqn:Hrec; simpl in H; try discriminate.
  destruct (harvestLoop piece origin (harvestOrder ord piece poa) acc2 vpos2)
    as [acc3 vpos3] eqn:Hhar.
  inversion H; subst r; clear H.
  destruct (Hfair piece poa) as [Pr Ph].
  assert (Hpoa : forall t, In t poa <->
            exists pos, In pos (getAvailableSquares piece)
                        /\ cellAt b pos = Some t).
  { intros t. rewrite Sp. simpl. split.
    - intros [[] | [pos [H1 [_ H2]]]]. exists pos; auto.
    - intros [pos [H1 H2]]. right. exists pos. repeat split; auto.
      eapply getAvailableSquares_valid; eassumption. }
  eapply recurseLoop_post with (vpos0 := vpos0) (vpcs0 := vpcs0) in Hrec;
    [ | exact Hcons | intros t vp vq r Ht Hr; eapply IH; eassumption | | | ].
  - destruct Hrec as [[S1 S2 S3 S4 S5 S6 S7 S8] [RC [Ra [Rp [Rq Rt]]]]].
    apply harvestLoop_spec in Hhar.
    destruct Hhar as [Ha [Hp [Hs [Hh [Hc [Hn1 Hn2]]]]]].
    assert (Hkey : In (piece_key piece) vpcs2)
      by (apply Rq; apply In_add; auto).
    unfold Post; simpl. split; [| split; [exact Hkey |]].
    + constructor; auto.
      * eapply incl_tran; eassumption.
      * intros k Hk. destruct (Hs k Hk) as [Hk' | [t [Ht [Hpl [Hne Hin]]]]];
          auto.
        right. exists t. split; [| auto].
        apply link_linked. apply (Permutation_in _ Ph) in Ht.
        apply Hpoa in Ht. destruct Ht as [pos [H1 H2]]. exists pos. auto.
      * intros k Hk. destruct (Hh k Hk) as [Hk' | Hk']; auto.
        destruct (S5 k Hk'); auto.
    + unfold Complete. intros k t Hin Hn0 _ Hcell.
      destruct (Pos_eq_dec (piece_key piece) k) as [E | N].
      * subst k. unfold onBoard in Hon. rewrite Hon in Hcell.
        inversion Hcell; subst t; clear Hcell.
        repeat split.
        -- intros u Hu. apply Rt.
           ++ apply (Permutation_in _ (Permutation_sym Pr)). apply Hpoa.
              destruct Hu as [pos [H1 [H2 _]]]. exists pos; auto.
           ++ destruct Hu as [pos [_ [_ H3]]]. exact H3.
        -- intros c Hc1 Hc2. apply Ha. apply Ra. apply Sa. right.
           repeat split; auto. eapply getAvailableSquares_valid; eassumption.
        -- intros u c Hu Hne Hin'. eapply Hc; [| | exact Hne | exact Hin'].
           ++ apply (Permutation_in _ (Permutation_sym Ph)). apply Hpoa.
              destruct Hu as [pos [H1 [H2 _]]]. exists pos; auto.
           ++ destruct Hu as [pos [_ [_ H3]]]. exact H3.
      * eapply served_mono; [exact Ha | exact Hp | apply incl_refl |].
        eapply RC; eassumption.
  - intros t Ht. apply Hpoa. apply (Permutation_in _ Pr). exact Ht.
  - constructor; auto using incl_refl, incl_add.
    + intros k Hk. apply In_add in Hk. destruct Hk as [-> | Hk]; auto.
      right. exists piece. split; [exact Hon | apply linked_refl].
    + intros k Hk. apply Sa in Hk. destruct Hk as [[] | [H1 [H2 H3]]].
      left. exists piece. split; [apply linked_refl | auto].
    + apply Sn. constructor.
    + intros Hd. apply NoDup_add. exact Hd.
  - unfold Complete. intros k t Hin Hn0 Hsk Hcell.
    apply In_add in Hin. destruct Hin as [-> | Hin]; [| contradiction].
    exfalso. apply Hsk. reflexivity.
Qed.

(** *** Termination *)

Lemma filter_length_mono {A : Type} (f g : A -> bool) (l : list A) :
  (forall x, In x l -> f x = true -> g x = true) ->
  (List.length (filter f l) <= List.length (filter g l))%nat.
Proof.
  induction l as [| a l IH]; intros H; simpl; [lia |].
  assert (IH' : (List.length (filter f l) <= List.length (filter g l))%nat)
    by (apply IH; intros x Hx; apply H; right; exact Hx).
  destruct (f a) eqn:Fa.
  - rewrite (H a (or_introl eq_refl) Fa). simpl. lia.
  - destruct (g a); simpl; lia.
Qed.

Lemma filter_length_strict {A : Type} (f g : A -> bool) (l : list A) (a : A) :
  (forall x, In x l -> f x = true -> g x = true) ->
  In a l -> f a = false -> g a = true ->
  (List.length (filter f l) < List.length (filter g l))%nat.
Proof.
  induction l as [| h l IH]; intros H Hin Fa Ga; simpl; [destruct Hin |].
  assert (Hl : forall x, In x l -> f x = true -> g x = true)
    by (intros x Hx; apply H; right; exact Hx).
  destruct Hin as [-> | Hin].
  - rewrite Fa, Ga. simpl. pose proof (filter_length_mono f g l Hl). lia.
  - specialize (IH Hl Hin Fa Ga). destruct (f h) eqn:Fh.
    + rewrite (H h (or_introl eq_refl) Fh). simpl. lia.
    + destruct (g h); simpl; lia.
Qed.

Lemma unvisited_incl (v v' : list Pos) :
  incl v v' -> (unvisited v' <= unvisited v)%nat.
Proof.
  intros H. unfold unvisited. apply filter_length_mono. intros x _ Hx.
  apply negb_true_iff, mem_not_In in Hx. apply negb_true_iff, mem_not_In.
  intros Hin. apply Hx. apply H. exact Hin.
Qed.

Lemma unvisited_add (k : Pos) (v : list Pos) :
  In k allSquares -> ~ In k v -> (unvisited (add k v) < unvisited v)%nat.
Proof.
  intros Hk Hn. unfold unvisited. apply filter_length_strict with (a := k).
  - intros x _ Hx. apply negb_true_iff, mem_not_In in Hx.
    apply negb_true_iff, mem_not_In. intros Hin. apply Hx. apply In_add. auto.
  - exact Hk.
  - apply negb_false_iff, mem_In, In_add. auto.
  - apply negb_true_iff, mem_not_In. exact Hn.
Qed.

Lemma scanAvailable_total (b : Board) (available : list Pos) :
  shaped b ->
  forall acc poa, exists r, scanAvailable b available acc poa = Done r.
Proof.
  intros Hs. induction available as [| pos rest IH]; intros acc poa; simpl.
  - eexists; reflexivity.
  - destruct (isValidPosition (fst pos) (snd pos)) eqn:V; [| apply IH].
    rewrite (boardRead_valid b _ _ Hs V). simpl.
    destruct (cellAt b (fst pos, snd pos)); apply IH.
Qed.

Lemma recurseLoop_total (b : Board) (origin : Piece) (ord : ProcessingOrder)
    (fuel : nat) (piece : Piece) :
  consistent b -> fair ord ->
  (forall t vpos vpcs, onBoard b t -> ~ In (piece_key t) vpcs ->
     (unvisited vpcs < fuel)%nat ->
     exists r, resolve ord fuel t origin b vpos vpcs = Done r) ->
  forall targets acc vpos vpcs,
  (forall t, In t targets -> onBoard b t) ->
  (unvisited vpcs < fuel)%nat ->
  exists res,
    recurseLoop (fun t vp vq => resolve ord fuel t origin b vp vq)
      piece origin targets acc vpos vpcs = Done res.
Proof.
  intros Hcons Hfair Hself.
  induction targets as [| target rest IH]; intros acc vpos vpcs Hon Hm; simpl.
  - eexists; reflexivity.
  - assert (Hrest : forall t, In t rest -> onBoard b t)
      by (intros t Ht; apply Hon; right; exact Ht).
    destruct ((player target =? player piece)
              && negb (mem (piece_key target) vpcs)) eqn:G.
    + apply andb_true_iff in G. destruct G as [_ Gv].
      apply negb_true_iff, mem_not_In in Gv.
      destruct (negb (pos_eqb (piece_key target) (piece_key origin)));
        [| apply IH; assumption].
      destruct (Hself target vpos vpcs (Hon _ (or_introl eq_refl)) Gv Hm)
        as [r Hr].
      rewrite Hr. simpl. apply IH; [exact Hrest |].
      destruct (resolve_post b origin ord Hcons Hfair _ _ _ _ _
                  (Hon _ (or_introl eq_refl)) Hr) as [[_ Hq _ _ _ _ _ _] _].
      pose proof (unvisited_incl _ _ Hq). lia.
    + destruct (negb (player target =? player piece)); apply IH; assumption.
Qed.

Lemma resolve_total (b : Board) (origin : Piece) (ord : ProcessingOrder) :
  wf_board b -> fair ord ->
  forall fuel piece vpos vpcs,
  onBoard b piece -> ~ In (piece_key piece) vpcs ->
  (unvisited vpcs < fuel)%nat ->
  exists r, resolve ord fuel piece origin b vpos vpcs = Done r.
Proof.
  intros [Hs Hcons] Hfair.
  induction fuel as [| fuel IH]; intros piece vpos vpcs Hon Hn Hm; [lia |].
  simpl.
  destruct (scanAvailable_total b (getAvailableSquares piece) Hs [] [])
    as [[acc1 poa] Hscan].
  rewrite Hscan. simpl.
  assert (Hk : In (piece_key piece) allSquares).
  { apply In_allSquares. eapply cellAt_valid; [exact Hs | exact Hon]. }
  pose proof (unvisited_add _ _ Hk Hn) as Hlt.
  destruct (recurseLoop_total b origin ord fuel piece Hcons Hfair IH
              (recurseOrder ord piece poa) acc1 vpos
              (add (piece_key piece) vpcs)) as [[[acc2 vpos2] vpcs2] Hrec].
  - intros t Ht. destruct (Hfair piece poa) as [Pr _].
    apply (Permutation_in _ Pr) in Ht.
    apply scanAvailable_spec in Hscan. destruct Hscan as [_ [Sp _]].
    apply Sp in Ht. destruct Ht as [[] | [pos [_ [_ Hc]]]].
    unfold onBoard. rewrite (Hcons _ _ Hc). exact Hc.
  - lia.
  - rewrite Hrec. simpl.
    destruct (harvestLoop piece origin (harvestOrder ord piece poa) acc2 vpos2).
    eexists; reflexivity.
Qed.

(** *** More fuel changes nothing *)

Lemma recurseLoop_mono
    (self self' : Piece -> list Pos -> list Pos -> Outcome Resolved)
    (piece origin : Piece) :
  (forall t vp vq r, self t vp vq = Done r -> self' t vp vq = Done r) ->
  forall targets acc vpos vpcs res,
  recurseLoop self piece origin targets acc vpos vpcs = Done res ->
  recurseLoop self' piece origin targets acc vpos vpcs = Done res.
Proof.
  intros Hself. induction targets as [| target rest IH];
    intros acc vpos vpcs res H; simpl in *; [exact H |].
  destruct ((player target =? player piece)
            && negb (mem (piece_key target) vpcs)).
  - destruct (negb (pos_eqb (piece_key target) (piece_key origin)));
      [| apply IH; exact H].
    destruct (self target vpos vpcs) as [r | |] eqn:R; simpl in H;
      try discriminate.
    rewrite (Hself _ _ _ _ R). simpl. apply IH. exact H.
  - destruct (negb (player target =? player piece)); apply IH; exact H.
Qed.

Lemma resolve_fuel_mono (ord : ProcessingOrder) (origin : Piece) (b : Board) :
  forall fuel fuel' piece vpos vpcs r,
  (fuel <= fuel')%nat ->
  resolve ord fuel piece origin b vpos vpcs = Done r ->
  resolve ord fuel' piece origin b vpos vpcs = Done r.
Proof.
  induction fuel as [| fuel IH]; intros fuel' piece vpos vpcs r Hle H;
    simpl in H; [discriminate |].
  destruct fuel' as [| fuel']; [lia |]. simpl.
  destruct (scanAvailable b (getAvailableSquares piece) [] [])
    as [[acc1 poa] | |]; simpl in *; try discriminate.
  destruct (recurseLoop
              (fun t vp vq => resolve ord fuel t origin b vp vq)
              piece origin (recurseOrder ord piece poa) acc1 vpos
              (add (piece_key piece) vpcs)) as [res | |] eqn:R;
    simpl in H; try discriminate.
  rewrite (recurseLoop_mono
             (fun t vp vq => resolve ord fuel t origin b vp vq)
             (fun t vp vq => resolve ord fuel' t origin b vp vq)
             piece origin
             (fun t vp vq r0 Hr => IH fuel' t vp vq r0 ltac:(lia) Hr)
             _ _ _ _ _ R).
  simpl. exact H.
Qed.

(** *** The result of a top-level call *)

Lemma linked_key_neq (b : Board) (s t : Piece) :
  consistent b -> onBoard b s -> linked b s t ->
  t <> s -> piece_key t <> piece_key s.
Proof.
  intros Hc Hs Hl Hne E.
  pose proof (linked_onBoard b s t Hc Hs Hl) as Ht.
  unfold onBoard in *. rewrite E in Ht. congruence.
Qed.

Lemma resolve_characterised (b : Board) (s : Piece) (ord : ProcessingOrder) :
  wf_board b -> fair ord -> onBoard b s ->
  exists r,
    resolve ord resolverFuel s s b [] [] = Done r
    /\ (forall k, In k (visitedPieces r) <->
          exists t, linked b s t /\ piece_key t = k)
    /\ (forall k, In k (accessibleSquares r) <-> chainAccessible b s k)
    /\ (forall k, In k (visitedPositions r) -> In k (accessibleSquares r))
    /\ NoDup (accessibleSquares r) /\ NoDup (visitedPieces r).
Proof.
  intros Hwf Hfair Hon. pose proof Hwf as [Hs Hcons].
  destruct (resolve_total b s ord Hwf Hfair resolverFuel s [] [] Hon)
    as [r Hr].
  { intros []. }
  { unfold unvisited, resolverFuel. vm_compute. lia. }
  exists r. split; [exact Hr |].
  destruct (resolve_post b s ord Hcons Hfair _ _ _ _ _ Hon Hr)
    as [[S1 S2 S3 S4 S5 S6 S7 S8] [Hkey HC]].
  assert (Hclosed : forall t, linked b s t -> In (piece_key t) (visitedPieces r)).
  { intros t Ht. induction Ht as [| p t Hp IH Hl]; [exact Hkey |].
    pose proof (linked_onBoard b s p Hcons Hon Hp) as Hpb.
    destruct (HC (piece_key p) p IH (fun f => f) (fun f => f) Hpb)
      as [H1 _].
    destruct (H1 t Hl) as [H | H]; [exact H | rewrite H; exact Hkey]. }
  split; [| split; [| split; [| split]]].
  - intros k. split.
    + intros Hk. destruct (S3 k Hk) as [[] | [t [Hc Hl]]].
      exists t. split; [exact Hl | apply Hcons; exact Hc].
    + intros [t [Hl <-]]. apply Hclosed. exact Hl.
  - intros k. split.
    + intros Hk. destruct (S4 k Hk) as [[t [Hl [Hin Ho]]] | [u [Hl [Hne Hin]]]].
      * destruct (Piece_eq_dec t s) as [-> | Hts].
        -- left. auto.
        -- right. exists t. auto.
      * right. exists u. repeat split; auto. intros ->. apply Hne. reflexivity.
    + intros [[Hin Ho] | [t [Hl [Hne Hin]]]].
      * destruct (HC (piece_key s) s Hkey (fun f => f) (fun f => f) Hon)
          as [_ [H2 _]].
        apply H2; assumption.
      * destruct Hl as [| p t Hp Hl]; [contradiction |].
        pose proof (linked_onBoard b s p Hcons Hon Hp) as Hpb.
        destruct (HC (piece_key p) p (Hclosed p Hp) (fun f => f) (fun f => f) Hpb)
          as [_ [_ H3]].
        assert (Hlt : linked b s t) by (eapply linked_step; eassumption).
        pose proof (linked_key_neq b s t Hcons Hon Hlt Hne) as Hk.
        destruct (S5 k (H3 t k Hl Hk Hin)) as [[] | H]. exact H.
  - intros k Hk. destruct (S5 k Hk) as [[] | H]. exact H.
  - exact S6.
  - apply S8. constructor.
Qed.

(** ** The path finder *)

Lemma some_matches (pos : Pos) (l : list Pos) :
  existsb (fun s => (fst s =? fst pos) && (snd s =? snd pos)) l = true
  <-> In pos l.
Proof.
  rewrite existsb_exists. split.
  - intros [x [Hx He]]. change (pos_eqb x pos = true) in He.
    apply pos_eqb_eq in He. subst; assumption.
  - intros H. exists pos. split; [assumption | apply (pos_eqb_refl pos)].
Qed.

Lemma expand_spec (pos : Pos) (path : list Pos) (consider : list Piece) :
  forall queue visited queue' visited',
  expand pos path consider queue visited = (queue', visited') ->
  exists new,
    queue' = queue ++ new
    /\ (forall item, In item new ->
          exists p, In p consider /\ In pos (getAvailableSquares p)
                    /\ item = (piece_key p, path ++ [piece_key p])
                    /\ ~ In (piece_key p) visited)
    /\ incl visited visited'
    /\ (forall k, In k visited' -> In k visited \/ In k (map fst new))
    /\ (forall p, In p consider -> In pos (getAvailableSquares p) ->
          In (piece_key p) visited')
    /\ (forall k, In k (map fst new) -> In k visited').
Proof.
  induction consider as [| p rest IH]; intros queue visited queue' visited' H;
    simpl in H.
  - inversion H; subst. exists []. rewrite app_nil_r.
    repeat split; auto using incl_refl; simpl; tauto.
  - destruct (existsb (fun s => (fst s =? fst pos) && (snd s =? snd pos))
                (getAvailableSquares p)) eqn:M.
    + apply some_matches in M.
      destruct (negb (mem (piece_key p) visited)) eqn:V.
      * apply negb_true_iff, mem_not_In in V.
        apply IH in H. destruct H as [new [Hq [Hi [Hv [Hk [Hc Hm]]]]]].
        exists ((piece_key p, path ++ [piece_key p]) :: new).
        split; [rewrite Hq, <- app_assoc; reflexivity |].
        split; [| split; [| split; [| split]]].
        -- intros item [<- | Hin].
           ++ exists p. simpl. auto.
           ++ destruct (Hi item Hin) as [q [H1 [H2 [H3 H4]]]].
              exists q. simpl. repeat split; auto.
              intros Hq'. apply H4. apply In_add. auto.
        -- eapply incl_tran; [apply incl_add | exact Hv].
        -- intros k Hk'. simpl. destruct (Hk k Hk') as [Hk2 | Hk2]; auto.
           apply In_add in Hk2. destruct Hk2 as [-> | Hk2]; auto.
        -- intros q [<- | Hq'] Hin; [| auto].
           apply Hv. apply In_add. auto.
        -- intros k [<- | Hk']; [| auto]. simpl. apply Hv. apply In_add. auto.
      * apply negb_false_iff, mem_In in V.
        apply IH in H. destruct H as [new [Hq [Hi [Hv [Hk [Hc Hm]]]]]].
        exists new. repeat split; auto.
        -- intros item Hin. destruct (Hi item Hin) as [q [H1 H2]].
           exists q. simpl; auto.
        -- intros q [<- | Hq'] Hin; auto.
    + apply IH in H. destruct H as [new [Hq [Hi [Hv [Hk [Hc Hm]]]]]].
      exists new. repeat split; auto.
      * intros item Hin. destruct (Hi item Hin) as [q [H1 H2]].
        exists q. simpl; auto.
      * intros q [<- | Hq'] Hin; auto.
        apply some_matches in Hin. congruence.
Qed.

Lemma trail_nonempty (firstStep pieces : list Piece) (dest pos : Pos)
    (rpath : list Pos) :
  trail firstStep pieces dest pos rpath ->
  exists tl, rpath = pos :: tl.
Proof. intros H. destruct H; eexists; reflexivity. Qed.

Lemma trail_first_test (firstStep pieces : list Piece) (dest pos : Pos)
    (rpath : list Pos) :
  trail firstStep pieces dest pos rpath ->
  (List.length rpath =? 1)%nat = pos_eqb pos dest.
Proof.
  intros H. destruct H as [| pos rpath p Ht Hp Ha Hn].
  - simpl. symmetry. apply pos_eqb_refl.
  - destruct (trail_nonempty _ _ _ _ _ Ht) as [tl ->]. simpl.
    symmetry. apply pos_eqb_neq. exact Hn.
Qed.

Lemma QInv_step (s : Piece) (firstStep pieces : list Piece) (dest : Pos)
    (pos : Pos) (path : list Pos) (rest : list (Pos * list Pos))
    (visited : list Pos) (queue' : list (Pos * list Pos))
    (visited' : list Pos) :
  QInv s firstStep pieces dest ((pos, path) :: rest) visited ->
  (fst pos =? piece_x s) && (snd pos =? piece_y s) = false ->
  expand pos path
    (if (List.length path =? 1)%nat then firstStep else pieces)
    rest visited = (queue', visited') ->
  QInv s firstStep pieces dest queue' visited' /\ incl visited visited'.
Proof.
  intros [Qd Qi Qb] Hne Hex.
  destruct (Qi pos path (or_introl eq_refl)) as [Hpv Htr].
  pose proof (trail_first_test _ _ _ _ _ Htr) as Hlen.
  rewrite length_rev in Hlen. rewrite Hlen in Hex.
  change (if pos_eqb pos dest then firstStep else pieces)
    with (considerOf firstStep pieces dest pos) in Hex.
  apply expand_spec in Hex.
  destruct Hex as [new [-> [Hi [Hv [Hk [Hc Hm]]]]]].
  split; [| exact Hv]. constructor.
  - apply Hv. exact Qd.
  - intros q pth Hin. apply in_app_iff in Hin. destruct Hin as [Hin | Hin].
    + destruct (Qi q pth (or_intror Hin)) as [H1 H2]. split; auto.
    + destruct (Hi _ Hin) as [p [H1 [H2 [H3 H4]]]].
      inversion H3; subst q pth; clear H3. split.
      * apply Hm. apply in_map_iff. exists (piece_key p, path ++ [piece_key p]).
        split; [reflexivity | exact Hin].
      * rewrite rev_unit. apply trail_step with (pos := pos); auto.
        intros E. apply H4. rewrite E. exact Qd.
  - intros k Hkv Hnq. rewrite map_app, in_app_iff in Hnq.
    destruct (Hk k Hkv) as [Hold | Hnew]; [| tauto].
    destruct (Pos_eq_dec k pos) as [-> | Hkp].
    + split.
      * intros E. rewrite E in Hne. unfold piece_key, keyXY in Hne. simpl in Hne.
        rewrite !Z.eqb_refl in Hne. discriminate.
      * intros p Hp Hin. apply Hc; assumption.
    + destruct (Qb k Hold) as [H1 H2].
      * simpl. intros [E | Hin]; [congruence | tauto].
      * split; [exact H1 |]. intros p Hp Hin. apply Hv. apply H2; assumption.
Qed.

Lemma searchLoop_inv (s : Piece) (firstStep pieces : list Piece) (dest : Pos) :
  forall fuel queue visited res,
  QInv s firstStep pieces dest queue visited ->
  searchLoop fuel s firstStep pieces queue visited = Done res ->
  match res with
  | Some result => trail firstStep pieces dest (piece_key s) result
  | None => exists visited', QInv s firstStep pieces dest [] visited'
  end.
Proof.
  induction fuel as [| fuel IH]; intros queue visited res HQ H; simpl in H;
    [discriminate |].
  destruct queue as [| [pos path] rest].
  - inversion H; subst. exists visited. exact HQ.
  - destruct ((fst pos =? piece_x s) && (snd pos =? piece_y s)) eqn:T.
    + inversion H; subst res; clear H.
      apply andb_true_iff in T. destruct T as [Tx Ty].
      apply Z.eqb_eq in Tx, Ty.
      destruct (q_items _ _ _ _ _ _ HQ pos path (or_introl eq_refl)) as [_ Ht].
      replace (piece_key s) with pos; [exact Ht |].
      destruct pos; simpl in *; subst; reflexivity.
    + destruct (expand pos path
                  (if (List.length path =? 1)%nat then firstStep else pieces)
                  rest visited) as [queue' visited'] eqn:E.
      destruct (QInv_step _ _ _ _ _ _ _ _ _ _ HQ T E) as [HQ' _].
      eapply IH; eassumption.
Qed.

Lemma pending_add (pieces : list Piece) (visited : list Pos) (p : Piece) :
  In p pieces -> ~ In (piece_key p) visited ->
  (pending pieces (add (piece_key p) visited) < pending pieces visited)%nat.
Proof.
  intros Hp Hn. unfold pending. apply filter_length_strict with (a := p).
  - intros x _ Hx. apply negb_true_iff, mem_not_In in Hx.
    apply negb_true_iff, mem_not_In. intros Hin. apply Hx. apply In_add. auto.
  - exact Hp.
  - apply negb_false_iff, mem_In, In_add. auto.
  - apply negb_true_iff, mem_not_In. exact Hn.
Qed.

Lemma expand_measure (pieces : list Piece) (pos : Pos) (path : list Pos)
    (consider : list Piece) :
  incl consider pieces ->
  forall queue visited queue' visited',
  expand pos path consider queue visited = (queue', visited') ->
  (List.length queue' + pending pieces visited'
   <= List.length queue + pending pieces visited)%nat.
Proof.
  induction consider as [| p rest IH]; intros Hincl queue visited queue' visited' H;
    simpl in H.
  - inversion H; subst. lia.
  - assert (Hrest : incl rest pieces)
      by (intros x Hx; apply Hincl; right; exact Hx).
    destruct (existsb (fun s => (fst s =? fst pos) && (snd s =? snd pos))
                (getAvailableSquares p)); [| eapply IH; eassumption].
    destruct (negb (mem (piece_key p) visited)) eqn:V;
      [| eapply IH; eassumption].
    apply negb_true_iff, mem_not_In in V.
    apply (IH Hrest) in H. rewrite length_app in H. simpl in H.
    pose proof (pending_add pieces visited p (Hincl p (or_introl eq_refl)) V).
    lia.
Qed.

Lemma searchLoop_total (s : Piece) (firstStep pieces : list Piece) :
  incl firstStep pieces ->
  forall fuel queue visited,
  (List.length queue + pending pieces visited < fuel)%nat ->
  exists res, searchLoop fuel s firstStep pieces queue visited = Done res.
Proof.
  intros Hincl. induction fuel as [| fuel IH]; intros queue visited Hm; [lia |].
  simpl. destruct queue as [| [pos path] rest]; [eexists; reflexivity |].
  destruct ((fst pos =? piece_x s) && (snd pos =? piece_y s));
    [eexists; reflexivity |].
  destruct (expand pos path
              (if (List.length path =? 1)%nat then firstStep else pieces)
              rest visited) as [queue' visited'] eqn:E.
  apply IH.
  apply (expand_measure pieces) in E.
  - simpl in Hm. lia.
  - destruct (List.length path =? 1)%nat; [exact Hincl | apply incl_refl].
Qed.

Lemma trail_last (firstStep pieces : list Piece) (dest pos : Pos)
    (rpath : list Pos) :
  trail firstStep pieces dest pos rpath ->
  rpath = [dest]
  \/ exists front p, rpath = front ++ [piece_key p; dest]
                     /\ In p firstStep /\ In dest (getAvailableSquares p).
Proof.
  induction 1 as [| pos rpath p Ht IH Hp Ha Hn]; [left; reflexivity |].
  right. destruct IH as [-> | [front [q [-> [Hq Hd]]]]].
  - destruct (trail_nonempty _ _ _ _ _ Ht) as [tl E].
    inversion E; subst pos tl; clear E.
    exists [], p. unfold considerOf in Hp. rewrite pos_eqb_refl in Hp.
    simpl. auto.
  - exists (piece_key p :: front), q. simpl. auto.
Qed.

Lemma trail_chain (b : Board) (firstStep pieces : list Piece)
    (dest pos : Pos) (rpath : list Pos) :
  incl firstStep pieces -> (forall p, In p pieces -> onBoard b p) ->
  trail firstStep pieces dest pos rpath -> chain b rpath.
Proof.
  intros Hincl Hon. induction 1 as [| pos rpath p Ht IH Hp Ha Hn]; simpl; auto.
  destruct (trail_nonempty _ _ _ _ _ Ht) as [tl ->].
  split; [| exact IH]. exists p. split; [| exact Ha].
  apply Hon. unfold considerOf in Hp.
  destruct (pos_eqb pos dest); [apply Hincl |]; exact Hp.
Qed.

Lemma hops_app (b : Board) (l1 l2 : list Pos) (x : Pos) :
  hops b (l1 ++ [x]) -> hops b (x :: l2) -> hops b (l1 ++ x :: l2).
Proof.
  induction l1 as [| a l1 IH]; intros H1 H2; simpl in *; [exact H2 |].
  destruct l1 as [| a' l1]; simpl in *.
  - destruct H1 as [H1 _]. split; assumption.
  - destruct H1 as [H1 H1']. split; [exact H1 | apply IH; assumption].
Qed.

Lemma chain_hops_rev (b : Board) (l : list Pos) : chain b l -> hops b (rev l).
Proof.
  induction l as [| y l IH]; intros H; simpl; auto.
  destruct l as [| x tl]; simpl; auto.
  destruct H as [Hh Hc]. specialize (IH Hc). simpl in IH.
  rewrite <- app_assoc. simpl. apply hops_app; [exact IH |].
  simpl. auto.
Qed.

Lemma piece_eqb_eq (p q : Piece) : piece_eqb p q = true <-> p = q.
Proof.
  unfold piece_eqb. destruct (Piece_eq_dec p q); split; congruence.
Qed.

Lemma In_addPiece (q p : Piece) (l : list Piece) :
  In q (addPiece p l) <-> q = p \/ In q l.
Proof.
  unfold addPiece. destruct (existsb (piece_eqb p) l) eqn:E.
  - apply existsb_exists in E. destruct E as [x [Hx He]].
    apply piece_eqb_eq in He. subst x.
    split; [auto | intros [-> | H]; assumption].
  - rewrite in_app_iff; simpl. intuition auto.
Qed.

Lemma In_deletePiece (q p : Piece) (l : list Piece) :
  In q (deletePiece p l) <-> In q l /\ q <> p.
Proof.
  unfold deletePiece. rewrite filter_In, negb_true_iff.
  split; intros [H1 H2]; split; auto.
  - intros ->. rewrite (proj2 (piece_eqb_eq p p) eq_refl) in H2. discriminate.
  - destruct (piece_eqb p q) eqn:E; [| reflexivity].
    apply piece_eqb_eq in E. congruence.
Qed.

Lemma collectPieces_spec (s : Piece) (b : Board) (keys : list Pos) :
  forall acc0 pieces,
  collectPieces s b keys acc0 = Done pieces ->
  forall p, In p pieces <->
    In p acc0 \/ exists k, In k keys /\ cellAt b k = Some p
                           /\ player p = player s.
Proof.
  induction keys as [| k rest IH]; intros acc0 pieces H p; simpl in H.
  - inversion H; subst. split; [auto | intros [? | [k [[] _]]]; assumption].
  - unfold unkeyXY in H. destruct k as [kx ky].
    destruct (boardRead b kx ky) as [cell | |] eqn:R; simpl in H;
      try discriminate.
    apply boardRead_Done in R.
    destruct cell as [t |].
    + destruct (player t =? player s) eqn:P.
      * apply Z.eqb_eq in P. rewrite (IH _ _ H p), In_addPiece. split.
        -- intros [[-> | Hp] | [k [Hk Hr]]]; auto.
           ++ right. exists (kx, ky). simpl. auto.
           ++ right. exists k. simpl. auto.
        -- intros [Hp | [k [[<- | Hk] [Hc Hpl]]]]; auto.
           ++ left. left. congruence.
           ++ right. exists k. auto.
      * apply Z.eqb_neq in P. rewrite (IH _ _ H p). split.
        -- intros [Hp | [k [Hk Hr]]]; auto. right. exists k. simpl. auto.
        -- intros [Hp | [k [[<- | Hk] [Hc Hpl]]]]; auto.
           ++ exfalso. apply P. congruence.
           ++ right. exists k. auto.
    + rewrite (IH _ _ H p). split.
      * intros [Hp | [k [Hk Hr]]]; auto. right. exists k. simpl. auto.
      * intros [Hp | [k [[<- | Hk] [Hc Hpl]]]]; auto.
        -- congruence.
        -- right. exists k. auto.
Qed.

Lemma collectPieces_total (s : Piece) (b : Board) (keys : list Pos) :
  shaped b ->
  (forall k, In k keys -> isValidPosition (fst k) (snd k) = true) ->
  forall acc0, exists pieces, collectPieces s b keys acc0 = Done pieces.
Proof.
  intros Hs. induction keys as [| k rest IH]; intros Hv acc0; simpl.
  - eexists; reflexivity.
  - assert (Hrest : forall k', In k' rest ->
              isValidPosition (fst k') (snd k') = true)
      by (intros k' Hk'; apply Hv; right; exact Hk').
    unfold unkeyXY. destruct k as [kx ky].
    rewrite (boardRead_valid b kx ky Hs (Hv (kx, ky) (or_introl eq_refl))).
    simpl. destruct (cellAt b (kx, ky)) as [t |]; [| apply IH; exact Hrest].
    destruct (player t =? player s); apply IH; exact Hrest.
Qed.

(** When the queue is empty no visited key belongs to a piece linked to the
    selected one: the search would have walked back to the selected piece. *)
Lemma search_exhausted (b : Board) (s : Piece) (firstStep pieces : list Piece)
    (dest : Pos) (visited : list Pos) :
  consistent b ->
  (forall t, linked b s t -> In t pieces) ->
  (cellAt b dest <> None -> firstStep = pieces) ->
  QInv s firstStep pieces dest [] visited ->
  forall t, linked b s t -> ~ In (piece_key t) visited.
Proof.
  intros Hcons Hall Hocc [Qd Qi Qb] t Hl.
  induction Hl as [| p t Hp IH [pos [Hpos [Hcell Hpl]]]]; intros Hin.
  - destruct (Qb _ Hin (fun f => f)) as [Hne _]. apply Hne. reflexivity.
  - apply IH. destruct (Qb _ Hin (fun f => f)) as [_ Hclosed].
    pose proof (Hcons _ _ Hcell) as Hkey.
    apply Hclosed; [| rewrite Hkey; exact Hpos].
    unfold considerOf. destruct (pos_eqb (piece_key t) dest) eqn:E.
    + apply pos_eqb_eq in E. rewrite Hocc; [apply Hall; exact Hp |].
      rewrite <- E, Hkey. congruence.
    + apply Hall. exact Hp.
Qed.

Lemma fair_sourceOrder : fair sourceOrder.
Proof. intros p l. simpl. split; apply Permutation_refl. Qed.

Lemma pending_le (pieces : list Piece) (visited : list Pos) :
  (pending pieces visited <= List.length pieces)%nat.
Proof. unfold pending. apply List.filter_length_le. Qed.

(** ** Path consistency *)

(** C1. For a consistent grid and a selected piece standing on it, the
    resolver returns, and for every destination [d] of its accessible set the
    path finder returns a non-empty path that starts on the selected piece's
    square and ends on [d]; read backwards, from [d] to the selected piece,
    every position is a raw candidate square of the piece standing on the
    next position; when [d] is empty the first such piece is not the
    selected one.  The path finder answers [null] only for a destination
    outside the accessible set. *)
Theorem path_consistency (b : Board) (s : Piece) :
  wf_board b -> onBoard b s ->
  exists r,
    getAllAccessibleSquaresForBoard s s b [] [] = Done r
    /\ (forall d, In d (accessibleSquares r) ->
          exists path,
            findMovementPathForBoard s d b = Done (Some path)
            /\ path <> []
            /\ hd_error path = Some (piece_key s)
            /\ hd_error (rev path) = Some d
            /\ hops b (rev path)
            /\ (cellAt b d = None ->
                forall y rest, rev path = d :: y :: rest ->
                               y <> piece_key s))
    /\ (forall d, findMovementPathForBoard s d b = Done None ->
          ~ In d (accessibleSquares r)).
Proof.
  intros Hwf Hon. pose proof Hwf as [Hs Hcons].
  destruct (resolve_characterised b s sourceOrder Hwf fair_sourceOrder Hon)
    as [r [Hr [Hvis [Hacc _]]]].
  exists r. split; [exact Hr |].
  assert (core : forall d, In d (accessibleSquares r) ->
            exists path,
              findMovementPathForBoard s d b = Done (Some path)
              /\ path <> []
              /\ hd_error path = Some (piece_key s)
              /\ hd_error (rev path) = Some d
              /\ hops b (rev path)
              /\ (cellAt b d = None ->
                  forall y rest, rev path = d :: y :: rest ->
                                 y <> piece_key s)).
  2: { split; [exact core |]. intros d Hnone Hd.
       destruct (core d Hd) as [path [Hp _]]. congruence. }
  intros d Hd.
  unfold findMovementPathForBoard, getAllAccessibleSquaresForBoard.
  rewrite Hr. cbn [bind].
  destruct (collectPieces_total s b (visitedPieces r) Hs) with (acc0 := @nil Piece)
    as [pieces Hcol].
  { intros k Hk. apply Hvis in Hk. destruct Hk as [t [Hl <-]].
    eapply cellAt_valid; [exact Hs |].
    exact (linked_onBoard b s t Hcons Hon Hl). }
  rewrite Hcol. cbn [bind].
  assert (Hpieces : forall p, In p pieces <-> linked b s p).
  { intros p. rewrite (collectPieces_spec s b _ _ _ Hcol p). split.
    - intros [[] | [k [Hk [Hc Hp]]]]. apply Hvis in Hk.
      destruct Hk as [t [Hl <-]].
      pose proof (linked_onBoard b s t Hcons Hon Hl) as Ht.
      unfold onBoard in Ht. congruence.
    - intros Hl. right. exists (piece_key p). split; [| split].
      + apply Hvis. exists p. auto.
      + exact (linked_onBoard b s p Hcons Hon Hl).
      + apply linked_player with (b := b). exact Hl. }
  assert (Hd' : chainAccessible b s d) by (apply Hacc; exact Hd).
  assert (Hvd : isValidPosition (fst d) (snd d) = true).
  { destruct Hd' as [[H _] | [t [_ [_ H]]]];
      eapply getAvailableSquares_valid; eassumption. }
  rewrite (boardRead_valid b _ _ Hs Hvd). cbn [bind].
  rewrite <- surjective_pairing. rewrite keyXY_eta.
  set (firstStep :=
         if match cellAt b d with None => true | Some _ => false end
         then deletePiece s pieces else pieces).
  assert (Hincl : incl firstStep pieces).
  { unfold firstStep. destruct (cellAt b d); [apply incl_refl |].
    intros p Hp. apply In_deletePiece in Hp. tauto. }
  assert (Hocc : cellAt b d <> None -> firstStep = pieces).
  { unfold firstStep. destruct (cellAt b d); [reflexivity | congruence]. }
  destruct (searchLoop_total s firstStep pieces Hincl
              (S (S (List.length pieces))) [(d, [d])] [d]) as [res Hres].
  { pose proof (pending_le pieces [d]). simpl. lia. }
  rewrite Hres.
  assert (HQ : QInv s firstStep pieces d [(d, [d])] [d]).
  { constructor.
    - simpl; auto.
    - intros pos path [E | []]. inversion E; subst. simpl.
      split; [auto | apply trail_start].
    - intros k [<- | []] Hn. exfalso. apply Hn. simpl. auto. }
  pose proof (searchLoop_inv s firstStep pieces d _ _ _ _ HQ Hres) as Hinv.
  destruct res as [path |].
  - exists path. split; [reflexivity |].
    destruct (trail_nonempty _ _ _ _ _ Hinv) as [tl Htl].
    split; [rewrite Htl; discriminate |].
    split; [rewrite Htl; reflexivity |].
    assert (Hlast : exists front, rev path = d :: front
              /\ forall y rest, front = y :: rest ->
                   exists p, In p firstStep /\ piece_key p = y).
    { destruct (trail_last _ _ _ _ _ Hinv) as [-> | [front [p [-> [Hp _]]]]].
      - exists []. split; [reflexivity | discriminate].
      - exists (piece_key p :: rev front). rewrite rev_app_distr. simpl.
        split; [reflexivity |]. intros y rest E. inversion E; subst.
        exists p. auto. }
    destruct Hlast as [front [Hrev Hfirst]].
    split; [rewrite Hrev; reflexivity |].
    split.
    + apply chain_hops_rev.
      apply (trail_chain b firstStep pieces d (piece_key s) path Hincl);
        [| exact Hinv].
      intros p Hp. apply Hpieces in Hp.
      exact (linked_onBoard b s p Hcons Hon Hp).
    + intros Hempty y rest E. rewrite Hrev in E. inversion E; subst front.
      destruct (Hfirst y rest eq_refl) as [p [Hp <-]].
      unfold firstStep in Hp. rewrite Hempty in Hp.
      apply In_deletePiece in Hp. destruct Hp as [Hp Hne].
      apply Hpieces in Hp.
      exact (linked_key_neq b s p Hcons Hon Hp Hne).
  - exfalso. destruct Hinv as [visited' HQ'].
    pose proof (search_exhausted b s firstStep pieces d visited' Hcons
                  (fun t Ht => proj2 (Hpieces t) Ht) Hocc HQ') as Hex.
    destruct HQ' as [Qd _ Qb].
    destruct (Qb d Qd (fun f => f)) as [_ Hclosed].
    unfold considerOf in Hclosed. rewrite pos_eqb_refl in Hclosed.
    destruct Hd' as [[Hin Ho] | [t [Hl [Hne Hin]]]].
    + apply (Hex s (linked_refl b s)). apply Hclosed; [| exact Hin].
      rewrite (Hocc Ho). apply Hpieces. apply linked_refl.
    + apply (Hex t Hl). apply Hclosed; [| exact Hin].
      unfold firstStep. destruct (cellAt b d).
      * apply Hpieces. exact Hl.
      * apply In_deletePiece. split; [apply Hpieces; exact Hl | exact Hne].
Qed.

(** ** The chain rule *)

(** C2. On a consistent grid an empty square is accessible from the selected
    piece [s] exactly when it is a raw candidate square of a linked piece
    other than [s].  So an empty raw candidate square of [s] itself is
    accessible only if a linked piece offers it too, and in a chain of two
    pieces (a friendly [t] on a raw candidate square of [s]) every empty raw
    candidate square of [t] is accessible, whether [s] offers it or not. *)
Theorem chain_rule (b : Board) (s : Piece) :
  wf_board b -> onBoard b s ->
  exists r,
    getAllAccessibleSquaresForBoard s s b [] [] = Done r
    /\ (forall z, cellAt b z = None ->
          (In z (accessibleSquares r) <->
           exists t, linked b s t /\ t <> s /\ In z (getAvailableSquares t)))
    /\ (forall z, In z (getAvailableSquares s) -> cellAt b z = None ->
          In z (accessibleSquares r) ->
          exists t, linked b s t /\ t <> s /\ In z (getAvailableSquares t))
    /\ (forall t z, link b s t -> t <> s ->
          In z (getAvailableSquares t) -> cellAt b z = None ->
          In z (accessibleSquares r)).
Proof.
  intros Hwf Hon.
  destruct (resolve_characterised b s sourceOrder Hwf fair_sourceOrder Hon)
    as [r [Hr [_ [Hacc _]]]].
  exists r. split; [exact Hr |].
  assert (Hiff : forall z, cellAt b z = None ->
            (In z (accessibleSquares r) <->
             exists t, linked b s t /\ t <> s /\ In z (getAvailableSquares t))).
  { intros z Hz. rewrite Hacc. unfold chainAccessible. split.
    - intros [[_ Ho] | H]; [contradiction | exact H].
    - intros H. right. exact H. }
  split; [exact Hiff |]. split.
  - intros z _ Hz Hin. apply (Hiff z Hz). exact Hin.
  - intros t z Hl Hne Hin Hz. apply (Hiff z Hz). exists t.
    split; [apply link_linked; exact Hl | auto].
Qed.

(** ** Order independence *)

Lemma fair_reverseOrder : fair reverseOrder.
Proof.
  intros p l. simpl. split; apply Permutation_sym, Permutation_rev.
Qed.

(** C4. Run with any two processing orders on the same consistent grid and
    selected piece, the resolver returns the same accessible squares and the
    same visited pieces, up to the order of insertion; in particular the
    visited-piece collections have the same size.  The source's own run is
    the one with [sourceOrder]. *)
Theorem resolver_order_independent (b : Board) (s : Piece)
    (ord1 ord2 : ProcessingOrder) :
  wf_board b -> onBoard b s -> fair ord1 -> fair ord2 ->
  exists r1 r2,
    resolve ord1 resolverFuel s s b [] [] = Done r1
    /\ resolve ord2 resolverFuel s s b [] [] = Done r2
    /\ Permutation (accessibleSquares r1) (accessibleSquares r2)
    /\ Permutation (visitedPieces r1) (visitedPieces r2)
    /\ List.length (visitedPieces r1) = List.length (visitedPieces r2).
Proof.
  intros Hwf Hon Hf1 Hf2.
  destruct (resolve_characterised b s ord1 Hwf Hf1 Hon)
    as [r1 [Hr1 [Hv1 [Ha1 [_ [Na1 Nv1]]]]]].
  destruct (resolve_characterised b s ord2 Hwf Hf2 Hon)
    as [r2 [Hr2 [Hv2 [Ha2 [_ [Na2 Nv2]]]]]].
  exists r1, r2. split; [exact Hr1 |]. split; [exact Hr2 |].
  assert (Pa : Permutation (accessibleSquares r1) (accessibleSquares r2)).
  { apply NoDup_Permutation; auto. intros k. rewrite Ha1, Ha2. tauto. }
  assert (Pv : Permutation (visitedPieces r1) (visitedPieces r2)).
  { apply NoDup_Permutation; auto. intros k. rewrite Hv1, Hv2. tauto. }
  split; [exact Pa |]. split; [exact Pv |].
  apply Permutation_length. exact Pv.
Qed.

(** ** Termination *)

(** C5. On a consistent grid the resolver returns for every selected piece
    standing on it: the fuel of the embedding is enough, and more fuel gives
    the same result.  A key enters the
    visited-piece set once, the second loop never calls the resolver on an
    occupant whose key is already visited, every visited key is the square
    of a piece, and so the visited-piece count is at most the number of
    pieces on the grid. *)
Theorem resolver_terminates (b : Board) (s : Piece) :
  wf_board b -> onBoard b s ->
  exists r,
    getAllAccessibleSquaresForBoard s s b [] [] = Done r
    /\ (forall fuel, (resolverFuel <= fuel)%nat ->
          resolve sourceOrder fuel s s b [] [] = Done r)
    /\ NoDup (visitedPieces r)
    /\ (forall k, In k (visitedPieces r) -> cellAt b k <> None)
    /\ (List.length (visitedPieces r) <= pieceCount b)%nat
    /\ (forall self piece origin target rest acc vpos vpcs,
          In (piece_key target) vpcs ->
          recurseLoop self piece origin (target :: rest) acc vpos vpcs
          = recurseLoop self piece origin rest
              (if player target =? player piece then acc
               else add (piece_key target) acc)
              vpos vpcs).
Proof.
  intros Hwf Hon. pose proof Hwf as [Hs Hcons].
  destruct (resolve_characterised b s sourceOrder Hwf fair_sourceOrder Hon)
    as [r [Hr [Hvis [_ [_ [_ Nv]]]]]].
  exists r. split; [exact Hr |].
  split; [intros fuel Hf; eapply resolve_fuel_mono; eassumption |].
  split; [exact Nv |].
  assert (Hocc : forall k, In k (visitedPieces r) -> cellAt b k <> None).
  { intros k Hk. apply Hvis in Hk. destruct Hk as [t [Hl <-]].
    pose proof (linked_onBoard b s t Hcons Hon Hl) as Ht.
    unfold onBoard in Ht. congruence. }
  split; [exact Hocc |]. split.
  - unfold pieceCount. apply NoDup_incl_length; [exact Nv |].
    intros k Hk. apply filter_In. split.
    + apply In_allSquares. specialize (Hocc k Hk).
      destruct (cellAt b k) as [p |] eqn:E; [| congruence].
      eapply cellAt_valid; eassumption.
    + specialize (Hocc k Hk). destruct (cellAt b k); congruence.
  - intros self piece origin target rest acc vpos vpcs Hin. simpl.
    apply mem_In in Hin. rewrite Hin. simpl. rewrite andb_false_r.
    destruct (player target =? player piece); reflexivity.
Qed.

(** ** Bounds *)

Lemma recurseLoop_no_TypeError
    (self : Piece -> list Pos -> list Pos -> Outcome Resolved)
    (piece origin : Piece) :
  (forall t vp vq, self t vp vq <> TypeError) ->
  forall targets acc vpos vpcs,
  recurseLoop self piece origin targets acc vpos vpcs <> TypeError.
Proof.
  intros Hself. induction targets as [| target rest IH]; intros acc vpos vpcs;
    simpl; [discriminate |].
  destruct ((player target =? player piece)
            && negb (mem (piece_key target) vpcs)).
  - destruct (negb (pos_eqb (piece_key target) (piece_key origin)));
      [| apply IH].
    destruct (self target vpos vpcs) as [res | |] eqn:R; simpl.
    + apply IH.
    + exfalso. exact (Hself _ _ _ R).
    + discriminate.
  - destruct (negb (player target =? player piece)); apply IH.
Qed.

Lemma resolve_no_TypeError (b : Board) (ord : ProcessingOrder)
    (origin : Piece) :
  shaped b ->
  forall fuel piece vpos vpcs,
  resolve ord fuel piece origin b vpos vpcs <> TypeError.
Proof.
  intros Hs. induction fuel as [| fuel IH]; intros piece vpos vpcs; simpl;
    [discriminate |].
  destruct (scanAvailable_total b (getAvailableSquares piece) Hs [] [])
    as [[acc1 poa] ->]. simpl.
  destruct (recurseLoop
              (fun t vp vq => resolve ord fuel t origin b vp vq)
              piece origin (recurseOrder ord piece poa) acc1 vpos
              (add (piece_key piece) vpcs))
    as [[[acc2 vpos2] vpcs2] | |] eqn:R; simpl.
  - destruct (harvestLoop piece origin (harvestOrder ord piece poa) acc2 vpos2).
    discriminate.
  - exfalso. revert R. apply recurseLoop_no_TypeError. intros t vp vq. apply IH.
  - discriminate.
Qed.

(** C9. Every square returned by [getAvailableSquares] is on the grid.  On a
    consistent grid every square of the resolver's accessible set is
    therefore on the grid too; a read [board[y][x]] at a valid position finds
    its row and its cell, and the resolver, which only reads at such
    positions, never raises. *)
Theorem squares_on_board (b : Board) (s : Piece) :
  wf_board b -> onBoard b s ->
  (forall p q, In q (getAvailableSquares p) ->
     0 <= fst q < BOARD_WIDTH /\ 0 <= snd q < BOARD_HEIGHT)
  /\ (exists r,
        getAllAccessibleSquaresForBoard s s b [] [] = Done r
        /\ forall k, In k (accessibleSquares r) ->
             0 <= fst k < BOARD_WIDTH /\ 0 <= snd k < BOARD_HEIGHT)
  /\ (forall x y, isValidPosition x y = true ->
        exists row cell, nth_js b y = Some row /\ nth_js row x = Some cell
                         /\ boardRead b x y = Done cell)
  /\ (forall ord fuel piece origin vpos vpcs,
        resolve ord fuel piece origin b vpos vpcs <> TypeError).
Proof.
  intros Hwf Hon. pose proof Hwf as [Hs Hcons].
  assert (Hav : forall p q, In q (getAvailableSquares p) ->
            0 <= fst q < BOARD_WIDTH /\ 0 <= snd q < BOARD_HEIGHT).
  { intros p q Hq. apply getAvailableSquares_valid in Hq.
    apply isValidPosition_spec in Hq. exact Hq. }
  split; [exact Hav |]. split; [| split].
  - destruct (resolve_characterised b s sourceOrder Hwf fair_sourceOrder Hon)
      as [r [Hr [_ [Hacc _]]]].
    exists r. split; [exact Hr |]. intros k Hk. apply Hacc in Hk.
    destruct Hk as [[H _] | [t [_ [_ H]]]]; eapply Hav; eassumption.
  - intros x y Hv. apply isValidPosition_spec in Hv. destruct Hs as [Hl Hr].
    destruct (nth_js_in_range b y) as [row [Hrow Hin]].
    { rewrite Hl. unfold BOARD_HEIGHT. lia. }
    rewrite Forall_forall in Hr.
    destruct (nth_js_in_range row x) as [cell [Hcell _]].
    { rewrite (Hr row Hin). unfold BOARD_WIDTH. lia. }
    exists row, cell. unfold boardRead. rewrite Hrow, Hcell. auto.
  - intros ord fuel piece origin vpos vpcs.
    apply resolve_no_TypeError. exact Hs.
Qed.

(** ** The rotation transform *)

(** C8. For the four right angles [rotateDir] is the fixed lookup, and
    rotating by [r] and then by [(360 - r) mod 360] gives back the vector,
    for every integer vector. *)
Theorem rotateDir_roundtrip (dx dy r : Z) :
  In r [0; 90; 180; 270] ->
  (let v := rotateDir dx dy r in
   rotateDir (fst v) (snd v) ((360 - r) mod 360) = (dx, dy))
  /\ rotateDir dx dy 0 = (dx, dy)
  /\ rotateDir dx dy 90 = (- dy, dx)
  /\ rotateDir dx dy 180 = (- dx, - dy)
  /\ rotateDir dx dy 270 = (dy, - dx).
Proof.
  intros Hr. split; [| repeat split; reflexivity].
  simpl in Hr.
  destruct Hr as [<- | [<- | [<- | [<- | []]]]]; unfold rotateDir; simpl;
    f_equal; lia.
Qed.

(** C10. For every rotation that is a multiple of 90, the offsets of a
    player-2 piece before the bounds filter are the negations, one by one, of
    the offsets of a player-1 piece of the same type (the same base type:
    the trailing "e" of the player-2 art is dropped by the lookup). *)
Theorem offsets_point_reflection (type1 type2 : string) (k : Z) :
  strip_e type2 = strip_e type1 ->
  candidateOffsets type2 2 (90 * k)
  = map (fun d => (- fst d, - snd d)) (candidateOffsets type1 1 (90 * k)).
Proof.
  intros Ht. unfold candidateOffsets.
  set (angle := Z.rem (- Z.rem (Z.rem (90 * k) 360 + 360) 360 + 360) 360).
  assert (Ha : angle = 0 \/ angle = 90 \/ angle = 180 \/ angle = 270).
  { unfold angle.
    pose proof (Z.rem_bound_abs (90 * k) 360).
    assert (E : exists q, Z.rem (90 * k) 360 = 90 * q).
    { exists (k - 4 * Z.quot (90 * k) 360).
      pose proof (Z.quot_rem' (90 * k) 360). lia. }
    destruct E as [q Eq]. rewrite Eq in *.
    assert (Hq : -3 <= q <= 3) by lia.
    assert (Hc : q = -3 \/ q = -2 \/ q = -1 \/ q = 0 \/ q = 1 \/ q = 2 \/ q = 3)
      by lia.
    destruct Hc as [-> | [-> | [-> | [-> | [-> | [-> | ->]]]]]];
      vm_compute; auto. }
  rewrite map_map. unfold baseDirs. rewrite Ht.
  change (2 =? 1) with false. change (1 =? 1) with true. cbv iota.
  destruct (strip_e type1 =? "PR")%string;
    [| destruct (strip_e type1 =? "PL")%string;
       [| destruct (strip_e type1 =? "PX")%string;
          [| destruct (strip_e type1 =? "DP")%string;
             [| destruct (strip_e type1 =? "DT")%string;
                [| destruct (strip_e type1 =? "DN")%string;
                   [| destruct (strip_e type1 =? "C")%string]]]]]];
    destruct Ha as [-> | [-> | [-> | ->]]]; reflexivity.
Qed.

(** ** The "PR" piece *)

(** C6.  In [game.js] the unrotated offsets of a "PR" piece are left and
    right+backward: (-1, 0) and (1, 1) for player 1, their mirror images for
    player 2.  In [main.js] the second offset is right+forward: (1, -1) for
    player 1 and (-1, 1) for player 2; its "PR" on (2, 6) offers (1, 6) and
    (3, 5), where the one of [game.js] offers (1, 6) and (3, 7). *)
Theorem pr_offsets :
  candidateOffsets "PR" 1 0 = [(-1, 0); (1, 1)]
  /\ candidateOffsets "PRe" 2 0 = [(1, 0); (-1, -1)]
  /\ getAvailableSquares (newPiece 10 2 6 "PR" 1) = [(1, 6); (3, 7)]
  /\ MainJs.unrotatedOffsets "PR" 1 = [(-1, 0); (1, -1)]
  /\ MainJs.unrotatedOffsets "PRe" 2 = [(1, 0); (-1, 1)]
  /\ MainJs.getAvailableSquares0 2 6 "PR" 1 = [(1, 6); (3, 5)].
Proof. repeat split; reflexivity. Qed.

(** ** Promotion *)

Lemma nth_error_setNth {A : Type} (l : list A) (i j : nat) (a : A) :
  nth_error (setNth l i a) j
  = if (i =? j)%nat
    then match nth_error l i with Some _ => Some a | None => None end
    else nth_error l j.
Proof.
  revert i j. induction l as [| h t IH]; intros i j; simpl.
  - destruct (i =? j)%nat; destruct i, j; reflexivity.
  - destruct i as [| i], j as [| j]; simpl; try reflexivity. apply IH.
Qed.

Lemma nth_js_setNth {A : Type} (l : list A) (i j : Z) (a : A) :
  0 <= i ->
  nth_js (setNth l (Z.to_nat i) a) j
  = if i =? j
    then match nth_js l i with Some _ => Some a | None => None end
    else nth_js l j.
Proof.
  intros Hi. unfold nth_js. destruct (j <? 0) eqn:Hj.
  - apply Z.ltb_lt in Hj. destruct (i =? j) eqn:E; [| reflexivity].
    apply Z.eqb_eq in E. lia.
  - apply Z.ltb_ge in Hj. rewrite nth_error_setNth.
    destruct (i =? j) eqn:E.
    + apply Z.eqb_eq in E. subst j.
      rewrite Nat.eqb_refl. destruct (i <? 0) eqn:Hi'; [| reflexivity].
      apply Z.ltb_lt in Hi'. lia.
    + apply Z.eqb_neq in E.
      destruct (Z.to_nat i =? Z.to_nat j)%nat eqn:N; [| reflexivity].
      apply Nat.eqb_eq in N. lia.
Qed.

Lemma gridRead_gridWrite_None (g : Grid) (x y x' y' : Z) :
  gridRead g x' y' = None ->
  gridRead (gridWrite g x y None) x' y' = None.
Proof.
  intros H. unfold gridWrite.
  destruct (nth_js g y) as [row |] eqn:R; [| exact H].
  destruct (nth_js row x) as [c |] eqn:C; [| exact H].
  pose proof (nth_js_Some _ _ _ R) as Ry. pose proof (nth_js_Some _ _ _ C) as Cx.
  unfold gridRead in *. rewrite nth_js_setNth by lia. rewrite R.
  destruct (y =? y') eqn:Ey; [| exact H].
  apply Z.eqb_eq in Ey. subst y'. rewrite R in H.
  rewrite nth_js_setNth by lia. rewrite C.
  destruct (x =? x'); [reflexivity | exact H].
Qed.

Lemma gridRead_gridWrite_same (g : Grid) (x y : Z) :
  gridRead (gridWrite g x y None) x y = None.
Proof.
  unfold gridWrite.
  destruct (nth_js g y) as [row |] eqn:R.
  - destruct (nth_js row x) as [c |] eqn:C.
    + pose proof (nth_js_Some _ _ _ R). pose proof (nth_js_Some _ _ _ C).
      unfold gridRead. rewrite nth_js_setNth by lia. rewrite R, Z.eqb_refl.
      rewrite nth_js_setNth by lia. rewrite C, Z.eqb_refl. reflexivity.
    + unfold gridRead. rewrite R, C. reflexivity.
  - unfold gridRead. rewrite R. reflexivity.
Qed.

Lemma firstn_removeNth {A : Type} (i : nat) (l : list A) :
  firstn i (removeNth i l) = firstn i l.
Proof.
  revert l. induction i as [| i IH]; intros [| h t]; simpl; try reflexivity.
  f_equal. apply IH.
Qed.

Lemma skipn_removeNth {A : Type} (i : nat) (l : list A) :
  skipn i (removeNth i l) = skipn (S i) l.
Proof.
  revert l. induction i as [| i IH]; intros [| h t]; simpl; try reflexivity.
  apply IH.
Qed.

Lemma length_removeNth {A : Type} (i : nat) (l : list A) :
  (i < List.length l)%nat ->
  (List.length (removeNth i l) + 1 = List.length l)%nat.
Proof.
  revert l. induction i as [| i IH]; intros [| h t] H; simpl in *; try lia.
  specialize (IH t). lia.
Qed.

Lemma firstn_S_nth {A : Type} (i : nat) (l : list A) (a : A) :
  nth_error l i = Some a ->
  firstn (S i) l = firstn i l ++ [a] /\ skipn i l = a :: skipn (S i) l.
Proof.
  revert l. induction i as [| i IH]; intros [| h t] H; simpl in *;
    try discriminate.
  - inversion H; subst. auto.
  - destruct (IH t H) as [H1 H2]. rewrite H1. simpl in H2. auto.
Qed.

Lemma promotionLoop_spec (n : nat) :
  forall ps g scores ps' g' scores',
  (n <= List.length ps)%nat ->
  promotionLoop n ps g scores = (ps', g', scores') ->
  ps' = filter (fun p => negb (promotes p)) (firstn n ps) ++ skipn n ps
  /\ fst scores' = fst scores + gain1 (firstn n ps)
  /\ snd scores' = snd scores + gain2 (firstn n ps)
  /\ (forall x y, gridRead g x y = None -> gridRead g' x y = None)
  /\ (forall p, In p (firstn n ps) -> promotes p = true ->
        gridRead g' (piece_x p) (piece_y p) = None).
Proof.
  induction n as [| i IH]; intros ps g scores ps' g' scores' Hn H; simpl in H.
  - inversion H; subst. simpl. unfold gain1, gain2. simpl.
    repeat split; auto; try lia.
  - destruct (nth_error ps i) as [p |] eqn:Np.
    2: { apply nth_error_None in Np. lia. }
    destruct (firstn_S_nth i ps p Np) as [Hf Hs].
    destruct (promotes p) eqn:Pp.
    + apply IH in H.
      2: { pose proof (length_removeNth i ps). lia. }
      rewrite firstn_removeNth, skipn_removeNth in H.
      destruct H as [H1 [H2 [H3 [H4 H5]]]].
      rewrite Hf, filter_app. simpl. rewrite Pp. simpl. rewrite app_nil_r.
      unfold gain1, gain2 in *. rewrite !filter_app, !length_app. simpl.
      rewrite Pp. simpl. unfold addScore in H2, H3.
      destruct (player p =? 1) eqn:P1; simpl in *;
        (split; [exact H1 |]); (split; [lia |]); (split; [lia |]); split.
      * intros x y Hxy. apply H4. apply gridRead_gridWrite_None. exact Hxy.
      * intros q Hq Hpq. apply in_app_iff in Hq. destruct Hq as [Hq | [<- | []]].
        -- apply H5; assumption.
        -- apply H4. apply gridRead_gridWrite_same.
      * intros x y Hxy. apply H4. apply gridRead_gridWrite_None. exact Hxy.
      * intros q Hq Hpq. apply in_app_iff in Hq. destruct Hq as [Hq | [<- | []]].
        -- apply H5; assumption.
        -- apply H4. apply gridRead_gridWrite_same.
    + apply IH in H; [| lia].
      destruct H as [H1 [H2 [H3 [H4 H5]]]].
      rewrite Hs in H1.
      rewrite Hf, filter_app. cbn [filter]. rewrite Pp. cbn [negb].
      rewrite <- app_assoc. cbn [app].
      unfold gain1, gain2 in *. rewrite !filter_app, !length_app.
      cbn [filter]. rewrite Pp. cbn [andb List.length].
      split; [exact H1 |]. split; [lia |]. split; [lia |]. split; [exact H4 |].
      intros q Hq Hpq. apply in_app_iff in Hq. destruct Hq as [Hq | [<- | []]].
      * apply H5; assumption.
      * congruence.
Qed.

Lemma arrive_not_moving (p : Piece) : isMoving (arrive p) = false.
Proof. unfold arrive. destruct (isMoving p) eqn:E; [reflexivity | exact E]. Qed.

Lemma arrived_all (ps : list Piece) (ids : list Z) :
  forallb
    (fun id => negb match findPiece id (map arrive ps) with
                    | Some p => isMoving p
                    | None => false
                    end) ids = true.
Proof.
  apply forallb_forall. intros id _. unfold findPiece.
  destruct (find (fun p => piece_id p =? id) (map arrive ps)) as [p |] eqn:F;
    [| reflexivity].
  apply find_some in F. destruct F as [Hin _].
  apply in_map_iff in Hin. destruct Hin as [q [<- _]].
  rewrite arrive_not_moving. reflexivity.
Qed.

Lemma resetFlags_ids (cp : Z) (ps : list Piece) :
  map piece_id (resetFlags cp ps) = map piece_id ps.
Proof.
  unfold resetFlags. rewrite map_map. apply map_ext. intros p.
  destruct (player p =? cp); [reflexivity |].
  destruct (movedLastTurn p); reflexivity.
Qed.

Lemma resetFlags_clears (cp : Z) (ps : list Piece) (p : Piece) :
  In p (resetFlags cp ps) -> movedLastTurn p = false.
Proof.
  unfold resetFlags. intros H. apply in_map_iff in H.
  destruct H as [q [<- _]].
  destruct (player q =? cp); [reflexivity |].
  destruct (movedLastTurn q) eqn:E; [reflexivity | exact E].
Qed.

Lemma resetFlags_player (cp : Z) (ps : list Piece) (p : Piece) :
  In p (resetFlags cp ps) -> exists q, In q ps /\ player p = player q.
Proof.
  unfold resetFlags. intros H. apply in_map_iff in H.
  destruct H as [q [<- Hq]]. exists q. split; [exact Hq |].
  destruct (player q =? cp); [reflexivity |].
  destruct (movedLastTurn q); reflexivity.
Qed.

Lemma filter_andb {A : Type} (f h : A -> bool) (l : list A) :
  filter (fun a => f a && h a) l = filter h (filter f l).
Proof.
  induction l as [| a l IH]; simpl; [reflexivity |].
  destruct (f a); simpl; [destruct (h a); rewrite IH |]; auto.
Qed.

Lemma update_end (g : Game) :
  piecesAreAnimating g = true ->
  exists ps' grid scores,
    promotionLoop (List.length (map arrive (pieces g))) (map arrive (pieces g))
      (rebuildBoard (map arrive (pieces g))) (playerScores g)
    = (ps', grid, scores)
    /\ board (update g) = grid
    /\ playerScores (update g) = scores
    /\ (pieces (update g) = ps' /\ currentPlayer (update g) = currentPlayer g
        /\ gameOver (update g) = true
        \/ pieces (update g)
           = resetFlags (if currentPlayer g =? 1 then 2 else 1) ps'
           /\ currentPlayer (update g) = (if currentPlayer g =? 1 then 2 else 1)
           /\ gameOver (update g) = false).
Proof.
  intros Ha. unfold update. rewrite Ha, arrived_all. cbn [andb].
  destruct (promotionLoop (List.length (map arrive (pieces g)))
              (map arrive (pieces g)) (rebuildBoard (map arrive (pieces g)))
              (playerScores g)) as [[ps' grid] scores].
  exists ps', grid, scores. split; [reflexivity |].
  cbn [gameOver].
  destruct (gameOver g || ((6 <=? fst scores) || (6 <=? snd scores))) eqn:O;
    cbn [negb].
  - repeat split; auto.
  - cbn [endTurn board playerScores pieces currentPlayer gameOver].
    repeat split; auto.
Qed.

(** The promotion loop of [update], as the code has it.  When the moving
    pieces have arrived, [update] checks every piece: the pieces that leave the collection are exactly the
    promotable pieces standing on their owner's far row, each of their
    squares is cleared on the grid, and each player's score grows by the
    number of his pieces that left.  When one piece is in that case, one
    piece leaves and its owner's score grows by exactly 1. *)
Theorem promotion_of_update (g : Game) :
  piecesAreAnimating g = true ->
  map piece_id (pieces (update g))
  = map piece_id
      (filter (fun p => negb (promotes p)) (map arrive (pieces g)))
  /\ playerScores (update g)
     = (fst (playerScores g) + gain1 (map arrive (pieces g)),
        snd (playerScores g) + gain2 (map arrive (pieces g)))
  /\ (forall p, In p (map arrive (pieces g)) -> promotes p = true ->
        gridRead (board (update g)) (piece_x p) (piece_y p) = None)
  /\ (forall m, filter promotes (map arrive (pieces g)) = [m] ->
        (List.length (pieces (update g)) + 1 = List.length (pieces g))%nat
        /\ playerScores (update g) = addScore (playerScores g) (player m)).
Proof.
  intros Ha. destruct (update_end g Ha) as [ps' [grid [scores [HL [Hb [Hs Hp]]]]]].
  apply promotionLoop_spec in HL; [| lia].
  rewrite firstn_all, skipn_all, app_nil_r in HL.
  destruct HL as [H1 [H2 [H3 [_ H5]]]].
  assert (Hids : map piece_id (pieces (update g)) = map piece_id ps').
  { destruct Hp as [[-> _] | [-> _]]; [reflexivity | apply resetFlags_ids]. }
  assert (Hsc : playerScores (update g)
                = (fst (playerScores g) + gain1 (map arrive (pieces g)),
                   snd (playerScores g) + gain2 (map arrive (pieces g)))).
  { rewrite Hs. destruct scores as [s1 s2]. simpl in H2, H3. congruence. }
  split; [rewrite Hids, H1; reflexivity |].
  split; [exact Hsc |].
  split; [rewrite Hb; exact H5 |].
  intros m Hm. split.
  - rewrite <- (length_map piece_id), Hids, length_map, H1.
    pose proof (filter_length promotes (map arrive (pieces g))) as HF.
    rewrite Hm in HF. simpl in HF. rewrite length_map in HF. lia.
  - rewrite Hsc. unfold gain1, gain2, addScore.
    rewrite !filter_andb, Hm. simpl.
    destruct (player m =? 1); simpl; f_equal; lia.
Qed.

(** ** Selection after a move *)

Lemma updatePiece_flags (id : Z) (f : Piece -> Piece) (ps : list Piece) :
  (forall p, movedLastTurn (f p) = movedLastTurn p) ->
  map movedLastTurn (updatePiece id f ps) = map movedLastTurn ps.
Proof.
  intros Hf. unfold updatePiece. rewrite map_map. apply map_ext. intros p.
  destruct (piece_id p =? id); [apply Hf | reflexivity].
Qed.

Lemma commitMove_flags (g : Game) (sel : Piece) (sq : Pos) (path : list Pos) :
  map movedLastTurn (pieces (commitMove g sel sq path))
  = map movedLastTurn (pieces g).
Proof.
  unfold commitMove. destruct (gridRead (board g) (fst sq) (snd sq)); simpl;
    rewrite ?updatePiece_flags; auto.
Qed.

Lemma resetFlags_selectable (cp : Z) (ps : list Piece) (p : Piece) :
  In p (resetFlags cp ps) -> player p = cp -> canBeSelected p cp = true.
Proof.
  unfold resetFlags, canBeSelected. intros H Hp. apply in_map_iff in H.
  destruct H as [q [<- _]]. destruct (player q =? cp) eqn:E.
  - simpl. rewrite E. reflexivity.
  - exfalso. apply Z.eqb_neq in E. apply E.
    destruct (movedLastTurn q); exact Hp.
Qed.

(** C7, as the code has it.  A move or swap started by [onPointerDown]
    marks no piece: the [movedLastTurn] flags are those from before.  When
    the move is over and the game goes on, [update] ends the turn: no piece
    is marked ([endTurn] clears the flag on every piece, so a mark set before
    it would not survive either), the turn has passed to the other player,
    the pieces of the player who moved, the moved one among them, are
    refused by [canBeSelected] because they are not the new player's, and
    every piece of the new player can be selected. *)
Theorem selection_after_move (g : Game) :
  (forall sq g1, onPointerDown_selected g sq = Done g1 ->
     map movedLastTurn (pieces g1) = map movedLastTurn (pieces g))
  /\ (piecesAreAnimating g = true -> gameOver (update g) = false ->
      (forall p, In p (pieces (update g)) -> movedLastTurn p = false)
      /\ currentPlayer (update g) = otherPlayer (currentPlayer g)
      /\ (forall p, In p (pieces (update g)) -> player p = currentPlayer g ->
            canBeSelected p (currentPlayer (update g)) = false)
      /\ (forall p, In p (pieces (update g)) ->
            player p = currentPlayer (update g) ->
            canBeSelected p (currentPlayer (update g)) = true))
  /\ (forall cp ps p, In p (resetFlags cp ps) -> movedLastTurn p = false).
Proof.
  split; [| split].
  - intros sq g1 H. unfold onPointerDown_selected in H.
    destruct (gameOver g); [inversion H; reflexivity |].
    destruct (currentPlayer g =? BOT_PLAYER); [inversion H; reflexivity |].
    destruct (piecesAreAnimating g); [inversion H; reflexivity |].
    destruct (selectedPiece g) as [sid |]; [| inversion H; reflexivity].
    destruct (findPiece sid (pieces g)) as [sel |]; [| inversion H; reflexivity].
    destruct ((fst sq =? piece_x sel) && (snd sq =? piece_y sel));
      [inversion H; reflexivity |].
    destruct (mem (keyXY (fst sq) (snd sq)) (highlightedPositions g));
      [| inversion H; reflexivity].
    destruct (findMovementPathForBoard sel sq (viewBoard (pieces g) (board g)))
      as [[path |] | |]; simpl in H; inversion H; subst;
      [apply commitMove_flags | reflexivity].
  - intros Ha Hgo. destruct (update_end g Ha) as [ps' [grid [scores [_ [_ [_ Hp]]]]]].
    destruct Hp as [[_ [_ Ho]] | [Hps [Hcp _]]]; [congruence |].
    split; [| split; [| split]].
    + intros p Hp. rewrite Hps in Hp. eapply resetFlags_clears; eassumption.
    + rewrite Hcp. reflexivity.
    + intros p Hp Hpl. unfold canBeSelected. rewrite Hcp, Hpl.
      destruct (currentPlayer g =? 1) eqn:E.
      * apply Z.eqb_eq in E. rewrite E. reflexivity.
      * rewrite E. reflexivity.
    + intros p Hp Hpl. rewrite Hps in Hp. rewrite Hcp in *.
      eapply resetFlags_selectable; eassumption.
  - intros cp ps p. apply resetFlags_clears.
Qed.

(** ** Checking concrete grids *)

Lemma wf_boardb_sound (b : Board) : wf_boardb b = true -> wf_board b.
Proof.
  unfold wf_boardb. rewrite !andb_true_iff.
  intros [[Hl Hr] Hc]. apply Nat.eqb_eq in Hl.
  assert (Hs : shaped b).
  { split; [exact Hl |]. apply Forall_forall. intros row Hrow.
    rewrite forallb_forall in Hr. apply Nat.eqb_eq. apply Hr. exact Hrow. }
  split; [exact Hs |]. intros k p Hk.
  rewrite forallb_forall in Hc.
  assert (Hin : In k allSquares).
  { apply In_allSquares. eapply cellAt_valid; eassumption. }
  specialize (Hc k Hin). rewrite Hk in Hc. apply pos_eqb_eq. exact Hc.
Qed.

(** ** Further properties of the resolver and the path finder *)

Lemma linked_first (b : Board) (s t : Piece) :
  linked b s t -> t <> s -> exists u, link b s u.
Proof.
  induction 1 as [| p t Hp IH Hl]; intros Hne; [contradiction |].
  destruct (Piece_eq_dec p s) as [-> | Hps]; [exists t; exact Hl | auto].
Qed.

(** X1. On a consistent grid a piece can go somewhere exactly when one of
    its raw candidate squares is occupied: the accessible set is empty if
    and only if every raw candidate square of the selected piece is empty. *)
Theorem movable_iff_neighbour (b : Board) (s : Piece) :
  wf_board b -> onBoard b s ->
  exists r,
    getAllAccessibleSquaresForBoard s s b [] [] = Done r
    /\ (accessibleSquares r = [] <->
        forall q, In q (getAvailableSquares s) -> cellAt b q = None).
Proof.
  intros Hwf Hon.
  destruct (resolve_characterised b s sourceOrder Hwf fair_sourceOrder Hon)
    as [r [Hr [_ [Hacc _]]]].
  exists r. split; [exact Hr |]. split.
  - intros He q Hq. destruct (cellAt b q) as [p |] eqn:E; [| reflexivity].
    exfalso. assert (Hin : In q (accessibleSquares r)).
    { apply Hacc. left. split; [exact Hq | congruence]. }
    rewrite He in Hin. exact Hin.
  - intros Hall. destruct (accessibleSquares r) as [| k rest] eqn:E;
      [reflexivity |].
    exfalso. assert (Hk : chainAccessible b s k)
      by (apply Hacc; left; reflexivity).
    destruct Hk as [[Hq Ho] | [t [Hl [Hne _]]]].
    + apply Ho. apply Hall. exact Hq.
    + destruct (linked_first b s t Hl Hne) as [u [pos [Hpos [Hc _]]]].
      rewrite (Hall pos Hpos) in Hc. discriminate.
Qed.

Lemma expand_paths (pos : Pos) (path : list Pos) (consider : list Piece) :
  forall queue visited queue' visited',
  NoDup path -> incl path visited ->
  (forall item, In item queue ->
     NoDup (snd item) /\ incl (snd item) visited) ->
  expand pos path consider queue visited = (queue', visited') ->
  forall item, In item queue' ->
    NoDup (snd item) /\ incl (snd item) visited'.
Proof.
  intros queue visited queue' visited' Hnd Hin Hq He.
  apply expand_spec in He.
  destruct He as [new [-> [Hi [Hv [_ [_ Hm]]]]]].
  intros item Hitem. apply in_app_iff in Hitem. destruct Hitem as [H | H].
  - destruct (Hq item H) as [H1 H2]. split; [exact H1 |].
    eapply incl_tran; eassumption.
  - destruct (Hi item H) as [p [_ [_ [-> Hfresh]]]]. simpl. split.
    + apply NoDup_rev in Hnd. rewrite <- (rev_involutive (path ++ _)).
      apply NoDup_rev. rewrite rev_app_distr. simpl. constructor; auto.
      rewrite <- in_rev. intros Hc. apply Hfresh. apply Hin. exact Hc.
    + intros x Hx. apply in_app_iff in Hx. destruct Hx as [Hx | [<- | []]].
      * apply Hv. apply Hin. exact Hx.
      * apply Hm. apply in_map_iff.
        exists (piece_key p, path ++ [piece_key p]). auto.
Qed.

Lemma searchLoop_nodup (s : Piece) (firstStep pieces : list Piece) :
  forall fuel queue visited result,
  (forall item, In item queue ->
     NoDup (snd item) /\ incl (snd item) visited) ->
  searchLoop fuel s firstStep pieces queue visited = Done (Some result) ->
  NoDup result.
Proof.
  induction fuel as [| fuel IH]; intros queue visited result Hq H; simpl in H;
    [discriminate |].
  destruct queue as [| [pos path] rest]; [discriminate |].
  destruct (Hq (pos, path) (or_introl eq_refl)) as [Hnd Hin]. simpl in Hnd, Hin.
  destruct ((fst pos =? piece_x s) && (snd pos =? piece_y s)).
  - inversion H; subst. apply NoDup_rev. exact Hnd.
  - destruct (expand pos path
                (if (List.length path =? 1)%nat then firstStep else pieces)
                rest visited) as [queue' visited'] eqn:E.
    eapply IH; [| exact H].
    eapply expand_paths; [exact Hnd | exact Hin | | exact E].
    intros item Hitem. apply Hq. right. exact Hitem.
Qed.

Lemma trail_owners (firstStep pieces : list Piece) (dest pos : Pos)
    (rpath : list Pos) :
  incl firstStep pieces ->
  trail firstStep pieces dest pos rpath ->
  forall k, In k rpath -> k = dest \/ exists p, In p pieces /\ piece_key p = k.
Proof.
  intros Hincl. induction 1 as [| pos rpath p Ht IH Hp Ha Hn]; intros k Hk.
  - destruct Hk as [<- | []]. auto.
  - destruct Hk as [<- | Hk]; [| auto].
    right. exists p. split; [| reflexivity].
    unfold considerOf in Hp. destruct (pos_eqb pos dest); auto.
Qed.

(** X2. Whatever the grid, a path returned by the path finder visits no
    square twice.  On a consistent grid every square of the path other than
    the destination is the square of a piece of the selected piece's
    player. *)
Theorem path_is_simple (b : Board) (s : Piece) (d : Pos) (path : list Pos) :
  findMovementPathForBoard s d b = Done (Some path) ->
  NoDup path
  /\ (consistent b ->
      forall k, In k path ->
        k = d \/ exists p, cellAt b k = Some p /\ player p = player s).
Proof.
  unfold findMovementPathForBoard. intros H.
  destruct (getAllAccessibleSquaresForBoard s s b [] []) as [r | |];
    cbn [bind] in H; try discriminate.
  destruct (collectPieces s b (visitedPieces r) []) as [pieces | |] eqn:C;
    cbn [bind] in H; try discriminate.
  destruct (boardRead b (fst d) (snd d)) as [cell | |]; cbn [bind] in H;
    try discriminate.
  cbv zeta in H. rewrite keyXY_eta in H.
  set (firstStep := if match cell with None => true | Some _ => false end
                    then deletePiece s pieces else pieces) in H.
  assert (Hincl : incl firstStep pieces).
  { unfold firstStep. destruct cell; [apply incl_refl |].
    intros p Hp. apply In_deletePiece in Hp. tauto. }
  split.
  - eapply searchLoop_nodup; [| exact H].
    intros item [<- | []]. simpl. split.
    + constructor; [intros [] | constructor].
    + apply incl_refl.
  - intros Hcons k Hk.
    assert (HQ : QInv s firstStep pieces d [(d, [d])] [d]).
    { constructor.
      - simpl; auto.
      - intros pos pth [E | []]. inversion E; subst. simpl.
        split; [auto | apply trail_start].
      - intros k' [<- | []] Hn. exfalso. apply Hn. simpl. auto. }
    pose proof (searchLoop_inv s firstStep pieces d _ _ _ _ HQ H) as Ht.
    simpl in Ht.
    destruct (trail_owners _ _ _ _ _ Hincl Ht k Hk) as [-> | [p [Hp <-]]];
      [auto |].
    right. exists p.
    apply (collectPieces_spec s b _ _ _ C) in Hp.
    destruct Hp as [[] | [k' [_ [Hc Hpl]]]].
    rewrite (Hcons _ _ Hc). auto.
Qed.

(** ** The highlight layers *)

Lemma chainAccessible_offers (b : Board) (s : Piece) (k : Pos) :
  chainAccessible b s k <-> exists p, linked b s p /\ offers b s p k.
Proof.
  split.
  - intros [[H1 H2] | [t [Hl [Hne Hk]]]].
    + exists s. split; [apply linked_refl |]. split; auto.
    + exists t. split; [exact Hl |]. split; [exact Hk |].
      intros E. contradiction.
  - intros [p [Hl [Hk Ho]]]. destruct (Piece_eq_dec p s) as [-> | Hne].
    + left. auto.
    + right. exists p. auto.
Qed.

Lemma occupiedOnly_spec (b : Board) (check : list Pos) :
  shaped b ->
  (forall q, In q check -> isValidPosition (fst q) (snd q) = true) ->
  exists l, occupiedOnly b check = Done l
            /\ forall k, In k l <-> In k check /\ cellAt b k <> None.
Proof.
  intros Hs. induction check as [| pos rest IH]; intros Hv.
  - exists []. split; [reflexivity |]. simpl. tauto.
  - destruct IH as [l [Hl Hin]]. { intros q Hq. apply Hv. right; exact Hq. }
    cbn [occupiedOnly].
    rewrite (boardRead_valid b _ _ Hs (Hv pos (or_introl eq_refl))).
    cbn [bind]. rewrite Hl. cbn [bind]. rewrite <- surjective_pairing.
    destruct (cellAt b pos) eqn:E.
    + exists (pos :: l). split; [reflexivity |]. intros k. simpl.
      rewrite Hin. split.
      * intros [<- | [H1 H2]]; [split; [auto | congruence] | auto].
      * intros [[<- | H1] H2]; auto.
    + exists l. split; [reflexivity |]. intros k. rewrite Hin. simpl. split.
      * intros [H1 H2]; auto.
      * intros [[<- | H1] H2]; [congruence | auto].
Qed.

Lemma addPiece_new (t : Piece) (l : list Piece) :
  ~ In t l -> addPiece t l = l ++ [t].
Proof.
  intros H. unfold addPiece.
  destruct (existsb (piece_eqb t) l) eqn:E; [| reflexivity].
  exfalso. apply existsb_exists in E. destruct E as [x [Hx He]].
  apply piece_eqb_eq in He. subst x. contradiction.
Qed.

Lemma NoDup_snoc {A : Type} (l : list A) (a : A) :
  NoDup l -> ~ In a l -> NoDup (l ++ [a]).
Proof.
  intros Hl Ha. apply NoDup_rev in Hl. rewrite <- (rev_involutive (l ++ [a])).
  apply NoDup_rev. rewrite rev_app_distr. simpl.
  constructor; [rewrite <- in_rev; exact Ha | exact Hl].
Qed.

Lemma LInv_empty (b : Board) (s : Piece) (vpos : list Pos)
    (base : list Piece) (e o : list Pos) (next visited : list Piece)
    (pos : Pos) :
  LInv b s vpos base e o next visited ->
  (exists p, linked b s p /\ offers b s p pos) -> ~ In pos vpos ->
  cellAt b pos = None ->
  LInv b s vpos base (add pos e) o next visited.
Proof.
  intros [H1 H2 H3 H4 H5 H6 H7 H8 H9] Hoff Hn Hc. constructor; auto.
  - intros k [Hk | Hk]; [| auto]. apply In_add in Hk.
    destruct Hk as [-> | Hk]; auto.
  - intros k Hk. apply In_add in Hk. destruct Hk as [-> | Hk]; auto.
  - intros k u [Hk | [Hk | Hk]] Hu Hpl; eauto.
    apply In_add in Hk. destruct Hk as [-> | Hk]; [congruence | eauto].
  - apply NoDup_add. exact H8.
Qed.

Lemma LInv_occupied (b : Board) (s : Piece) (vpos : list Pos)
    (base : list Piece) (e o : list Pos) (next visited : list Piece)
    (pos : Pos) (t : Piece) :
  LInv b s vpos base e o next visited ->
  (exists p, linked b s p /\ offers b s p pos) -> ~ In pos vpos ->
  cellAt b pos = Some t ->
  (player t = player s -> In t visited) ->
  LInv b s vpos base e (add pos o) next visited.
Proof.
  intros [H1 H2 H3 H4 H5 H6 H7 H8 H9] Hoff Hn Hc Ht. constructor; auto.
  - intros k [Hk | Hk]; [auto |]. apply In_add in Hk.
    destruct Hk as [-> | Hk]; auto.
  - intros k Hk. apply In_add in Hk.
    destruct Hk as [-> | Hk]; [congruence | auto].
  - intros k u [Hk | [Hk | Hk]] Hu Hpl; eauto.
    apply In_add in Hk. destruct Hk as [-> | Hk]; [| eauto].
    assert (u = t) by congruence. subst u. auto.
  - apply NoDup_add. exact H9.
Qed.

Lemma LInv_visit (b : Board) (s : Piece) (vpos : list Pos)
    (base : list Piece) (e o : list Pos) (next visited : list Piece)
    (t : Piece) :
  LInv b s vpos base e o next visited ->
  linked b s t -> ~ In t visited ->
  LInv b s vpos base e o (addPiece t next) (addPiece t visited).
Proof.
  intros [H1 H2 H3 H4 H5 H6 H7 H8 H9] Hl Hn.
  assert (Hnn : ~ In t next).
  { intros Hin. apply Hn. rewrite H1. apply in_app_iff. auto. }
  rewrite (addPiece_new t next Hnn), (addPiece_new t visited Hn).
  constructor; auto.
  - rewrite H1, app_assoc. reflexivity.
  - apply NoDup_snoc; assumption.
  - intros p Hp. apply in_app_iff in Hp.
    destruct Hp as [Hp | [<- | []]]; auto.
  - intros k u Hk Hu Hpl. apply in_app_iff. left. eauto.
Qed.

Lemma layerScan_spec (b : Board) (s p : Piece) (vpos : list Pos)
    (base : list Piece) :
  shaped b -> linked b s p ->
  forall available e o next visited,
  (forall pos, In pos available -> offers b s p pos) ->
  LInv b s vpos base e o next visited ->
  exists e' o' next' visited',
    layerScan s b vpos available e o next visited
    = Done (e', o', next', visited')
    /\ LInv b s vpos base e' o' next' visited'
    /\ incl e e' /\ incl o o'
    /\ forall pos, In pos available ->
         In pos vpos \/ In pos e' \/ In pos o'.
Proof.
  intros Hs Hp.
  induction available as [| pos rest IH]; intros e o next visited Hoff HI.
  - exists e, o, next, visited. split; [reflexivity |].
    split; [exact HI |]. split; [apply incl_refl |].
    split; [apply incl_refl |]. intros pos [].
  - assert (Hpos : offers b s p pos) by (apply Hoff; left; reflexivity).
    assert (Hrest : forall q, In q rest -> offers b s p q)
      by (intros q Hq; apply Hoff; right; exact Hq).
    assert (Hv : isValidPosition (fst pos) (snd pos) = true)
      by (eapply getAvailableSquares_valid; apply Hpos).
    assert (Hfact : exists q, linked b s q /\ offers b s q pos)
      by (exists p; auto).
    assert (step : forall e1 o1 n1 v1,
              LInv b s vpos base e1 o1 n1 v1 ->
              incl e e1 -> incl o o1 ->
              In pos vpos \/ In pos e1 \/ In pos o1 ->
              exists e' o' next' visited',
                layerScan s b vpos rest e1 o1 n1 v1
                = Done (e', o', next', visited')
                /\ LInv b s vpos base e' o' next' visited'
                /\ incl e e' /\ incl o o'
                /\ forall q, In q (pos :: rest) ->
                     In q vpos \/ In q e' \/ In q o').
    { intros e1 o1 n1 v1 HI1 He Ho Hin.
      destruct (IH e1 o1 n1 v1 Hrest HI1)
        as [e' [o' [n' [v' [R1 [R2 [R3 [R4 R5]]]]]]]].
      exists e', o', n', v'. split; [exact R1 |]. split; [exact R2 |].
      split; [eapply incl_tran; eassumption |].
      split; [eapply incl_tran; eassumption |].
      intros q [<- | Hq]; [| auto].
      destruct Hin as [Hin | [Hin | Hin]]; auto. }
    cbn [layerScan]. rewrite Hv. cbn [negb]. rewrite keyXY_eta.
    destruct (mem pos vpos) eqn:M.
    + apply mem_In in M. apply step; auto using incl_refl.
    + apply mem_not_In in M.
      rewrite (boardRead_valid b _ _ Hs Hv). cbn [bind].
      rewrite <- surjective_pairing.
      destruct (cellAt b pos) as [t |] eqn:C.
      * destruct ((player t =? player s)
                  && negb (existsb (piece_eqb t) visited)) eqn:T.
        -- apply andb_true_iff in T. destruct T as [Tp Tv].
           apply Z.eqb_eq in Tp. apply negb_true_iff in Tv.
           assert (Hnv : ~ In t visited).
           { intros Hin. assert (E : existsb (piece_eqb t) visited = true).
             { apply existsb_exists. exists t. split; [exact Hin |].
               apply piece_eqb_eq. reflexivity. }
             congruence. }
           assert (Hlt : linked b s t).
           { eapply linked_step; [exact Hp |]. exists pos.
             split; [apply Hpos |]. split; [exact C |].
             rewrite Tp. symmetry. eapply linked_player. exact Hp. }
           apply step.
           ++ eapply LInv_occupied;
                [apply LInv_visit; eassumption | exact Hfact | exact M
                | exact C |].
              intros _. apply In_addPiece. auto.
           ++ apply incl_refl.
           ++ apply incl_add.
           ++ right. right. apply In_add. auto.
        -- apply step.
           ++ eapply LInv_occupied; try eassumption. intros Hpl.
              apply andb_false_iff in T. destruct T as [T | T].
              ** apply Z.eqb_neq in T. contradiction.
              ** apply negb_false_iff in T. apply existsb_exists in T.
                 destruct T as [x [Hx He]]. apply piece_eqb_eq in He.
                 subst x. exact Hx.
           ++ apply incl_refl.
           ++ apply incl_add.
           ++ right. right. apply In_add. auto.
      * apply step.
        -- eapply LInv_empty; eassumption.
        -- apply incl_add.
        -- apply incl_refl.
        -- right. left. apply In_add. auto.
Qed.

Lemma layerPieces_spec (b : Board) (s : Piece) (vpos : list Pos)
    (base : list Piece) :
  shaped b ->
  forall current e o next visited,
  (forall p, In p current -> linked b s p) ->
  LInv b s vpos base e o next visited ->
  exists e' o' next' visited',
    layerPieces s b vpos current e o next visited
    = Done (e', o', next', visited')
    /\ LInv b s vpos base e' o' next' visited'
    /\ incl e e' /\ incl o o'
    /\ forall p k, In p current -> offers b s p k ->
         In k vpos \/ In k e' \/ In k o'.
Proof.
  intros Hs.
  induction current as [| piece rest IH]; intros e o next visited Hl HI.
  - exists e, o, next, visited. split; [reflexivity |].
    split; [exact HI |]. split; [apply incl_refl |].
    split; [apply incl_refl |]. intros p k [].
  - assert (Hp : linked b s piece) by (apply Hl; left; reflexivity).
    assert (Hav : exists available,
              (if piece_eqb piece s
               then occupiedOnly b (getAvailableSquares piece)
               else Done (getAvailableSquares piece)) = Done available
              /\ forall k, In k available <-> offers b s piece k).
    { destruct (piece_eqb piece s) eqn:E.
      - apply piece_eqb_eq in E.
        destruct (occupiedOnly_spec b (getAvailableSquares piece) Hs)
          as [l [H1 H2]].
        { intros q. apply getAvailableSquares_valid. }
        exists l. split; [exact H1 |]. intros k. rewrite H2. unfold offers.
        split; [intros [A B]; auto | intros [A B]; auto].
      - exists (getAvailableSquares piece). split; [reflexivity |].
        intros k. unfold offers. split; [| tauto]. intros A.
        split; [exact A |]. intros ->.
        assert (piece_eqb s s = true) by (apply piece_eqb_eq; reflexivity).
        congruence. }
    destruct Hav as [available [Ea Ha]].
    cbn [layerPieces]. rewrite Ea. cbn [bind].
    destruct (layerScan_spec b s piece vpos base Hs Hp available e o next
                visited) as [e1 [o1 [n1 [v1 [R1 [R2 [R3 [R4 R5]]]]]]]].
    { intros pos Hpos. apply Ha. exact Hpos. }
    { exact HI. }
    rewrite R1. cbn [bind].
    destruct (IH e1 o1 n1 v1) as [e' [o' [n' [v' [S1 [S2 [S3 [S4 S5]]]]]]]].
    { intros q Hq. apply Hl. right. exact Hq. }
    { exact R2. }
    exists e', o', n', v'. split; [exact S1 |]. split; [exact S2 |].
    split; [eapply incl_tran; eassumption |].
    split; [eapply incl_tran; eassumption |].
    intros q k [<- | Hq] Hk; [| eauto].
    apply Ha in Hk. destruct (R5 k Hk) as [H | [H | H]]; auto.
Qed.

Lemma pieces_bound (b : Board) (l : list Piece) :
  wf_board b -> (forall p, In p l -> onBoard b p) -> NoDup l ->
  (List.length l <= 56)%nat.
Proof.
  intros [Hs Hc] Hon Hnd.
  assert (Hk : NoDup (map piece_key l)).
  { induction Hnd as [| p l Hp Hnd IH]; simpl; constructor.
    - intros Hin. apply in_map_iff in Hin. destruct Hin as [q [Hq Hin]].
      assert (E : Some q = Some p).
      { rewrite <- (Hon q (or_intror Hin)), <- (Hon p (or_introl eq_refl)).
        rewrite Hq. reflexivity. }
      inversion E; subst. contradiction.
    - apply IH. intros q Hq. apply Hon. right. exact Hq. }
  rewrite <- (length_map piece_key).
  change 56%nat with (List.length allSquares).
  apply NoDup_incl_length; [exact Hk |].
  intros k Hin. apply in_map_iff in Hin. destruct Hin as [q [<- Hq]].
  apply In_allSquares. eapply cellAt_valid; [exact Hs | apply Hon; exact Hq].
Qed.

Lemma layersLoop_spec (b : Board) (s : Piece) :
  wf_board b -> onBoard b s ->
  forall fuel done current vpos layers,
  OInv b s done current vpos layers ->
  (56 < fuel + List.length done)%nat ->
  exists layers' done' vpos',
    layersLoop fuel s b current (done ++ current) vpos layers = Done layers'
    /\ OInv b s done' [] vpos' layers'.
Proof.
  intros Hwf Hon. pose proof Hwf as [Hs Hc].
  induction fuel as [| fuel IH]; intros done current vpos layers HO Hf.
  - destruct current as [| c cs].
    + exists layers, done, vpos. split; [reflexivity | exact HO].
    + exfalso.
      assert (Hb : (List.length (done ++ c :: cs) <= 56)%nat).
      { apply (pieces_bound b); [exact Hwf | | apply HO].
        intros p Hp. eapply linked_onBoard; try eassumption.
        apply (o_linked _ _ _ _ _ _ HO). exact Hp. }
      rewrite length_app in Hb. simpl in Hb, Hf. lia.
  - destruct current as [| c cs].
    + exists layers, done, vpos. split; [reflexivity | exact HO].
    + assert (Hb : (List.length (done ++ c :: cs) <= 56)%nat).
      { apply (pieces_bound b); [exact Hwf | | apply HO].
        intros p Hp. eapply linked_onBoard; try eassumption.
        apply (o_linked _ _ _ _ _ _ HO). exact Hp. }
      destruct HO as [O1 O2 O3 O4 O5 O6 O7 O8].
      assert (HI : LInv b s vpos (done ++ c :: cs) [] [] [] (done ++ c :: cs)).
      { constructor;
          [ rewrite app_nil_r; reflexivity | exact O1 | exact O3
          | intros k [[] | []] | intros k [] | intros k []
          | intros k u [Hk | [[] | []]]; apply O5; exact Hk
          | constructor | constructor ]. }
      destruct (layerPieces_spec b s vpos (done ++ c :: cs) Hs (c :: cs)
                  [] [] [] (done ++ c :: cs))
        as [e [o [n [v [R1 [R2 [_ [_ R5]]]]]]]].
      { intros p Hp. apply O3. apply in_app_iff. auto. }
      { exact HI. }
      cbn [layersLoop]. rewrite R1. cbn [bind].
      destruct R2 as [L1 L2 L3 L4 L5 L6 L7 L8 L9].
      set (vpos' := fold_left (fun a k => add k a) o
                      (fold_left (fun a k => add k a) e vpos)).
      assert (Hvp : forall k, In k vpos' <-> In k vpos \/ In k e \/ In k o).
      { intros k. unfold vpos'. rewrite !In_fold_add. tauto. }
      set (layers' := if (0 <? Z.of_nat (List.length e))
                         || (0 <? Z.of_nat (List.length o))
                      then layers ++ [(e, o)] else layers).
      rewrite L1.
      apply IH.
      * constructor; rewrite <- ?L1.
        -- exact L2.
        -- rewrite L1. apply in_app_iff. left. exact O2.
        -- exact L3.
        -- intros k Hk. apply Hvp in Hk. destruct Hk as [Hk | Hk]; [auto |].
           apply L4. tauto.
        -- intros k u Hk. apply L7. apply Hvp. exact Hk.
        -- intros p k Hp Hk. apply Hvp. apply in_app_iff in Hp.
           destruct Hp as [Hp | Hp]; [left; eapply O6; eassumption |].
           eapply R5; eassumption.
        -- intros k. rewrite Hvp. unfold layers'.
           destruct e as [| e0 e']; [destruct o as [| o0 o'] |].
           ++ simpl. rewrite O7. tauto.
           ++ cbn [orb]. replace (0 <? Z.of_nat (List.length (o0 :: o')))
                with true by (symmetry; apply Z.ltb_lt; simpl; lia).
              cbn [orb]. rewrite O7. split.
              ** intros [[l [Hl Hk]] | [[] | Hk]].
                 --- exists l. split; [apply in_app_iff; auto | exact Hk].
                 --- exists ([], o0 :: o'). split;
                       [apply in_app_iff; right; left; reflexivity | auto].
              ** intros [l [Hl Hk]]. apply in_app_iff in Hl.
                 destruct Hl as [Hl | [<- | []]]; [left; eauto |].
                 cbn [fst snd] in Hk. tauto.
           ++ replace (0 <? Z.of_nat (List.length (e0 :: e')))
                with true by (symmetry; apply Z.ltb_lt; simpl; lia).
              cbn [orb]. rewrite O7. split.
              ** intros [[l [Hl Hk]] | Hk].
                 --- exists l. split; [apply in_app_iff; auto | exact Hk].
                 --- exists (e0 :: e', o). split;
                       [apply in_app_iff; right; left; reflexivity | auto].
              ** intros [l [Hl Hk]]. apply in_app_iff in Hl.
                 destruct Hl as [Hl | [<- | []]]; [left; eauto |].
                 cbn [fst snd] in Hk. tauto.
        -- intros l Hl. unfold layers' in Hl.
           destruct ((0 <? Z.of_nat (List.length e))
                     || (0 <? Z.of_nat (List.length o))) eqn:Ne;
             [| apply O8; exact Hl].
           apply in_app_iff in Hl. destruct Hl as [Hl | [<- | []]];
             [apply O8; exact Hl |].
           simpl. split; [exact L5 |]. split; [exact L6 |].
           apply orb_true_iff in Ne. destruct Ne as [Ne | Ne];
             apply Z.ltb_lt in Ne; [left | right]; intros ->; simpl in Ne; lia.
      * rewrite length_app. simpl. lia.
Qed.

Lemma layers_characterised (b : Board) (s : Piece) :
  wf_board b -> onBoard b s ->
  exists layers,
    getAccessibleHighlightLayers s b = Done layers
    /\ (forall k, chainAccessible b s k <->
          exists l, In l layers /\ (In k (fst l) \/ In k (snd l)))
    /\ (forall l, In l layers ->
          (forall k, In k (fst l) -> cellAt b k = None)
          /\ (forall k, In k (snd l) -> cellAt b k <> None)
          /\ (fst l <> [] \/ snd l <> [])).
Proof.
  intros Hwf Hon.
  assert (H0 : OInv b s [] [s] [] []).
  { constructor; simpl.
    - constructor; [intros [] | constructor].
    - auto.
    - intros p [<- | []]. apply linked_refl.
    - intros k [].
    - intros k u [].
    - intros p k [].
    - intros k. split; [intros [] | intros [l [[] _]]].
    - intros l []. }
  destruct (layersLoop_spec b s Hwf Hon resolverFuel [] [s] [] [] H0)
    as [layers [done [vpos [HL HO]]]].
  { unfold resolverFuel. simpl. lia. }
  exists layers. split; [exact HL |].
  destruct HO as [O1 O2 O3 O4 O5 O6 O7 O8]. rewrite app_nil_r in *.
  assert (Hall : forall p, linked b s p -> In p done).
  { induction 1 as [| p t Hp IH [pos [Hpos [Hcell Hpl]]]]; [exact O2 |].
    apply (O5 pos t); [| exact Hcell |].
    - apply (O6 p pos IH). split; [exact Hpos |]. intros _. congruence.
    - rewrite Hpl. eapply linked_player. exact Hp. }
  split; [| exact O8].
  intros k. rewrite <- O7, chainAccessible_offers. split.
  - intros [p [Hp Hk]]. eapply O6; [apply Hall; exact Hp | exact Hk].
  - apply O4.
Qed.

(** X3. On a consistent grid [getAccessibleHighlightLayers] returns, and the
    squares of its layers are exactly the accessible squares of the resolver
    for the same selected piece: what the user may tap is what the chain
    rule allows.  Every layer has a square; the first component of a layer
    holds empty squares, the second occupied ones. *)
Theorem highlight_layers_accessible (b : Board) (s : Piece) :
  wf_board b -> onBoard b s ->
  exists layers r,
    getAccessibleHighlightLayers s b = Done layers
    /\ getAllAccessibleSquaresForBoard s s b [] [] = Done r
    /\ (forall k, In k (accessibleSquares r) <->
          exists l, In l layers /\ (In k (fst l) \/ In k (snd l)))
    /\ (forall l, In l layers ->
          (forall k, In k (fst l) -> cellAt b k = None)
          /\ (forall k, In k (snd l) -> cellAt b k <> None)
          /\ (fst l <> [] \/ snd l <> [])).
Proof.
  intros Hwf Hon.
  destruct (resolve_characterised b s sourceOrder Hwf fair_sourceOrder Hon)
    as [r [Hr [_ [Hacc _]]]].
  destruct (layers_characterised b s Hwf Hon) as [layers [HL [Hk Hkinds]]].
  exists layers, r. split; [exact HL |]. split; [exact Hr |].
  split; [| exact Hkinds]. intros k. rewrite Hacc. apply Hk.
Qed.

Lemma iterate_succ {A : Type} (n : nat) (f : A -> A) (a : A) :
  iterate (S n) f a = f (iterate n f a).
Proof.
  revert a. induction n as [| n IH]; intros a; [reflexivity |].
  change (iterate (S (S n)) f a) with (iterate (S n) f (f a)).
  rewrite IH. reflexivity.
Qed.

Lemma reveal_spec (layers : list Layer) (n : nat) :
  let h := iterate n (revealLayer layers) noHighlights in
  currentHighlightLayer h = Nat.min n (List.length layers)
  /\ (forall k, In k (highlighted h) <->
        exists l, In l (firstn n layers) /\ (In k (fst l) \/ In k (snd l)))
  /\ (forall k, In k (emptyAccessibleSquares h) <->
        exists l, In l (firstn n layers) /\ In k (fst l))
  /\ (forall k, In k (occupiedAccessibleSquares h) <->
        exists l, In l (firstn n layers) /\ In k (snd l)).
Proof.
  induction n as [| n IH].
  - simpl. split; [reflexivity |].
    split; [| split]; intros k;
      (split; [intros [] | intros [l [[] _]]]).
  - rewrite iterate_succ.
    set (h := iterate n (revealLayer layers) noHighlights) in *.
    cbv zeta in IH. destruct IH as [Hc [Hh [He Ho]]].
    unfold revealLayer. rewrite Hc.
    destruct (Nat.lt_ge_cases n (List.length layers)) as [Hlt | Hge].
    + rewrite Nat.min_l by lia.
      destruct (nth_error layers n) as [[e o] |] eqn:N.
      2: { apply nth_error_None in N. lia. }
      destruct (firstn_S_nth n layers (e, o) N) as [Hf _]. rewrite Hf.
      cbn [currentHighlightLayer highlighted emptyAccessibleSquares
           occupiedAccessibleSquares].
      split; [lia |].
      assert (Hex : forall (P : Layer -> Prop),
                (exists l, In l (firstn n layers ++ [(e, o)]) /\ P l)
                <-> (exists l, In l (firstn n layers) /\ P l) \/ P (e, o)).
      { intros P. split.
        - intros [l [Hl Hp]]. apply in_app_iff in Hl.
          destruct Hl as [Hl | [<- | []]]; eauto.
        - intros [[l [Hl Hp]] | Hp].
          + exists l. split; [apply in_app_iff; auto | exact Hp].
          + exists (e, o). split; [apply in_app_iff; simpl; auto | exact Hp]. }
      split; [| split]; intros k.
      * rewrite (Hex (fun l => In k (fst l) \/ In k (snd l))).
        rewrite !In_fold_add, Hh. simpl. tauto.
      * rewrite (Hex (fun l => In k (fst l))).
        rewrite In_fold_add, He. simpl. tauto.
      * rewrite (Hex (fun l => In k (snd l))).
        rewrite In_fold_add, Ho. simpl. tauto.
    + rewrite Nat.min_r by lia.
      destruct (nth_error layers (List.length layers)) as [[e o] |] eqn:N.
      { assert (Hn : nth_error layers (List.length layers) <> None)
          by congruence.
        apply nth_error_Some in Hn. lia. }
      rewrite (firstn_all2 (n := S n)) by lia.
      rewrite (firstn_all2 (n := n)) in Hh, He, Ho by lia.
      split; [rewrite Hc; lia |]. auto.
Qed.

(** X4. On a consistent grid, whatever number of layers [update] has
    revealed, every highlighted square is an accessible square of the
    resolver; once all the layers are revealed the highlighted squares are
    exactly the accessible ones, [emptyAccessibleSquares] holds the empty
    ones among them and [occupiedAccessibleSquares] the occupied ones. *)
Theorem highlights_are_accessible (b : Board) (s : Piece) :
  wf_board b -> onBoard b s ->
  exists layers r,
    getAccessibleHighlightLayers s b = Done layers
    /\ getAllAccessibleSquaresForBoard s s b [] [] = Done r
    /\ (forall n k,
          In k (highlighted (iterate n (revealLayer layers) noHighlights)) ->
          In k (accessibleSquares r))
    /\ (forall n, (List.length layers <= n)%nat ->
          let h := iterate n (revealLayer layers) noHighlights in
          forall k,
            (In k (highlighted h) <-> In k (accessibleSquares r))
            /\ (In k (emptyAccessibleSquares h) <->
                In k (accessibleSquares r) /\ cellAt b k = None)
            /\ (In k (occupiedAccessibleSquares h) <->
                In k (accessibleSquares r) /\ cellAt b k <> None)).
Proof.
  intros Hwf Hon.
  destruct (resolve_characterised b s sourceOrder Hwf fair_sourceOrder Hon)
    as [r [Hr [_ [Hacc _]]]].
  destruct (layers_characterised b s Hwf Hon) as [layers [HL [O7 O8]]].
  exists layers, r. split; [exact HL |]. split; [exact Hr |].
  split.
  - intros n k Hk. apply Hacc. apply O7.
    destruct (reveal_spec layers n) as [_ [Hh _]]. apply Hh in Hk.
    destruct Hk as [l [Hl Hk]]. exists l. split; [| exact Hk].
    rewrite <- (firstn_skipn n layers). apply in_app_iff. left. exact Hl.
  - intros n Hn h k.
    destruct (reveal_spec layers n) as [_ [Hh [He Ho]]]. fold h in Hh, He, Ho.
    rewrite firstn_all2 in Hh, He, Ho by exact Hn.
    rewrite Hh, He, Ho, Hacc, O7. split; [tauto |]. split.
    + split.
      * intros [l [Hl Hk]]. split; [eauto |].
        destruct (O8 l Hl) as [E _]. auto.
      * intros [[l [Hl [Hk | Hk]]] Hc]; [eauto |].
        destruct (O8 l Hl) as [_ [E _]]. exfalso. exact (E k Hk Hc).
    + split.
      * intros [l [Hl Hk]]. split; [eauto |].
        destruct (O8 l Hl) as [_ [E _]]. auto.
      * intros [[l [Hl [Hk | Hk]]] Hc]; [| eauto].
        destruct (O8 l Hl) as [E _]. exfalso. exact (Hc (E k Hk)).
Qed.

(** ** The grid of references and the piece collection *)

Lemma nth_js_map {A B : Type} (f : A -> B) (l : list A) (i : Z) :
  nth_js (map f l) i = option_map f (nth_js l i).
Proof.
  unfold nth_js. destruct (i <? 0); [reflexivity |]. apply nth_error_map.
Qed.

Lemma length_setNth {A : Type} (l : list A) (i : nat) (a : A) :
  List.length (setNth l i a) = List.length l.
Proof.
  revert i. induction l as [| h t IH]; intros [| i]; simpl; auto.
Qed.

Lemma In_setNth {A : Type} (l : list A) (i : nat) (a x : A) :
  In x (setNth l i a) -> x = a \/ In x l.
Proof.
  revert i. induction l as [| h t IH]; intros [| i]; simpl; try tauto.
  - intros [H | H]; auto.
  - intros [H | H]; [auto |]. destruct (IH i H); auto.
Qed.

Lemma shapedGrid_emptyGrid : shapedGrid emptyGrid.
Proof.
  split; [apply repeat_length |]. apply Forall_forall. intros row Hrow.
  apply repeat_spec in Hrow. subst row. apply repeat_length.
Qed.

Lemma shapedGrid_gridWrite (g : Grid) (x y : Z) (v : option Z) :
  shapedGrid g -> shapedGrid (gridWrite g x y v).
Proof.
  intros [Hl Hr]. unfold gridWrite.
  destruct (nth_js g y) as [row |] eqn:R; [| split; assumption].
  destruct (nth_js row x) as [c |] eqn:C; [| split; assumption].
  split; [rewrite length_setNth; exact Hl |].
  rewrite Forall_forall in *. intros r Hin. apply In_setNth in Hin.
  destruct Hin as [-> | Hin]; [| auto].
  rewrite length_setNth. apply Hr.
  unfold nth_js in R. destruct (y <? 0); [discriminate |].
  eapply nth_error_In. exact R.
Qed.

Lemma gridRead_gridWrite (g : Grid) (x y x' y' : Z) (v : option Z) :
  shapedGrid g -> isValidPosition x y = true ->
  gridRead (gridWrite g x y v) x' y'
  = if (x =? x') && (y =? y') then v else gridRead g x' y'.
Proof.
  intros [Hl Hr] Hv. apply isValidPosition_spec in Hv. unfold gridWrite.
  destruct (nth_js_in_range g y) as [row [R Hin]].
  { rewrite Hl. unfold BOARD_HEIGHT. lia. }
  rewrite R. rewrite Forall_forall in Hr.
  destruct (nth_js_in_range row x) as [c [C _]].
  { rewrite (Hr row Hin). unfold BOARD_WIDTH. lia. }
  rewrite C. unfold gridRead. rewrite nth_js_setNth by lia. rewrite R.
  destruct (y =? y') eqn:Ey.
  - apply Z.eqb_eq in Ey. subst y'. rewrite R.
    rewrite nth_js_setNth by lia. rewrite C.
    destruct (x =? x'); reflexivity.
  - rewrite andb_false_r. reflexivity.
Qed.

Lemma gridRead_emptyGrid (x y : Z) : gridRead emptyGrid x y = None.
Proof.
  unfold gridRead. destruct (nth_js emptyGrid y) as [row |] eqn:R;
    [| reflexivity].
  assert (Hrow : row = repeat None (Z.to_nat BOARD_WIDTH)).
  { unfold nth_js in R. destruct (y <? 0); [discriminate |].
    apply nth_error_In in R. apply repeat_spec in R. exact R. }
  destruct (nth_js row x) as [c |] eqn:C; [| reflexivity].
  unfold nth_js in C. destruct (x <? 0); [discriminate |].
  apply nth_error_In in C. rewrite Hrow in C. apply repeat_spec in C.
  exact C.
Qed.

Lemma gridRead_valid (g : Grid) (x y id : Z) :
  shapedGrid g -> gridRead g x y = Some id -> isValidPosition x y = true.
Proof.
  intros [Hl Hr] H. unfold gridRead in H.
  destruct (nth_js g y) as [row |] eqn:R; [| discriminate].
  destruct (nth_js row x) as [c |] eqn:C; [| discriminate].
  pose proof (nth_js_Some _ _ _ R) as Ry.
  pose proof (nth_js_Some _ _ _ C) as Cx.
  assert (Hin : In row g).
  { unfold nth_js in R. destruct (y <? 0); [discriminate |].
    eapply nth_error_In. exact R. }
  rewrite Forall_forall in Hr. rewrite (Hr row Hin) in Cx. rewrite Hl in Ry.
  apply isValidPosition_spec. unfold BOARD_WIDTH, BOARD_HEIGHT in *. lia.
Qed.

(** Reading the grid that a sequence of writes of references builds. *)
Lemma writes_read (ps : list Piece) :
  forall g,
  shapedGrid g ->
  NoDup (map piece_key ps) ->
  (forall p, In p ps -> isValidPosition (piece_x p) (piece_y p) = true) ->
  let g' :=
    fold_left
      (fun g p => gridWrite g (piece_x p) (piece_y p) (Some (piece_id p)))
      ps g in
  shapedGrid g'
  /\ (forall p, In p ps ->
        gridRead g' (piece_x p) (piece_y p) = Some (piece_id p))
  /\ (forall x y, ~ In (x, y) (map piece_key ps) ->
        gridRead g' x y = gridRead g x y).
Proof.
  induction ps as [| a rest IH]; intros g Hs Hnd Hv; cbn [fold_left].
  - cbv zeta. split; [exact Hs |]. split; [intros p [] | reflexivity].
  - inversion Hnd as [| k l Ha Hnd' E]; subst.
    assert (Hva : isValidPosition (piece_x a) (piece_y a) = true)
      by (apply Hv; left; reflexivity).
    destruct (IH (gridWrite g (piece_x a) (piece_y a) (Some (piece_id a))))
      as [I1 [I2 I3]].
    { apply shapedGrid_gridWrite. exact Hs. }
    { exact Hnd'. }
    { intros p Hp. apply Hv. right. exact Hp. }
    cbv zeta. split; [exact I1 |]. split.
    + intros p [<- | Hp]; [| apply I2; exact Hp].
      rewrite (I3 _ _ Ha). rewrite gridRead_gridWrite by assumption.
      rewrite !Z.eqb_refl. reflexivity.
    + intros x y Hn. rewrite I3.
      * rewrite gridRead_gridWrite by assumption.
        destruct ((piece_x a =? x) && (piece_y a =? y)) eqn:E;
          [| reflexivity].
        exfalso. apply Hn. left. apply andb_true_iff in E.
        destruct E as [E1 E2]. apply Z.eqb_eq in E1, E2.
        unfold piece_key, keyXY. congruence.
      * intros Hin. apply Hn. right. exact Hin.
Qed.

Lemma rebuildBoard_reads (ps : list Piece) (x y id : Z) :
  wellPlaced ps ->
  (gridRead (rebuildBoard ps) x y = Some id
   <-> exists p, In p ps /\ piece_id p = id /\ piece_key p = (x, y)).
Proof.
  intros [_ [Hk Hv]].
  destruct (writes_read ps emptyGrid shapedGrid_emptyGrid Hk Hv)
    as [_ [H2 H3]]. fold (rebuildBoard ps) in H2, H3.
  split.
  - intros H. destruct (in_dec Pos_eq_dec (x, y) (map piece_key ps)) as [Hin | Hn].
    + apply in_map_iff in Hin. destruct Hin as [p [Hp Hin]].
      exists p. split; [exact Hin |]. split; [| exact Hp].
      pose proof (H2 p Hin) as Hr.
      unfold piece_key, keyXY in Hp. inversion Hp; subst. congruence.
    + rewrite (H3 _ _ Hn), gridRead_emptyGrid in H. discriminate.
  - intros [p [Hin [<- Hp]]]. unfold piece_key, keyXY in Hp.
    inversion Hp; subst. apply H2. exact Hin.
Qed.

Lemma shapedGrid_rebuildBoard (ps : list Piece) :
  wellPlaced ps -> shapedGrid (rebuildBoard ps).
Proof.
  intros [_ [Hk Hv]].
  destruct (writes_read ps emptyGrid shapedGrid_emptyGrid Hk Hv) as [H _].
  exact H.
Qed.

Lemma findPiece_In (ps : list Piece) (p : Piece) :
  NoDup (map piece_id ps) -> In p ps -> findPiece (piece_id p) ps = Some p.
Proof.
  unfold findPiece. induction ps as [| a rest IH]; intros Hnd Hin;
    [destruct Hin |].
  inversion Hnd as [| i l Ha Hnd' E]; subst. simpl.
  destruct Hin as [-> | Hin]; [rewrite Z.eqb_refl; reflexivity |].
  destruct (piece_id a =? piece_id p) eqn:E; [| auto].
  exfalso. apply Z.eqb_eq in E. apply Ha. rewrite E.
  apply in_map. exact Hin.
Qed.

Lemma findPiece_Some (ps : list Piece) (id : Z) (p : Piece) :
  findPiece id ps = Some p -> In p ps /\ piece_id p = id.
Proof.
  unfold findPiece. intros H. apply find_some in H.
  destruct H as [H1 H2]. apply Z.eqb_eq in H2. auto.
Qed.

Lemma cellAt_viewBoard (ps : list Piece) (g : Grid) (k : Pos) :
  cellAt (viewBoard ps g) k
  = match gridRead g (fst k) (snd k) with
    | Some id => findPiece id ps
    | None => None
    end.
Proof.
  unfold cellAt, boardRead, viewBoard, gridRead. rewrite nth_js_map.
  destruct (nth_js g (snd k)) as [row |]; [| reflexivity]. simpl.
  rewrite nth_js_map. destruct (nth_js row (fst k)) as [[id |] |]; reflexivity.
Qed.

Lemma shaped_viewBoard (ps : list Piece) (g : Grid) :
  shapedGrid g -> shaped (viewBoard ps g).
Proof.
  intros [Hl Hr]. unfold viewBoard. split; [rewrite length_map; exact Hl |].
  apply Forall_forall. intros row Hrow. apply in_map_iff in Hrow.
  destruct Hrow as [r [<- Hin]]. rewrite length_map.
  rewrite Forall_forall in Hr. apply Hr. exact Hin.
Qed.

Lemma rebuildBoard_wf (ps : list Piece) :
  wellPlaced ps ->
  let b := viewBoard ps (rebuildBoard ps) in
  wf_board b
  /\ (forall p, In p ps -> onBoard b p)
  /\ (forall k p, cellAt b k = Some p -> In p ps).
Proof.
  intros Hw. pose proof Hw as [Hid [Hk Hv]]. cbv zeta.
  assert (Hcell : forall k p,
            cellAt (viewBoard ps (rebuildBoard ps)) k = Some p ->
            In p ps /\ piece_key p = k).
  { intros k p H. rewrite cellAt_viewBoard in H.
    destruct (gridRead (rebuildBoard ps) (fst k) (snd k)) as [id |] eqn:R;
      [| discriminate].
    apply rebuildBoard_reads in R; [| exact Hw].
    destruct R as [q [Hq [Hqi Hqk]]].
    rewrite <- Hqi, (findPiece_In ps q Hid Hq) in H.
    inversion H; subst. split; [exact Hq |].
    rewrite Hqk. destruct k; reflexivity. }
  split; [split |].
  - apply shaped_viewBoard. apply shapedGrid_rebuildBoard. exact Hw.
  - intros k p H. apply (Hcell k p H).
  - split.
    + intros p Hp. unfold onBoard. rewrite cellAt_viewBoard.
      assert (R : gridRead (rebuildBoard ps) (fst (piece_key p))
                    (snd (piece_key p)) = Some (piece_id p)).
      { apply rebuildBoard_reads; [exact Hw |]. exists p.
        split; [exact Hp |]. split; [reflexivity |].
        destruct (piece_key p); reflexivity. }
      rewrite R. apply findPiece_In; assumption.
    + intros k p H. apply (Hcell k p H).
Qed.

(** X5. [rebuildBoard] on pieces with distinct ids standing on distinct
    squares of the grid gives a consistent grid: the grid has its 8 rows of
    7 cells, every piece of the collection is found in the cell of its own
    coordinates, and every occupied cell holds a piece of the collection. *)
Theorem rebuildBoard_consistent (ps : list Piece) :
  wellPlaced ps ->
  let b := viewBoard ps (rebuildBoard ps) in
  wf_board b
  /\ (forall p, In p ps -> onBoard b p)
  /\ (forall k p, cellAt b k = Some p -> In p ps).
Proof. apply rebuildBoard_wf. Qed.

Lemma grid_ext (g g' : Grid) :
  shapedGrid g -> shapedGrid g' ->
  (forall x y, isValidPosition x y = true -> gridRead g x y = gridRead g' x y) ->
  g = g'.
Proof.
  intros [Hl Hr] [Hl' Hr'] H. rewrite Forall_forall in Hr, Hr'.
  apply (nth_ext g g' [] []); [congruence |].
  intros n Hn.
  assert (Hin : In (nth n g []) g) by (apply nth_In; exact Hn).
  assert (Hin' : In (nth n g' []) g') by (apply nth_In; lia).
  apply (nth_ext _ _ None None); [rewrite Hr, Hr' by assumption; reflexivity |].
  intros m Hm. rewrite (Hr _ Hin) in Hm.
  assert (Hv : isValidPosition (Z.of_nat m) (Z.of_nat n) = true).
  { apply isValidPosition_spec. rewrite Hl in Hn.
    unfold BOARD_WIDTH, BOARD_HEIGHT in *. lia. }
  specialize (H _ _ Hv). unfold gridRead, nth_js in H.
  replace (Z.of_nat n <? 0) with false in H by (symmetry; apply Z.ltb_ge; lia).
  replace (Z.of_nat m <? 0) with false in H by (symmetry; apply Z.ltb_ge; lia).
  rewrite !Nat2Z.id in H.
  rewrite (nth_error_nth' g [] Hn) in H.
  rewrite (nth_error_nth' g' []) in H by lia.
  rewrite (nth_error_nth' (nth n g []) None) in H
    by (rewrite (Hr _ Hin); exact Hm).
  rewrite (nth_error_nth' (nth n g' []) None) in H
    by (rewrite (Hr' _ Hin'); exact Hm).
  exact H.
Qed.

Lemma option_ext {A : Type} (a b : option A) :
  (forall x, a = Some x <-> b = Some x) -> a = b.
Proof.
  intros H. destruct a as [x |].
  - symmetry. apply H. reflexivity.
  - destruct b as [y |]; [| reflexivity]. apply H. reflexivity.
Qed.

Lemma rebuildBoard_stands (ps : list Piece) (x y id : Z) :
  wellPlaced ps ->
  (gridRead (rebuildBoard ps) x y = Some id <-> stands ps id (x, y)).
Proof. apply rebuildBoard_reads. Qed.

(** A shaped grid whose cells name the pieces standing on them is the grid
    that [rebuildBoard] builds. *)
Lemma grid_is_rebuilt (g : Grid) (ps : list Piece) :
  shapedGrid g -> wellPlaced ps ->
  (forall x y id, isValidPosition x y = true ->
     (gridRead g x y = Some id <-> stands ps id (x, y))) ->
  g = rebuildBoard ps.
Proof.
  intros Hs Hw H. apply grid_ext; [exact Hs | |].
  - apply shapedGrid_rebuildBoard. exact Hw.
  - intros x y Hv. apply option_ext. intros id.
    rewrite (H x y id Hv). symmetry. apply rebuildBoard_stands. exact Hw.
Qed.

Lemma wellPlaced_same (l l' : list Piece) :
  map piece_id l' = map piece_id l -> map piece_key l' = map piece_key l ->
  wellPlaced l -> wellPlaced l'.
Proof.
  intros Hi Hk [H1 [H2 H3]]. split; [rewrite Hi; exact H1 |].
  split; [rewrite Hk; exact H2 |].
  intros p Hp. assert (Hin : In (piece_key p) (map piece_key l)).
  { rewrite <- Hk. apply in_map. exact Hp. }
  apply in_map_iff in Hin. destruct Hin as [q [Hq Hin]].
  unfold piece_key, keyXY in Hq. inversion Hq. apply H3. exact Hin.
Qed.

Lemma wellPlaced_unique (ps : list Piece) (p q : Piece) :
  wellPlaced ps -> In p ps -> In q ps ->
  (piece_id p = piece_id q -> p = q) /\ (piece_key p = piece_key q -> p = q).
Proof.
  intros [Hi [Hk _]] Hp Hq. split; intros E.
  - pose proof (findPiece_In ps p Hi Hp) as F1.
    pose proof (findPiece_In ps q Hi Hq) as F2. congruence.
  - clear Hi. induction ps as [| a rest IH]; [destruct Hp |].
    inversion Hk as [| k l Ha Hnd E']; subst.
    destruct Hp as [-> | Hp], Hq as [-> | Hq]; auto.
    + exfalso. apply Ha. rewrite E. apply in_map. exact Hq.
    + exfalso. apply Ha. rewrite <- E. apply in_map. exact Hp.
Qed.

Lemma map_updatePiece {B : Type} (h : Piece -> B) (id : Z)
    (f : Piece -> Piece) (ps : list Piece) :
  (forall p, h (f p) = h p) -> map h (updatePiece id f ps) = map h ps.
Proof.
  intros Hf. unfold updatePiece. rewrite map_map. apply map_ext. intros p.
  destruct (piece_id p =? id); [apply Hf | reflexivity].
Qed.

Lemma map_resetFlags {B : Type} (h : Piece -> B) (cp : Z) (ps : list Piece) :
  (forall m r p, h (setFlags m r p) = h p) ->
  map h (resetFlags cp ps) = map h ps.
Proof.
  intros Hf. unfold resetFlags. rewrite map_map. apply map_ext. intros p.
  destruct (player p =? cp); [apply Hf |].
  destruct (movedLastTurn p); [apply Hf | reflexivity].
Qed.

Lemma map_applyRotations {B : Type} (h : Piece -> B) (idMap : list Z)
    (rs : list (Z * Z)) :
  (forall q, h (rotateOnce q) = h q) ->
  forall chances ps, map h (applyRotations idMap rs chances ps) = map h ps.
Proof.
  intros Hf. induction rs as [| [id n] rest IH]; intros chances ps; simpl;
    [reflexivity |].
  destruct (chances <=? 0); [reflexivity |].
  destruct (if existsb (Z.eqb id) idMap then findPiece id ps else None)
    as [p |]; [| apply IH].
  destruct (canRotateType (piece_type p)); [| apply IH].
  rewrite IH. apply map_updatePiece. intros q.
  generalize (Z.to_nat (Z.min n chances)). intros m. revert q.
  induction m as [| m IHm]; intros q; simpl; [reflexivity |].
  rewrite IHm. apply Hf.
Qed.

Lemma rebuildBoard_same (l l' : list Piece) :
  map piece_id l' = map piece_id l -> map piece_key l' = map piece_key l ->
  rebuildBoard l' = rebuildBoard l.
Proof.
  unfold rebuildBoard. generalize emptyGrid. revert l'.
  induction l as [| a l IH]; intros [| a' l'] g Hi Hk; simpl in *;
    try discriminate; [reflexivity |].
  injection Hi as Hi1 Hi2. injection Hk as Hx Hy Hk.
  rewrite Hi1, Hx, Hy. apply IH; assumption.
Qed.

Lemma exchange_involutive (a b k : Pos) :
  exchange a b (exchange a b k) = k.
Proof.
  unfold exchange.
  destruct (pos_eqb k a) eqn:E1.
  - apply pos_eqb_eq in E1. subst k.
    destruct (pos_eqb b a) eqn:E2; [apply pos_eqb_eq in E2; exact E2 |].
    rewrite pos_eqb_refl. reflexivity.
  - destruct (pos_eqb k b) eqn:E2.
    + apply pos_eqb_eq in E2. subst k. rewrite pos_eqb_refl. reflexivity.
    + rewrite E1, E2. reflexivity.
Qed.

Lemma exchange_cases (a b k : Pos) :
  (k = a /\ exchange a b k = b) \/ (k <> a /\ k = b /\ exchange a b k = a)
  \/ (k <> a /\ k <> b /\ exchange a b k = k).
Proof.
  unfold exchange. destruct (pos_eqb k a) eqn:E1.
  - apply pos_eqb_eq in E1. auto.
  - apply pos_eqb_neq in E1. destruct (pos_eqb k b) eqn:E2.
    + apply pos_eqb_eq in E2. auto.
    + apply pos_eqb_neq in E2. auto.
Qed.

(** Pieces that exchange two squares of the grid stay well placed. *)
Lemma relocate (ps : list Piece) (F : Piece -> Piece) (a b : Pos) :
  wellPlaced ps ->
  isValidPosition (fst a) (snd a) = true ->
  isValidPosition (fst b) (snd b) = true ->
  (forall p, In p ps ->
     piece_id (F p) = piece_id p
     /\ piece_key (F p) = exchange a b (piece_key p)) ->
  wellPlaced (map F ps)
  /\ forall i k, stands (map F ps) i k <-> stands ps i (exchange a b k).
Proof.
  intros [Hi [Hk Hv]] Ha Hb HF.
  assert (Eid : map piece_id (map F ps) = map piece_id ps).
  { rewrite map_map. apply map_ext_in. intros p Hp. apply HF. exact Hp. }
  assert (Ekey : map piece_key (map F ps)
                 = map (exchange a b) (map piece_key ps)).
  { rewrite !map_map. apply map_ext_in. intros p Hp. apply HF. exact Hp. }
  split; [split; [| split] |].
  - rewrite Eid. exact Hi.
  - rewrite Ekey. apply Finite.Injective_map_NoDup; [| exact Hk].
    intros x y E. rewrite <- (exchange_involutive a b x), E.
    apply exchange_involutive.
  - intros q Hq. apply in_map_iff in Hq. destruct Hq as [p [<- Hp]].
    destruct (HF p Hp) as [_ Hkey].
    change (isValidPosition (fst (piece_key (F p))) (snd (piece_key (F p)))
            = true).
    rewrite Hkey. specialize (Hv p Hp).
    destruct (exchange_cases a b (piece_key p))
      as [[_ E] | [[_ [_ E]] | [_ [_ E]]]]; rewrite E; assumption.
  - intros i k. split.
    + intros [q [Hq [Hqi Hqk]]]. apply in_map_iff in Hq.
      destruct Hq as [p [<- Hp]]. destruct (HF p Hp) as [E1 E2].
      exists p. split; [exact Hp |]. split; [congruence |].
      rewrite <- Hqk, E2, exchange_involutive. reflexivity.
    + intros [p [Hp [Hpi Hpk]]]. destruct (HF p Hp) as [E1 E2].
      exists (F p). split; [apply in_map; exact Hp |].
      split; [congruence |]. rewrite E2, Hpk. apply exchange_involutive.
Qed.

(** The pieces without the one named [sid]. *)
Lemma remove_stands (ps : list Piece) (sid : Z) :
  wellPlaced ps ->
  wellPlaced (filter (fun pp => negb (piece_id pp =? sid)) ps)
  /\ (forall i k,
        stands (filter (fun pp => negb (piece_id pp =? sid)) ps) i k
        <-> i <> sid /\ stands ps i k)
  /\ map piece_id (filter (fun pp => negb (piece_id pp =? sid)) ps)
     = filter (fun i => negb (i =? sid)) (map piece_id ps).
Proof.
  intros [Hi [Hk Hv]].
  assert (Hsub : forall (h : Piece -> Pos),
            NoDup (map h ps) ->
            NoDup (map h (filter (fun pp => negb (piece_id pp =? sid)) ps))).
  { intros h. clear. induction ps as [| a l IH]; intros H; simpl;
      [constructor |].
    inversion H as [| x l' Ha Hnd E]; subst.
    destruct (negb (piece_id a =? sid)); simpl; [| auto].
    constructor; [| auto]. intros Hin. apply Ha.
    apply in_map_iff in Hin. destruct Hin as [q [Hq Hin]].
    apply filter_In in Hin. rewrite <- Hq. apply in_map. tauto. }
  assert (Eid : map piece_id (filter (fun pp => negb (piece_id pp =? sid)) ps)
                = filter (fun i => negb (i =? sid)) (map piece_id ps)).
  { clear. induction ps as [| a l IH]; simpl; [reflexivity |].
    destruct (negb (piece_id a =? sid)); simpl; rewrite IH; reflexivity. }
  split; [split; [| split] | split].
  - rewrite Eid. apply NoDup_filter. exact Hi.
  - apply Hsub. exact Hk.
  - intros p Hp. apply filter_In in Hp. apply Hv. tauto.
  - intros i k. split.
    + intros [p [Hp [Hpi Hpk]]]. apply filter_In in Hp.
      destruct Hp as [Hp Hn]. apply negb_true_iff, Z.eqb_neq in Hn.
      split; [congruence |]. exists p. auto.
    + intros [Hn [p [Hp [Hpi Hpk]]]]. exists p.
      split; [| auto]. apply filter_In. split; [exact Hp |].
      apply negb_true_iff, Z.eqb_neq. congruence.
  - exact Eid.
Qed.

(** The promotion check of [applyAction] and its flag loop. *)
Lemma promotion_tail (ps1 : list Piece) (g2 : Grid) (sid cp : Z)
    (idMap : list Z) (scores : Z * Z) :
  wellPlaced ps1 -> g2 = rebuildBoard ps1 -> idMap = map piece_id ps1 ->
  forall ps2 g3 ids scores',
  match findPiece sid ps1 with
  | Some sel' =>
      if promotes sel'
      then (filter (fun pp => negb (piece_id pp =? sid)) ps1,
            gridWrite g2 (piece_x sel') (piece_y sel') None,
            filter (fun i => negb (i =? sid)) idMap,
            addScore scores (player sel'))
      else (ps1, g2, idMap, scores)
  | None => (ps1, g2, idMap, scores)
  end = (ps2, g3, ids, scores') ->
  wellPlaced (resetFlags cp ps2)
  /\ g3 = rebuildBoard (resetFlags cp ps2)
  /\ ids = map piece_id (resetFlags cp ps2).
Proof.
  intros Hw Hg Hids ps2 g3 ids scores' H.
  assert (Hflags : forall l, wellPlaced l ->
            wellPlaced (resetFlags cp l)
            /\ rebuildBoard (resetFlags cp l) = rebuildBoard l
            /\ map piece_id (resetFlags cp l) = map piece_id l).
  { intros l Hl.
    assert (E1 : map piece_id (resetFlags cp l) = map piece_id l)
      by (apply map_resetFlags; reflexivity).
    assert (E2 : map piece_key (resetFlags cp l) = map piece_key l)
      by (apply map_resetFlags; reflexivity).
    split; [eapply wellPlaced_same; eassumption |].
    split; [apply rebuildBoard_same; assumption | exact E1]. }
  assert (Hkeep : (ps2, g3, ids, scores') = (ps1, g2, idMap, scores) ->
            wellPlaced (resetFlags cp ps2)
            /\ g3 = rebuildBoard (resetFlags cp ps2)
            /\ ids = map piece_id (resetFlags cp ps2)).
  { intros E. inversion E; subst.
    destruct (Hflags ps1 Hw) as [F1 [F2 F3]]. rewrite F2, F3. auto. }
  destruct (findPiece sid ps1) as [sel' |] eqn:F; [| auto].
  destruct (promotes sel') eqn:P; [| auto].
  inversion H; subst. clear H Hkeep.
  apply findPiece_Some in F. destruct F as [Hin Hsid].
  destruct (remove_stands ps1 (piece_id sel') Hw) as [R1 [R2 R3]].
  rewrite Hsid in *.
  destruct (Hflags _ R1) as [F1 [F2 F3]]. rewrite F2, F3.
  split; [exact F1 |]. split; [| symmetry; exact R3].
  pose proof Hw as [_ [_ Hv]].
  apply grid_is_rebuilt; [| exact R1 |].
  - apply shapedGrid_gridWrite. apply shapedGrid_rebuildBoard. exact Hw.
  - intros x y i Hxy. rewrite R2.
    rewrite gridRead_gridWrite;
      [| apply shapedGrid_rebuildBoard; exact Hw | apply Hv; exact Hin].
    destruct ((piece_x sel' =? x) && (piece_y sel' =? y)) eqn:E.
    + apply andb_true_iff in E. destruct E as [E1 E2].
      apply Z.eqb_eq in E1, E2. subst x y. split; [discriminate |].
      intros [Hn [p [Hp [Hpi Hpk]]]]. exfalso. apply Hn.
      destruct (wellPlaced_unique ps1 p sel' Hw Hp Hin) as [_ U].
      rewrite <- Hpi, (U Hpk). exact Hsid.
    + rewrite rebuildBoard_stands by exact Hw. split.
      * intros Hst. split; [| exact Hst]. intros ->.
        destruct Hst as [p [Hp [Hpi Hpk]]].
        destruct (wellPlaced_unique ps1 p sel' Hw Hp Hin) as [U _].
        rewrite (U (eq_trans Hpi (eq_sym Hsid))) in Hpk.
        unfold piece_key, keyXY in Hpk. inversion Hpk; subst.
        rewrite !Z.eqb_refl in E. discriminate.
      * tauto.
Qed.

Lemma cell_eqb_true (a b x y : Z) :
  (a =? x) && (b =? y) = true <-> (x, y) = (a, b).
Proof.
  rewrite andb_true_iff, !Z.eqb_eq. split.
  - intros [-> ->]. reflexivity.
  - intros E. inversion E. auto.
Qed.

Lemma cell_eqb_false (a b x y : Z) :
  (a =? x) && (b =? y) = false <-> (x, y) <> (a, b).
Proof.
  rewrite <- cell_eqb_true. destruct ((a =? x) && (b =? y)); split; congruence.
Qed.

Lemma stands_at (ps : list Piece) (p : Piece) (i : Z) :
  wellPlaced ps -> In p ps -> (stands ps i (piece_key p) <-> i = piece_id p).
Proof.
  intros Hw Hp. split.
  - intros [q [Hq [Hqi Hqk]]].
    destruct (wellPlaced_unique ps q p Hw Hq Hp) as [_ U].
    rewrite <- Hqi, (U Hqk). reflexivity.
  - intros ->. exists p. auto.
Qed.

(** A grid read through the exchange of two squares is the grid rebuilt
    from the pieces that exchanged them. *)
Lemma exchanged (ps : list Piece) (F : Piece -> Piece) (g2 : Grid)
    (a b : Pos) :
  wellPlaced ps -> shapedGrid g2 ->
  isValidPosition (fst a) (snd a) = true ->
  isValidPosition (fst b) (snd b) = true ->
  (forall p, In p ps ->
     piece_id (F p) = piece_id p
     /\ piece_key (F p) = exchange a b (piece_key p)) ->
  (forall x y, isValidPosition x y = true ->
     gridRead g2 x y
     = gridRead (rebuildBoard ps) (fst (exchange a b (x, y)))
         (snd (exchange a b (x, y)))) ->
  wellPlaced (map F ps) /\ g2 = rebuildBoard (map F ps)
  /\ map piece_id (map F ps) = map piece_id ps.
Proof.
  intros Hw Hs Ha Hb HF Hg.
  destruct (relocate ps F a b Hw Ha Hb HF) as [W1 S1].
  split; [exact W1 |]. split.
  - apply grid_is_rebuilt; [exact Hs | exact W1 |].
    intros x y i Hxy. rewrite (Hg x y Hxy), S1.
    rewrite rebuildBoard_stands by exact Hw.
    rewrite <- surjective_pairing. reflexivity.
  - rewrite map_map. apply map_ext_in. intros p Hp. apply HF. exact Hp.
Qed.

(** The state after [applyAction]: when the pieces
    have distinct ids and stand on distinct squares, the grid is the grid of
    the pieces and [idMap] has the ids of the pieces, the same holds after
    the action, for every rotation plan and every move to a square of the
    grid (move, swap, promotion of the moved piece included). *)
Lemma applyAction_grid (st : State) (a : Action) :
  wellPlaced (st_pieces st) ->
  st_board st = rebuildBoard (st_pieces st) ->
  st_idMap st = map piece_id (st_pieces st) ->
  isValidPosition (fst (move_dest a)) (snd (move_dest a)) = true ->
  wellPlaced (st_pieces (applyAction st a))
  /\ st_board (applyAction st a) = rebuildBoard (st_pieces (applyAction st a))
  /\ st_idMap (applyAction st a) = map piece_id (st_pieces (applyAction st a)).
Proof.
  intros Hw Hb Hids Hd. unfold applyAction.
  set (ps0 := applyRotations (st_idMap st) (rotations a) 2 (st_pieces st)).
  assert (E1 : map piece_id ps0 = map piece_id (st_pieces st))
    by (apply map_applyRotations; reflexivity).
  assert (E2 : map piece_key ps0 = map piece_key (st_pieces st))
    by (apply map_applyRotations; reflexivity).
  assert (W0 : wellPlaced ps0) by (eapply wellPlaced_same; eassumption).
  assert (B0 : st_board st = rebuildBoard ps0)
    by (rewrite Hb; symmetry; apply rebuildBoard_same; assumption).
  assert (I0 : st_idMap st = map piece_id ps0) by congruence.
  unfold idMap_get. cbn [st_idMap st_pieces].
  destruct (if existsb (Z.eqb (move_id a)) (st_idMap st)
            then findPiece (move_id a) ps0 else None) as [sel |] eqn:G.
  2: { cbn [st_pieces st_board st_idMap]. auto. }
  assert (F0 : findPiece (move_id a) ps0 = Some sel).
  { destruct (existsb (Z.eqb (move_id a)) (st_idMap st));
      [exact G | discriminate]. }
  apply findPiece_Some in F0. destruct F0 as [Hsel _].
  destruct (move_dest a) as [dx dy]. cbn [fst snd] in *.
  pose proof W0 as [_ [_ Hv0]]. pose proof (Hv0 sel Hsel) as Hvo.
  pose proof (shapedGrid_rebuildBoard ps0 W0) as Hs0.
  set (sid := piece_id sel). set (ox := piece_x sel). set (oy := piece_y sel).
  assert (Hsel_at : forall i, stands ps0 i (ox, oy) <-> i = sid)
    by (intros i; apply (stands_at ps0 sel i W0 Hsel)).
  assert (Hmove : exists ps1 g2,
            match gridRead (st_board st) dx dy with
            | Some tid =>
                (updatePiece tid (moveTo ox oy)
                   (updatePiece sid (moveTo dx dy) ps0),
                 gridWrite
                   (gridWrite (gridWrite (st_board st) ox oy None)
                      dx dy (Some sid)) ox oy (Some tid))
            | None =>
                (updatePiece sid (moveTo dx dy) ps0,
                 gridWrite (gridWrite (st_board st) ox oy None)
                   dx dy (Some sid))
            end = (ps1, g2)
            /\ wellPlaced ps1 /\ g2 = rebuildBoard ps1
            /\ map piece_id ps1 = map piece_id ps0).
  { rewrite B0.
    destruct (gridRead (rebuildBoard ps0) dx dy) as [tid |] eqn:T.
    - (* swap *)
      pose proof T as Ht. apply rebuildBoard_stands in Ht; [| exact W0].
      destruct Ht as [tp [Htp [Htid Htk]]].
      assert (Htp_at : forall i, stands ps0 i (dx, dy) <-> i = tid).
      { intros i. rewrite <- Htk, <- Htid. apply stands_at; assumption. }
      set (F := fun p =>
                  (fun q => if piece_id q =? tid then moveTo ox oy q else q)
                    (if piece_id p =? sid then moveTo dx dy p else p)).
      assert (EF : updatePiece tid (moveTo ox oy)
                     (updatePiece sid (moveTo dx dy) ps0) = map F ps0).
      { unfold updatePiece. rewrite map_map. reflexivity. }
      rewrite EF. eexists. eexists. split; [reflexivity |].
      apply (exchanged ps0 F _ (ox, oy) (dx, dy)); auto.
      + repeat apply shapedGrid_gridWrite. exact Hs0.
      + intros p Hp. unfold F. split.
        * destruct (piece_id p =? sid);
            [cbn [moveTo piece_id] |];
            destruct (piece_id p =? tid); reflexivity.
        * destruct (wellPlaced_unique ps0 p sel W0 Hp Hsel) as [Us Us'].
          destruct (wellPlaced_unique ps0 p tp W0 Hp Htp) as [Ut Ut'].
          destruct (piece_id p =? sid) eqn:A.
          -- apply Z.eqb_eq in A. rewrite (Us A). cbn [moveTo piece_id].
             fold sid. change (piece_key sel) with (ox, oy).
             destruct (sid =? tid) eqn:B.
             ++ apply Z.eqb_eq in B.
                assert (sel = tp).
                { destruct (wellPlaced_unique ps0 sel tp W0 Hsel Htp) as [U _].
                  apply U. fold sid. congruence. }
                subst tp. unfold exchange. rewrite pos_eqb_refl.
                rewrite <- Htk. reflexivity.
             ++ unfold exchange. rewrite pos_eqb_refl. reflexivity.
          -- apply Z.eqb_neq in A. destruct (piece_id p =? tid) eqn:B.
             ++ apply Z.eqb_eq in B. rewrite (Ut (eq_trans B (eq_sym Htid))).
                rewrite Htk. cbn [moveTo piece_key piece_x piece_y keyXY].
                unfold piece_key, keyXY. cbn [moveTo piece_x piece_y].
                destruct (exchange_cases (ox, oy) (dx, dy) (dx, dy))
                  as [[E1' E2'] | [[_ [_ E]] | [_ [E _]]]];
                  [congruence | congruence | contradiction].
             ++ apply Z.eqb_neq in B.
                destruct (exchange_cases (ox, oy) (dx, dy) (piece_key p))
                  as [[E _] | [[_ [E _]] | [_ [_ E]]]].
                ** exfalso. apply A. apply Hsel_at. exists p. auto.
                ** exfalso. apply B. apply Htp_at. exists p. auto.
                ** symmetry. exact E.
      + intros x y Hxy.
        rewrite !gridRead_gridWrite
          by (repeat apply shapedGrid_gridWrite; assumption).
        destruct (exchange_cases (ox, oy) (dx, dy) (x, y))
          as [[Ea Ee] | [[Ea [Eb Ee]] | [Ea [Eb Ee]]]]; rewrite Ee;
          cbn [fst snd].
        * apply cell_eqb_true in Ea. rewrite Ea. symmetry. exact T.
        * apply cell_eqb_false in Ea. rewrite Ea.
          apply cell_eqb_true in Eb. rewrite Eb. symmetry.
          apply rebuildBoard_stands; [exact W0 |]. apply Hsel_at. reflexivity.
        * apply cell_eqb_false in Ea. rewrite Ea.
          apply cell_eqb_false in Eb. rewrite Eb. reflexivity.
    - (* move *)
      assert (Hfree : forall i, ~ stands ps0 i (dx, dy)).
      { intros i Hst. apply rebuildBoard_stands in Hst; [| exact W0].
        congruence. }
      set (F := fun p => if piece_id p =? sid then moveTo dx dy p else p).
      change (updatePiece sid (moveTo dx dy) ps0) with (map F ps0).
      eexists. eexists. split; [reflexivity |].
      apply (exchanged ps0 F _ (ox, oy) (dx, dy)); auto.
      + repeat apply shapedGrid_gridWrite. exact Hs0.
      + intros p Hp. unfold F. split.
        * destruct (piece_id p =? sid); reflexivity.
        * destruct (wellPlaced_unique ps0 p sel W0 Hp Hsel) as [Us _].
          destruct (piece_id p =? sid) eqn:A.
          -- apply Z.eqb_eq in A. rewrite (Us A).
             change (piece_key sel) with (ox, oy).
             unfold exchange. rewrite pos_eqb_refl. reflexivity.
          -- apply Z.eqb_neq in A.
             destruct (exchange_cases (ox, oy) (dx, dy) (piece_key p))
               as [[E _] | [[_ [E _]] | [_ [_ E]]]].
             ** exfalso. apply A. apply Hsel_at. exists p. auto.
             ** exfalso. apply (Hfree (piece_id p)). exists p. auto.
             ** symmetry. exact E.
      + intros x y Hxy.
        rewrite !gridRead_gridWrite
          by (repeat apply shapedGrid_gridWrite; assumption).
        assert (Hne : (dx, dy) <> (ox, oy)).
        { intros E. apply (Hfree sid). rewrite E. apply Hsel_at. reflexivity. }
        destruct (exchange_cases (ox, oy) (dx, dy) (x, y))
          as [[Ea Ee] | [[Ea [Eb Ee]] | [Ea [Eb Ee]]]]; rewrite Ee;
          cbn [fst snd].
        * assert (Eb : (x, y) <> (dx, dy)) by congruence.
          apply cell_eqb_false in Eb. rewrite Eb.
          apply cell_eqb_true in Ea. rewrite Ea. symmetry. exact T.
        * apply cell_eqb_true in Eb. rewrite Eb. symmetry.
          apply rebuildBoard_stands; [exact W0 |]. apply Hsel_at. reflexivity.
        * apply cell_eqb_false in Ea. rewrite Ea.
          apply cell_eqb_false in Eb. rewrite Eb. reflexivity. }
  destruct Hmove as [ps1 [g2 [M [W1 [B1 I1]]]]].
  fold sid ox oy.
  destruct (gridRead (st_board st) dx dy) as [tid |];
    injection M as M1 M2; cbv beta iota zeta; fold sid ox oy;
    rewrite ?M1, ?M2;
    match goal with
    | |- context [match ?T with (_, _) => _ end] =>
        destruct T as [[[ps2 g3] ids] scores'] eqn:P
    end;
    cbn [st_pieces st_board st_idMap];
    apply (promotion_tail ps1 g2 sid _ (st_idMap st) (st_playerScores st)
             W1 B1 (eq_trans I0 (eq_sym I1)) ps2 g3 ids scores' P).
Qed.

Lemma wellPlaced_filter (f : Piece -> bool) (ps : list Piece) :
  wellPlaced ps ->
  wellPlaced (filter f ps)
  /\ forall i k, stands (filter f ps) i k
                 <-> exists p, In p ps /\ f p = true /\ piece_id p = i
                               /\ piece_key p = k.
Proof.
  intros [Hi [Hk Hv]].
  assert (Hsub : forall (B : Type) (h : Piece -> B),
            NoDup (map h ps) -> NoDup (map h (filter f ps))).
  { intros B h. clear. induction ps as [| a l IH]; intros H; simpl;
      [constructor |].
    inversion H as [| x l' Ha Hnd E]; subst.
    destruct (f a); simpl; [| auto].
    constructor; [| auto]. intros Hin. apply Ha.
    apply in_map_iff in Hin. destruct Hin as [q [Hq Hin]].
    apply filter_In in Hin. rewrite <- Hq. apply in_map. tauto. }
  split; [split; [| split] |].
  - apply Hsub. exact Hi.
  - apply Hsub. exact Hk.
  - intros p Hp. apply filter_In in Hp. apply Hv. tauto.
  - intros i k. split.
    + intros [p [Hp [Hpi Hpk]]]. apply filter_In in Hp. exists p. tauto.
    + intros [p [Hp [Hf [Hpi Hpk]]]]. exists p.
      split; [apply filter_In; auto | auto].
Qed.

(** The grid after the promotion loop: the cells of the promoted pieces are
    cleared, the others are those from before. *)
Lemma promotionLoop_grid (n : nat) :
  forall ps g scores ps' g' scores',
  (n <= List.length ps)%nat -> shapedGrid g ->
  (forall p, In p ps -> isValidPosition (piece_x p) (piece_y p) = true) ->
  promotionLoop n ps g scores = (ps', g', scores') ->
  shapedGrid g'
  /\ forall x y,
       gridRead g' x y
       = if existsb (fun p => promotes p && pos_eqb (piece_key p) (x, y))
              (firstn n ps)
         then None else gridRead g x y.
Proof.
  induction n as [| i IH]; intros ps g scores ps' g' scores' Hn Hs Hv H;
    simpl in H.
  - inversion H; subst. split; [exact Hs | reflexivity].
  - destruct (nth_error ps i) as [p |] eqn:Np.
    2: { apply nth_error_None in Np. lia. }
    destruct (firstn_S_nth i ps p Np) as [Hf _].
    assert (Hp : In p ps) by (eapply nth_error_In; exact Np).
    rewrite Hf.
    destruct (promotes p) eqn:Pp.
    + apply IH in H.
      * rewrite firstn_removeNth in H. destruct H as [H1 H2].
        split; [exact H1 |]. intros x y. rewrite H2, existsb_app.
        cbn [existsb]. rewrite Pp, orb_false_r. cbn [andb].
        destruct (existsb (fun q => promotes q && pos_eqb (piece_key q) (x, y))
                    (firstn i ps)); [reflexivity |].
        cbn [orb]. rewrite gridRead_gridWrite by auto.
        unfold pos_eqb, piece_key, keyXY. cbn [fst snd]. reflexivity.
      * pose proof (length_removeNth i ps). lia.
      * apply shapedGrid_gridWrite. exact Hs.
      * intros q Hq. apply Hv.
        clear - Hq. revert i Hq. induction ps as [| a l IHl]; intros [| i] Hq;
          simpl in *; try tauto.
        destruct Hq as [Hq | Hq]; [auto | right; eapply IHl; exact Hq].
    + apply IH in H; [| lia | exact Hs | exact Hv].
      destruct H as [H1 H2]. split; [exact H1 |]. intros x y.
      rewrite H2, existsb_app. cbn [existsb]. rewrite Pp. cbn [andb orb].
      rewrite orb_false_r. reflexivity.
Qed.

Lemma update_grid (g : Game) :
  piecesAreAnimating g = true ->
  wellPlaced (map arrive (pieces g)) ->
  wellPlaced (pieces (update g))
  /\ board (update g) = rebuildBoard (pieces (update g))
  /\ piecesAreAnimating (update g) = false.
Proof.
  intros Ha Hw.
  assert (Hanim : piecesAreAnimating (update g) = false).
  { unfold update. rewrite Ha, arrived_all. cbn [andb].
    destruct (promotionLoop _ _ _ _) as [[ps' grid] scores].
    destruct (negb _); reflexivity. }
  destruct (update_end g Ha) as [ps' [grid [scores [HL [Hb [_ Hp]]]]]].
  set (ps := map arrive (pieces g)) in *.
  pose proof Hw as [_ [_ Hv]].
  destruct (promotionLoop_grid _ _ _ _ _ _ _ (le_n _)
              (shapedGrid_rebuildBoard ps Hw) Hv HL) as [Hs Hread].
  apply promotionLoop_spec in HL; [| lia].
  rewrite firstn_all, skipn_all, app_nil_r in HL. destruct HL as [Hps _].
  rewrite firstn_all in Hread.
  destruct (wellPlaced_filter (fun p => negb (promotes p)) ps Hw) as [W1 S1].
  rewrite <- Hps in W1, S1.
  assert (G1 : grid = rebuildBoard ps').
  { apply grid_is_rebuilt; [exact Hs | exact W1 |].
    intros x y i Hxy. rewrite Hread, S1.
    destruct (existsb (fun p => promotes p && pos_eqb (piece_key p) (x, y)) ps)
      eqn:E.
    - apply existsb_exists in E. destruct E as [p [Hin Hpp]].
      apply andb_true_iff in Hpp. destruct Hpp as [Hpr Hk].
      apply pos_eqb_eq in Hk. split; [discriminate |].
      intros [q [Hq [Hn [_ Hqk]]]]. exfalso.
      destruct (wellPlaced_unique ps q p Hw Hq Hin) as [_ U].
      rewrite (U (eq_trans Hqk (eq_sym Hk))) in Hn.
      rewrite Hpr in Hn. discriminate.
    - rewrite rebuildBoard_stands by exact Hw. split.
      + intros [p [Hin [Hi Hk]]]. exists p. split; [exact Hin |].
        split; [| auto].
        destruct (promotes p) eqn:Pp; [| reflexivity]. exfalso.
        assert (Et : existsb
                       (fun p => promotes p && pos_eqb (piece_key p) (x, y))
                       ps = true).
        { apply existsb_exists. exists p. split; [exact Hin |].
          rewrite Pp, Hk, pos_eqb_refl. reflexivity. }
        congruence.
      + intros [p [Hin [_ [Hi Hk]]]]. exists p. auto. }
  split; [| split; [| exact Hanim]].
  - destruct Hp as [[-> _] | [-> _]]; [exact W1 |].
    eapply wellPlaced_same; [| | exact W1]; apply map_resetFlags; reflexivity.
  - rewrite Hb, G1. destruct Hp as [[-> _] | [-> _]]; [reflexivity |].
    symmetry. apply rebuildBoard_same; apply map_resetFlags; reflexivity.
Qed.

(** X7. When the moving pieces have arrived on distinct squares of the
    grid, [update] leaves the game coherent: the pieces that remain have
    distinct ids and stand on distinct squares, and the grid is the grid
    of these pieces (the squares of the promoted pieces are empty, every
    other piece is in the cell of its coordinates). *)
Theorem update_keeps_grid (g : Game) :
  piecesAreAnimating g = true ->
  wellPlaced (map arrive (pieces g)) ->
  wellPlaced (pieces (update g))
  /\ board (update g) = rebuildBoard (pieces (update g))
  /\ piecesAreAnimating (update g) = false.
Proof. apply update_grid. Qed.

(** ** A completed move *)

Lemma found_trail (b : Board) (s : Piece) (d : Pos) (path : list Pos) :
  findMovementPathForBoard s d b = Done (Some path) ->
  exists firstStep pieces,
    incl firstStep pieces
    /\ trail firstStep pieces d (piece_key s) path.
Proof.
  unfold findMovementPathForBoard. intros H.
  destruct (getAllAccessibleSquaresForBoard s s b [] []) as [r | |];
    cbn [bind] in H; try discriminate.
  destruct (collectPieces s b (visitedPieces r) []) as [pieces | |] eqn:C;
    cbn [bind] in H; try discriminate.
  destruct (boardRead b (fst d) (snd d)) as [cell | |]; cbn [bind] in H;
    try discriminate.
  cbv zeta in H. rewrite keyXY_eta in H.
  set (firstStep := if match cell with None => true | Some _ => false end
                    then deletePiece s pieces else pieces) in H.
  exists firstStep, pieces. split.
  - unfold firstStep. destruct cell; [apply incl_refl |].
    intros p Hp. apply In_deletePiece in Hp. tauto.
  - assert (HQ : QInv s firstStep pieces d [(d, [d])] [d]).
    { constructor.
      - simpl; auto.
      - intros pos pth [E | []]. inversion E; subst. simpl.
        split; [auto | apply trail_start].
      - intros k' [<- | []] Hn. exfalso. apply Hn. simpl. auto. }
    exact (searchLoop_inv s firstStep pieces d _ _ _ _ HQ H).
Qed.

Lemma path_ends (b : Board) (s : Piece) (d : Pos) (path : list Pos) :
  findMovementPathForBoard s d b = Done (Some path) ->
  (forall def, last path def = d)
  /\ (d = piece_key s \/ isValidPosition (fst d) (snd d) = true).
Proof.
  intros H. destruct (found_trail b s d path H) as [fs [pcs [_ Ht]]].
  destruct (trail_nonempty _ _ _ _ _ Ht) as [tl E].
  destruct (trail_last _ _ _ _ _ Ht) as [-> | [front [p [-> [_ Hd]]]]].
  - inversion E; subst. split; [reflexivity | auto].
  - split.
    + intros def. change (front ++ [piece_key p; d])
        with (front ++ [piece_key p] ++ [d]).
      rewrite app_assoc. apply last_last.
    + right. eapply getAvailableSquares_valid. exact Hd.
Qed.

Lemma arrive_resting (p : Piece) : isMoving p = false -> arrive p = p.
Proof. unfold arrive. intros ->. reflexivity. Qed.

Lemma commitMove_arrival (g : Game) (sel : Piece) (sq : Pos)
    (path : list Pos) :
  coherentGame g -> In sel (pieces g) ->
  sq <> piece_key sel -> isValidPosition (fst sq) (snd sq) = true ->
  (forall def, last path def = sq) ->
  piecesAreAnimating (commitMove g sel sq path) = true
  /\ wellPlaced (map arrive (pieces (commitMove g sel sq path))).
Proof.
  intros [Hw [Hb [_ Hrest]]] Hsel Hne Hv Hlast.
  pose proof Hw as [_ [_ Hv0]]. pose proof (Hv0 sel Hsel) as Hvo.
  set (ps := pieces g) in *. set (sid := piece_id sel).
  set (o := piece_key sel) in *.
  assert (Hsel_at : forall i, stands ps i o <-> i = sid)
    by (intros i; apply (stands_at ps sel i Hw Hsel)).
  assert (Harr : forall q, In q ps ->
            piece_id (arrive (startMoving path q)) = piece_id q
            /\ piece_key (arrive (startMoving path q)) = sq).
  { intros q _. unfold arrive, startMoving. cbn [isMoving movementPath
      piece_id piece_key piece_x piece_y keyXY].
    unfold piece_key, keyXY. cbn [piece_x piece_y piece_id].
    rewrite Hlast. split; [reflexivity | destruct sq; reflexivity]. }
  unfold commitMove. fold ps sid. rewrite Hb. fold ps.
  destruct (gridRead (rebuildBoard ps) (fst sq) (snd sq)) as [tid |] eqn:T;
    cbn [piecesAreAnimating pieces]; (split; [reflexivity |]).
  - (* swap *)
    pose proof T as Ht. apply rebuildBoard_stands in Ht; [| exact Hw].
    rewrite <- surjective_pairing in Ht.
    destruct Ht as [tp [Htp [Htid Htk]]].
    assert (Htp_at : forall i, stands ps i sq <-> i = tid).
    { intros i. rewrite <- Htk, <- Htid. apply stands_at; assumption. }
    assert (Hst : sid <> tid).
    { intros E. apply Hne. destruct (wellPlaced_unique ps sel tp Hw Hsel Htp)
        as [U _]. rewrite <- Htk, <- U; [reflexivity |]. fold sid. congruence. }
    rewrite <- Htid, (findPiece_In ps tp (proj1 Hw) Htp), Htid.
    set (tpath := [(piece_x tp, piece_y tp); (piece_x sel, piece_y sel)]).
    set (F := fun p =>
                arrive ((fun q => if piece_id q =? tid
                                  then startMoving tpath q else q)
                          (if piece_id p =? sid
                           then startMoving path p else p))).
    assert (EF : map arrive
                   (updatePiece tid (startMoving tpath)
                      (updatePiece sid (startMoving path) ps)) = map F ps).
    { unfold updatePiece. rewrite !map_map. reflexivity. }
    rewrite EF. apply (relocate ps F o sq Hw Hvo Hv).
    intros p Hp. unfold F.
    destruct (wellPlaced_unique ps p sel Hw Hp Hsel) as [Us _].
    destruct (wellPlaced_unique ps p tp Hw Hp Htp) as [Ut _].
    destruct (piece_id p =? sid) eqn:A.
    + apply Z.eqb_eq in A. rewrite (Us A). cbn [startMoving piece_id].
      fold sid. replace (sid =? tid) with false
        by (symmetry; apply Z.eqb_neq; exact Hst).
      fold o. unfold exchange. rewrite pos_eqb_refl.
      apply Harr. exact Hsel.
    + apply Z.eqb_neq in A. destruct (piece_id p =? tid) eqn:B.
      * apply Z.eqb_eq in B. rewrite (Ut (eq_trans B (eq_sym Htid))).
        rewrite Htk. split; [reflexivity |].
        unfold exchange. replace (pos_eqb sq o) with false
          by (symmetry; apply pos_eqb_neq; exact Hne).
        rewrite pos_eqb_refl. reflexivity.
      * apply Z.eqb_neq in B. rewrite (arrive_resting p (Hrest p Hp)).
        split; [reflexivity |].
        destruct (exchange_cases o sq (piece_key p))
          as [[E _] | [[_ [E _]] | [_ [_ E]]]].
        -- exfalso. apply A. apply Hsel_at. exists p. auto.
        -- exfalso. apply B. apply Htp_at. exists p. auto.
        -- symmetry. exact E.
  - (* move *)
    assert (Hfree : forall i, ~ stands ps i sq).
    { intros i Hst. rewrite (surjective_pairing sq) in Hst.
      apply rebuildBoard_stands in Hst; [| exact Hw]. congruence. }
    set (F := fun p =>
                arrive (if piece_id p =? sid then startMoving path p else p)).
    assert (EF : map arrive (updatePiece sid (startMoving path) ps) = map F ps).
    { unfold updatePiece. rewrite !map_map. reflexivity. }
    rewrite EF. apply (relocate ps F o sq Hw Hvo Hv).
    intros p Hp. unfold F.
    destruct (wellPlaced_unique ps p sel Hw Hp Hsel) as [Us _].
    destruct (piece_id p =? sid) eqn:A.
    + apply Z.eqb_eq in A. rewrite (Us A). fold o.
      unfold exchange. rewrite pos_eqb_refl. apply Harr. exact Hsel.
    + apply Z.eqb_neq in A. rewrite (arrive_resting p (Hrest p Hp)).
      split; [reflexivity |].
      destruct (exchange_cases o sq (piece_key p))
        as [[E _] | [[_ [E _]] | [_ [_ E]]]].
      * exfalso. apply A. apply Hsel_at. exists p. auto.
      * exfalso. apply (Hfree (piece_id p)). exists p. auto.
      * symmetry. exact E.
Qed.

Lemma update_rests (g : Game) (p : Piece) :
  piecesAreAnimating g = true -> In p (pieces (update g)) ->
  isMoving p = false.
Proof.
  intros Ha Hp.
  destruct (update_end g Ha) as [ps' [grid [scores [HL [_ [_ Hps]]]]]].
  apply promotionLoop_spec in HL; [| lia].
  rewrite firstn_all, skipn_all, app_nil_r in HL. destruct HL as [Hf _].
  assert (Hmov : In (isMoving p) (map isMoving ps')).
  { destruct Hps as [[E _] | [E _]]; rewrite E in Hp.
    - apply in_map. exact Hp.
    - rewrite <- (map_resetFlags isMoving (if currentPlayer g =? 1 then 2 else 1))
        by reflexivity.
      apply in_map. exact Hp. }
  apply in_map_iff in Hmov. destruct Hmov as [q [<- Hq]].
  rewrite Hf in Hq. apply filter_In in Hq. destruct Hq as [Hq _].
  apply in_map_iff in Hq. destruct Hq as [r [<- _]].
  apply arrive_not_moving.
Qed.

Lemma tap_coherent (g g1 : Game) (sq : Pos) :
  coherentGame g ->
  onPointerDown_selected g sq = Done g1 ->
  (pieces g1 = pieces g /\ board g1 = board g
   /\ piecesAreAnimating g1 = false)
  \/ (piecesAreAnimating g1 = true /\ coherentGame (update g1)).
Proof.
  intros Hc H. pose proof Hc as [Hw [Hb [Ha Hrest]]].
  unfold onPointerDown_selected in H.
  destruct (gameOver g); [inversion H; subst; auto |].
  destruct (currentPlayer g =? BOT_PLAYER); [inversion H; subst; auto |].
  rewrite Ha in H.
  destruct (selectedPiece g) as [sid |]; [| inversion H; subst; auto].
  destruct (findPiece sid (pieces g)) as [sel |] eqn:F;
    [| inversion H; subst; auto].
  destruct ((fst sq =? piece_x sel) && (snd sq =? piece_y sel)) eqn:E;
    [inversion H; subst; auto |].
  destruct (mem (keyXY (fst sq) (snd sq)) (highlightedPositions g));
    [| inversion H; subst; auto].
  destruct (findMovementPathForBoard sel sq (viewBoard (pieces g) (board g)))
    as [[path |] | |] eqn:P; cbn [bind] in H; inversion H; subst; auto.
  right. clear H.
  apply findPiece_Some in F. destruct F as [Hsel _].
  assert (Hne : sq <> piece_key sel).
  { intros ->. unfold piece_key, keyXY in E. cbn [fst snd] in E.
    rewrite !Z.eqb_refl in E. discriminate. }
  destruct (path_ends _ _ _ _ P) as [Hlast [Hk | Hv]]; [contradiction |].
  destruct (commitMove_arrival g sel sq path Hc Hsel Hne Hv Hlast)
    as [Hanim Harr].
  split; [exact Hanim |].
  destruct (update_grid _ Hanim Harr) as [U1 [U2 U3]].
  split; [exact U1 |]. split; [exact U2 |]. split; [exact U3 |].
  intros p Hp. eapply update_rests; eassumption.
Qed.

(** ** The end of a move *)

Lemma promotes_resetFlags (cp : Z) (ps : list Piece) (p : Piece) :
  In p (resetFlags cp ps) -> exists q, In q ps /\ promotes p = promotes q.
Proof.
  unfold resetFlags. intros H. apply in_map_iff in H.
  destruct H as [q [<- Hq]]. exists q. split; [exact Hq |].
  destruct (player q =? cp); [reflexivity |].
  destruct (movedLastTurn q); reflexivity.
Qed.

(** X9. When the moving pieces have arrived on distinct squares of the
    grid, [update] settles the turn:
    no promotable piece is left standing on its owner's far row, no score
    decreases, the game is over exactly when it was over before or a score
    has reached 6; if the game goes on the turn passes to the other player
    with 2 rotation chances, and if it is over the player to move and the
    rotation chances stay as they are. *)
Theorem update_settles_turn (g : Game) :
  piecesAreAnimating g = true ->
  wellPlaced (map arrive (pieces g)) ->
  (forall p, In p (pieces (update g)) -> promotes p = false)
  /\ fst (playerScores g) <= fst (playerScores (update g))
  /\ snd (playerScores g) <= snd (playerScores (update g))
  /\ gameOver (update g)
     = gameOver g || (6 <=? fst (playerScores (update g)))
       || (6 <=? snd (playerScores (update g)))
  /\ (gameOver (update g) = false ->
      currentPlayer (update g) = (if currentPlayer g =? 1 then 2 else 1)
      /\ rotationChances (update g) = 2)
  /\ (gameOver (update g) = true ->
      currentPlayer (update g) = currentPlayer g
      /\ rotationChances (update g) = rotationChances g).
Proof.
  intros Ha _.
  assert (Hp : forall p, In p (pieces (update g)) -> promotes p = false).
  { destruct (update_end g Ha) as [ps' [grid [scores [HL [_ [_ Hps]]]]]].
    apply promotionLoop_spec in HL; [| lia].
    rewrite firstn_all, skipn_all, app_nil_r in HL. destruct HL as [Hf _].
    assert (Hin : forall q, In q ps' -> promotes q = false).
    { intros q Hq. rewrite Hf in Hq. apply filter_In in Hq.
      apply negb_true_iff. tauto. }
    intros p Hp. destruct Hps as [[E _] | [E _]]; rewrite E in Hp; [auto |].
    apply promotes_resetFlags in Hp. destruct Hp as [q [Hq ->]]. auto. }
  split; [exact Hp |].
  unfold update. rewrite Ha, arrived_all. cbn [andb].
  destruct (promotionLoop (List.length (map arrive (pieces g)))
              (map arrive (pieces g)) (rebuildBoard (map arrive (pieces g)))
              (playerScores g)) as [[ps' grid] scores] eqn:HL.
  apply promotionLoop_spec in HL; [| lia].
  destruct HL as [_ [H1 [H2 _]]]. unfold gain1, gain2 in H1, H2.
  cbn [gameOver].
  destruct (gameOver g || ((6 <=? fst scores) || (6 <=? snd scores))) eqn:O;
    cbn [negb endTurn playerScores gameOver currentPlayer rotationChances];
    rewrite <- orb_assoc, O;
    (split; [lia |]); (split; [lia |]); (split; [reflexivity |]);
    split; intros E; try discriminate; auto.
Qed.

(** ** Candidate squares and rotations *)

Lemma quarter_angle (k : Z) :
  In (Z.rem (- Z.rem (Z.rem (90 * k) 360 + 360) 360 + 360) 360)
     [0; 90; 180; 270].
Proof.
  pose proof (Z.rem_bound_abs (90 * k) 360).
  assert (E : exists q, Z.rem (90 * k) 360 = 90 * q).
  { exists (k - 4 * Z.quot (90 * k) 360).
    pose proof (Z.quot_rem' (90 * k) 360). lia. }
  destruct E as [q Eq]. rewrite Eq in *.
  assert (Hq : -3 <= q <= 3) by lia.
  assert (Hc : q = -3 \/ q = -2 \/ q = -1 \/ q = 0 \/ q = 1 \/ q = 2 \/ q = 3)
    by lia.
  destruct Hc as [-> | [-> | [-> | [-> | [-> | [-> | ->]]]]]];
    vm_compute; auto.
Qed.

Lemma offsets_right_angle (type : string) (pl k : Z) :
  let offs := candidateOffsets type pl (90 * k) in
  NoDup offs /\ ~ In (0, 0) offs /\ (List.length offs <= 4)%nat
  /\ forall d, In d offs -> Z.abs (fst d) <= 2 /\ Z.abs (snd d) <= 2.
Proof.
  unfold candidateOffsets.
  pose proof (quarter_angle k) as Ha.
  set (angle := Z.rem (- Z.rem (Z.rem (90 * k) 360 + 360) 360 + 360) 360) in *.
  unfold baseDirs.
  assert (solve : forall l : list Pos,
            forallb (fun d => negb (pos_eqb d (0, 0))
                              && (Z.abs (fst d) <=? 2)
                              && (Z.abs (snd d) <=? 2)) l = true ->
            (List.length l <=? 4)%nat = true ->
            NoDup l ->
            NoDup l /\ ~ In (0, 0) l /\ (List.length l <= 4)%nat
            /\ forall d, In d l -> Z.abs (fst d) <= 2 /\ Z.abs (snd d) <= 2).
  { intros l H1 H2 H3. rewrite forallb_forall in H1.
    split; [exact H3 |]. split; [| split].
    - intros Hin. specialize (H1 _ Hin). rewrite pos_eqb_refl in H1.
      discriminate.
    - apply Nat.leb_le. exact H2.
    - intros d Hd. specialize (H1 _ Hd).
      rewrite !andb_true_iff, !Z.leb_le in H1. tauto. }
  destruct (pl =? 1);
    (destruct (strip_e type =? "PR")%string;
     [| destruct (strip_e type =? "PL")%string;
        [| destruct (strip_e type =? "PX")%string;
           [| destruct (strip_e type =? "DP")%string;
              [| destruct (strip_e type =? "DT")%string;
                 [| destruct (strip_e type =? "DN")%string;
                    [| destruct (strip_e type =? "C")%string]]]]]]);
    simpl in Ha; destruct Ha as [<- | [<- | [<- | [<- | []]]]];
    (apply solve;
     [ vm_compute; reflexivity | vm_compute; reflexivity
     | vm_compute;
       repeat (apply NoDup_cons;
               [ intros H;
                 repeat (destruct H as [H | H]; [discriminate H |]);
                 exact H | ]);
       apply NoDup_nil ]).
Qed.

(** X10. A piece whose rotation is a multiple of 90 offers at most four
    candidate squares, all different, all on the grid and within two
    columns and two rows of the piece, and never its own square. *)
Theorem candidate_squares_shape (p : Piece) (k : Z) :
  rotation p = 90 * k ->
  NoDup (getAvailableSquares p)
  /\ ~ In (piece_key p) (getAvailableSquares p)
  /\ (List.length (getAvailableSquares p) <= 4)%nat
  /\ forall q, In q (getAvailableSquares p) ->
       isValidPosition (fst q) (snd q) = true
       /\ Z.abs (fst q - piece_x p) <= 2 /\ Z.abs (snd q - piece_y p) <= 2.
Proof.
  intros Hr. unfold getAvailableSquares. rewrite Hr.
  destruct (offsets_right_angle (piece_type p) (player p) k)
    as [Hnd [Hz [Hlen Hd]]].
  set (offs := candidateOffsets (piece_type p) (player p) (90 * k)) in *.
  split; [| split; [| split]].
  - apply NoDup_filter. apply Finite.Injective_map_NoDup; [| exact Hnd].
    intros [a b] [a' b'] E. cbn [fst snd] in E. inversion E.
    f_equal; lia.
  - intros Hin. apply filter_In in Hin. destruct Hin as [Hin _].
    apply in_map_iff in Hin. destruct Hin as [[a b] [E Hin]].
    unfold piece_key, keyXY in E. cbn [fst snd] in E. inversion E.
    apply Hz. replace a with 0 in Hin by lia. replace b with 0 in Hin by lia.
    exact Hin.
  - eapply Nat.le_trans; [apply List.filter_length_le |].
    rewrite length_map. exact Hlen.
  - intros q Hq. apply filter_In in Hq. destruct Hq as [Hin Hv].
    split; [exact Hv |]. apply in_map_iff in Hin.
    destruct Hin as [d [<- Hin]]. cbn [fst snd].
    destruct (Hd d Hin) as [H1 H2].
    replace (piece_x p + fst d - piece_x p) with (fst d) by lia.
    replace (piece_y p + snd d - piece_y p) with (snd d) by lia. auto.
Qed.

Lemma cacheAfter_coherent (p : Piece) (rots : list Z) :
  forall cache, coherent p cache -> coherent p (cacheAfter p rots cache).
Proof.
  induction rots as [| r rest IH]; intros cache Hc; [exact Hc |].
  cbn [cacheAfter]. apply IH.
  exact (proj2 (getAvailableSquares_cached_pure (withRotation r p) cache Hc)).
Qed.

(** X11. The memoised directions never change what [getAvailableSquares]
    returns: whatever rotations the method was called at on a piece since
    its cache was created, the next call returns at any rotation the squares
    computed from the unrotated direction set. *)
Theorem cache_is_transparent (p : Piece) (rots : list Z) (r : Z) :
  fst (getAvailableSquares_cached (withRotation r p) (cacheAfter p rots []))
  = getAvailableSquares (withRotation r p).
Proof.
  apply (getAvailableSquares_cached_pure (withRotation r p)).
  apply (cacheAfter_coherent p rots []). apply coherent_empty.
Qed.

Lemma rotateOnce_right (p : Piece) : rightAngle p -> rightAngle (rotateOnce p).
Proof.
  unfold rightAngle. cbn [rotateOnce rotation]. simpl.
  intros [<- | [<- | [<- | [<- | []]]]]; vm_compute; auto.
Qed.

Lemma iterate_right (n : nat) (p : Piece) :
  rightAngle p -> rightAngle (iterate n rotateOnce p).
Proof.
  revert p. induction n as [| n IH]; intros p Hp; [exact Hp |].
  cbn [iterate]. apply IH. apply rotateOnce_right. exact Hp.
Qed.

Lemma applyRotations_right (idMap : list Z) (rs : list (Z * Z)) :
  forall chances ps,
  (forall p, In p ps -> rightAngle p) ->
  forall p, In p (applyRotations idMap rs chances ps) -> rightAngle p.
Proof.
  induction rs as [| [id n] rest IH]; intros chances ps Hps; simpl;
    [exact Hps |].
  destruct (chances <=? 0); [exact Hps |].
  destruct (if existsb (Z.eqb id) idMap then findPiece id ps else None)
    as [q |]; [| apply IH; exact Hps].
  destruct (canRotateType (piece_type q)); [| apply IH; exact Hps].
  apply IH. intros p Hp. unfold updatePiece in Hp. apply in_map_iff in Hp.
  destruct Hp as [p0 [<- Hp0]].
  destruct (piece_id p0 =? id); [apply iterate_right |]; auto.
Qed.

(** X12. One rotation step turns a right angle into a right angle, four
    steps bring a piece back to the rotation it had, and [applyAction], on
    a coherent state and for a move to a square of the grid, leaves every
    piece of the state at a right angle when every piece was at one
    before. *)
Theorem rotations_stay_right_angles (st : State) (a : Action) :
  coherentState st ->
  isValidPosition (fst (move_dest a)) (snd (move_dest a)) = true ->
  (forall p, In p (st_pieces st) -> rightAngle p) ->
  (forall p, In p (st_pieces (applyAction st a)) -> rightAngle p)
  /\ (forall p, In p (st_pieces st) ->
        rightAngle (rotateOnce p) /\ iterate 4 rotateOnce p = p).
Proof.
  intros _ _ Hps. split.
  - assert (Hflags : forall cp l,
              (forall p, In p l -> rightAngle p) ->
              forall p, In p (resetFlags cp l) -> rightAngle p).
    { intros cp l Hl p Hp. unfold resetFlags in Hp. apply in_map_iff in Hp.
      destruct Hp as [q [<- Hq]]. specialize (Hl q Hq).
      destruct (player q =? cp); [exact Hl |].
      destruct (movedLastTurn q); exact Hl. }
    assert (Hmove : forall id x y l,
              (forall p, In p l -> rightAngle p) ->
              forall p, In p (updatePiece id (moveTo x y) l) -> rightAngle p).
    { intros id x y l Hl p Hp. unfold updatePiece in Hp.
      apply in_map_iff in Hp. destruct Hp as [q [<- Hq]]. specialize (Hl q Hq).
      destruct (piece_id q =? id); exact Hl. }
    pose proof (applyRotations_right (st_idMap st) (rotations a) 2
                  (st_pieces st) Hps) as H0.
    unfold applyAction.
    set (ps0 := applyRotations (st_idMap st) (rotations a) 2 (st_pieces st))
      in *.
    destruct (idMap_get _ (move_id a)) as [sel |]; [| exact H0].
    destruct (gridRead (st_board st) (fst (move_dest a)) (snd (move_dest a)))
      as [tid |]; cbv beta iota zeta;
      match goal with
      | |- context [match findPiece ?i ?l with _ => _ end] =>
          assert (H1 : forall p, In p l -> rightAngle p)
            by (repeat apply Hmove; exact H0);
          destruct (findPiece i l) as [sel' |];
            [destruct (promotes sel') |]
      end;
      cbn [st_pieces]; apply Hflags; try exact H1;
      intros p Hp; apply filter_In in Hp; apply H1; tauto.
  - intros p Hp. specialize (Hps p Hp). split; [apply rotateOnce_right; auto |].
    destruct p as [i x y t pl r m rt mp mv]. unfold rightAngle in Hps.
    cbn [rotation] in Hps. simpl in Hps.
    destruct Hps as [<- | [<- | [<- | [<- | []]]]]; reflexivity.
Qed.

(** ** The bot's evaluation *)

Lemma centerX_value : (centerX == 3)%Q.
Proof. reflexivity. Qed.

Lemma centerY_value : (centerY == 7 # 2)%Q.
Proof. reflexivity. Qed.

Lemma evalPiece_flip (st : State) (p : Piece) (a b : Q) :
  player p = 1 \/ player p = 2 -> (a == - b)%Q ->
  (evalPiece st 1 a p == - evalPiece st 2 b p)%Q.
Proof.
  intros Hp Hab. unfold evalPiece.
  destruct (mobilityLoop st p (getAvailableSquares p) 0 0)
    as [mobile pressure].
  destruct Hp as [-> | ->]; cbn [Z.eqb Pos.eqb];
    destruct ((strip_e (piece_type p) =? "PR")%string
              || (strip_e (piece_type p) =? "PL")%string);
    rewrite Hab; ring.
Qed.

(** X13. The evaluation is zero-sum: on a state whose grid has its 8 rows
    of 7 cells and whose pieces belong to player 1 or to player 2, the value
    of the state for player 1 is the opposite of its value for player 2,
    terminal values included. *)
Theorem evaluation_zero_sum (st : State) :
  shapedGrid (st_board st) ->
  (forall p, In p (st_pieces st) -> player p = 1 \/ player p = 2) ->
  (evaluateState st 1 == - evaluateState st 2)%Q.
Proof.
  intros _ Hp. unfold evaluateState, otherPlayer, scoreOf.
  cbn [Z.eqb Pos.eqb].
  destruct (6 <=? fst (st_playerScores st));
    destruct (6 <=? snd (st_playerScores st)); cbn [andb];
    try reflexivity.
  assert (H0 : (0 + inject_Z ((fst (st_playerScores st)
                               - snd (st_playerScores st)) * 5000)
                == - (0 + inject_Z ((snd (st_playerScores st)
                                     - fst (st_playerScores st)) * 5000)))%Q).
  { replace ((fst (st_playerScores st) - snd (st_playerScores st)) * 5000)
      with (- ((snd (st_playerScores st) - fst (st_playerScores st)) * 5000))
      by ring.
    rewrite inject_Z_opp. ring. }
  revert H0. generalize
    (0 + inject_Z ((fst (st_playerScores st) - snd (st_playerScores st))
                   * 5000))%Q
    (0 + inject_Z ((snd (st_playerScores st) - fst (st_playerScores st))
                   * 5000))%Q.
  induction (st_pieces st) as [| p ps IH]; intros a b Hab; cbn [fold_left].
  - exact Hab.
  - apply IH.
    + intros q Hq. apply Hp. right. exact Hq.
    + apply evalPiece_flip; [apply Hp; left; reflexivity | exact Hab].
Qed.

Lemma length_baseDirs (type : string) (pl : Z) :
  (List.length (baseDirs type pl) <= 4)%nat.
Proof.
  unfold baseDirs.
  repeat match goal with
         | |- context [if ?c then _ else _] => destruct c
         end; simpl; lia.
Qed.

Lemma length_getAvailableSquares (p : Piece) :
  (List.length (getAvailableSquares p) <= 4)%nat.
Proof.
  unfold getAvailableSquares, candidateOffsets.
  eapply Nat.le_trans; [apply List.filter_length_le |].
  rewrite !length_map. apply length_baseDirs.
Qed.

Lemma mobilityLoop_bounds (st : State) (p : Piece) (av : list Pos) :
  forall mobile pressure,
  mobile <= fst (mobilityLoop st p av mobile pressure)
    <= mobile + Z.of_nat (List.length av)
  /\ pressure <= snd (mobilityLoop st p av mobile pressure)
  /\ snd (mobilityLoop st p av mobile pressure) - pressure
     <= fst (mobilityLoop st p av mobile pressure) - mobile.
Proof.
  induction av as [| sq rest IH]; intros mobile pressure; cbn [mobilityLoop].
  - simpl. lia.
  - cbn [List.length]. rewrite Nat2Z.inj_succ.
    destruct (negb (isValidPosition (fst sq) (snd sq))).
    + specialize (IH mobile pressure). lia.
    + destruct (stateCell st (fst sq) (snd sq)) as [target |].
      * destruct (negb (player target =? player p)).
        -- specialize (IH (mobile + 1) (pressure + 1)). lia.
        -- specialize (IH (mobile + 1) pressure). lia.
      * specialize (IH (mobile + 1) pressure). lia.
Qed.

Lemma baseVal_bounds (t : string) : 18 <= baseVal t <= 40.
Proof.
  unfold baseVal.
  repeat match goal with
         | |- context [if ?c then _ else _] => destruct c
         end; lia.
Qed.

Ltac q_constants :=
  repeat match goal with
         | H : context [inject_Z (Zpos ?n)] |- _ =>
             change (inject_Z (Zpos n)) with (Zpos n # 1)%Q in H
         | H : context [inject_Z (Zneg ?n)] |- _ =>
             change (inject_Z (Zneg n)) with (Zneg n # 1)%Q in H
         | H : context [inject_Z 0] |- _ =>
             change (inject_Z 0) with 0%Q in H
         end.

Lemma centre_distance (x y : Z) :
  isValidPosition x y = true ->
  (1 # 2 <= Qabs (inject_Z x - centerX) + Qabs (inject_Z y - centerY)
   <= 13 # 2)%Q.
Proof.
  intros Hv. apply isValidPosition_spec in Hv. destruct Hv as [[X1 X2] [Y1 Y2]].
  assert (X2' : x <= 6) by lia. assert (Y2' : y <= 7) by lia.
  assert (Yc : y <= 3 \/ 4 <= y) by lia.
  rewrite Zle_Qle in X1, X2', Y1, Y2'.
  rewrite centerX_value, centerY_value.
  pose proof (Qabs_nonneg (inject_Z x - 3)) as A1.
  assert (A2 : (Qabs (inject_Z x - 3) <= 3)%Q).
  { apply Qabs_Qle_condition. q_constants. split; lra. }
  assert (B2 : (Qabs (inject_Z y - (7 # 2)) <= 7 # 2)%Q).
  { apply Qabs_Qle_condition. q_constants. split; lra. }
  assert (B1 : (1 # 2 <= Qabs (inject_Z y - (7 # 2)))%Q).
  { destruct Yc as [Yc | Yc]; rewrite Zle_Qle in Yc; q_constants.
    - rewrite <- Qabs_opp. eapply Qle_trans; [| apply Qle_Qabs]. lra.
    - eapply Qle_trans; [| apply Qle_Qabs]. lra. }
  split; lra.
Qed.

Lemma evalPiece_bound (st : State) (persp : Z) (a : Q) (p : Piece) :
  isValidPosition (piece_x p) (piece_y p) = true ->
  (a - 104 <= evalPiece st persp a p <= a + 104)%Q.
Proof.
  intros Hv. unfold evalPiece.
  pose proof (mobilityLoop_bounds st p (getAvailableSquares p) 0 0) as Hm.
  pose proof (length_getAvailableSquares p) as Hl.
  destruct (mobilityLoop st p (getAvailableSquares p) 0 0)
    as [mobile pressure]. cbn [fst snd] in Hm.
  assert (M1 : 0 <= mobile * 2 + pressure * 2) by lia.
  assert (M2 : mobile * 2 + pressure * 2 <= 16) by lia.
  pose proof (baseVal_bounds (strip_e (piece_type p))) as [B1 B2].
  pose proof (centre_distance _ _ Hv) as [C1 C2].
  apply isValidPosition_spec in Hv. destruct Hv as [_ [Y1 Y2]].
  unfold BOARD_HEIGHT in *.
  set (dist := if player p =? 1 then piece_y p else 8 - 1 - piece_y p).
  assert (D1 : -2 <= 40 - dist * 6) by (unfold dist; destruct (player p =? 1); lia).
  assert (D2 : 40 - dist * 6 <= 40) by (unfold dist; destruct (player p =? 1); lia).
  rewrite Zle_Qle in M1, M2, B1, B2, D1, D2. q_constants.
  set (md := (Qabs (inject_Z (piece_x p) - centerX)
              + Qabs (inject_Z (piece_y p) - centerY))%Q) in *.
  destruct (player p =? persp);
    destruct ((strip_e (piece_type p) =? "PR")%string
              || (strip_e (piece_type p) =? "PL")%string);
    split; lra.
Qed.

Lemma evalLoop_bound (st : State) (persp : Z) (ps : list Piece) :
  forall a,
  (forall p, In p ps -> isValidPosition (piece_x p) (piece_y p) = true) ->
  (a - 104 * inject_Z (Z.of_nat (List.length ps))
   <= fold_left (evalPiece st persp) ps a
   <= a + 104 * inject_Z (Z.of_nat (List.length ps)))%Q.
Proof.
  induction ps as [| p ps IH]; intros a Hv; cbn [fold_left List.length].
  - change (inject_Z (Z.of_nat 0)) with 0%Q. split; lra.
  - rewrite Nat2Z.inj_succ. unfold Z.succ. rewrite inject_Z_plus.
    change (inject_Z 1) with 1%Q.
    destruct (evalPiece_bound st persp a p (Hv p (or_introl eq_refl)))
      as [E1 E2].
    destruct (IH (evalPiece st persp a p)) as [F1 F2].
    { intros q Hq. apply Hv. right. exact Hq. }
    split; lra.
Qed.

(** X14. A state that is not decided is valued strictly between a loss and
    a win: when the state is coherent (the pieces stand on distinct squares
    of the grid, which is the grid of the pieces) and both scores are
    between 0 and 5, [evaluateState] lies strictly between
    -100000 and 100000, for the perspective of player 1 and for that of
    player 2. *)
Theorem evaluation_bounded (st : State) (persp : Z) :
  persp = 1 \/ persp = 2 ->
  coherentState st ->
  0 <= fst (st_playerScores st) < 6 ->
  0 <= snd (st_playerScores st) < 6 ->
  (-100000 < evaluateState st persp < 100000)%Q.
Proof.
  intros _ [[_ [Hk Hv]] _] H1 H2. unfold evaluateState.
  set (mine := scoreOf (st_playerScores st) persp).
  set (theirs := scoreOf (st_playerScores st) (otherPlayer persp)).
  assert (Hm : 0 <= mine < 6) by (unfold mine, scoreOf; destruct (persp =? 1); lia).
  assert (Ht : 0 <= theirs < 6)
    by (unfold theirs, scoreOf; destruct (otherPlayer persp =? 1); lia).
  replace (6 <=? mine) with false by (symmetry; apply Z.leb_gt; lia).
  replace (6 <=? theirs) with false by (symmetry; apply Z.leb_gt; lia).
  cbn [andb].
  assert (Hn : (List.length (st_pieces st) <= 56)%nat).
  { rewrite <- (length_map piece_key).
    change 56%nat with (List.length allSquares).
    apply NoDup_incl_length; [exact Hk |].
    intros k Hin. apply in_map_iff in Hin. destruct Hin as [q [<- Hq]].
    apply In_allSquares. apply Hv. exact Hq. }
  destruct (evalLoop_bound st persp (st_pieces st)
              (0 + inject_Z ((mine - theirs) * 5000))%Q Hv) as [L1 L2].
  assert (N1 : 0 <= Z.of_nat (List.length (st_pieces st))) by lia.
  assert (N2 : Z.of_nat (List.length (st_pieces st)) <= 56) by lia.
  assert (S1 : -25000 <= (mine - theirs) * 5000) by lia.
  assert (S2 : (mine - theirs) * 5000 <= 25000) by lia.
  rewrite Zle_Qle in N1, N2, S1, S2. q_constants.
  split; lra.
Qed.

(** ** The bot's move generation *)

Lemma generateMovesLoop_spec (st : State) :
  coherentState st ->
  forall l res0,
  incl l (st_pieces st) ->
  exists res,
    generateMovesLoop st l res0 = Done res
    /\ forall m, In m res <->
         In m res0
         \/ exists p, In p l /\ player p = st_currentPlayer st
                      /\ movedLastTurn p = false /\ rotatedThisTurn p = false
                      /\ sm_id m = piece_id p
                      /\ chainAccessible
                           (viewBoard (st_pieces st) (st_board st)) p
                           (sm_dest m)
                      /\ sm_score m = moveScore st p (sm_dest m).
Proof.
  intros [Hw Hb].
  destruct (rebuildBoard_wf (st_pieces st) Hw) as [Hwf [Hon _]].
  cbv zeta in Hwf, Hon. rewrite <- Hb in Hwf, Hon.
  set (b := viewBoard (st_pieces st) (st_board st)) in *.
  induction l as [| p rest IH]; intros res0 Hincl.
  - exists res0. split; [reflexivity |]. intros m. split; [auto |].
    intros [H | [p [[] _]]]. exact H.
  - assert (Hrest : incl rest (st_pieces st))
      by (intros q Hq; apply Hincl; right; exact Hq).
    assert (skip : forall res,
              generateMovesLoop st rest res0 = Done res ->
              (player p <> st_currentPlayer st
               \/ movedLastTurn p = true \/ rotatedThisTurn p = true) ->
              (forall m, In m res <->
                 In m res0
                 \/ exists q, In q rest /\ player q = st_currentPlayer st
                      /\ movedLastTurn q = false /\ rotatedThisTurn q = false
                      /\ sm_id m = piece_id q
                      /\ chainAccessible b q (sm_dest m)
                      /\ sm_score m = moveScore st q (sm_dest m)) ->
              forall m, In m res <->
                 In m res0
                 \/ exists q, In q (p :: rest)
                      /\ player q = st_currentPlayer st
                      /\ movedLastTurn q = false /\ rotatedThisTurn q = false
                      /\ sm_id m = piece_id q
                      /\ chainAccessible b q (sm_dest m)
                      /\ sm_score m = moveScore st q (sm_dest m)).
    { intros res _ Hno Hres m. rewrite Hres. split.
      - intros [H | [q [Hq H]]]; [auto |]. right. exists q.
        split; [right; exact Hq | exact H].
      - intros [H | [q [[<- | Hq] [H1 [H2 [H3 H]]]]]]; [auto | | eauto 10].
        exfalso. destruct Hno as [Hno | [Hno | Hno]]; congruence. }
    cbn [generateMovesLoop].
    destruct (player p =? st_currentPlayer st) eqn:Ep; cbn [negb].
    2: { destruct (IH res0 Hrest) as [res [Hr Hres]]. exists res.
         split; [exact Hr |]. apply (skip res Hr); [| exact Hres].
         left. apply Z.eqb_neq. exact Ep. }
    apply Z.eqb_eq in Ep.
    destruct (movedLastTurn p) eqn:Em; cbn [orb].
    { destruct (IH res0 Hrest) as [res [Hr Hres]]. exists res.
      split; [exact Hr |]. apply (skip res Hr); auto. }
    destruct (rotatedThisTurn p) eqn:Er.
    { destruct (IH res0 Hrest) as [res [Hr Hres]]. exists res.
      split; [exact Hr |]. apply (skip res Hr); auto. }
    assert (Hp : In p (st_pieces st)) by (apply Hincl; left; reflexivity).
    destruct (resolve_characterised b p sourceOrder Hwf fair_sourceOrder
                (Hon p Hp)) as [r [Hr [_ [Hacc _]]]].
    unfold getAllAccessibleSquaresForBoard. fold b. rewrite Hr. cbn [bind].
    destruct (IH (res0 ++ map (fun k =>
                         {| sm_id := piece_id p;
                            sm_dest := (fst (unkeyXY k), snd (unkeyXY k));
                            sm_score := moveScore st p k |})
                    (accessibleSquares r)) Hrest) as [res [Hres Hin]].
    exists res. split; [exact Hres |]. intros m. rewrite Hin, in_app_iff.
    split.
    + intros [[H | H] | [q [Hq H]]]; [auto | |].
      * right. exists p. apply in_map_iff in H. destruct H as [k [<- Hk]].
        cbn [sm_id sm_dest sm_score]. unfold unkeyXY.
        rewrite <- surjective_pairing.
        split; [left; reflexivity |]. split; [exact Ep |].
        split; [exact Em |]. split; [exact Er |].
        split; [reflexivity |].
        split; [apply Hacc; exact Hk | reflexivity].
      * right. exists q. split; [right; exact Hq | exact H].
    + intros [H | [q [[<- | Hq] [H1 [H2 [H3 [H4 [H5 H6]]]]]]]];
        [auto | | right; eauto 10].
      left. right. apply in_map_iff. exists (sm_dest m). split.
      * destruct m as [i d sc]. cbn [sm_id sm_dest sm_score] in *.
        unfold unkeyXY. rewrite <- surjective_pairing. congruence.
      * apply Hacc. exact H5.
Qed.

(** X15. On a coherent state [generateMovesForState] returns, and its moves
    are exactly the moves of the pieces of the player to move that are not
    blocked by a flag, each to a chain-accessible square of the piece, with
    the score [moveScore] gives to piece and square. *)
Theorem generated_moves (st : State) :
  coherentState st ->
  exists res,
    generateMovesForState st = Done res
    /\ forall m, In m res <->
         exists p, In p (st_pieces st)
                   /\ player p = st_currentPlayer st
                   /\ movedLastTurn p = false /\ rotatedThisTurn p = false
                   /\ sm_id m = piece_id p
                   /\ chainAccessible
                        (viewBoard (st_pieces st) (st_board st)) p (sm_dest m)
                   /\ sm_score m = moveScore st p (sm_dest m).
Proof.
  intros Hc.
  destruct (generateMovesLoop_spec st Hc (st_pieces st) [] (incl_refl _))
    as [res [Hr Hin]].
  exists res. split; [exact Hr |]. intros m. rewrite Hin. split.
  - intros [[] | H]. exact H.
  - auto.
Qed.

Lemma moveScore_bounds (st : State) (p : Piece) (k : Pos) :
  isValidPosition (piece_x p) (piece_y p) = true ->
  isValidPosition (fst k) (snd k) = true ->
  if promotes (moveTo (fst k) (snd k) p)
  then (10000 <= moveScore st p k)%Q
  else (moveScore st p k <= 118)%Q.
Proof.
  intros Hp Hk. destruct k as [x y]. cbn [fst snd] in *.
  pose proof (centre_distance x y Hk) as [C1 C2].
  apply isValidPosition_spec in Hp, Hk.
  destruct Hp as [_ [P1 P2]]. destruct Hk as [_ [K1 K2]].
  unfold promotes, moveScore, unkeyXY.
  cbn [moveTo piece_type player piece_y]. unfold BOARD_HEIGHT.
  set (md := (Qabs (inject_Z x - centerX) + Qabs (inject_Z y - centerY))%Q)
    in *.
  set (adv := if player p =? 1 then piece_y p - y else y - piece_y p).
  assert (A1 : -70 <= adv * 10) by (unfold adv; destruct (player p =? 1); lia).
  assert (A2 : adv * 10 <= 70) by (unfold adv; destruct (player p =? 1); lia).
  destruct ((strip_e (piece_type p) =? "PR")%string
            || (strip_e (piece_type p) =? "PL")%string); cbn [andb].
  - destruct (y =? (if player p =? 1 then 0 else 8 - 1)) eqn:E.
    + assert (A3 : 0 <= adv * 10).
      { apply Z.eqb_eq in E. unfold adv. destruct (player p =? 1); lia. }
      rewrite Zle_Qle in A3. q_constants.
      destruct (stateCell st x y) as [tg |];
        [destruct (negb (player tg =? player p)) |]; lra.
    + rewrite Zle_Qle in A2. q_constants.
      destruct (stateCell st x y) as [tg |];
        [destruct (negb (player tg =? player p)) |]; lra.
  - destruct (stateCell st x y) as [tg |];
      [destruct (negb (player tg =? player p)) |]; lra.
Qed.

Lemma In_insertByScore (x m : ScoredMove) (l : list ScoredMove) :
  In x (insertByScore m l) <-> x = m \/ In x l.
Proof.
  induction l as [| h t IH]; simpl; [intuition auto |].
  destruct (Qle_bool (sm_score h) (sm_score m)); simpl;
    [intuition auto |]. rewrite IH. intuition auto.
Qed.

Lemma In_sortByScore (x : ScoredMove) (l : list ScoredMove) :
  In x (sortByScore l) <-> In x l.
Proof.
  induction l as [| a l IH]; simpl; [tauto |].
  rewrite In_insertByScore, IH. intuition auto.
Qed.

Lemma sortByScore_head (l : list ScoredMove) (h x : ScoredMove) :
  hd_error (sortByScore l) = Some h -> In x l ->
  (sm_score x <= sm_score h)%Q.
Proof.
  revert h x. induction l as [| a l IH]; intros h x Hh Hx; [destruct Hx |].
  cbn [sortByScore fold_right] in Hh. fold (sortByScore l) in Hh.
  assert (Hx' : x = a \/ In x (sortByScore l)).
  { destruct Hx as [<- | Hx]; [auto | right; apply In_sortByScore; exact Hx]. }
  destruct (sortByScore l) as [| h0 t] eqn:S.
  - simpl in Hh. inversion Hh; subst.
    destruct Hx' as [-> | []]. apply Qle_refl.
  - assert (Hmax : forall z, In z l -> (sm_score z <= sm_score h0)%Q)
      by (intros z Hz; apply IH; [reflexivity | exact Hz]).
    assert (Hmax' : forall z, In z (h0 :: t) ->
              (sm_score z <= sm_score h0)%Q).
    { intros z Hz. apply Hmax. apply In_sortByScore. rewrite S. exact Hz. }
    cbn [insertByScore] in Hh.
    destruct (Qle_bool (sm_score h0) (sm_score a)) eqn:E.
    + apply Qle_bool_iff in E. simpl in Hh. inversion Hh; subst.
      destruct Hx' as [-> | Hx']; [apply Qle_refl |].
      eapply Qle_trans; [apply Hmax'; exact Hx' | exact E].
    + simpl in Hh. inversion Hh; subst.
      destruct Hx' as [-> | Hx']; [| apply Hmax'; exact Hx'].
      apply Qlt_le_weak. apply Qnot_le_lt. intros Hc.
      apply Qle_bool_iff in Hc. congruence.
Qed.

(** The head of the sorted moves.  On a coherent state, when one
    of the generated moves is a promotion, the first move kept after the
    sort by decreasing score and the cut to the beam width is a generated
    move that is a promotion. *)
Lemma limited_promotion (st : State) (res : list ScoredMove)
    (beamWidth : nat) :
  coherentState st ->
  generateMovesForState st = Done res ->
  (exists m, In m res /\ promotingMove st m) ->
  (0 < beamWidth)%nat ->
  exists h, hd_error (limitedMoves beamWidth res) = Some h
            /\ In h res /\ promotingMove st h.
Proof.
  intros Hc Hres [m [Hm Hpm]] Hbw. pose proof Hc as [Hw _].
  destruct (generateMovesLoop_spec st Hc (st_pieces st) [] (incl_refl _))
    as [res' [Hr Hin]].
  unfold generateMovesForState in Hres. rewrite Hres in Hr.
  inversion Hr; subst res'; clear Hr.
  assert (Hscore : forall z, In z res ->
            if Qle_bool 10000 (sm_score z)
            then promotingMove st z
            else ~ promotingMove st z /\ (sm_score z <= 118)%Q).
  { intros z Hz. apply Hin in Hz. destruct Hz as [[] | [p [Hp [_ [_ [_ [Hid [Hacc Hsc]]]]]]]].
    pose proof Hw as [_ [_ Hv]].
    assert (Hd : isValidPosition (fst (sm_dest z)) (snd (sm_dest z)) = true).
    { destruct Hacc as [[H _] | [t [_ [_ H]]]];
        eapply getAvailableSquares_valid; exact H. }
    pose proof (moveScore_bounds st p (sm_dest z) (Hv p Hp) Hd) as Hb.
    rewrite <- Hsc in Hb.
    destruct (promotes (moveTo (fst (sm_dest z)) (snd (sm_dest z)) p)) eqn:P.
    - apply Qle_bool_iff in Hb. rewrite Hb. exists p. auto.
    - destruct (Qle_bool 10000 (sm_score z)) eqn:E.
      + apply Qle_bool_iff in E. exfalso. lra.
      + split; [| exact Hb]. intros [q [Hq [Hqi Hqp]]].
        destruct (wellPlaced_unique (st_pieces st) q p Hw Hq Hp) as [U _].
        rewrite (U (eq_trans Hqi Hid)) in Hqp. congruence. }
  unfold limitedMoves.
  destruct (sortByScore res) as [| h t] eqn:S.
  { exfalso. apply In_sortByScore in Hm. rewrite S in Hm. exact Hm. }
  destruct beamWidth as [| n]; [lia |]. exists h.
  split; [reflexivity |].
  assert (Hh : In h res) by (apply In_sortByScore; rewrite S; left; reflexivity).
  split; [exact Hh |].
  assert (Hle : (sm_score m <= sm_score h)%Q).
  { apply (sortByScore_head res); [rewrite S; reflexivity | exact Hm]. }
  pose proof (Hscore m Hm) as Sm. pose proof (Hscore h Hh) as Sh.
  destruct (Qle_bool 10000 (sm_score m)) eqn:Em;
    [| destruct Sm as [Sm _]; contradiction].
  apply Qle_bool_iff in Em.
  destruct (Qle_bool 10000 (sm_score h)) eqn:Eh; [exact Sh |].
  destruct Sh as [_ Sh]. exfalso. lra.
Qed.

(** ** The pointer handler *)

Lemma commitMove_chances (g : Game) (sel : Piece) (sq : Pos)
    (path : list Pos) :
  rotationChances (commitMove g sel sq path) = rotationChances g.
Proof.
  unfold commitMove. destruct (gridRead (board g) (fst sq) (snd sq));
    reflexivity.
Qed.

Lemma onPointerDown_selected_chances (g g1 : Game) (sq : Pos) :
  onPointerDown_selected g sq = Done g1 ->
  rotationChances g1 = rotationChances g.
Proof.
  unfold onPointerDown_selected. intros H.
  destruct (gameOver g); [inversion H; reflexivity |].
  destruct (currentPlayer g =? BOT_PLAYER); [inversion H; reflexivity |].
  destruct (piecesAreAnimating g); [inversion H; reflexivity |].
  destruct (selectedPiece g) as [sid |]; [| inversion H; reflexivity].
  destruct (findPiece sid (pieces g)) as [sel |]; [| inversion H; reflexivity].
  destruct ((fst sq =? piece_x sel) && (snd sq =? piece_y sel));
    [inversion H; reflexivity |].
  destruct (mem (keyXY (fst sq) (snd sq)) (highlightedPositions g));
    [| inversion H; reflexivity].
  destruct (findMovementPathForBoard sel sq (viewBoard (pieces g) (board g)))
    as [[path |] | |]; cbn [bind] in H; inversion H; subst;
    [apply commitMove_chances | reflexivity].
Qed.

(** The rotation chances after a pointer event: when
    they are between 0 and 2 and rotate mode is only on with a chance left
    and a piece selected, the same holds after any pointer event; Done, the
    only statement that takes a chance away, never makes them negative. *)
Lemma pointer_chances (u u' : Ui) (ev : Pointer) :
  chancesInBounds u ->
  onPointerDown u ev = Done u' ->
  chancesInBounds u'.
Proof.
  intros [Hb Hr] H. unfold onPointerDown in H.
  assert (Hu : chancesInBounds u) by (split; assumption).
  destruct (gameOver (ui_game u)); [inversion H; subst; exact Hu |].
  destruct (currentPlayer (ui_game u) =? BOT_PLAYER);
    [inversion H; subst; exact Hu |].
  destruct (botThinking u); [inversion H; subst; exact Hu |].
  destruct (piecesAreAnimating (ui_game u)); [inversion H; subst; exact Hu |].
  destruct (inRotateButton ev).
  { destruct (rotateMode u) eqn:R; cbn [negb] in H;
      [inversion H; subst; exact Hu |].
    destruct (0 <? rotationChances (ui_game u)) eqn:C;
      [| inversion H; subst; exact Hu].
    destruct (selected (ui_game u)) as [sel |] eqn:S;
      [| inversion H; subst; exact Hu].
    destruct (canRotateType (piece_type sel)
              && (player sel =? currentPlayer (ui_game u))
              && negb (rotatedThisTurn sel));
      inversion H; subst; [| exact Hu].
    apply Z.ltb_lt in C. split; [exact Hb |]. intros _.
    split; [cbn; lia |]. exists sel. exact S. }
  destruct (rotateMode u) eqn:R.
  { destruct (Hr eq_refl) as [Hc [sel Hs]].
    destruct (inDoneButton ev).
    { inversion H; subst. split; [cbn; lia | discriminate]. }
    destruct (inCancelButton ev).
    { unfold cancelRotate in H. rewrite Hs in H.
      destruct (getAccessibleHighlightLayers _ _) as [layers | |];
        cbn [bind] in H; inversion H; subst.
      split; [exact Hb | discriminate]. }
    destruct (aboveUi ev); [| inversion H; subst; exact Hu].
    destruct (square ev) as [sq |]; [| inversion H; subst; exact Hu].
    rewrite Hs in H.
    destruct ((fst sq =? piece_x sel) && (snd sq =? piece_y sel));
      inversion H; subst; [| exact Hu].
    split; [exact Hb |]. intros _. split; [exact Hc |].
    exists sel. exact Hs. }
  destruct (aboveUi ev); [| inversion H; subst; exact Hu].
  destruct (square ev) as [sq |]; [| inversion H; subst; exact Hu].
  destruct (selectedPiece (ui_game u)) as [sid |] eqn:S.
  - destruct (onPointerDown_selected (ui_game u) sq) as [g1 | |] eqn:P;
      cbn [bind] in H; try discriminate.
    pose proof (onPointerDown_selected_chances _ _ _ P) as Hc.
    destruct (selectedPiece g1); inversion H; subst;
      (split; [cbn; rewrite Hc; exact Hb | cbn; congruence]).
  - destruct (gridRead (board (ui_game u)) (fst sq) (snd sq)) as [id |];
      [| inversion H; subst; exact Hu].
    destruct (findPiece id (pieces (ui_game u))) as [clicked |];
      [| inversion H; subst; exact Hu].
    destruct (canBeSelected clicked (currentPlayer (ui_game u)));
      [| inversion H; subst; exact Hu].
    unfold selectPiece in H.
    destruct (getAccessibleHighlightLayers _ _) as [layers | |];
      cbn [bind] in H; inversion H; subst.
    split; [exact Hb | cbn; congruence].
Qed.

Lemma pointerEvents_app (u : Ui) (l1 l2 : list Pointer) :
  pointerEvents u (l1 ++ l2)
  = (u' <- pointerEvents u l1 ;; pointerEvents u' l2).
Proof.
  revert u. induction l1 as [| ev l1 IH]; intros u; [reflexivity |].
  cbn [pointerEvents app]. destruct (onPointerDown u ev); cbn [bind]; auto.
Qed.

Lemma rotate_button (u : Ui) (sel : Piece) (ev : Pointer) :
  rotatable u sel -> inRotateButton ev = true ->
  onPointerDown u ev = Done (enterRotateMode u sel)
  /\ rotating u sel 0 (enterRotateMode u sel).
Proof.
  intros [[_ [_ [Ha _]]] [Ho [Hp [Ht [Hr [Hs [Hc [Hpl [Hrt Hch]]]]]]]]] Hev.
  split.
  - unfold onPointerDown. rewrite Ho, Ht, Ha, Hev, Hr, Hs, Hc, Hpl, Hrt.
    replace (currentPlayer (ui_game u) =? BOT_PLAYER) with false
      by (symmetry; apply Z.eqb_neq; exact Hp).
    replace (0 <? rotationChances (ui_game u)) with true
      by (symmetry; apply Z.ltb_lt; exact Hch).
    rewrite Z.eqb_refl. reflexivity.
  - unfold rotating, enterRotateMode, turningOf.
    cbn [ui_game rotateMode botThinking turning find fst snd].
    rewrite Z.eqb_refl. cbn [snd initialRotation targetRotation isRotating].
    repeat split; auto.
Qed.

(** An event on no button, in rotate mode. *)
Lemma rotate_mode_event (u : Ui) (sel : Piece) (n : nat) (v : Ui)
    (ev : Pointer) :
  rotatable u sel -> rotating u sel n v -> offButtons ev ->
  exists v' n',
    onPointerDown v ev = Done v'
    /\ rotating u sel n' v'
    /\ (tapOn sel ev -> n' = S n).
Proof.
  intros [[_ [_ [Ha _]]] [Ho [Hp [_ [_ [Hs _]]]]]]
         [Hg [Hr [Ht [Hi [Htg Hrot]]]]] [E1 [E2 E3]].
  assert (Hsel : selected (clearHighlights (ui_game u)) = Some sel)
    by exact Hs.
  assert (Hstep : rotating u sel (S n) (rotateTap v sel)).
  { unfold rotating, rotateTap, turningOf.
    cbn [ui_game rotateMode botThinking turning find fst snd].
    rewrite Z.eqb_refl. cbn [snd initialRotation targetRotation isRotating].
    fold (turningOf (turning v) (piece_id sel)).
    rewrite Htg, Hi, iterate_succ.
    repeat split; auto. }
  assert (Hsame : rotating u sel n v) by (repeat split; assumption).
  unfold onPointerDown. cbv zeta. rewrite !Hg.
  cbn [clearHighlights gameOver currentPlayer piecesAreAnimating].
  rewrite Ho, Ht, Ha, E1, Hr, E2, E3.
  replace (currentPlayer (ui_game u) =? BOT_PLAYER) with false
    by (symmetry; apply Z.eqb_neq; exact Hp).
  rewrite Hsel.
  destruct (aboveUi ev) eqn:A.
  - destruct (square ev) as [sq |] eqn:Q.
    + destruct ((fst sq =? piece_x sel) && (snd sq =? piece_y sel)) eqn:T.
      * exists (rotateTap v sel), (S n). split; [reflexivity |].
        split; [exact Hstep | reflexivity].
      * exists v, n. split; [reflexivity |]. split; [exact Hsame |].
        intros [_ [_ Hq]]. rewrite Q in Hq. inversion Hq; subst.
        cbn [fst snd] in T. rewrite !Z.eqb_refl in T. discriminate.
    + exists v, n. split; [reflexivity |]. split; [exact Hsame |].
      intros [_ [_ Hq]]. rewrite Q in Hq. discriminate.
  - exists v, n. split; [reflexivity |]. split; [exact Hsame |].
    intros [_ [Hq _]]. rewrite A in Hq. discriminate.
Qed.

Lemma rotate_mode_events (u : Ui) (sel : Piece) (evs : list Pointer) :
  rotatable u sel -> Forall offButtons evs ->
  forall n v, rotating u sel n v ->
  exists v' m,
    pointerEvents v evs = Done v' /\ rotating u sel m v'
    /\ (Forall (tapOn sel) evs -> m = (n + List.length evs)%nat).
Proof.
  intros Hu. induction 1 as [| ev evs Hev _ IH]; intros n v Hv.
  - exists v, n. split; [reflexivity |]. split; [exact Hv |].
    intros _. simpl. lia.
  - destruct (rotate_mode_event u sel n v ev Hu Hv Hev)
      as [v1 [n1 [H1 [H2 H3]]]].
    cbn [pointerEvents]. rewrite H1. cbn [bind].
    destruct (IH n1 v1 H2) as [v' [m [P1 [P2 P3]]]].
    exists v', m. split; [exact P1 |]. split; [exact P2 |].
    intros Hall. inversion Hall as [| e es Ht Hts]; subst.
    rewrite (P3 Hts), (H3 Ht). simpl. lia.
Qed.

Lemma updatePiece_fixed (ps : list Piece) (sel : Piece) (f : Piece -> Piece) :
  NoDup (map piece_id ps) -> In sel ps -> f sel = sel ->
  updatePiece (piece_id sel) f ps = ps.
Proof.
  intros Hnd Hin Hf. unfold updatePiece.
  rewrite <- (map_id ps) at 2. apply map_ext_in. intros p Hp.
  destruct (piece_id p =? piece_id sel) eqn:E; [| reflexivity].
  apply Z.eqb_eq in E.
  pose proof (findPiece_In ps p Hnd Hp) as F1.
  pose proof (findPiece_In ps sel Hnd Hin) as F2.
  rewrite E in F1. assert (p = sel) by congruence. subst p. exact Hf.
Qed.

Lemma findPiece_updatePiece (ps : list Piece) (id : Z) (f : Piece -> Piece) :
  (forall p, piece_id (f p) = piece_id p) ->
  findPiece id (updatePiece id f ps) = option_map f (findPiece id ps).
Proof.
  intros Hf. unfold findPiece, updatePiece.
  induction ps as [| a l IH]; [reflexivity |]. cbn [map find].
  destruct (piece_id a =? id) eqn:E.
  - rewrite Hf, E. reflexivity.
  - rewrite E. exact IH.
Qed.

(** X19. Done costs one chance, whatever the number of quarter turns.
    When the human player may rotate the selected piece, the Rotate button
    followed by any number of taps on the piece and then by Done takes one
    rotation chance, clears the selection and leaves rotate mode; the piece
    is marked as rotated, so that it cannot be selected again in the turn,
    and when its rotation animation ends it has made one quarter turn per
    tap. *)
Theorem done_costs_one_chance (u : Ui) (sel : Piece) (evR evD : Pointer)
    (taps : list Pointer) :
  rotatable u sel ->
  inRotateButton evR = true ->
  Forall (tapOn sel) taps ->
  inRotateButton evD = false -> inDoneButton evD = true ->
  exists u',
    pointerEvents u (evR :: taps ++ [evD]) = Done u'
    /\ rotationChances (ui_game u') = rotationChances (ui_game u) - 1
    /\ selectedPiece (ui_game u') = None
    /\ rotateMode u' = false
    /\ exists sel',
         findPiece (piece_id sel) (pieces (ui_game u')) = Some sel'
         /\ canBeSelected sel' (currentPlayer (ui_game u')) = false
         /\ piece_key sel' = piece_key sel
         /\ rotation (settleRotation (turning u') sel')
            = iterate (List.length taps) quarterTurn (rotation sel).
Proof.
  intros Hu HR Htaps D1 D2.
  destruct (rotate_button u sel evR Hu HR) as [E0 R0].
  assert (Hoff : Forall offButtons taps).
  { eapply Forall_impl; [| exact Htaps]. intros ev [H _]. exact H. }
  destruct (rotate_mode_events u sel taps Hu Hoff 0%nat _ R0)
    as [v [m [E1 [[Hg [Hr [Ht [Hi [Htg Hrot]]]]] Hm]]]].
  specialize (Hm Htaps). simpl in Hm. subst m.
  destruct Hu as [[Hw [Hb [Ha _]]] [Ho [Hp [_ [_ [Hs _]]]]]].
  assert (Hsel : selected (clearHighlights (ui_game u)) = Some sel)
    by exact Hs.
  assert (Hfind : findPiece (piece_id sel) (pieces (ui_game u)) = Some sel).
  { unfold selected in Hs.
    destruct (selectedPiece (ui_game u)) as [sid |]; [| discriminate].
    pose proof (findPiece_Some _ _ _ Hs) as [_ E]. rewrite E. exact Hs. }
  cbn [pointerEvents]. rewrite E0. cbn [bind].
  rewrite pointerEvents_app, E1. cbn [bind pointerEvents].
  unfold onPointerDown. cbv zeta. rewrite !Hg.
  cbn [clearHighlights gameOver currentPlayer piecesAreAnimating].
  rewrite Ho, Ht, Ha, D1, Hr, D2.
  replace (currentPlayer (ui_game u) =? BOT_PLAYER) with false
    by (symmetry; apply Z.eqb_neq; exact Hp).
  cbn [bind]. eexists. split; [reflexivity |].
  unfold doneRotate. rewrite !Hg, Hsel.
  cbn [ui_game clearHighlights pieces rotationChances selectedPiece
       rotateMode currentPlayer turning].
  split; [reflexivity |]. split; [reflexivity |]. split; [reflexivity |].
  exists (setFlags (movedLastTurn sel) true sel).
  split; [rewrite findPiece_updatePiece by reflexivity; rewrite Hfind;
          reflexivity |].
  split; [unfold canBeSelected; cbn [setFlags rotatedThisTurn negb];
          apply andb_false_r |].
  split; [reflexivity |].
  unfold settleRotation. cbn [setFlags piece_id]. rewrite Hrot, Htg.
  destruct (List.length taps) as [| k]; reflexivity.
Qed.

(** ** The bot's turn *)

Lemma iterate_keeps {A B : Type} (h : A -> B) (f : A -> A) (n : nat) (a : A) :
  (forall x, h (f x) = h x) -> h (iterate n f a) = h a.
Proof.
  intros Hf. revert a. induction n as [| n IH]; intros a; [reflexivity |].
  cbn [iterate]. rewrite IH. apply Hf.
Qed.

Lemma map_liveRotations {B : Type} (h : Piece -> B) (rs : list (Z * Z)) :
  (forall q, h (liveRotateOnce q) = h q) ->
  forall chances ps, map h (fst (liveRotations rs chances ps)) = map h ps.
Proof.
  intros Hf. induction rs as [| [id n] rest IH]; intros chances ps;
    cbn [liveRotations]; [reflexivity |].
  destruct (findPiece id ps); [| apply IH].
  rewrite IH. apply map_updatePiece. intros q. apply iterate_keeps. exact Hf.
Qed.

Lemma liveRotations_chances (rs : list (Z * Z)) :
  forall c ps, 0 <= c <= 2 -> 0 <= snd (liveRotations rs c ps) <= 2.
Proof.
  induction rs as [| [id n] rest IH]; intros c ps Hc; cbn [liveRotations];
    [exact Hc |].
  destruct (findPiece id ps); [| apply IH; exact Hc].
  apply IH. generalize (Z.to_nat n). intros k. revert c Hc.
  induction k as [| k IHk]; intros c Hc; cbn [iterate]; [exact Hc |].
  apply IHk. lia.
Qed.

Lemma exchange_same (a k : Pos) : exchange a a k = k.
Proof.
  unfold exchange. destruct (pos_eqb k a) eqn:E; [| reflexivity].
  apply pos_eqb_eq in E. auto.
Qed.

(** The block that starts a move, for a destination that is the square of
    the moving piece itself: the piece swaps with itself. *)
Lemma commitMove_self (g : Game) (sel : Piece) (path : list Pos) :
  coherentGame g -> In sel (pieces g) ->
  piecesAreAnimating (commitMove g sel (piece_key sel) path) = true
  /\ wellPlaced (map arrive (pieces (commitMove g sel (piece_key sel) path))).
Proof.
  intros [Hw [Hb [_ Hrest]]] Hsel.
  pose proof Hw as [Hid [_ Hv0]]. pose proof (Hv0 sel Hsel) as Hvo.
  assert (T : gridRead (board g) (fst (piece_key sel)) (snd (piece_key sel))
              = Some (piece_id sel)).
  { rewrite Hb. apply rebuildBoard_stands; [exact Hw |].
    exists sel. auto. }
  unfold commitMove. rewrite T, (findPiece_In _ _ Hid Hsel).
  cbn [piecesAreAnimating pieces]. split; [reflexivity |].
  set (tpath := [(piece_x sel, piece_y sel); (piece_x sel, piece_y sel)]).
  set (F := fun p =>
              arrive ((fun q => if piece_id q =? piece_id sel
                                then startMoving tpath q else q)
                        (if piece_id p =? piece_id sel
                         then startMoving path p else p))).
  assert (EF : map arrive
                 (updatePiece (piece_id sel) (startMoving tpath)
                    (updatePiece (piece_id sel) (startMoving path)
                       (pieces g))) = map F (pieces g)).
  { unfold updatePiece. rewrite !map_map. reflexivity. }
  rewrite EF.
  apply (relocate (pieces g) F (piece_key sel) (piece_key sel) Hw Hvo Hvo).
  intros p Hp. unfold F. rewrite exchange_same.
  destruct (wellPlaced_unique (pieces g) p sel Hw Hp Hsel) as [Us _].
  destruct (piece_id p =? piece_id sel) eqn:A.
  - apply Z.eqb_eq in A. rewrite (Us A). cbn [startMoving piece_id].
    rewrite Z.eqb_refl. split; reflexivity.
  - rewrite A. rewrite (arrive_resting p (Hrest p Hp)). auto.
Qed.

(** Coherence after the bot's move.  From a coherent game,
    whatever action the search returned, [thinkAndMove] either starts no
    movement, leaving every piece on its square and the grid as it is, or
    starts a move or swap after which, once the pieces have arrived,
    [update] leaves a coherent game; the rotation chances it leaves are
    between 0 and 2 when they were before. *)
Lemma thinkAndMove_coherent (g g1 : Game) (best : Action) :
  coherentGame g ->
  thinkAndMove g best = Done g1 ->
  ((0 <= rotationChances g <= 2 -> 0 <= rotationChances g1 <= 2))
  /\ ((piecesAreAnimating g1 = false
       /\ map piece_key (pieces g1) = map piece_key (pieces g)
       /\ board g1 = board g)
      \/ (piecesAreAnimating g1 = true /\ coherentGame (update g1))).
Proof.
  intros Hc H. pose proof Hc as [Hw [Hb [Ha Hrest]]].
  unfold thinkAndMove in H.
  set (pc := match rotations best with
             | [] => (pieces g, rotationChances g)
             | _ :: _ => liveRotations (rotations best) 2 (pieces g)
             end) in H.
  assert (Hpc : map piece_id (fst pc) = map piece_id (pieces g)
                /\ map piece_key (fst pc) = map piece_key (pieces g)
                /\ map isMoving (fst pc) = map isMoving (pieces g)
                /\ (0 <= rotationChances g <= 2 -> 0 <= snd pc <= 2)).
  { unfold pc. destruct (rotations best) as [| r rs]; [auto |].
    split; [apply map_liveRotations; reflexivity |].
    split; [apply map_liveRotations; reflexivity |].
    split; [apply map_liveRotations; reflexivity |].
    intros _. apply liveRotations_chances. lia. }
  destruct pc as [ps chances]. cbn [fst snd] in Hpc.
  destruct Hpc as [Eid [Ekey [Emov Hch]]].
  set (g0 := setPieces g ps chances) in *.
  assert (Hc0 : coherentGame g0).
  { split; [eapply wellPlaced_same; eassumption |].
    split; [cbn; rewrite Hb; symmetry; apply rebuildBoard_same; assumption |].
    split; [exact Ha |].
    intros p Hp. cbn [g0 setPieces pieces] in Hp.
    assert (Hin : In (isMoving p) (map isMoving (pieces g)))
      by (rewrite <- Emov; apply in_map; exact Hp).
    apply in_map_iff in Hin. destruct Hin as [q [<- Hq]]. auto. }
  assert (Hstay : (0 <= rotationChances g <= 2 -> 0 <= rotationChances g0 <= 2)
                  /\ (piecesAreAnimating g0 = false
                      /\ map piece_key (pieces g0) = map piece_key (pieces g)
                      /\ board g0 = board g
                      \/ piecesAreAnimating g0 = true
                         /\ coherentGame (update g0))).
  { split; [exact Hch |]. left. auto. }
  destruct (findPiece (move_id best) ps) as [realPiece |] eqn:F;
    [| inversion H; subst; exact Hstay].
  destruct (findMovementPathForBoard realPiece (move_dest best)
              (viewBoard ps (board g))) as [[path |] | |] eqn:P;
    cbn [bind] in H; inversion H; subst; [| exact Hstay].
  clear H Hstay. split.
  { rewrite commitMove_chances. exact Hch. }
  right. apply findPiece_Some in F. destruct F as [Hsel _].
  assert (Harr : piecesAreAnimating
                   (commitMove g0 realPiece (move_dest best) path) = true
                 /\ wellPlaced
                      (map arrive
                         (pieces (commitMove g0 realPiece (move_dest best)
                                    path)))).
  { destruct (path_ends _ _ _ _ P) as [Hlast [Hk | Hv]].
    - rewrite Hk. apply commitMove_self; assumption.
    - destruct (Pos_eq_dec (move_dest best) (piece_key realPiece))
        as [E | Hne].
      + rewrite E. apply commitMove_self; assumption.
      + apply commitMove_arrival; assumption. }
  destruct Harr as [Hanim Harr]. split; [exact Hanim |].
  destruct (update_grid _ Hanim Harr) as [U1 [U2 U3]].
  split; [exact U1 |]. split; [exact U2 |]. split; [exact U3 |].
  intros p Hp. eapply update_rests; eassumption.
Qed.

Lemma unflag_fields (a b : Piece) :
  unflag a = unflag b ->
  piece_id a = piece_id b /\ piece_type a = piece_type b
  /\ rotation a = rotation b.
Proof.
  unfold unflag, setFlags. intros H. inversion H. auto.
Qed.

Lemma findPiece_unflag (id : Z) (l l' : list Piece) :
  map unflag l = map unflag l' ->
  option_map unflag (findPiece id l) = option_map unflag (findPiece id l').
Proof.
  unfold findPiece. revert l'.
  induction l as [| a l IH]; intros [| b l'] H; cbn [map] in H;
    try discriminate; [reflexivity |].
  assert (Hab : unflag a = unflag b) by congruence.
  assert (Hl : map unflag l = map unflag l') by congruence.
  destruct (unflag_fields a b Hab) as [Ei _].
  cbn [find]. rewrite Ei. destruct (piece_id b =? id); [| auto].
  cbn [option_map]. congruence.
Qed.

Lemma updatePiece_unflag (id : Z) (f f' : Piece -> Piece) (l l' : list Piece) :
  (forall a b, unflag a = unflag b -> unflag (f a) = unflag (f' b)) ->
  map unflag l = map unflag l' ->
  map unflag (updatePiece id f l) = map unflag (updatePiece id f' l').
Proof.
  intros Hf. unfold updatePiece. revert l'.
  induction l as [| a l IH]; intros [| b l'] H; cbn [map] in H;
    try discriminate; [reflexivity |].
  assert (Hab : unflag a = unflag b) by congruence.
  assert (Hl : map unflag l = map unflag l') by congruence.
  destruct (unflag_fields a b Hab) as [Ei _].
  cbn [map]. rewrite Ei. f_equal; [| auto].
  destruct (piece_id b =? id); auto.
Qed.

Lemma rotate_unflag (n : nat) (a b : Piece) :
  unflag a = unflag b ->
  unflag (iterate n liveRotateOnce a) = unflag (iterate n rotateOnce b).
Proof.
  revert a b. induction n as [| n IH]; intros a b H; [exact H |].
  cbn [iterate]. apply IH. unfold unflag, setFlags in *.
  unfold liveRotateOnce, rotateOnce, setFlags. inversion H.
  cbn [piece_id piece_x piece_y piece_type player rotation movedLastTurn
       rotatedThisTurn movementPath isMoving]. congruence.
Qed.

Lemma findPiece_updated (i id : Z) (f : Piece -> Piece) (ps : list Piece) :
  (forall p, piece_id (f p) = piece_id p) ->
  findPiece i (updatePiece id f ps)
  = option_map (fun p => if piece_id p =? id then f p else p)
      (findPiece i ps).
Proof.
  intros Hf. unfold findPiece, updatePiece.
  induction ps as [| a l IH]; [reflexivity |]. cbn [map find].
  assert (E : piece_id (if piece_id a =? id then f a else a) = piece_id a)
    by (destruct (piece_id a =? id); [apply Hf | reflexivity]).
  rewrite E. destruct (piece_id a =? i); [reflexivity | exact IH].
Qed.

Lemma idMap_lookup (id : Z) (ps : list Piece) :
  (if existsb (Z.eqb id) (map piece_id ps) then findPiece id ps else None)
  = findPiece id ps.
Proof.
  destruct (existsb (Z.eqb id) (map piece_id ps)) eqn:E; [reflexivity |].
  destruct (findPiece id ps) as [p |] eqn:F; [| reflexivity].
  apply findPiece_Some in F. destruct F as [Hin Hid].
  assert (Et : existsb (Z.eqb id) (map piece_id ps) = true).
  { apply existsb_exists. exists (piece_id p).
    split; [apply in_map; exact Hin | apply Z.eqb_eq; congruence]. }
  congruence.
Qed.

Lemma planTurns_nonneg (plan : list (Z * Z)) :
  (forall r, In r plan -> 1 <= snd r) -> 0 <= planTurns plan.
Proof.
  induction plan as [| r rest IH]; intros H; simpl; [lia |].
  pose proof (H r (or_introl eq_refl)).
  assert (0 <= planTurns rest) by (apply IH; intros q Hq; apply H; right; exact Hq).
  unfold planTurns in *. lia.
Qed.

Lemma rotations_agree (plan : list (Z * Z)) :
  forall c c0 l l',
  map unflag l = map unflag l' ->
  (forall r p, In r plan -> findPiece (fst r) l' = Some p ->
     canRotateType (piece_type p) = true) ->
  (forall r, In r plan -> 1 <= snd r) ->
  planTurns plan <= c ->
  map unflag (fst (liveRotations plan c0 l))
  = map unflag (applyRotations (map piece_id l') plan c l').
Proof.
  induction plan as [| [id n] rest IH]; intros c c0 l l' Hl Hrot Hn Hc;
    [exact Hl |].
  pose proof (Hn (id, n) (or_introl eq_refl)) as Hn1. cbn [snd] in Hn1.
  assert (Hrest : 0 <= planTurns rest)
    by (apply planTurns_nonneg; intros q Hq; apply Hn; right; exact Hq).
  assert (Hc' : n + planTurns rest <= c) by exact Hc.
  cbn [applyRotations liveRotations].
  replace (c <=? 0) with false by (symmetry; apply Z.leb_gt; lia).
  rewrite idMap_lookup.
  pose proof (findPiece_unflag id l l' Hl) as Hf.
  destruct (findPiece id l') as [p' |] eqn:F'.
  - destruct (findPiece id l) as [p |] eqn:F; [| discriminate].
    rewrite (Hrot (id, n) p' (or_introl eq_refl) F').
    rewrite Z.min_l by lia.
    rewrite <- (map_updatePiece piece_id id
                  (iterate (Z.to_nat n) rotateOnce) l')
      by (intros q; apply iterate_keeps; reflexivity).
    apply IH.
    + apply updatePiece_unflag; [| exact Hl].
      intros a b. apply rotate_unflag.
    + intros r q Hr Hq. rewrite findPiece_updated in Hq
        by (intros x; apply iterate_keeps; reflexivity).
      destruct (findPiece (fst r) l') as [q0 |] eqn:F0; [| discriminate].
      simpl in Hq. inversion Hq; subst q.
      assert (Et : piece_type
                     (if piece_id q0 =? id
                      then iterate (Z.to_nat n) rotateOnce q0 else q0)
                   = piece_type q0).
      { destruct (piece_id q0 =? id); [| reflexivity].
        apply iterate_keeps. reflexivity. }
      rewrite Et. apply (Hrot r q0); [right; exact Hr | exact F0].
    + intros r Hr. apply Hn. right. exact Hr.
    + lia.
  - destruct (findPiece id l) as [p |] eqn:F; [discriminate |].
    apply IH; auto.
    + intros r q Hr. apply Hrot. right. exact Hr.
    + intros r Hr. apply Hn. right. exact Hr.
    + lia.
Qed.

Lemma rotationPlans_fit (top : list Z) (plan : list (Z * Z)) :
  In plan (rotationPlans top) ->
  (forall r, In r plan -> 1 <= snd r /\ In (fst r) top)
  /\ 0 <= planTurns plan <= 2.
Proof.
  unfold rotationPlans. intros H.
  destruct top as [| t0 [| t1 rest]]; simpl in H;
    repeat (destruct H as [<- | H]; [| ]); try destruct H;
    (split; [| vm_compute; split; discriminate]);
    intros r Hr; simpl in Hr;
    repeat (destruct Hr as [<- | Hr]; [simpl; split; [lia | auto] |]);
    destruct Hr.
Qed.

(** X21. The bot rotates on the live pieces what its search rotated in the
    simulation.  For every rotation plan built from rotation candidates
    that can rotate, the plan asks for at most 2 quarter turns, and the
    pieces after the rotation loop of [thinkAndMove] are those after the
    rotation loop of [applyAction] (and of [generateTurnActionsLimited])
    except for the mark [rotatedThisTurn], which only the live loop sets:
    the simulation leaves the marks as they are. *)
Theorem planned_rotations_agree (ps : list Piece) (top : list Z)
    (plan : list (Z * Z)) :
  (forall id p, In id top -> findPiece id ps = Some p ->
     canRotateType (piece_type p) = true) ->
  In plan (rotationPlans top) ->
  0 <= planTurns plan <= 2
  /\ map unflag (fst (liveRotations plan 2 ps))
     = map unflag (applyRotations (map piece_id ps) plan 2 ps)
  /\ map rotatedThisTurn (applyRotations (map piece_id ps) plan 2 ps)
     = map rotatedThisTurn ps.
Proof.
  intros Htop Hplan.
  destruct (rotationPlans_fit top plan Hplan) as [Hr Hb].
  split; [exact Hb |]. split.
  - apply rotations_agree; [reflexivity | | | lia].
    + intros r p Hin. apply Htop. apply Hr. exact Hin.
    + intros r Hin. apply Hr. exact Hin.
  - apply map_applyRotations. reflexivity.
Qed.

Lemma rotatedClone_coherent (st : State) (plan : list (Z * Z)) :
  wellPlaced (st_pieces st) -> coherentState (rotatedClone st plan).
Proof.
  intros Hw. unfold coherentState, rotatedClone, cloneState.
  cbn [st_pieces st_board st_idMap].
  assert (C1 : map piece_id (map clonePiece (st_pieces st))
               = map piece_id (st_pieces st))
    by (rewrite map_map; reflexivity).
  assert (C2 : map piece_key (map clonePiece (st_pieces st))
               = map piece_key (st_pieces st))
    by (rewrite map_map; reflexivity).
  set (ps := map clonePiece (st_pieces st)) in *.
  assert (E1 : map piece_id (applyRotations (map piece_id ps) plan 2 ps)
               = map piece_id ps) by (apply map_applyRotations; reflexivity).
  assert (E2 : map piece_key (applyRotations (map piece_id ps) plan 2 ps)
               = map piece_key ps) by (apply map_applyRotations; reflexivity).
  split.
  - eapply wellPlaced_same; [| | exact Hw]; congruence.
  - symmetry. apply rebuildBoard_same; assumption.
Qed.

Lemma In_limitedMoves (beamWidth : nat) (moves : list ScoredMove)
    (m : ScoredMove) :
  In m (limitedMoves beamWidth moves) -> In m moves.
Proof.
  unfold limitedMoves. intros H. apply In_sortByScore.
  rewrite <- (firstn_skipn beamWidth (sortByScore moves)).
  apply in_app_iff. left. exact H.
Qed.

Lemma actionsForPlans_spec (st : State) (beamWidth : nat) :
  wellPlaced (st_pieces st) ->
  forall plans actions0,
  exists actions,
    actionsForPlans st beamWidth plans actions0 = Done actions
    /\ (List.length actions
        <= List.length actions0 + List.length plans * beamWidth)%nat
    /\ forall a, In a actions ->
         In a actions0
         \/ In (rotations a) plans
            /\ exists p,
                 In p (st_pieces (rotatedClone st (rotations a)))
                 /\ piece_id p = move_id a
                 /\ player p = st_currentPlayer st
                 /\ movedLastTurn p = false /\ rotatedThisTurn p = false
                 /\ chainAccessible
                      (viewBoard (st_pieces (rotatedClone st (rotations a)))
                         (st_board (rotatedClone st (rotations a))))
                      p (move_dest a).
Proof.
  intros Hw. induction plans as [| plan rest IH]; intros actions0.
  - exists actions0. split; [reflexivity |]. split; [simpl; lia | auto].
  - cbn [actionsForPlans].
    destruct (generateMovesLoop_spec _ (rotatedClone_coherent st plan Hw)
                (st_pieces (rotatedClone st plan)) [] (incl_refl _))
      as [moves [Hm Hin]].
    unfold generateMovesForState. rewrite Hm. cbn [bind].
    destruct (IH (actions0
                  ++ map (fun mv => {| rotations := plan; move_id := sm_id mv;
                                       move_dest := sm_dest mv |})
                       (limitedMoves beamWidth moves)))
      as [actions [Ha [Hlen Hall]]].
    exists actions. split; [exact Ha |]. split.
    + rewrite length_app, length_map in Hlen.
      assert (List.length (limitedMoves beamWidth moves) <= beamWidth)%nat
        by (unfold limitedMoves; apply firstn_le_length).
      cbn [List.length Nat.mul]. lia.
    + intros a Hin_a. destruct (Hall a Hin_a) as [H | [H1 H2]].
      * apply in_app_iff in H. destruct H as [H | H]; [auto |].
        right. apply in_map_iff in H. destruct H as [mv [<- Hmv]].
        cbn [rotations move_id move_dest].
        split; [left; reflexivity |].
        apply In_limitedMoves in Hmv. apply Hin in Hmv.
        destruct Hmv as [[] | [p [Hp [H1 [H2 [H3 [H4 [H5 _]]]]]]]].
        exists p. repeat (split; [auto |]). exact H5.
      * right. split; [right; exact H1 | exact H2].
Qed.

(** X22. Every action the bot generates is a legal move after its
    rotations.  On a state whose pieces stand on distinct squares,
    [generateTurnActionsLimited] returns for any rotation candidates at most
    five times the beam width of actions; each of them has one of the
    rotation plans, and moves a piece of the player to move that no flag
    blocks to a square that is chain-accessible for it on the clone of the
    state with the rotations applied. *)
Theorem generated_actions_legal (st : State) (top : list Z)
    (beamWidth : nat) :
  wellPlaced (st_pieces st) ->
  exists actions,
    generateTurnActions st top beamWidth = Done actions
    /\ (List.length actions <= 5 * beamWidth)%nat
    /\ forall a, In a actions ->
         In (rotations a) (rotationPlans top)
         /\ exists p,
              In p (st_pieces (rotatedClone st (rotations a)))
              /\ piece_id p = move_id a
              /\ player p = st_currentPlayer st
              /\ movedLastTurn p = false /\ rotatedThisTurn p = false
              /\ chainAccessible
                   (viewBoard (st_pieces (rotatedClone st (rotations a)))
                      (st_board (rotatedClone st (rotations a))))
                   p (move_dest a).
Proof.
  intros Hw.
  destruct (actionsForPlans_spec st beamWidth Hw (rotationPlans top) [])
    as [actions [Ha [Hlen Hall]]].
  exists actions. split; [exact Ha |]. split.
  - assert (List.length (rotationPlans top) <= 5)%nat
      by (unfold rotationPlans; destruct top as [| t0 [| t1 r]]; simpl; lia).
    eapply Nat.le_trans; [exact Hlen |]. cbn [List.length Nat.add].
    apply Nat.mul_le_mono_r. exact H.
  - intros a Hin. destruct (Hall a Hin) as [[] | H]. exact H.
Qed.

(** ** The pointer handler and the coherence of the game *)

Lemma coherent_same (g g' : Game) :
  coherentGame g ->
  map piece_id (pieces g') = map piece_id (pieces g) ->
  map piece_key (pieces g') = map piece_key (pieces g) ->
  map isMoving (pieces g') = map isMoving (pieces g) ->
  board g' = board g -> piecesAreAnimating g' = piecesAreAnimating g ->
  coherentGame g'.
Proof.
  intros [Hw [Hb [Ha Hrest]]] Ei Ek Em Eb Ea.
  split; [eapply wellPlaced_same; eassumption |].
  split; [rewrite Eb, Hb; symmetry; apply rebuildBoard_same; assumption |].
  split; [congruence |].
  intros p Hp.
  assert (Hin : In (isMoving p) (map isMoving (pieces g)))
    by (rewrite <- Em; apply in_map; exact Hp).
  apply in_map_iff in Hin. destruct Hin as [q [<- Hq]]. auto.
Qed.

(** Coherence after a pointer event.  From a coherent game
    (pieces with distinct ids at rest on distinct squares, the grid being the
    grid of the pieces) a pointer event either starts no movement and leaves
    a coherent game, or starts a move or swap after which, once the pieces
    have arrived, [update] leaves a coherent game again. *)
Lemma pointer_coherent (u u' : Ui) (ev : Pointer) :
  coherentGame (ui_game u) ->
  onPointerDown u ev = Done u' ->
  (piecesAreAnimating (ui_game u') = false /\ coherentGame (ui_game u'))
  \/ (piecesAreAnimating (ui_game u') = true
      /\ coherentGame (update (ui_game u'))).
Proof.
  intros Hc H. pose proof Hc as [_ [_ [Ha _]]].
  assert (Hu : piecesAreAnimating (ui_game u) = false
               /\ coherentGame (ui_game u)) by auto.
  assert (Hsame : forall g',
            map piece_id (pieces g') = map piece_id (pieces (ui_game u)) ->
            map piece_key (pieces g') = map piece_key (pieces (ui_game u)) ->
            map isMoving (pieces g') = map isMoving (pieces (ui_game u)) ->
            board g' = board (ui_game u) ->
            piecesAreAnimating g' = piecesAreAnimating (ui_game u) ->
            piecesAreAnimating g' = false /\ coherentGame g').
  { intros g' E1 E2 E3 E4 E5. split; [congruence |].
    eapply coherent_same; eassumption. }
  unfold onPointerDown in H.
  destruct (gameOver (ui_game u)); [inversion H; subst; auto |].
  destruct (currentPlayer (ui_game u) =? BOT_PLAYER);
    [inversion H; subst; auto |].
  destruct (botThinking u); [inversion H; subst; auto |].
  rewrite Ha in H.
  destruct (inRotateButton ev).
  { destruct (negb (rotateMode u)); [| inversion H; subst; auto].
    destruct (0 <? rotationChances (ui_game u));
      [| inversion H; subst; auto].
    destruct (selected (ui_game u)) as [sel |];
      [| inversion H; subst; auto].
    destruct (canRotateType (piece_type sel)
              && (player sel =? currentPlayer (ui_game u))
              && negb (rotatedThisTurn sel));
      inversion H; subst; [| auto].
    left. apply Hsame; reflexivity. }
  destruct (rotateMode u).
  { destruct (inDoneButton ev).
    { inversion H; subst. left. unfold doneRotate.
      destruct (selected (ui_game u)) as [sel |];
        apply Hsame; cbn [ui_game pieces board piecesAreAnimating];
        try reflexivity; apply map_updatePiece; reflexivity. }
    destruct (inCancelButton ev).
    { unfold cancelRotate in H.
      destruct (selected (ui_game u)) as [sel |];
        [| inversion H; subst; auto].
      destruct (getAccessibleHighlightLayers _ _) as [layers | |];
        cbn [bind] in H; inversion H; subst.
      left. apply Hsame; cbn [ui_game pieces board piecesAreAnimating];
        try reflexivity; apply map_updatePiece; reflexivity. }
    destruct (aboveUi ev); [| inversion H; subst; auto].
    destruct (square ev) as [sq |]; [| inversion H; subst; auto].
    destruct (selected (ui_game u)) as [sel |];
      [| inversion H; subst; auto].
    destruct ((fst sq =? piece_x sel) && (snd sq =? piece_y sel));
      inversion H; subst; auto. }
  destruct (aboveUi ev); [| inversion H; subst; auto].
  destruct (square ev) as [sq |]; [| inversion H; subst; auto].
  destruct (selectedPiece (ui_game u)) as [sid |] eqn:S.
  - destruct (onPointerDown_selected (ui_game u) sq) as [g1 | |] eqn:P;
      cbn [bind] in H; try discriminate.
    assert (Hg1 : ui_game u' = g1)
      by (destruct (selectedPiece g1); inversion H; reflexivity).
    rewrite Hg1.
    destruct (tap_coherent _ _ _ Hc P) as [[E1 [E2 E3]] | Hmove];
      [| right; exact Hmove].
    left. apply Hsame; congruence.
  - destruct (gridRead (board (ui_game u)) (fst sq) (snd sq)) as [id |];
      [| inversion H; subst; auto].
    destruct (findPiece id (pieces (ui_game u))) as [clicked |];
      [| inversion H; subst; auto].
    destruct (canBeSelected clicked (currentPlayer (ui_game u)));
      [| inversion H; subst; auto].
    unfold selectPiece in H.
    destruct (getAccessibleHighlightLayers _ _) as [layers | |];
      cbn [bind] in H; inversion H; subst.
    left. apply Hsame; reflexivity.
Qed.

Lemma onPointerDown_selected_selection (g g1 : Game) (sq : Pos) :
  onPointerDown_selected g sq = Done g1 ->
  g1 = g \/ selectedPiece g1 = None.
Proof.
  unfold onPointerDown_selected. intros H.
  destruct (gameOver g); [inversion H; auto |].
  destruct (currentPlayer g =? BOT_PLAYER); [inversion H; auto |].
  destruct (piecesAreAnimating g); [inversion H; auto |].
  destruct (selectedPiece g) as [sid |]; [| inversion H; auto].
  destruct (findPiece sid (pieces g)) as [sel |]; [| inversion H; auto].
  destruct ((fst sq =? piece_x sel) && (snd sq =? piece_y sel));
    [inversion H; subst; right; reflexivity |].
  destruct (mem (keyXY (fst sq) (snd sq)) (highlightedPositions g));
    [| inversion H; auto].
  destruct (findMovementPathForBoard sel sq (viewBoard (pieces g) (board g)))
    as [[path |] | |]; cbn [bind] in H; inversion H; subst; auto.
  right. unfold commitMove.
  destruct (gridRead (board g) (fst sq) (snd sq)); reflexivity.
Qed.

(** The selection after a pointer event is a piece that the player to
    move may select: when the selected piece, if any, belongs to the player
    to move and is marked neither as moved nor as rotated, the same holds
    after any pointer event. *)
Lemma pointer_selection (u u' : Ui) (ev : Pointer) :
  legalSelection (ui_game u) ->
  onPointerDown u ev = Done u' ->
  legalSelection (ui_game u').
Proof.
  intros Hl H. unfold onPointerDown in H.
  assert (Hnone : forall g, selectedPiece g = None -> legalSelection g).
  { intros g E sel Hs. unfold selected in Hs. rewrite E in Hs. discriminate. }
  destruct (gameOver (ui_game u)); [inversion H; subst; auto |].
  destruct (currentPlayer (ui_game u) =? BOT_PLAYER);
    [inversion H; subst; auto |].
  destruct (botThinking u); [inversion H; subst; auto |].
  destruct (piecesAreAnimating (ui_game u)); [inversion H; subst; auto |].
  destruct (inRotateButton ev).
  { destruct (negb (rotateMode u)); [| inversion H; subst; auto].
    destruct (0 <? rotationChances (ui_game u));
      [| inversion H; subst; auto].
    destruct (selected (ui_game u)) as [sel |] eqn:S;
      [| inversion H; subst; auto].
    destruct (canRotateType (piece_type sel)
              && (player sel =? currentPlayer (ui_game u))
              && negb (rotatedThisTurn sel));
      inversion H; subst; auto. }
  destruct (rotateMode u).
  { destruct (inDoneButton ev).
    { inversion H; subst. apply Hnone. reflexivity. }
    destruct (inCancelButton ev).
    { unfold cancelRotate in H.
      destruct (selected (ui_game u)) as [sel |] eqn:S;
        [| inversion H; subst; auto].
      destruct (getAccessibleHighlightLayers _ _) as [layers | |];
        cbn [bind] in H; inversion H; subst.
      pose proof (Hl sel S) as Hok.
      intros sel' Hs'. unfold selected in S, Hs'.
      cbn [ui_game selectedPiece pieces currentPlayer] in *.
      destruct (selectedPiece (ui_game u)) as [sid |]; [| discriminate].
      pose proof (findPiece_Some _ _ _ S) as [_ Eid]. rewrite Eid in Hs'.
      rewrite findPiece_updatePiece, S in Hs' by reflexivity.
      inversion Hs'; subst sel'. exact Hok. }
    destruct (aboveUi ev); [| inversion H; subst; auto].
    destruct (square ev) as [sq |]; [| inversion H; subst; auto].
    destruct (selected (ui_game u)) as [sel |];
      [| inversion H; subst; auto].
    destruct ((fst sq =? piece_x sel) && (snd sq =? piece_y sel));
      inversion H; subst; auto. }
  destruct (aboveUi ev); [| inversion H; subst; auto].
  destruct (square ev) as [sq |]; [| inversion H; subst; auto].
  destruct (selectedPiece (ui_game u)) as [sid |] eqn:S.
  - destruct (onPointerDown_selected (ui_game u) sq) as [g1 | |] eqn:P;
      cbn [bind] in H; try discriminate.
    destruct (onPointerDown_selected_selection _ _ _ P) as [-> | E].
    + rewrite S in H. inversion H; subst. exact Hl.
    + rewrite E in H. inversion H; subst. apply Hnone. exact E.
  - destruct (gridRead (board (ui_game u)) (fst sq) (snd sq)) as [id |];
      [| inversion H; subst; auto].
    destruct (findPiece id (pieces (ui_game u))) as [clicked |] eqn:F;
      [| inversion H; subst; auto].
    destruct (canBeSelected clicked (currentPlayer (ui_game u))) eqn:C;
      [| inversion H; subst; auto].
    unfold selectPiece in H.
    destruct (getAccessibleHighlightLayers _ _) as [layers | |];
      cbn [bind] in H; inversion H; subst.
    intros sel Hs. unfold selected in Hs.
    cbn [ui_game selectedPiece pieces currentPlayer] in *.
    pose proof (findPiece_Some _ _ _ F) as [_ Eid]. rewrite Eid, F in Hs.
    inversion Hs; subst. exact C.
Qed.

Lemma gameOf_coherent (ps : list Piece) (sel : option Z) (cp : Z)
    (hl : list Pos) :
  wellPlaced ps -> forallb (fun p => negb (isMoving p)) ps = true ->
  coherentGame (gameOf ps sel cp hl).
Proof.
  intros Hw Hm. split; [exact Hw |]. split; [reflexivity |].
  split; [reflexivity |]. intros p Hp. rewrite forallb_forall in Hm.
  apply negb_true_iff. apply Hm. exact Hp.
Qed.

(** ** The handlers return *)

Lemma findMovementPathForBoard_total (b : Board) (s : Piece) (d : Pos) :
  wf_board b -> onBoard b s -> isValidPosition (fst d) (snd d) = true ->
  exists res, findMovementPathForBoard s d b = Done res.
Proof.
  intros Hwf Hon Hvd. pose proof Hwf as [Hs Hcons].
  destruct (resolve_characterised b s sourceOrder Hwf fair_sourceOrder Hon)
    as [r [Hr [Hvis _]]].
  unfold findMovementPathForBoard, getAllAccessibleSquaresForBoard.
  rewrite Hr. cbn [bind].
  destruct (collectPieces_total s b (visitedPieces r) Hs) with (acc0 := @nil Piece)
    as [pieces Hcol].
  { intros k Hk. apply Hvis in Hk. destruct Hk as [t [Hl <-]].
    eapply cellAt_valid; [exact Hs |].
    exact (linked_onBoard b s t Hcons Hon Hl). }
  rewrite Hcol. cbn [bind].
  rewrite (boardRead_valid b _ _ Hs Hvd). cbn [bind].
  apply searchLoop_total.
  - destruct (cellAt b (fst d, snd d)); [apply incl_refl |].
    intros x Hx. apply In_deletePiece in Hx. tauto.
  - pose proof (pending_le pieces [keyXY (fst d) (snd d)]).
    cbn [List.length]. lia.
Qed.

Lemma coherent_board (g : Game) :
  coherentGame g ->
  wf_board (viewBoard (pieces g) (board g))
  /\ forall p, In p (pieces g) -> onBoard (viewBoard (pieces g) (board g)) p.
Proof.
  intros [Hw [Hb _]]. rewrite Hb.
  destruct (rebuildBoard_wf _ Hw) as [H1 [H2 _]]. auto.
Qed.

Lemma onPointerDown_selected_total (g : Game) (sq : Pos) :
  coherentGame g -> isValidPosition (fst sq) (snd sq) = true ->
  exists g1, onPointerDown_selected g sq = Done g1.
Proof.
  intros Hc Hv. destruct (coherent_board g Hc) as [Hwf Hon].
  unfold onPointerDown_selected.
  destruct (gameOver g); [eexists; reflexivity |].
  destruct (currentPlayer g =? BOT_PLAYER); [eexists; reflexivity |].
  destruct (piecesAreAnimating g); [eexists; reflexivity |].
  destruct (selectedPiece g) as [sid |]; [| eexists; reflexivity].
  destruct (findPiece sid (pieces g)) as [sel |] eqn:F;
    [| eexists; reflexivity].
  destruct ((fst sq =? piece_x sel) && (snd sq =? piece_y sel));
    [eexists; reflexivity |].
  destruct (mem (keyXY (fst sq) (snd sq)) (highlightedPositions g));
    [| eexists; reflexivity].
  apply findPiece_Some in F. destruct F as [Hsel _].
  destruct (findMovementPathForBoard_total _ sel sq Hwf (Hon sel Hsel) Hv)
    as [[path |] ->]; cbn [bind]; eexists; reflexivity.
Qed.

Lemma pointer_total (u : Ui) (ev : Pointer) :
  coherentGame (ui_game u) ->
  (forall sq, square ev = Some sq ->
     isValidPosition (fst sq) (snd sq) = true) ->
  exists u', onPointerDown u ev = Done u'.
Proof.
  intros Hc Hsq. destruct (coherent_board _ Hc) as [Hwf Hon].
  pose proof Hc as [Hw [Hb _]].
  unfold onPointerDown. cbv zeta.
  destruct (gameOver (ui_game u)); [eexists; reflexivity |].
  destruct (currentPlayer (ui_game u) =? BOT_PLAYER); [eexists; reflexivity |].
  destruct (botThinking u); [eexists; reflexivity |].
  destruct (piecesAreAnimating (ui_game u)); [eexists; reflexivity |].
  destruct (inRotateButton ev).
  { destruct (negb (rotateMode u)); [| eexists; reflexivity].
    destruct (0 <? rotationChances (ui_game u)); [| eexists; reflexivity].
    destruct (selected (ui_game u)) as [sel |]; [| eexists; reflexivity].
    destruct (canRotateType (piece_type sel)
              && (player sel =? currentPlayer (ui_game u))
              && negb (rotatedThisTurn sel)); eexists; reflexivity. }
  destruct (rotateMode u).
  { destruct (inDoneButton ev); [eexists; reflexivity |].
    destruct (inCancelButton ev).
    - unfold cancelRotate. cbv zeta.
      destruct (selected (ui_game u)) as [sel |] eqn:S;
        [| eexists; reflexivity].
      unfold selected in S.
      destruct (selectedPiece (ui_game u)) as [sid |]; [| discriminate].
      destruct (findPiece_Some _ _ _ S) as [Hin Hid].
      set (f := withRotation
                  (initialRotation (turningOf (turning u) (piece_id sel)))).
      set (ps := updatePiece (piece_id sel) f (pieces (ui_game u))).
      assert (Ei : map piece_id ps = map piece_id (pieces (ui_game u)))
        by (apply map_updatePiece; reflexivity).
      assert (Ek : map piece_key ps = map piece_key (pieces (ui_game u)))
        by (apply map_updatePiece; reflexivity).
      assert (Hw' : wellPlaced ps) by (eapply wellPlaced_same; eassumption).
      assert (Hb' : board (ui_game u) = rebuildBoard ps)
        by (rewrite Hb; symmetry; apply rebuildBoard_same; assumption).
      rewrite Hb'.
      destruct (rebuildBoard_wf ps Hw') as [Hwf' [Hon' _]].
      assert (Hin' : In (f sel) ps).
      { unfold ps, updatePiece. apply in_map_iff. exists sel.
        rewrite Z.eqb_refl. auto. }
      destruct (layers_characterised _ (f sel) Hwf' (Hon' _ Hin'))
        as [layers [-> _]].
      cbn [bind]. eexists; reflexivity.
    - destruct (aboveUi ev); [| eexists; reflexivity].
      destruct (square ev) as [sq |]; [| eexists; reflexivity].
      destruct (selected (ui_game u)) as [sel |]; [| eexists; reflexivity].
      destruct ((fst sq =? piece_x sel) && (snd sq =? piece_y sel));
        eexists; reflexivity. }
  destruct (aboveUi ev); [| eexists; reflexivity].
  destruct (square ev) as [sq |] eqn:Q; [| eexists; reflexivity].
  destruct (selectedPiece (ui_game u)) as [sid |] eqn:SP.
  - destruct (onPointerDown_selected_total _ sq Hc (Hsq sq eq_refl))
      as [g1 ->].
    cbn [bind]. destruct (selectedPiece g1); eexists; reflexivity.
  - destruct (gridRead (board (ui_game u)) (fst sq) (snd sq)) as [id |];
      [| eexists; reflexivity].
    destruct (findPiece id (pieces (ui_game u))) as [clicked |] eqn:F;
      [| eexists; reflexivity].
    destruct (canBeSelected clicked (currentPlayer (ui_game u)));
      [| eexists; reflexivity].
    unfold selectPiece. cbv zeta.
    apply findPiece_Some in F. destruct F as [Hin _].
    destruct (layers_characterised _ clicked Hwf (Hon _ Hin))
      as [layers [-> _]].
    cbn [bind]. eexists; reflexivity.
Qed.

Lemma thinkAndMove_total (g : Game) (best : Action) :
  coherentGame g ->
  isValidPosition (fst (move_dest best)) (snd (move_dest best)) = true ->
  exists g1, thinkAndMove g best = Done g1.
Proof.
  intros Hc Hv. pose proof Hc as [Hw [Hb _]].
  unfold thinkAndMove.
  set (pc := match rotations best with
             | [] => (pieces g, rotationChances g)
             | _ :: _ => liveRotations (rotations best) 2 (pieces g)
             end).
  assert (Hpc : map piece_id (fst pc) = map piece_id (pieces g)
                /\ map piece_key (fst pc) = map piece_key (pieces g)).
  { unfold pc. destruct (rotations best) as [| r rs]; [auto |].
    split; apply map_liveRotations; reflexivity. }
  destruct pc as [ps chances]. cbn [fst snd] in Hpc.
  destruct Hpc as [Eid Ekey].
  destruct (findPiece (move_id best) ps) as [realPiece |] eqn:F;
    [| eexists; reflexivity].
  assert (Hw' : wellPlaced ps) by (eapply wellPlaced_same; eassumption).
  assert (Hb' : board g = rebuildBoard ps)
    by (rewrite Hb; symmetry; apply rebuildBoard_same; assumption).
  rewrite Hb'. destruct (rebuildBoard_wf ps Hw') as [Hwf [Hon _]].
  apply findPiece_Some in F. destruct F as [Hin _].
  destruct (findMovementPathForBoard_total _ realPiece (move_dest best) Hwf
              (Hon _ Hin) Hv) as [[path |] ->];
    cbn [bind]; eexists; reflexivity.
Qed.

(** X8. The pointer handler keeps the game coherent.  From a coherent game
    (pieces with distinct ids at rest on distinct squares, the grid being the
    grid of the pieces) the handler returns for every pointer event whose
    square, if it has one, is a square of the grid; the event either starts
    no movement and leaves a coherent game, or starts a move or swap after
    which, once the pieces have arrived, [update] leaves a coherent game
    again. *)
Theorem pointer_keeps_coherent (u : Ui) (ev : Pointer) :
  coherentGame (ui_game u) ->
  (forall sq, square ev = Some sq ->
     isValidPosition (fst sq) (snd sq) = true) ->
  exists u',
    onPointerDown u ev = Done u'
    /\ ((piecesAreAnimating (ui_game u') = false
         /\ coherentGame (ui_game u'))
        \/ (piecesAreAnimating (ui_game u') = true
            /\ coherentGame (update (ui_game u')))).
Proof.
  intros Hc Hsq. destruct (pointer_total u ev Hc Hsq) as [u' H].
  exists u'. split; [exact H |]. exact (pointer_coherent u u' ev Hc H).
Qed.

(** X16. The bot looks at promotions first.  On a coherent state
    [generateMovesForState] returns, and when one of its moves is a
    promotion, the first move kept after the sort by decreasing score and
    the cut to a positive beam width is a generated move that is a
    promotion. *)
Theorem promotion_first (st : State) (beamWidth : nat) :
  coherentState st ->
  (0 < beamWidth)%nat ->
  exists res,
    generateMovesForState st = Done res
    /\ ((exists m, In m res /\ promotingMove st m) ->
        exists h, hd_error (limitedMoves beamWidth res) = Some h
                  /\ In h res /\ promotingMove st h).
Proof.
  intros Hc Hbw.
  destruct (generateMovesLoop_spec st Hc (st_pieces st) [] (incl_refl _))
    as [res [Hr _]].
  exists res. split; [exact Hr |]. intros Hm.
  exact (limited_promotion st res beamWidth Hc Hr Hm Hbw).
Qed.

(** X17. The pointer handler keeps the rotation chances in bounds.  On a
    coherent game whose rotation chances are between 0 and 2, rotate mode
    being on only with a chance left and a piece selected, the handler
    returns for every pointer event on the grid or off it and the same
    holds afterwards; Done, the only statement that takes a chance away,
    never makes them negative. *)
Theorem chances_stay_in_bounds (u : Ui) (ev : Pointer) :
  coherentGame (ui_game u) ->
  (forall sq, square ev = Some sq ->
     isValidPosition (fst sq) (snd sq) = true) ->
  chancesInBounds u ->
  exists u', onPointerDown u ev = Done u' /\ chancesInBounds u'.
Proof.
  intros Hc Hsq Hb. destruct (pointer_total u ev Hc Hsq) as [u' H].
  exists u'. split; [exact H |]. exact (pointer_chances u u' ev Hb H).
Qed.

(** X20. The bot's move keeps the game coherent.  From a coherent game,
    whatever action the search returned, as long as its destination is a
    square of the grid, [thinkAndMove] returns; it either starts no
    movement, leaving every piece on its square and the grid as it is, or
    starts a move or swap after which, once the pieces have arrived,
    [update] leaves a coherent game; the rotation chances it leaves are
    between 0 and 2 when they were before. *)
Theorem bot_move_keeps_coherent (g : Game) (best : Action) :
  coherentGame g ->
  isValidPosition (fst (move_dest best)) (snd (move_dest best)) = true ->
  exists g1,
    thinkAndMove g best = Done g1
    /\ ((0 <= rotationChances g <= 2 -> 0 <= rotationChances g1 <= 2))
    /\ ((piecesAreAnimating g1 = false
         /\ map piece_key (pieces g1) = map piece_key (pieces g)
         /\ board g1 = board g)
        \/ (piecesAreAnimating g1 = true /\ coherentGame (update g1))).
Proof.
  intros Hc Hv. destruct (thinkAndMove_total g best Hc Hv) as [g1 H].
  exists g1. split; [exact H |]. exact (thinkAndMove_coherent g g1 best Hc H).
Qed.

(** X23. The pointer handler only ever selects a piece that the player to
    move may select.  On a coherent game whose selected piece, if any,
    belongs to the player to move and is marked neither as moved nor as
    rotated, the handler returns for every pointer event and the same holds
    afterwards. *)
Theorem selection_stays_legal (u : Ui) (ev : Pointer) :
  coherentGame (ui_game u) ->
  (forall sq, square ev = Some sq ->
     isValidPosition (fst sq) (snd sq) = true) ->
  legalSelection (ui_game u) ->
  exists u', onPointerDown u ev = Done u' /\ legalSelection (ui_game u').
Proof.
  intros Hc Hsq Hl. destruct (pointer_total u ev Hc Hsq) as [u' H].
  exists u'. split; [exact H |]. exact (pointer_selection u u' ev Hl H).
Qed.

(** X6. [applyAction] keeps the simulated state coherent: when the pieces
    have distinct ids and stand on distinct squares, the grid is the grid of
    the pieces and [idMap] has the ids of the pieces, the same holds after
    the action, for every rotation plan and every move to a square of the
    grid (move, swap, promotion of the moved piece included). *)
Theorem applyAction_keeps_grid (st : State) (a : Action) :
  wellPlaced (st_pieces st) ->
  st_board st = rebuildBoard (st_pieces st) ->
  st_idMap st = map piece_id (st_pieces st) ->
  isValidPosition (fst (move_dest a)) (snd (move_dest a)) = true ->
  wellPlaced (st_pieces (applyAction st a))
  /\ st_board (applyAction st a) = rebuildBoard (st_pieces (applyAction st a))
  /\ st_idMap (applyAction st a) = map piece_id (st_pieces (applyAction st a)).
Proof. exact (applyAction_grid st a). Qed.

(** ** The simulation and the live move *)

Lemma related_map (F G : Piece -> Piece) :
  forall l l', map unflag l = map unflag l' ->
  (forall a b, In a l -> In b l' -> unflag a = unflag b ->
     unflag (F a) = unflag (G b)) ->
  map unflag (map F l) = map unflag (map G l').
Proof.
  induction l as [| a l IH]; intros [| b l'] H HF; cbn [map] in *;
    try discriminate; [reflexivity |].
  assert (Hab : unflag a = unflag b) by congruence.
  assert (Hl : map unflag l = map unflag l') by congruence.
  f_equal.
  - apply HF; [left; reflexivity | left; reflexivity | exact Hab].
  - apply IH; [exact Hl |]. intros x y Hx Hy. apply HF; right; assumption.
Qed.

Lemma related_filter (f g : Piece -> bool) :
  forall l l', map unflag l = map unflag l' ->
  (forall a b, In a l -> In b l' -> unflag a = unflag b -> f a = g b) ->
  map unflag (filter f l) = map unflag (filter g l').
Proof.
  induction l as [| a l IH]; intros [| b l'] H HF; cbn [map] in H;
    try discriminate; [reflexivity |].
  assert (Hab : unflag a = unflag b) by congruence.
  assert (Hl : map unflag l = map unflag l') by congruence.
  assert (Hrest : map unflag (filter f l) = map unflag (filter g l')).
  { apply IH; [exact Hl |]. intros x y Hx Hy. apply HF; right; assumption. }
  cbn [filter].
  rewrite (HF a b (or_introl eq_refl) (or_introl eq_refl) Hab).
  destruct (g b); [cbn [map]; congruence | exact Hrest].
Qed.

Lemma unflag_resetFlags (cp : Z) (l : list Piece) :
  map unflag (resetFlags cp l) = map (setFlags false false) l.
Proof.
  unfold resetFlags. rewrite map_map. apply map_ext. intros p.
  destruct (player p =? cp); [reflexivity |].
  destruct (movedLastTurn p) eqn:M; unfold unflag, setFlags;
    cbn [piece_id piece_x piece_y piece_type player rotation movedLastTurn
         rotatedThisTurn movementPath isMoving];
    rewrite ?M; reflexivity.
Qed.

Lemma related_resetFlags (cp : Z) (l l' : list Piece) :
  map unflag l = map unflag l' ->
  map unflag (resetFlags cp l) = map unflag (resetFlags cp l').
Proof.
  intros H. rewrite !unflag_resetFlags.
  transitivity (map (setFlags false false) (map unflag l));
    [rewrite map_map; apply map_ext; reflexivity |].
  rewrite H, map_map. apply map_ext. reflexivity.
Qed.

Lemma related_fields (a b : Piece) :
  unflag a = unflag b ->
  piece_id a = piece_id b /\ piece_key a = piece_key b
  /\ promotes a = promotes b /\ player a = player b
  /\ movementPath a = movementPath b /\ isMoving a = isMoving b.
Proof.
  unfold unflag, setFlags, promotes, piece_key. intros H. inversion H.
  repeat split; congruence.
Qed.

Lemma filter_own_id (l : list Piece) (s : Piece) :
  NoDup (map piece_id l) -> In s l ->
  filter (fun b => piece_id b =? piece_id s) l = [s].
Proof.
  induction l as [| a l IH]; intros Hnd Hin; [destruct Hin |].
  inversion Hnd as [| i m Ha Hnd' E]; subst. cbn [filter].
  destruct Hin as [-> | Hin].
  - rewrite Z.eqb_refl. f_equal.
    assert (Hno : forall c, In c l -> (piece_id c =? piece_id s) = false).
    { intros c Hc. apply Z.eqb_neq. intros E. apply Ha. rewrite <- E.
      apply in_map. exact Hc. }
    clear - Hno. induction l as [| c l IHl]; [reflexivity |]. cbn [filter].
    rewrite (Hno c (or_introl eq_refl)). apply IHl.
    intros x Hx. apply Hno. right. exact Hx.
  - destruct (piece_id a =? piece_id s) eqn:E; [| auto].
    apply Z.eqb_eq in E. exfalso. apply Ha. rewrite E. apply in_map. exact Hin.
Qed.

Lemma promoted_count (h : Piece -> bool) (A ps1 : list Piece) (sel' : Piece)
    (sid : Z) :
  map unflag A = map unflag ps1 ->
  NoDup (map piece_id ps1) ->
  findPiece sid ps1 = Some sel' ->
  (forall a, In a A -> promotes a = true -> piece_id a = sid) ->
  (forall a b, unflag a = unflag b -> h a = h b) ->
  Z.of_nat (List.length (filter (fun p => promotes p && h p) A))
  = if promotes sel' && h sel' then 1 else 0.
Proof.
  intros R Hnd F Honly Hh.
  destruct (findPiece_Some _ _ _ F) as [Hin Hid].
  assert (E : map unflag (filter (fun p => promotes p && h p) A)
              = map unflag
                  (filter (fun b => (piece_id b =? piece_id sel')
                                    && (promotes sel' && h sel')) ps1)).
  { apply related_filter; [exact R |]. intros a b Ha Hb Hab.
    destruct (related_fields a b Hab) as [Ei [_ [Ep _]]].
    destruct (piece_id b =? piece_id sel') eqn:Eb.
    - apply Z.eqb_eq in Eb.
      pose proof (findPiece_In ps1 b Hnd Hb) as Fb.
      rewrite Eb, Hid, F in Fb. inversion Fb; subst b.
      rewrite Ep, (Hh a sel' Hab). reflexivity.
    - destruct (promotes a) eqn:Pa; [| reflexivity].
      apply Z.eqb_neq in Eb. exfalso. apply Eb.
      rewrite <- Ei, Hid. apply Honly; assumption. }
  apply (f_equal (@List.length Piece)) in E. rewrite !length_map in E.
  rewrite E. destruct (promotes sel' && h sel').
  - rewrite (filter_ext _ (fun b => piece_id b =? piece_id sel'))
      by (intros b; apply andb_true_r).
    rewrite (filter_own_id ps1 sel' Hnd Hin). reflexivity.
  - rewrite (filter_ext _ (fun _ => false))
      by (intros b; apply andb_false_r).
    rewrite filter_false. reflexivity.
Qed.

(** A piece that arrives at the end of its path is, but for its path, the
    piece moved to the end of the path. *)
Lemma arrive_moved (path : list Pos) (d : Pos) (a b : Piece) :
  unflag a = unflag b -> (forall def, last path def = d) ->
  isMoving a = false -> movementPath a = [] ->
  unflag (arrive (startMoving path a)) = unflag (moveTo (fst d) (snd d) b).
Proof.
  intros H Hl Hm Hp. destruct a, b. unfold unflag, setFlags in H.
  cbn in H, Hm, Hp. inversion H; subst.
  unfold arrive, startMoving, moveTo, unflag, setFlags.
  cbn [piece_id piece_x piece_y piece_type player rotation movedLastTurn
       rotatedThisTurn movementPath isMoving].
  rewrite Hl. reflexivity.
Qed.

Lemma arrive_moved_twice (path path2 : list Pos) (d : Pos) (x y : Z)
    (a b : Piece) :
  unflag a = unflag b -> (forall def, last path2 def = d) ->
  isMoving a = false -> movementPath a = [] ->
  unflag (arrive (startMoving path2 (startMoving path a)))
  = unflag (moveTo (fst d) (snd d) (moveTo x y b)).
Proof.
  intros H Hl Hm Hp. destruct a, b. unfold unflag, setFlags in H.
  cbn in H, Hm, Hp. inversion H; subst.
  unfold arrive, startMoving, moveTo, unflag, setFlags.
  cbn [piece_id piece_x piece_y piece_type player rotation movedLastTurn
       rotatedThisTurn movementPath isMoving].
  rewrite Hl. reflexivity.
Qed.

(** The live move and the simulated one.  On a coherent game whose
    pieces have no path left, for an action with one of the rotation plans
    of [generateTurnActionsLimited] (candidates that can rotate): when
    [thinkAndMove] starts the move, no piece other than the moved one is
    promoted at the arrival and the game goes on, the game after [update]
    is the state [applyAction] computes on the clone of the snapshot. *)
Lemma simulation_agrees (g g1 : Game) (best : Action) (top : list Z) :
  coherentGame g ->
  (forall p, In p (pieces g) -> movementPath p = []) ->
  (forall id p, In id top -> findPiece id (pieces g) = Some p ->
     canRotateType (piece_type p) = true) ->
  In (rotations best) (rotationPlans top) ->
  thinkAndMove g best = Done g1 ->
  piecesAreAnimating g1 = true ->
  (forall p, In p (map arrive (pieces g1)) -> promotes p = true ->
     piece_id p = move_id best) ->
  gameOver (update g1) = false ->
  let st := applyAction (cloneState (snapshotState g)) best in
  map unflag (pieces (update g1)) = map unflag (st_pieces st)
  /\ board (update g1) = st_board st
  /\ playerScores (update g1) = st_playerScores st
  /\ currentPlayer (update g1) = st_currentPlayer st
  /\ st_gameOver st = false.
Proof.
  intros Hc Hpath Htop Hplan H Hanim Honly Hover.
  pose proof Hc as [Hw [Hb [Ha Hrest]]].
  assert (Hclone : map clonePiece (pieces g) = pieces g).
  { rewrite <- (map_id (pieces g)) at 2. apply map_ext_in. intros p Hp.
    pose proof (Hpath _ Hp) as E1. pose proof (Hrest _ Hp) as E2.
    destruct p. cbn in E1, E2. subst. reflexivity. }
  assert (Hst0 : cloneState (snapshotState g) = snapshotState g).
  { unfold cloneState, snapshotState.
    cbn [st_pieces st_currentPlayer st_playerScores st_gameOver].
    rewrite Hclone. reflexivity. }
  cbv zeta. rewrite Hst0. clear Hst0 Hclone.
  set (st := applyAction (snapshotState g) best).
  destruct (thinkAndMove_coherent g g1 best Hc H) as [_ [[Hn _] | [_ Hcu]]];
    [congruence |].
  destruct (rotationPlans_fit top (rotations best) Hplan) as [Hfit Hturns].
  (* the rotations *)
  set (psS := applyRotations (map piece_id (pieces g)) (rotations best) 2
                (pieces g)).
  set (psL := fst (liveRotations (rotations best) 2 (pieces g))).
  assert (R : map unflag psL = map unflag psS).
  { apply rotations_agree; [reflexivity | | | lia].
    - intros r p Hr F. apply (Htop (fst r)); [apply Hfit; exact Hr | exact F].
    - intros r Hr. apply Hfit. exact Hr. }
  assert (Li : map piece_id psL = map piece_id (pieces g))
    by (apply map_liveRotations; reflexivity).
  assert (Lk : map piece_key psL = map piece_key (pieces g))
    by (apply map_liveRotations; reflexivity).
  assert (Lm : map isMoving psL = map isMoving (pieces g))
    by (apply map_liveRotations; reflexivity).
  assert (Lp : map movementPath psL = map movementPath (pieces g))
    by (apply map_liveRotations; reflexivity).
  assert (Si : map piece_id psS = map piece_id (pieces g))
    by (apply map_applyRotations; reflexivity).
  assert (HrestL : forall a, In a psL ->
            isMoving a = false /\ movementPath a = []).
  { intros a Hin. split.
    - assert (Hi : In (isMoving a) (map isMoving (pieces g)))
        by (rewrite <- Lm; apply in_map; exact Hin).
      apply in_map_iff in Hi. destruct Hi as [q [<- Hq]]. auto.
    - assert (Hi : In (movementPath a) (map movementPath (pieces g)))
        by (rewrite <- Lp; apply in_map; exact Hin).
      apply in_map_iff in Hi. destruct Hi as [q [<- Hq]]. auto. }
  assert (HwL : wellPlaced psL) by (eapply wellPlaced_same; eassumption).
  (* the live move *)
  unfold thinkAndMove in H.
  assert (Epc : exists chances,
            match rotations best with
            | [] => (pieces g, rotationChances g)
            | _ :: _ => liveRotations (rotations best) 2 (pieces g)
            end = (psL, chances)).
  { unfold psL. destruct (rotations best) as [| r rs];
      [eexists; reflexivity |].
    destruct (liveRotations (r :: rs) 2 (pieces g)) as [l c].
    eexists; reflexivity. }
  destruct Epc as [chances Epc]. rewrite Epc in H. clear Epc.
  set (g0 := setPieces g psL chances) in *.
  destruct (findPiece (move_id best) psL) as [rp |] eqn:F.
  2: { inversion H; subst g1. cbn in Hanim. congruence. }
  destruct (findMovementPathForBoard rp (move_dest best)
              (viewBoard psL (board g))) as [[path |] | |] eqn:P;
    cbn [bind] in H; inversion H; clear H.
  2: { subst g1. cbn in Hanim. congruence. }
  rewrite H1.
  destruct (path_ends _ _ _ _ P) as [Hlast Hdest].
  destruct (findPiece_Some _ _ _ F) as [Hrp Hrid].
  assert (Hvd : isValidPosition (fst (move_dest best)) (snd (move_dest best))
                = true).
  { destruct Hdest as [-> | Hv]; [| exact Hv].
    destruct HwL as [_ [_ Hv]]. apply Hv. exact Hrp. }
  (* the selected piece of the simulation *)
  pose proof (findPiece_unflag (move_id best) psL psS R) as FS.
  rewrite F in FS.
  destruct (findPiece (move_id best) psS) as [sel |] eqn:F';
    [| discriminate FS].
  cbn [option_map] in FS. assert (Rsel : unflag rp = unflag sel) by congruence.
  clear FS.
  destruct (related_fields rp sel Rsel) as [Esid [Ekey _]].
  assert (Esx : piece_x sel = piece_x rp /\ piece_y sel = piece_y rp).
  { unfold piece_key, keyXY in Ekey. inversion Ekey. auto. }
  destruct Esx as [Esx Esy].
  destruct (findPiece_Some _ _ _ F') as [Hsel Hsid].
  (* the pieces at the arrival and the pieces of the simulation *)
  set (dest := move_dest best) in *.
  set (tpos := fun tid =>
         match findPiece tid psL with
         | Some t => (piece_x t, piece_y t)
         | None => dest
         end).
  set (FL := fun a =>
         arrive
           (match gridRead (board g) (fst dest) (snd dest) with
            | None => if piece_id a =? piece_id rp
                      then startMoving path a else a
            | Some tid =>
                (fun p => if piece_id p =? tid
                          then startMoving
                                 [tpos tid; (piece_x rp, piece_y rp)] p
                          else p)
                  (if piece_id a =? piece_id rp
                   then startMoving path a else a)
            end)).
  set (GS := fun b =>
         match gridRead (board g) (fst dest) (snd dest) with
         | None => if piece_id b =? piece_id sel
                   then moveTo (fst dest) (snd dest) b else b
         | Some tid =>
             (fun p => if piece_id p =? tid
                       then moveTo (piece_x sel) (piece_y sel) p else p)
               (if piece_id b =? piece_id sel
                then moveTo (fst dest) (snd dest) b else b)
         end).
  assert (EA : map arrive (pieces g1) = map FL psL).
  { subst g1. unfold commitMove, FL. cbn [g0 setPieces board pieces].
    destruct (gridRead (board g) (fst dest) (snd dest)) as [tid |];
      cbn [pieces]; unfold updatePiece; rewrite !map_map; reflexivity. }
  assert (RA : map unflag (map FL psL) = map unflag (map GS psS)).
  { apply related_map; [exact R |]. intros a b Hina Hinb Hab.
    destruct (HrestL a Hina) as [Hm Hp].
    unfold FL, GS. rewrite <- Esid, Esx, Esy.
    destruct (related_fields a b Hab) as [Ei _]. rewrite <- Ei.
    destruct (gridRead (board g) (fst dest) (snd dest)) as [tid |].
    - cbv beta. destruct (piece_id a =? piece_id rp).
      + change (piece_id (startMoving path a)) with (piece_id a).
        change (piece_id (moveTo (fst dest) (snd dest) b)) with (piece_id b).
        rewrite <- Ei.
        destruct (piece_id a =? tid).
        * apply (arrive_moved_twice path
                   [tpos tid; (piece_x rp, piece_y rp)]
                   (piece_x rp, piece_y rp)); auto.
        * apply arrive_moved; assumption.
      + rewrite <- Ei. destruct (piece_id a =? tid).
        * apply (arrive_moved [tpos tid; (piece_x rp, piece_y rp)]
                   (piece_x rp, piece_y rp)); auto.
        * rewrite (arrive_resting a Hm). exact Hab.
    - destruct (piece_id a =? piece_id rp).
      + apply arrive_moved; assumption.
      + rewrite (arrive_resting a Hm). exact Hab. }
  rewrite <- EA in RA.
  set (A := map arrive (pieces g1)) in *.
  set (ps1 := map GS psS) in *.
  assert (Hid1 : map piece_id ps1 = map piece_id (pieces g)).
  { unfold ps1. rewrite map_map, <- Si. apply map_ext. intros b. unfold GS.
    destruct (gridRead (board g) (fst dest) (snd dest)) as [tid |];
      repeat match goal with
             | |- context [if ?c then _ else _] => destruct c
             end; reflexivity. }
  assert (Hnd1 : NoDup (map piece_id ps1))
    by (rewrite Hid1; apply Hw).
  assert (F1 : exists sel', findPiece (piece_id sel) ps1 = Some sel').
  { destruct (findPiece (piece_id sel) ps1) as [x |] eqn:E;
      [eexists; reflexivity |].
    exfalso. unfold findPiece in E.
    assert (Hin : In (GS sel) ps1) by (apply in_map; exact Hsel).
    pose proof (find_none _ _ E _ Hin) as Hno. cbn beta in Hno.
    assert (Eg : piece_id (GS sel) = piece_id sel).
    { unfold GS.
      destruct (gridRead (board g) (fst dest) (snd dest)) as [tid |];
        repeat match goal with
               | |- context [if ?c then _ else _] => destruct c
               end; reflexivity. }
    rewrite Eg, Z.eqb_refl in Hno. discriminate. }
  destruct F1 as [sel' F1].
  (* the end of the live move *)
  destruct (update_end g1 Hanim) as [ps' [grid [scores [HL [_ [Hsc Hend]]]]]].
  destruct Hend as [[_ [_ Ho]] | [Eps [Ecp _]]]; [congruence |].
  fold A in HL. pose proof HL as HL0.
  apply promotionLoop_spec in HL; [| lia].
  rewrite firstn_all, skipn_all, app_nil_r in HL.
  destruct HL as [Hf [G1 [G2 _]]].
  assert (Hg1 : playerScores g1 = playerScores g
                /\ currentPlayer g1 = currentPlayer g
                /\ gameOver g1 = gameOver g).
  { subst g1. unfold commitMove. cbn [g0 setPieces board].
    destruct (gridRead (board g) (fst dest) (snd dest)); auto. }
  destruct Hg1 as [Hs1 [Hcp1 Hgo1]].
  assert (Honly' : forall a, In a A -> promotes a = true ->
                             piece_id a = piece_id sel).
  { intros a Hin Hpa. rewrite Hsid. apply Honly; assumption. }
  assert (C1 : gain1 A = if promotes sel' && (player sel' =? 1)
                         then 1 else 0).
  { apply (promoted_count (fun p => player p =? 1) A ps1 sel'
             (piece_id sel) RA Hnd1 F1 Honly').
    intros a b Hab. destruct (related_fields a b Hab) as [_ [_ [_ [E _]]]].
    rewrite E. reflexivity. }
  assert (C2 : gain2 A = if promotes sel' && negb (player sel' =? 1)
                         then 1 else 0).
  { apply (promoted_count (fun p => negb (player p =? 1)) A ps1 sel'
             (piece_id sel) RA Hnd1 F1 Honly').
    intros a b Hab. destruct (related_fields a b Hab) as [_ [_ [_ [E _]]]].
    rewrite E. reflexivity. }
  assert (RF : map unflag ps'
               = map unflag
                   (if promotes sel'
                    then filter (fun pp => negb (piece_id pp =? piece_id sel))
                           ps1
                    else ps1)).
  { assert (Hsame : forall a b, In a A -> In b ps1 -> unflag a = unflag b ->
              promotes a
              = (piece_id b =? piece_id sel) && promotes sel').
    { intros a b Hina Hinb Hab.
      destruct (related_fields a b Hab) as [Ei [_ [Ep _]]].
      destruct (piece_id b =? piece_id sel) eqn:Eb.
      - apply Z.eqb_eq in Eb.
        pose proof (findPiece_In ps1 b Hnd1 Hinb) as Fb.
        rewrite Eb, F1 in Fb. assert (Eq : sel' = b) by congruence.
        rewrite Ep, <- Eq. reflexivity.
      - destruct (promotes a) eqn:Pa; [| reflexivity].
        apply Z.eqb_neq in Eb. exfalso. apply Eb. rewrite <- Ei.
        apply Honly'; assumption. }
    rewrite Hf. destruct (promotes sel') eqn:Ps.
    - apply related_filter; [exact RA |]. intros a b Hina Hinb Hab.
      rewrite (Hsame a b Hina Hinb Hab), andb_true_r. reflexivity.
    - rewrite <- (filter_true ps1).
      apply related_filter; [exact RA |]. intros a b Hina Hinb Hab.
      rewrite (Hsame a b Hina Hinb Hab), andb_false_r. reflexivity. }
  (* the simulation *)
  assert (Est : st_pieces st
                = resetFlags (otherPlayer (currentPlayer g))
                    (if promotes sel'
                     then filter (fun pp => negb (piece_id pp =? piece_id sel))
                            ps1
                     else ps1)
                /\ st_playerScores st
                   = (if promotes sel'
                      then addScore (playerScores g) (player sel')
                      else playerScores g)
                /\ st_currentPlayer st = otherPlayer (currentPlayer g)
                /\ st_gameOver st
                   = gameOver g
                     || (6 <=? fst (if promotes sel'
                                    then addScore (playerScores g)
                                           (player sel')
                                    else playerScores g))
                     || (6 <=? snd (if promotes sel'
                                    then addScore (playerScores g)
                                           (player sel')
                                    else playerScores g))).
  { unfold st, applyAction, idMap_get.
    cbn [snapshotState st_idMap st_pieces st_board st_currentPlayer
         st_playerScores st_gameOver].
    fold psS.
    assert (Elook : (if existsb (Z.eqb (move_id best))
                          (map piece_id (pieces g))
                     then findPiece (move_id best) psS else None)
                    = Some sel)
      by (rewrite <- Si, idMap_lookup; exact F').
    rewrite Elook. fold dest. rewrite <- Hb.
    assert (E1 : match gridRead (board g) (fst dest) (snd dest) with
                 | None =>
                     updatePiece (piece_id sel)
                       (moveTo (fst dest) (snd dest)) psS
                 | Some tid =>
                     updatePiece tid (moveTo (piece_x sel) (piece_y sel))
                       (updatePiece (piece_id sel)
                          (moveTo (fst dest) (snd dest)) psS)
                 end = ps1).
    { unfold ps1, GS, updatePiece.
      destruct (gridRead (board g) (fst dest) (snd dest));
        rewrite ?map_map; reflexivity. }
    destruct (gridRead (board g) (fst dest) (snd dest)) as [tid |];
      cbv beta iota zeta; rewrite E1, F1;
      destruct (promotes sel'); cbn [st_pieces st_playerScores
        st_currentPlayer st_gameOver]; repeat split; reflexivity. }
  destruct Est as [Ep [Es [Ecs Ego]]].
  assert (Escores : playerScores (update g1) = st_playerScores st).
  { rewrite Hsc, Es. apply injective_projections.
    - rewrite G1, C1, Hs1.
      destruct (promotes sel'); [| cbn [andb]; lia].
      unfold addScore. destruct (player sel' =? 1); cbn [andb fst]; lia.
    - rewrite G2, C2, Hs1.
      destruct (promotes sel'); [| cbn [andb]; lia].
      unfold addScore. destruct (player sel' =? 1); cbn [andb negb snd]; lia. }
  assert (Epieces : map unflag (pieces (update g1))
                    = map unflag (st_pieces st)).
  { rewrite Eps, Ep, Hcp1. apply related_resetFlags. exact RF. }
  split; [exact Epieces |].
  split.
  { destruct Hcu as [_ [Hbu _]]. rewrite Hbu.
    destruct (applyAction_grid (snapshotState g) best Hw eq_refl eq_refl Hvd)
      as [_ [Hbs _]].
    fold st in Hbs. rewrite Hbs. apply rebuildBoard_same.
    - apply (f_equal (map piece_id)) in Epieces.
      rewrite !map_map in Epieces. exact Epieces.
    - apply (f_equal (map piece_key)) in Epieces.
      rewrite !map_map in Epieces. exact Epieces. }
  split; [exact Escores |].
  split; [rewrite Ecp, Ecs, Hcp1; reflexivity |].
  rewrite Ego, <- Es, <- Escores, Hsc.
  unfold update in Hover. rewrite Hanim, arrived_all in Hover.
  cbn [andb] in Hover. fold A in Hover. rewrite HL0 in Hover.
  cbn [gameOver] in Hover.
  destruct (gameOver g1 || ((6 <=? fst scores) || (6 <=? snd scores))) eqn:O;
    cbn [negb endTurn gameOver] in Hover; [congruence |].
  rewrite <- orb_assoc, <- Hgo1. exact O.
Qed.

(** X24. The bot's search predicts its move.  On a coherent game whose
    pieces have no path left, for an action to a square of the grid with
    one of the rotation plans of [generateTurnActionsLimited] (candidates
    that can rotate), [thinkAndMove] returns; when it has started the move,
    no piece other than the moved one is promoted at the arrival and the
    game goes on, the game after [update] is the state [applyAction]
    computes on the clone of the snapshot: the same pieces up to the mark
    [rotatedThisTurn], the same grid, the same scores and the same player
    to move. *)
Theorem simulation_predicts_move (g : Game) (best : Action) (top : list Z) :
  coherentGame g ->
  (forall p, In p (pieces g) -> movementPath p = []) ->
  (forall id p, In id top -> findPiece id (pieces g) = Some p ->
     canRotateType (piece_type p) = true) ->
  In (rotations best) (rotationPlans top) ->
  isValidPosition (fst (move_dest best)) (snd (move_dest best)) = true ->
  exists g1,
    thinkAndMove g best = Done g1
    /\ (piecesAreAnimating g1 = true ->
        (forall p, In p (map arrive (pieces g1)) -> promotes p = true ->
           piece_id p = move_id best) ->
        gameOver (update g1) = false ->
        let st := applyAction (cloneState (snapshotState g)) best in
        map unflag (pieces (update g1)) = map unflag (st_pieces st)
        /\ board (update g1) = st_board st
        /\ playerScores (update g1) = st_playerScores st
        /\ currentPlayer (update g1) = st_currentPlayer st
        /\ st_gameOver st = false).
Proof.
  intros Hc Hpath Htop Hplan Hv.
  destruct (thinkAndMove_total g best Hc Hv) as [g1 H].
  exists g1. split; [exact H |]. intros Ha Honly Ho.
  exact (simulation_agrees g g1 best top Hc Hpath Htop Hplan H Ha Honly Ho).
Qed.

(** ** The generated actions can be played *)

Lemma path_found (b : Board) (s : Piece) (d : Pos) :
  wf_board b -> onBoard b s -> chainAccessible b s d ->
  exists path, findMovementPathForBoard s d b = Done (Some path).
Proof.
  intros Hwf Hon Hd'. pose proof Hwf as [Hs Hcons].
  destruct (resolve_characterised b s sourceOrder Hwf fair_sourceOrder Hon)
    as [r [Hr [Hvis _]]].
  unfold findMovementPathForBoard, getAllAccessibleSquaresForBoard.
  rewrite Hr. cbn [bind].
  destruct (collectPieces_total s b (visitedPieces r) Hs) with (acc0 := @nil Piece)
    as [pieces Hcol].
  { intros k Hk. apply Hvis in Hk. destruct Hk as [t [Hl <-]].
    eapply cellAt_valid; [exact Hs |].
    exact (linked_onBoard b s t Hcons Hon Hl). }
  rewrite Hcol. cbn [bind].
  assert (Hpieces : forall p, In p pieces <-> linked b s p).
  { intros p. rewrite (collectPieces_spec s b _ _ _ Hcol p). split.
    - intros [[] | [k [Hk [Hc Hp]]]]. apply Hvis in Hk.
      destruct Hk as [t [Hl <-]].
      pose proof (linked_onBoard b s t Hcons Hon Hl) as Ht.
      unfold onBoard in Ht. congruence.
    - intros Hl. right. exists (piece_key p). split; [| split].
      + apply Hvis. exists p. auto.
      + exact (linked_onBoard b s p Hcons Hon Hl).
      + apply linked_player with (b := b). exact Hl. }
  assert (Hvd : isValidPosition (fst d) (snd d) = true).
  { destruct Hd' as [[H _] | [t [_ [_ H]]]];
      eapply getAvailableSquares_valid; eassumption. }
  rewrite (boardRead_valid b _ _ Hs Hvd). cbn [bind].
  rewrite <- surjective_pairing. rewrite keyXY_eta.
  set (firstStep :=
         if match cellAt b d with None => true | Some _ => false end
         then deletePiece s pieces else pieces).
  assert (Hincl : incl firstStep pieces).
  { unfold firstStep. destruct (cellAt b d); [apply incl_refl |].
    intros p Hp. apply In_deletePiece in Hp. tauto. }
  assert (Hocc : cellAt b d <> None -> firstStep = pieces).
  { unfold firstStep. destruct (cellAt b d); [reflexivity | congruence]. }
  destruct (searchLoop_total s firstStep pieces Hincl
              (S (S (List.length pieces))) [(d, [d])] [d]) as [res Hres].
  { pose proof (pending_le pieces [d]). simpl. lia. }
  rewrite Hres.
  assert (HQ : QInv s firstStep pieces d [(d, [d])] [d]).
  { constructor.
    - simpl; auto.
    - intros pos path [E | []]. inversion E; subst. simpl.
      split; [auto | apply trail_start].
    - intros k [<- | []] Hn. exfalso. apply Hn. simpl. auto. }
  pose proof (searchLoop_inv s firstStep pieces d _ _ _ _ HQ Hres) as Hinv.
  destruct res as [path |]; [exists path; reflexivity |].
  exfalso. destruct Hinv as [visited' HQ'].
  pose proof (search_exhausted b s firstStep pieces d visited' Hcons
                (fun t Ht => proj2 (Hpieces t) Ht) Hocc HQ') as Hex.
  destruct HQ' as [Qd _ Qb].
  destruct (Qb d Qd (fun f => f)) as [_ Hclosed].
  unfold considerOf in Hclosed. rewrite pos_eqb_refl in Hclosed.
  destruct Hd' as [[Hin Ho] | [t [Hl [Hne Hin]]]].
  - apply (Hex s (linked_refl b s)). apply Hclosed; [| exact Hin].
    rewrite (Hocc Ho). apply Hpieces. apply linked_refl.
  - apply (Hex t Hl). apply Hclosed; [| exact Hin].
    unfold firstStep. destruct (cellAt b d).
    + apply Hpieces. exact Hl.
    + apply In_deletePiece. split; [apply Hpieces; exact Hl | exact Hne].
Qed.

Lemma related_squares (a b : Piece) :
  unflag a = unflag b -> getAvailableSquares a = getAvailableSquares b.
Proof.
  unfold unflag, setFlags, getAvailableSquares. intros H. inversion H.
  congruence.
Qed.

Lemma related_linked (bL bS : Board) (s s' : Piece) :
  (forall k, option_map unflag (cellAt bL k)
             = option_map unflag (cellAt bS k)) ->
  unflag s = unflag s' ->
  forall t, linked bL s t ->
  exists t', unflag t = unflag t' /\ linked bS s' t'.
Proof.
  intros Hrel Hs t Hl.
  induction Hl as [| p t Hp [p' [Rp Lp]] [pos [Hpos [Hcell Hpl]]]].
  - exists s'. split; [exact Hs | apply linked_refl].
  - pose proof (Hrel pos) as Hk. rewrite Hcell in Hk. cbn [option_map] in Hk.
    destruct (cellAt bS pos) as [t' |] eqn:C; [| discriminate Hk].
    cbn [option_map] in Hk. assert (Rt : unflag t = unflag t') by congruence.
    exists t'. split; [exact Rt |].
    apply (linked_step bS s' p' t' Lp). exists pos.
    split; [rewrite <- (related_squares p p' Rp); exact Hpos |].
    split; [exact C |].
    destruct (related_fields t t' Rt) as [_ [_ [_ [E1 _]]]].
    destruct (related_fields p p' Rp) as [_ [_ [_ [E2 _]]]].
    congruence.
Qed.

Lemma related_accessible (bL bS : Board) (s s' : Piece) (k : Pos) :
  (forall k, option_map unflag (cellAt bL k)
             = option_map unflag (cellAt bS k)) ->
  consistent bS -> onBoard bS s' -> unflag s = unflag s' ->
  chainAccessible bS s' k -> chainAccessible bL s k.
Proof.
  intros Hrel Hcons Hon Hs [[Hin Ho] | [t' [Hl [Hne Hin]]]].
  - left. split; [rewrite (related_squares s s' Hs); exact Hin |].
    intros E. apply Ho. pose proof (Hrel k) as Hk. rewrite E in Hk.
    destruct (cellAt bS k); [discriminate Hk | reflexivity].
  - assert (Hrel' : forall k, option_map unflag (cellAt bS k)
                              = option_map unflag (cellAt bL k))
      by (intros q; symmetry; apply Hrel).
    destruct (related_linked bS bL s' s Hrel' (eq_sym Hs) t' Hl)
      as [t [Rt Lt]].
    right. exists t. split; [exact Lt |].
    split; [| rewrite <- (related_squares t' t Rt); exact Hin].
    intros E. subst t. apply Hne.
    assert (Ru : unflag t' = unflag s') by congruence.
    pose proof (linked_onBoard bS s' t' Hcons Hon Hl) as Ht'.
    unfold onBoard in Ht', Hon.
    destruct (related_fields t' s' Ru) as [_ [Ek _]].
    rewrite Ek in Ht'. congruence.
Qed.

(** X25. The bot can play every action it generates.  On a coherent game
    whose pieces have no path left, for rotation candidates that can
    rotate, [generateTurnActionsLimited] returns on the snapshot of the
    game, and for each of its actions [thinkAndMove] finds the piece and a
    path on the live grid after the live rotations, and starts the move or
    swap: it never returns with the turn left open. *)
Theorem generated_actions_run (g : Game) (top : list Z) (beamWidth : nat) :
  coherentGame g ->
  (forall p, In p (pieces g) -> movementPath p = []) ->
  (forall id p, In id top -> findPiece id (pieces g) = Some p ->
     canRotateType (piece_type p) = true) ->
  exists actions,
    generateTurnActions (snapshotState g) top beamWidth = Done actions
    /\ forall a, In a actions ->
         exists g1, thinkAndMove g a = Done g1
                    /\ piecesAreAnimating g1 = true
                    /\ selectedPiece g1 = None
                    /\ In (move_id a) (animatingPieces g1).
Proof.
  intros Hc Hpath Htop. pose proof Hc as [Hw [Hb [Ha Hrest]]].
  assert (Hclone : map clonePiece (pieces g) = pieces g).
  { rewrite <- (map_id (pieces g)) at 2. apply map_ext_in. intros p Hp.
    pose proof (Hpath _ Hp) as E1. pose proof (Hrest _ Hp) as E2.
    destruct p. cbn in E1, E2. subst. reflexivity. }
  unfold generateTurnActions.
  destruct (actionsForPlans_spec (snapshotState g) beamWidth Hw
              (rotationPlans top) []) as [actions [Hact [_ Hall]]].
  exists actions. split; [exact Hact |]. intros a Hin.
  destruct (Hall a Hin) as [[] | [Hplan [p [Hp [Hid [_ [_ [_ Hacc]]]]]]]].
  destruct (rotationPlans_fit top (rotations a) Hplan) as [Hfit Hturns].
  pose proof (rotatedClone_coherent (snapshotState g) (rotations a) Hw)
    as [HwS HbS].
  unfold rotatedClone, cloneState in Hp, Hacc, HwS, HbS.
  cbn [snapshotState st_pieces st_board st_idMap] in Hp, Hacc, HwS, HbS.
  rewrite Hclone in Hp, Hacc, HwS, HbS. rewrite <- Hb in Hacc, HbS.
  set (psS := applyRotations (map piece_id (pieces g)) (rotations a) 2
                (pieces g)) in *.
  set (psL := fst (liveRotations (rotations a) 2 (pieces g))).
  assert (R : map unflag psL = map unflag psS).
  { apply rotations_agree; [reflexivity | | | lia].
    - intros r q Hr F. apply (Htop (fst r)); [apply Hfit; exact Hr | exact F].
    - intros r Hr. apply Hfit. exact Hr. }
  assert (Li : map piece_id psL = map piece_id (pieces g))
    by (apply map_liveRotations; reflexivity).
  assert (Lk : map piece_key psL = map piece_key (pieces g))
    by (apply map_liveRotations; reflexivity).
  assert (HwL : wellPlaced psL) by (eapply wellPlaced_same; eassumption).
  assert (HbL : board g = rebuildBoard psL)
    by (rewrite Hb; symmetry; apply rebuildBoard_same; assumption).
  destruct (rebuildBoard_wf psL HwL) as [HwfL [HonL _]].
  destruct (rebuildBoard_wf psS HwS) as [[_ HconsS] [HonS _]].
  rewrite <- HbL in HwfL, HonL. rewrite <- HbS in HconsS, HonS.
  (* the piece on the live grid *)
  pose proof (findPiece_unflag (move_id a) psL psS R) as FS.
  rewrite <- Hid in FS at 2.
  rewrite (findPiece_In psS p (proj1 HwS) Hp) in FS.
  destruct (findPiece (move_id a) psL) as [rp |] eqn:F; [| discriminate FS].
  cbn [option_map] in FS. assert (Rp : unflag rp = unflag p) by congruence.
  destruct (findPiece_Some _ _ _ F) as [Hrp _].
  assert (Hrel : forall k,
            option_map unflag (cellAt (viewBoard psL (board g)) k)
            = option_map unflag (cellAt (viewBoard psS (board g)) k)).
  { intros k. rewrite !cellAt_viewBoard.
    destruct (gridRead (board g) (fst k) (snd k)) as [id |]; [| reflexivity].
    apply findPiece_unflag. exact R. }
  pose proof (related_accessible _ _ rp p (move_dest a) Hrel HconsS
                (HonS p Hp) Rp Hacc) as HaccL.
  destruct (path_found _ rp (move_dest a) HwfL (HonL rp Hrp) HaccL)
    as [path Hpath'].
  unfold thinkAndMove.
  assert (Epc : exists chances,
            match rotations a with
            | [] => (pieces g, rotationChances g)
            | _ :: _ => liveRotations (rotations a) 2 (pieces g)
            end = (psL, chances)).
  { unfold psL. destruct (rotations a) as [| r rs];
      [eexists; reflexivity |].
    destruct (liveRotations (r :: rs) 2 (pieces g)) as [l c].
    eexists; reflexivity. }
  destruct Epc as [chances ->]. rewrite F, Hpath'. cbn [bind].
  eexists. split; [reflexivity |].
  unfold commitMove. cbn [setPieces board pieces].
  destruct (gridRead (board g) (fst (move_dest a)) (snd (move_dest a)));
    cbn [piecesAreAnimating selectedPiece animatingPieces];
    (split; [reflexivity |]); (split; [reflexivity |]);
    left; destruct (findPiece_Some _ _ _ F) as [_ E]; exact E.
Qed.

(** ** Rotate mode and the frames *)

Lemma update_idle (g : Game) :
  piecesAreAnimating g = false ->
  (forall p, In p (pieces g) -> isMoving p = false) ->
  update g = g.
Proof.
  intros Ha Hm.
  assert (E : map arrive (pieces g) = pieces g).
  { rewrite <- (map_id (pieces g)) at 2. apply map_ext_in. intros p Hp.
    apply arrive_resting. auto. }
  unfold update. rewrite E.
  destruct g as [ps b sp cp rc sc go hl an ap]. cbn in Ha. subst an.
  reflexivity.
Qed.

Lemma turningOf_cons_same (id : Z) (t : Turning) (tt : list (Z * Turning)) :
  turningOf ((id, t) :: tt) id = t.
Proof. unfold turningOf. cbn [find fst]. rewrite Z.eqb_refl. reflexivity. Qed.

Lemma turningOf_cons_other (id id' : Z) (t : Turning)
    (tt : list (Z * Turning)) :
  id <> id' -> turningOf ((id, t) :: tt) id' = turningOf tt id'.
Proof.
  intros H. unfold turningOf. cbn [find fst].
  replace (id =? id') with false by (symmetry; apply Z.eqb_neq; exact H).
  reflexivity.
Qed.

Lemma turningOf_frame (f : Piece -> Turning) (tt : list (Z * Turning))
    (ps : list Piece) (p : Piece) :
  NoDup (map piece_id ps) -> In p ps ->
  turningOf (map (fun q => (piece_id q, f q)) ps ++ tt) (piece_id p) = f p.
Proof.
  induction ps as [| a l IH]; intros Hnd Hin; [destruct Hin |].
  inversion Hnd as [| i m Ha Hnd' E]; subst. cbn [map app].
  destruct Hin as [-> | Hin]; [apply turningOf_cons_same |].
  rewrite turningOf_cons_other; [apply IH; assumption |].
  intros E. apply Ha. rewrite E. apply in_map. exact Hin.
Qed.

Lemma withRotation_same (p : Piece) : withRotation (rotation p) p = p.
Proof. destruct p; reflexivity. Qed.

Lemma turnPiece_fst (s : Z) (t : Turning) (p : Piece) :
  fst (turnPiece s t p)
  = withRotation (rotation (fst (turnPiece s t p))) p.
Proof.
  unfold turnPiece. destruct (isRotating t); cbn [fst];
    [| symmetry; apply withRotation_same].
  destruct (negb (rotation p =? targetRotation t)); cbn [fst];
    [| symmetry; apply withRotation_same].
  cbv zeta.
  match goal with
  | |- context [if ?c then _ else _] => destruct c
  end; reflexivity.
Qed.

Lemma turnPiece_initial (s : Z) (t : Turning) (p : Piece) :
  initialRotation (snd (turnPiece s t p)) = initialRotation t.
Proof.
  unfold turnPiece. destruct (isRotating t); [| reflexivity].
  destruct (negb (rotation p =? targetRotation t)); [| reflexivity].
  cbv zeta.
  match goal with
  | |- context [if ?c then _ else _] => destruct c
  end; reflexivity.
Qed.

Lemma turnPiece_still (s : Z) (t : Turning) (p : Piece) :
  isRotating t = false -> turnPiece s t p = (p, t).
Proof. intros H. unfold turnPiece. rewrite H. reflexivity. Qed.

Lemma turnPieces_still (s : Z) (tt : list (Z * Turning)) (ps : list Piece) :
  (forall p, In p ps -> isRotating (turningOf tt (piece_id p)) = false) ->
  fst (turnPieces s tt ps) = ps.
Proof.
  intros H. unfold turnPieces. cbn [fst].
  rewrite <- (map_id ps) at 2. apply map_ext_in. intros p Hp.
  rewrite turnPiece_still by (apply H; exact Hp). reflexivity.
Qed.

Lemma revealDue_game (due : bool) (u : Ui) :
  pieces (ui_game (revealDue due u)) = pieces (ui_game u)
  /\ piecesAreAnimating (ui_game (revealDue due u))
     = piecesAreAnimating (ui_game u).
Proof.
  unfold revealDue.
  destruct (highlightingInProgress u
            && Nat.ltb (layerIndex u)
                 (List.length (accessibleHighlightLayers u)) && due);
    [| auto].
  destruct (nth_error (accessibleHighlightLayers u) (layerIndex u))
    as [[e o] |]; auto.
Qed.

Lemma frame_pieces (s : Z) (due : bool) (u : Ui) :
  piecesAreAnimating (ui_game u) = false ->
  pieces (ui_game (frame s due u))
  = map arrive (fst (turnPieces s (turning u) (pieces (ui_game u)))).
Proof.
  intros Ha. unfold frame, turnPieces. cbv beta iota zeta. cbn [fst].
  set (u1 := {| ui_game := _ |}).
  destruct (revealDue_game due u1) as [E1 E2].
  cbn [setGame ui_game]. unfold update. rewrite E2.
  cbn [u1 ui_game setPieces piecesAreAnimating]. rewrite Ha. cbn [andb pieces].
  rewrite E1. reflexivity.
Qed.

(** A frame in which no highlight is due and no piece is moving only turns
    the pieces. *)
Lemma frame_quiet (s : Z) (due : bool) (u : Ui) :
  highlightingInProgress u = false ->
  piecesAreAnimating (ui_game u) = false ->
  (forall p, In p (pieces (ui_game u)) -> isMoving p = false) ->
  ui_game (frame s due u)
  = setPieces (ui_game u)
      (fst (turnPieces s (turning u) (pieces (ui_game u))))
      (rotationChances (ui_game u))
  /\ turning (frame s due u)
     = snd (turnPieces s (turning u) (pieces (ui_game u)))
  /\ rotateMode (frame s due u) = rotateMode u
  /\ botThinking (frame s due u) = botThinking u
  /\ highlightingInProgress (frame s due u) = false.
Proof.
  intros Hh Ha Hm. unfold frame, turnPieces. cbv beta iota zeta.
  cbn [fst snd]. unfold revealDue.
  cbn [highlightingInProgress]. rewrite Hh. cbn [andb].
  cbn [setGame ui_game rotateMode turning botThinking highlightingInProgress].
  split; [| auto].
  apply update_idle; [exact Ha |].
  cbn [setPieces pieces]. intros p Hp. apply in_map_iff in Hp.
  destruct Hp as [q [<- Hq]]. rewrite turnPiece_fst.
  cbn [withRotation isMoving]. apply Hm. exact Hq.
Qed.

Lemma selected_turning (g : Game) (sel : Piece) (r c : Z) :
  selected g = Some sel ->
  selected
    (setPieces (clearHighlights g)
       (updatePiece (piece_id sel) (withRotation r) (pieces g)) c)
  = Some (withRotation r sel).
Proof.
  unfold selected. cbn [setPieces clearHighlights selectedPiece pieces].
  destruct (selectedPiece g) as [sid |]; [| discriminate].
  intros F. destruct (findPiece_Some _ _ _ F) as [_ Hid]. rewrite <- Hid.
  rewrite findPiece_updatePiece by reflexivity. rewrite Hid, F. reflexivity.
Qed.

Lemma enter_turningIn (u : Ui) (sel : Piece) :
  rotatable u sel -> allStill u -> turningIn u sel (enterRotateMode u sel).
Proof.
  intros [[Hw _] [_ [_ [Ht [_ [Hs _]]]]]] Hstill.
  assert (Hin : In sel (pieces (ui_game u))).
  { unfold selected in Hs.
    destruct (selectedPiece (ui_game u)); [| discriminate].
    apply findPiece_Some in Hs. tauto. }
  unfold turningIn, enterRotateMode.
  cbn [ui_game rotateMode botThinking highlightingInProgress turning].
  split.
  { exists (rotation sel).
    rewrite updatePiece_fixed;
      [reflexivity | apply Hw | exact Hin | apply withRotation_same]. }
  split; [reflexivity |]. split; [exact Ht |]. split; [reflexivity |].
  split; [rewrite turningOf_cons_same; reflexivity |].
  intros p Hp Hne. rewrite turningOf_cons_other by auto.
  apply Hstill. exact Hp.
Qed.

Lemma tap_turningIn (u : Ui) (sel : Piece) (v : Ui) (ev : Pointer) :
  rotatable u sel -> turningIn u sel v -> offButtons ev ->
  exists v', onPointerDown v ev = Done v' /\ turningIn u sel v'.
Proof.
  intros [[_ [_ [Ha _]]] [Ho [Hp [_ [_ [Hs _]]]]]]
         [[r Hg] [Hr [Hb [Hh [Hi Hother]]]]] [E1 [E2 E3]].
  assert (Hsame : turningIn u sel v).
  { split; [exists r; exact Hg |]. repeat split; assumption. }
  pose proof (selected_turning (ui_game u) sel r
                (rotationChances (ui_game u)) Hs) as Hsel.
  unfold onPointerDown. cbv zeta. rewrite !Hg.
  cbn [setPieces clearHighlights gameOver currentPlayer piecesAreAnimating].
  rewrite Ho, Hb, Ha, E1, Hr, E2, E3.
  replace (currentPlayer (ui_game u) =? BOT_PLAYER) with false
    by (symmetry; apply Z.eqb_neq; exact Hp).
  change (selected
            {| pieces :=
                 updatePiece (piece_id sel) (withRotation r)
                   (pieces (ui_game u));
               board := board (ui_game u);
               selectedPiece := selectedPiece (ui_game u);
               currentPlayer := currentPlayer (ui_game u);
               rotationChances := rotationChances (ui_game u);
               playerScores := playerScores (ui_game u);
               gameOver := gameOver (ui_game u);
               highlightedPositions := [];
               piecesAreAnimating := piecesAreAnimating (ui_game u);
               animatingPieces := animatingPieces (ui_game u) |})
    with (selected
            (setPieces (clearHighlights (ui_game u))
               (updatePiece (piece_id sel) (withRotation r)
                  (pieces (ui_game u)))
               (rotationChances (ui_game u)))).
  rewrite Hsel.
  destruct (aboveUi ev); [| exists v; split; [reflexivity | exact Hsame]].
  destruct (square ev) as [sq |];
    [| exists v; split; [reflexivity | exact Hsame]].
  destruct ((fst sq =? piece_x (withRotation r sel))
            && (snd sq =? piece_y (withRotation r sel)));
    [| exists v; split; [reflexivity | exact Hsame]].
  exists (rotateTap v (withRotation r sel)). split; [reflexivity |].
  unfold turningIn, rotateTap.
  cbn [ui_game rotateMode botThinking highlightingInProgress turning].
  change (piece_id (withRotation r sel)) with (piece_id sel).
  split; [exists r; exact Hg |].
  split; [exact Hr |]. split; [exact Hb |]. split; [exact Hh |].
  split; [rewrite turningOf_cons_same; exact Hi |].
  intros p Hin Hne. rewrite turningOf_cons_other by auto.
  apply Hother; assumption.
Qed.

Lemma frame_turningIn (u : Ui) (sel : Piece) (v : Ui) (s : Z) (due : bool) :
  rotatable u sel -> turningIn u sel v -> turningIn u sel (frame s due v).
Proof.
  intros [[Hw [_ [Ha Hrest]]] [_ [_ [_ [_ [Hs _]]]]]]
         [[r Hg] [Hr [Hb [Hh [Hi Hother]]]]].
  assert (Hin : In sel (pieces (ui_game u))).
  { unfold selected in Hs.
    destruct (selectedPiece (ui_game u)); [| discriminate].
    apply findPiece_Some in Hs. tauto. }
  set (psu := pieces (ui_game u)) in *.
  set (ps' := updatePiece (piece_id sel) (withRotation r) psu) in *.
  assert (Hps : pieces (ui_game v) = ps') by (rewrite Hg; reflexivity).
  assert (Hav : piecesAreAnimating (ui_game v) = false)
    by (rewrite Hg; exact Ha).
  assert (Hmv : forall p, In p (pieces (ui_game v)) -> isMoving p = false).
  { intros p Hp. rewrite Hps in Hp. unfold ps', updatePiece in Hp.
    apply in_map_iff in Hp. destruct Hp as [q [<- Hq]].
    destruct (piece_id q =? piece_id sel); cbn [withRotation isMoving];
      apply Hrest; exact Hq. }
  destruct (frame_quiet s due v Hh Hav Hmv) as [Fg [Ft [Fr [Fb Fh]]]].
  set (t := turningOf (turning v) (piece_id sel)) in *.
  set (r' := rotation (fst (turnPiece s t (withRotation r sel)))).
  assert (E1 : fst (turnPieces s (turning v) ps')
               = updatePiece (piece_id sel) (withRotation r') psu).
  { unfold turnPieces, ps', updatePiece. cbn [fst]. rewrite map_map.
    apply map_ext_in. intros p Hp.
    destruct (piece_id p =? piece_id sel) eqn:E.
    - apply Z.eqb_eq in E.
      destruct (wellPlaced_unique psu p sel Hw Hp Hin) as [U _].
      rewrite (U E).
      change (piece_id (withRotation r sel)) with (piece_id sel).
      fold t. rewrite turnPiece_fst. reflexivity.
    - apply Z.eqb_neq in E.
      rewrite turnPiece_still by (apply Hother; assumption). reflexivity. }
  assert (Hnd : NoDup (map piece_id ps')).
  { unfold ps'. rewrite map_updatePiece by reflexivity. apply Hw. }
  split.
  { exists r'. rewrite Fg, Hps, E1, Hg. reflexivity. }
  split; [rewrite Fr; exact Hr |]. split; [rewrite Fb; exact Hb |].
  split; [exact Fh |].
  rewrite Ft, Hps. unfold turnPieces. cbn [snd].
  split.
  - assert (Hq : In (withRotation r sel) ps').
    { unfold ps', updatePiece. apply in_map_iff. exists sel.
      rewrite Z.eqb_refl. auto. }
    pose proof (turningOf_frame
                  (fun q => snd (turnPiece s
                                   (turningOf (turning v) (piece_id q)) q))
                  (turning v) ps' (withRotation r sel) Hnd Hq) as L.
    change (piece_id (withRotation r sel)) with (piece_id sel) in L.
    rewrite L. rewrite turnPiece_initial. exact Hi.
  - intros p Hp Hne.
    assert (Hq : In p ps').
    { unfold ps', updatePiece. apply in_map_iff. exists p.
      replace (piece_id p =? piece_id sel) with false
        by (symmetry; apply Z.eqb_neq; exact Hne).
      auto. }
    rewrite (turningOf_frame
               (fun q => snd (turnPiece s
                                (turningOf (turning v) (piece_id q)) q))
               (turning v) ps' p Hnd Hq).
    rewrite turnPiece_still by (apply Hother; assumption).
    apply Hother; assumption.
Qed.

Lemma runSteps_app (u : Ui) (l l' : list Step) :
  runSteps u (l ++ l') = (v <- runSteps u l ;; runSteps v l').
Proof.
  revert u. induction l as [| st l IH]; intros u; [reflexivity |].
  cbn [app runSteps]. destruct st as [ev | s due]; [| apply IH].
  destruct (onPointerDown u ev); cbn [bind]; auto.
Qed.

Lemma steps_turningIn (u : Ui) (sel : Piece) (steps : list Step) :
  rotatable u sel -> Forall quietStep steps ->
  forall v, turningIn u sel v ->
  exists v', runSteps v steps = Done v' /\ turningIn u sel v'.
Proof.
  intros Hu. induction 1 as [| st steps Hst _ IH]; intros v Hv.
  - exists v. split; [reflexivity | exact Hv].
  - destruct st as [ev | s due]; cbn [runSteps].
    + destruct (tap_turningIn u sel v ev Hu Hv Hst) as [v1 [E1 H1]].
      rewrite E1. cbn [bind]. apply IH. exact H1.
    + apply IH. apply frame_turningIn; assumption.
Qed.

(** X18. Cancel gives back what rotate mode changed.  When the human
    player may rotate the selected piece and no piece is turning, the
    Rotate button followed by pointer events on no button (quarter turns of
    the piece among them) and by frames, in any order, and then by Cancel
    leaves the pieces, their rotations included, the grid, the rotation
    chances and the selection as they were when Rotate was used, outside
    rotate mode; the rotation state of the piece is at rest on the rotation
    the piece had, no piece is turning, and no later frame changes a
    piece. *)
Theorem cancel_restores (u : Ui) (sel : Piece) (evR evC : Pointer)
    (steps : list Step) :
  rotatable u sel ->
  allStill u ->
  inRotateButton evR = true ->
  Forall quietStep steps ->
  inRotateButton evC = false -> inDoneButton evC = false ->
  inCancelButton evC = true ->
  exists u',
    runSteps u (Tap evR :: steps ++ [Tap evC]) = Done u'
    /\ pieces (ui_game u') = pieces (ui_game u)
    /\ board (ui_game u') = board (ui_game u)
    /\ rotationChances (ui_game u') = rotationChances (ui_game u)
    /\ selectedPiece (ui_game u') = selectedPiece (ui_game u)
    /\ rotateMode u' = false
    /\ turningOf (turning u') (piece_id sel)
       = {| initialRotation := rotation sel; targetRotation := rotation sel;
            isRotating := false |}
    /\ allStill u'
    /\ forall s due,
         pieces (ui_game (frame s due u')) = pieces (ui_game u).
Proof.
  intros Hu Hstill HR Hsteps C1 C2 C3.
  destruct (rotate_button u sel evR Hu HR) as [E0 _].
  pose proof (enter_turningIn u sel Hu Hstill) as R0.
  destruct (steps_turningIn u sel steps Hu Hsteps _ R0)
    as [v [E1 [[r Hg] [Hr [Hbt [Hh [Hi Hother]]]]]]].
  pose proof (selected_turning (ui_game u) sel r
                (rotationChances (ui_game u))) as Hsel.
  destruct Hu as [[Hw [Hb [Ha Hrest]]] [Ho [Hp [_ [_ [Hs _]]]]]].
  specialize (Hsel Hs).
  assert (Hin : In sel (pieces (ui_game u))).
  { unfold selected in Hs.
    destruct (selectedPiece (ui_game u)); [| discriminate].
    apply findPiece_Some in Hs. tauto. }
  assert (Hps : updatePiece (piece_id sel) (withRotation (rotation sel))
                  (updatePiece (piece_id sel) (withRotation r)
                     (pieces (ui_game u)))
                = pieces (ui_game u)).
  { unfold updatePiece. rewrite map_map.
    rewrite <- (map_id (pieces (ui_game u))) at 2.
    apply map_ext_in. intros p Hp'.
    destruct (piece_id p =? piece_id sel) eqn:E.
    - change (piece_id (withRotation r p)) with (piece_id p). rewrite E.
      apply Z.eqb_eq in E.
      destruct (wellPlaced_unique _ p sel Hw Hp' Hin) as [U _].
      rewrite (U E).
      change (withRotation (rotation sel) (withRotation r sel))
        with (withRotation (rotation sel) sel).
      apply withRotation_same.
    - rewrite E. reflexivity. }
  destruct (rebuildBoard_wf (pieces (ui_game u)) Hw) as [Hwf [Hon _]].
  cbv zeta in Hwf, Hon. rewrite <- Hb in Hwf, Hon.
  destruct (layers_characterised _ sel Hwf (Hon sel Hin)) as [layers [HL _]].
  cbn [runSteps]. rewrite E0. cbn [bind].
  rewrite runSteps_app, E1. cbn [bind runSteps].
  unfold onPointerDown. cbv zeta. rewrite !Hg.
  cbn [setPieces clearHighlights gameOver currentPlayer piecesAreAnimating].
  rewrite Ho, Hbt, Ha, C1, Hr, C2, C3.
  replace (currentPlayer (ui_game u) =? BOT_PLAYER) with false
    by (symmetry; apply Z.eqb_neq; exact Hp).
  unfold cancelRotate. cbv zeta. rewrite !Hg.
  rewrite Hsel.
  change (piece_id (withRotation r sel)) with (piece_id sel).
  rewrite Hi. cbn [setPieces clearHighlights pieces board].
  change (withRotation (rotation sel) (withRotation r sel))
    with (withRotation (rotation sel) sel).
  rewrite Hps, withRotation_same, HL. cbn [bind].
  eexists. split; [reflexivity |].
  cbn [ui_game pieces board rotationChances selectedPiece rotateMode turning].
  split; [reflexivity |]. split; [reflexivity |]. split; [reflexivity |].
  split; [reflexivity |]. split; [reflexivity |].
  split; [apply turningOf_cons_same |].
  assert (Hall : forall p, In p (pieces (ui_game u)) ->
            isRotating
              (turningOf
                 ((piece_id sel,
                   {| initialRotation := rotation sel;
                      targetRotation := rotation sel;
                      isRotating := false |}) :: turning v)
                 (piece_id p)) = false).
  { intros p Hp'. destruct (Z.eq_dec (piece_id p) (piece_id sel)) as [E | E].
    - rewrite E, turningOf_cons_same. reflexivity.
    - rewrite turningOf_cons_other by auto. apply Hother; assumption. }
  split; [exact Hall |].
  intros s due. rewrite frame_pieces by exact Ha.
  cbn [ui_game pieces turning].
  rewrite turnPieces_still by exact Hall.
  rewrite <- (map_id (pieces (ui_game u))) at 2. apply map_ext_in.
  intros p Hp'. apply arrive_resting. apply Hrest. exact Hp'.
Qed.

(** ** The promotion check of the simulation *)

Lemma map_id_filter (id : Z) (ps : list Piece) :
  map piece_id (filter (fun pp => negb (piece_id pp =? id)) ps)
  = filter (fun i => negb (i =? id)) (map piece_id ps).
Proof.
  induction ps as [| a l IH]; [reflexivity |]. cbn [filter map].
  destruct (negb (piece_id a =? id)); cbn [map]; rewrite IH; reflexivity.
Qed.

(** [applyAction] checks the moved piece only: when the moved piece is
    promotable and lands on its owner's far row, exactly this piece leaves
    the collection and its owner's score grows by 1; otherwise no piece
    leaves and no score changes, wherever a swap puts the partner. *)
Lemma applyAction_checks_moved_piece (st : State) (a : Action)
    (sel : Piece) :
  st_idMap st = map piece_id (st_pieces st) ->
  findPiece (move_id a)
    (applyRotations (st_idMap st) (rotations a) 2 (st_pieces st)) = Some sel ->
  gridRead (st_board st) (fst (move_dest a)) (snd (move_dest a))
  <> Some (move_id a) ->
  let moved := moveTo (fst (move_dest a)) (snd (move_dest a)) sel in
  map piece_id (st_pieces (applyAction st a))
  = (if promotes moved
     then filter (fun i => negb (i =? move_id a)) (map piece_id (st_pieces st))
     else map piece_id (st_pieces st))
  /\ st_playerScores (applyAction st a)
     = (if promotes moved
        then addScore (st_playerScores st) (player sel)
        else st_playerScores st).
Proof.
  intros Hids F Hself. cbv zeta.
  destruct (findPiece_Some _ _ _ F) as [_ Hsid].
  set (ps0 := applyRotations (st_idMap st) (rotations a) 2 (st_pieces st))
    in *.
  assert (Si : map piece_id ps0 = map piece_id (st_pieces st))
    by (apply map_applyRotations; reflexivity).
  assert (Elook : (if existsb (Z.eqb (move_id a)) (st_idMap st)
                   then findPiece (move_id a) ps0 else None) = Some sel)
    by (rewrite Hids, <- Si, idMap_lookup; exact F).
  unfold applyAction, idMap_get. cbn [st_idMap st_pieces].
  fold ps0. rewrite Elook. rewrite Hsid.
  set (dx := fst (move_dest a)) in *. set (dy := snd (move_dest a)) in *.
  assert (F0 : findPiece (move_id a)
                 (updatePiece (move_id a) (moveTo dx dy) ps0)
               = Some (moveTo dx dy sel)).
  { rewrite findPiece_updatePiece by reflexivity. rewrite F. reflexivity. }
  destruct (gridRead (st_board st) dx dy) as [tid |] eqn:T;
    cbv beta iota zeta.
  - assert (Hne : tid <> move_id a) by congruence.
    assert (F1 : findPiece (move_id a)
                   (updatePiece tid (moveTo (piece_x sel) (piece_y sel))
                      (updatePiece (move_id a) (moveTo dx dy) ps0))
                 = Some (moveTo dx dy sel)).
    { rewrite findPiece_updated by reflexivity. rewrite F0.
      cbn [option_map].
      change (piece_id (moveTo dx dy sel)) with (piece_id sel).
      rewrite Hsid.
      replace (move_id a =? tid) with false
        by (symmetry; apply Z.eqb_neq; auto).
      reflexivity. }
    rewrite F1.
    destruct (promotes (moveTo dx dy sel)); cbn [st_pieces st_playerScores];
      rewrite resetFlags_ids, ?map_id_filter, !map_updatePiece, Si
        by reflexivity;
      split; reflexivity.
  - rewrite F0.
    destruct (promotes (moveTo dx dy sel)); cbn [st_pieces st_playerScores];
      rewrite resetFlags_ids, ?map_id_filter, !map_updatePiece, Si
        by reflexivity;
      split; reflexivity.
Qed.

End Gyroad.

(** * Closed instances

    The theorems above at concrete positions, with the roundings of the
    floating-point fallback instantiated by [noRound] (no rotation below
    reaches the fallback). *)

Ltac check_board := apply wf_boardb_sound; vm_compute; reflexivity.

Local Abbreviation openingMove := (openingCommitted noRound noRound).
Local Abbreviation promoMove := (promoCommitted noRound noRound).
Local Abbreviation partnerMove := (partnerCommitted noRound noRound).

Lemma path_consistency_witness :
  wf_board sampleBoard /\ onBoard sampleBoard sampleSelected
  /\ exists r,
       getAllAccessibleSquaresForBoard noRound noRound
         sampleSelected sampleSelected sampleBoard [] [] = Done r
       /\ forall d, In d (accessibleSquares r) ->
            exists path,
              findMovementPathForBoard noRound noRound
                sampleSelected d sampleBoard = Done (Some path).
Proof.
  assert (Hwf : wf_board sampleBoard)
    by check_board.
  assert (Hon : onBoard sampleBoard sampleSelected)
    by (vm_compute; reflexivity).
  split; [exact Hwf |]. split; [exact Hon |].
  destruct (path_consistency noRound noRound sampleBoard sampleSelected Hwf Hon)
    as [r [Hr [Hp _]]].
  exists r. split; [exact Hr |]. intros d Hd.
  destruct (Hp d Hd) as [path [H _]]. exists path. exact H.
Defined.

Example path_to_2_5 :
  findMovementPathForBoard noRound noRound sampleSelected (2, 5) sampleBoard
  = Done (Some [(0, 7); (1, 7); (2, 6); (3, 7); (3, 6); (2, 5)]).
Proof. vm_compute. reflexivity. Qed.

Example own_candidate_not_reachable :
  In (0, 5) (getAvailableSquares noRound noRound sampleSelected)
  /\ findMovementPathForBoard noRound noRound sampleSelected (0, 5) sampleBoard
     = Done None.
Proof. split; [vm_compute; auto | vm_compute; reflexivity]. Qed.

(** Scenario B. *)
Lemma chain_rule_witness :
  wf_board chainBoard /\ onBoard chainBoard chainA
  /\ ~ In (2, 3) (getAvailableSquares noRound noRound chainA)
  /\ exists r,
       getAllAccessibleSquaresForBoard noRound noRound
         chainA chainA chainBoard [] [] = Done r
       /\ In (2, 3) (accessibleSquares r).
Proof.
  assert (Hwf : wf_board chainBoard)
    by check_board.
  assert (Hon : onBoard chainBoard chainA) by (vm_compute; reflexivity).
  split; [exact Hwf |]. split; [exact Hon |]. split.
  - vm_compute. intros [H | [H | [H | [H | []]]]]; discriminate.
  - destruct (chain_rule noRound noRound chainBoard chainA Hwf Hon)
      as [r [Hr [_ [_ Hchain]]]].
    exists r. split; [exact Hr |].
    apply (Hchain chainB (2, 3)).
    + exists (3, 3). vm_compute. auto.
    + discriminate.
    + vm_compute. auto.
    + vm_compute. reflexivity.
Defined.

Lemma resolver_order_independent_witness :
  wf_board sampleBoard /\ onBoard sampleBoard sampleSelected
  /\ fair sourceOrder /\ fair reverseOrder
  /\ exists r1 r2,
       resolve noRound noRound sourceOrder resolverFuel
         sampleSelected sampleSelected sampleBoard [] [] = Done r1
       /\ resolve noRound noRound reverseOrder resolverFuel
            sampleSelected sampleSelected sampleBoard [] [] = Done r2
       /\ Permutation (accessibleSquares r1) (accessibleSquares r2)
       /\ List.length (visitedPieces r1) = List.length (visitedPieces r2).
Proof.
  assert (Hwf : wf_board sampleBoard)
    by check_board.
  assert (Hon : onBoard sampleBoard sampleSelected)
    by (vm_compute; reflexivity).
  split; [exact Hwf |]. split; [exact Hon |].
  split; [exact fair_sourceOrder |]. split; [exact fair_reverseOrder |].
  destruct (resolver_order_independent noRound noRound sampleBoard
              sampleSelected sourceOrder reverseOrder Hwf Hon
              fair_sourceOrder fair_reverseOrder)
    as [r1 [r2 [H1 [H2 [Pa [_ Hl]]]]]].
  exists r1, r2. auto.
Defined.

Example orders_differ :
  option_map accessibleSquares
    (match resolve noRound noRound sourceOrder resolverFuel
             sampleSelected sampleSelected sampleBoard [] [] with
     | Done r => Some r | _ => None end)
  <> option_map accessibleSquares
       (match resolve noRound noRound reverseOrder resolverFuel
                sampleSelected sampleSelected sampleBoard [] [] with
        | Done r => Some r | _ => None end).
Proof. vm_compute. discriminate. Qed.

Lemma resolver_terminates_witness :
  wf_board sampleBoard /\ onBoard sampleBoard sampleSelected
  /\ exists r,
       getAllAccessibleSquaresForBoard noRound noRound
         sampleSelected sampleSelected sampleBoard [] [] = Done r
       /\ (List.length (visitedPieces r) <= pieceCount sampleBoard)%nat.
Proof.
  assert (Hwf : wf_board sampleBoard)
    by check_board.
  assert (Hon : onBoard sampleBoard sampleSelected)
    by (vm_compute; reflexivity).
  split; [exact Hwf |]. split; [exact Hon |].
  destruct (resolver_terminates noRound noRound sampleBoard sampleSelected
              Hwf Hon) as [r [Hr [_ [_ [_ [Hl _]]]]]].
  exists r. auto.
Defined.

Example opening_visits_14_of_28 :
  option_map (fun r => List.length (visitedPieces r))
    (match getAllAccessibleSquaresForBoard noRound noRound
             sampleSelected sampleSelected sampleBoard [] [] with
     | Done r => Some r | _ => None end) = Some 14%nat
  /\ pieceCount sampleBoard = 28%nat.
Proof. split; vm_compute; reflexivity. Qed.

Lemma squares_on_board_witness :
  wf_board sampleBoard /\ onBoard sampleBoard sampleSelected
  /\ exists r,
       getAllAccessibleSquaresForBoard noRound noRound
         sampleSelected sampleSelected sampleBoard [] [] = Done r
       /\ forall k, In k (accessibleSquares r) ->
            0 <= fst k < BOARD_WIDTH /\ 0 <= snd k < BOARD_HEIGHT.
Proof.
  assert (Hwf : wf_board sampleBoard)
    by check_board.
  assert (Hon : onBoard sampleBoard sampleSelected)
    by (vm_compute; reflexivity).
  split; [exact Hwf |]. split; [exact Hon |].
  destruct (squares_on_board noRound noRound sampleBoard sampleSelected
              Hwf Hon) as [_ [H _]].
  exact H.
Defined.

Lemma rotateDir_roundtrip_witness :
  In 90 [0; 90; 180; 270]
  /\ rotateDir noRound noRound 2 (-1) 90 = (1, 2)
  /\ rotateDir noRound noRound 1 2 270 = (2, -1).
Proof.
  assert (Hin : In 90 [0; 90; 180; 270]) by (simpl; auto).
  split; [exact Hin |].
  destruct (rotateDir_roundtrip noRound noRound 2 (-1) 90 Hin)
    as [Hback [_ [H90 _]]].
  split; [exact H90 |]. rewrite H90 in Hback. exact Hback.
Defined.

Lemma offsets_point_reflection_witness :
  strip_e "PRe" = strip_e "PR"
  /\ candidateOffsets noRound noRound "PRe" 2 (90 * 3)
     = map (fun d => (- fst d, - snd d))
         (candidateOffsets noRound noRound "PR" 1 (90 * 3)).
Proof.
  split; [reflexivity |].
  apply (offsets_point_reflection noRound noRound "PR" "PRe" 3).
  reflexivity.
Defined.

(** The swap of [promoGame]: the selected "PL" of player 1 goes from (1, 7)
    to the far row and is promotable there, the enemy "PLe" goes to (1, 7),
    which is its own far row.  [update] removes both pieces and gives a
    point to each player: it is not the case that exactly the moved piece
    left and exactly the mover's score grew. *)
Lemma promotion_counterexample :
  onPointerDown_selected noRound noRound promoGame (2, 0)
  = Done promoMove
  /\ option_map promotes (findPiece 1 (map arrive (pieces promoMove)))
     = Some true
  /\ map piece_id (pieces promoMove) = [1; 2; 3; 4; 5; 6]
  /\ map piece_id (pieces (update promoMove)) = [2; 3; 4; 5]
  /\ playerScores promoMove = (0, 0)
  /\ playerScores (update promoMove) = (1, 1)
  /\ ~ exactlyOnePromoted promoMove (update promoMove) 1 1.
Proof.
  repeat split; try (vm_compute; reflexivity).
  intros [Hlen _]. vm_compute in Hlen. discriminate.
Qed.

(** The swap of [partnerGame]: the moved "DP" is not promotable, its
    partner, the enemy "PRe", lands on its own far row.  [update] removes
    the partner and gives the point to player 2, who did not move. *)
Example promotion_of_partner :
  onPointerDown_selected noRound noRound partnerGame (3, 6)
  = Done partnerMove
  /\ map piece_id (pieces (update partnerMove)) = [1]
  /\ playerScores (update partnerMove) = (0, 1)
  /\ observe 1 (update partnerMove) = Some ((3, 6), false).
Proof. repeat split; vm_compute; reflexivity. Qed.

(** The bot's simulation of the same two swaps checks the moved piece
    only. *)
Example simulation_checks_moved_piece :
  (let st := applyAction (snapshotState promoGame)
               {| rotations := []; move_id := 1; move_dest := (2, 0) |} in
   map piece_id (st_pieces st) = [2; 3; 4; 5; 6]
   /\ st_playerScores st = (1, 0))
  /\ (let st := applyAction (snapshotState partnerGame)
                  {| rotations := []; move_id := 1; move_dest := (3, 6) |} in
      map piece_id (st_pieces st) = [1; 2]
      /\ st_playerScores st = (0, 0)).
Proof. repeat split; vm_compute; reflexivity. Qed.

(** C3.  The promotion check of the live game and the one of the bot's
    simulation disagree.  After the swap of [promoGame] the moved "PL" and
    its partner, the enemy "PLe", both stand on their owner's far row:
    [update] removes both pieces and gives a point to each player, while
    [applyAction], which checks the moved piece only, removes the moved
    piece and gives the point to the mover.  After the swap of
    [partnerGame] only the partner stands on its far row: [update] removes
    it and gives the point to player 2, who did not move, while
    [applyAction] removes no piece and changes no score. *)
Theorem promotion_check_diverges :
  (onPointerDown_selected noRound noRound promoGame (2, 0) = Done promoMove
   /\ map piece_id (pieces promoMove) = [1; 2; 3; 4; 5; 6]
   /\ map piece_id (pieces (update promoMove)) = [2; 3; 4; 5]
   /\ playerScores (update promoMove) = (1, 1)
   /\ (let st := applyAction (snapshotState promoGame)
                   {| rotations := []; move_id := 1; move_dest := (2, 0) |} in
       map piece_id (st_pieces st) = [2; 3; 4; 5; 6]
       /\ st_playerScores st = (1, 0)))
  /\ (onPointerDown_selected noRound noRound partnerGame (3, 6)
      = Done partnerMove
      /\ map piece_id (pieces partnerMove) = [1; 2]
      /\ map piece_id (pieces (update partnerMove)) = [1]
      /\ playerScores (update partnerMove) = (0, 1)
      /\ (let st := applyAction (snapshotState partnerGame)
                      {| rotations := []; move_id := 1;
                         move_dest := (3, 6) |} in
          map piece_id (st_pieces st) = [1; 2]
          /\ st_playerScores st = (0, 0))).
Proof. repeat split; vm_compute; reflexivity. Qed.

Lemma promotion_of_update_witness :
  piecesAreAnimating partnerMove = true
  /\ filter promotes (map arrive (pieces partnerMove))
     = [newPiece 2 3 7 "PRe" 2]
  /\ (List.length (pieces (update partnerMove)) + 1
      = List.length (pieces partnerMove))%nat
  /\ playerScores (update partnerMove)
     = addScore (playerScores partnerMove) 2.
Proof.
  assert (Ha : piecesAreAnimating partnerMove = true)
    by (vm_compute; reflexivity).
  assert (Hm : filter promotes (map arrive (pieces partnerMove))
               = [newPiece 2 3 7 "PRe" 2]) by (vm_compute; reflexivity).
  split; [exact Ha |]. split; [exact Hm |].
  destruct (promotion_of_update partnerMove Ha) as [_ [_ [_ Hone]]].
  exact (Hone _ Hm).
Defined.

(** The first move of a game: the corner piece goes to (2, 5).  It is not
    marked when the move starts, nor when the move is over and the turn has
    passed to player 2. *)
Lemma selection_counterexample :
  onPointerDown_selected noRound noRound openingGame (2, 5)
  = Done openingMove
  /\ piecesAreAnimating openingMove = true
  /\ observe 1 openingGame = Some ((0, 7), false)
  /\ observe 1 openingMove = Some ((0, 7), false)
  /\ observe 1 (update openingMove) = Some ((2, 5), false)
  /\ currentPlayer (update openingMove) = 2
  /\ gameOver (update openingMove) = false.
Proof. repeat split; vm_compute; reflexivity. Qed.

(** ** Closed instances of the further properties *)

Ltac check_nodup dec :=
  apply (NoDup_count_occ' dec); intros k Hk; vm_compute in Hk;
  repeat (destruct Hk as [<- | Hk]; [vm_compute; reflexivity |]);
  destruct Hk.

Ltac check_placed :=
  split;
  [ check_nodup Z.eq_dec
  | split;
    [ check_nodup Pos_eq_dec
    | intros p Hp; vm_compute in Hp;
      repeat (destruct Hp as [<- | Hp]; [reflexivity |]); destruct Hp ] ].

Lemma initPieces_placed : wellPlaced initPieces.
Proof. check_placed. Qed.

Lemma promoPieces_placed : wellPlaced promoPieces.
Proof. check_placed. Qed.

Lemma startGame_coherent : coherentGame startGame.
Proof. apply gameOf_coherent; [exact initPieces_placed | reflexivity]. Qed.

Lemma cornerGame_coherent : coherentGame cornerGame.
Proof. apply gameOf_coherent; [exact initPieces_placed | reflexivity]. Qed.

Lemma openingGame_coherent : coherentGame openingGame.
Proof. apply gameOf_coherent; [exact initPieces_placed | reflexivity]. Qed.

Lemma movable_iff_neighbour_witness :
  wf_board sampleBoard /\ onBoard sampleBoard sampleSelected
  /\ exists r,
       getAllAccessibleSquaresForBoard noRound noRound
         sampleSelected sampleSelected sampleBoard [] [] = Done r
       /\ accessibleSquares r <> [].
Proof.
  assert (Hwf : wf_board sampleBoard) by check_board.
  assert (Hon : onBoard sampleBoard sampleSelected)
    by (vm_compute; reflexivity).
  split; [exact Hwf |]. split; [exact Hon |].
  destruct (movable_iff_neighbour noRound noRound sampleBoard sampleSelected
              Hwf Hon) as [r [Hr Hiff]].
  exists r. split; [exact Hr |]. intros He.
  assert (Hc : cellAt sampleBoard (1, 7) = None).
  { apply (proj1 Hiff He). vm_compute. auto. }
  vm_compute in Hc. discriminate.
Defined.

Lemma path_is_simple_witness :
  findMovementPathForBoard noRound noRound sampleSelected (2, 5) sampleBoard
  = Done (Some [(0, 7); (1, 7); (2, 6); (3, 7); (3, 6); (2, 5)])
  /\ NoDup [(0, 7); (1, 7); (2, 6); (3, 7); (3, 6); (2, 5)].
Proof.
  assert (H : findMovementPathForBoard noRound noRound sampleSelected (2, 5)
                sampleBoard
              = Done (Some [(0, 7); (1, 7); (2, 6); (3, 7); (3, 6); (2, 5)]))
    by (vm_compute; reflexivity).
  split; [exact H |].
  exact (proj1 (path_is_simple noRound noRound _ _ _ _ H)).
Defined.

Lemma highlight_layers_accessible_witness :
  wf_board sampleBoard /\ onBoard sampleBoard sampleSelected
  /\ exists layers r,
       getAccessibleHighlightLayers noRound noRound sampleSelected sampleBoard
       = Done layers
       /\ getAllAccessibleSquaresForBoard noRound noRound
            sampleSelected sampleSelected sampleBoard [] [] = Done r
       /\ forall k, In k (accessibleSquares r) <->
            exists l, In l layers /\ (In k (fst l) \/ In k (snd l)).
Proof.
  assert (Hwf : wf_board sampleBoard) by check_board.
  assert (Hon : onBoard sampleBoard sampleSelected)
    by (vm_compute; reflexivity).
  split; [exact Hwf |]. split; [exact Hon |].
  destruct (highlight_layers_accessible noRound noRound sampleBoard
              sampleSelected Hwf Hon) as [layers [r [H1 [H2 [H3 _]]]]].
  exists layers, r. auto.
Defined.

Lemma highlights_are_accessible_witness :
  wf_board sampleBoard /\ onBoard sampleBoard sampleSelected
  /\ exists layers r,
       getAccessibleHighlightLayers noRound noRound sampleSelected sampleBoard
       = Done layers
       /\ getAllAccessibleSquaresForBoard noRound noRound
            sampleSelected sampleSelected sampleBoard [] [] = Done r
       /\ forall n k,
            In k (highlighted (iterate n (revealLayer layers) noHighlights))
            -> In k (accessibleSquares r).
Proof.
  assert (Hwf : wf_board sampleBoard) by check_board.
  assert (Hon : onBoard sampleBoard sampleSelected)
    by (vm_compute; reflexivity).
  split; [exact Hwf |]. split; [exact Hon |].
  destruct (highlights_are_accessible noRound noRound sampleBoard
              sampleSelected Hwf Hon) as [layers [r [H1 [H2 [H3 _]]]]].
  exists layers, r. auto.
Defined.

Example highlight_layers_of_the_corner :
  getAccessibleHighlightLayers noRound noRound sampleSelected sampleBoard
  = Done
      [ ([], [(0, 6); (1, 7)]);
        ([], [(1, 6); (2, 6)]);
        ([], [(0, 7); (3, 7)]);
        ([], [(3, 6)]);
        ([(4, 5); (2, 5)], [(4, 7); (2, 7)]);
        ([], [(4, 6); (6, 7)]);
        ([(6, 5)], [(5, 6); (6, 6); (5, 7)]) ].
Proof. vm_compute. reflexivity. Qed.

Lemma rebuildBoard_consistent_witness :
  wellPlaced initPieces
  /\ wf_board (viewBoard initPieces (rebuildBoard initPieces))
  /\ forall p, In p initPieces ->
       onBoard (viewBoard initPieces (rebuildBoard initPieces)) p.
Proof.
  split; [exact initPieces_placed |].
  destruct (rebuildBoard_consistent initPieces initPieces_placed)
    as [H1 [H2 _]].
  split; [exact H1 | exact H2].
Defined.

Lemma applyAction_keeps_grid_witness :
  wellPlaced (st_pieces (snapshotState openingGame))
  /\ isValidPosition (fst (move_dest sampleAction))
       (snd (move_dest sampleAction)) = true
  /\ st_board (applyAction (snapshotState openingGame) sampleAction)
     = rebuildBoard
         (st_pieces (applyAction (snapshotState openingGame) sampleAction)).
Proof.
  split; [exact initPieces_placed |]. split; [reflexivity |].
  exact (proj1 (proj2 (applyAction_keeps_grid noRound noRound
                         (snapshotState openingGame) sampleAction
                         initPieces_placed eq_refl eq_refl eq_refl))).
Defined.

Lemma openingMove_arrival :
  piecesAreAnimating openingMove = true
  /\ wellPlaced (map arrive (pieces openingMove)).
Proof. split; [vm_compute; reflexivity | check_placed]. Qed.

Lemma update_keeps_grid_witness :
  piecesAreAnimating openingMove = true
  /\ wellPlaced (map arrive (pieces openingMove))
  /\ board (update openingMove) = rebuildBoard (pieces (update openingMove)).
Proof.
  destruct openingMove_arrival as [Ha Hw].
  split; [exact Ha |]. split; [exact Hw |].
  exact (proj1 (proj2 (update_keeps_grid noRound noRound openingMove Ha Hw))).
Defined.

Lemma square_on_grid (sq : Pos) :
  isValidPosition (fst sq) (snd sq) = true ->
  forall q, square (onSquare sq) = Some q ->
    isValidPosition (fst q) (snd q) = true.
Proof. intros H q E. inversion E; subst. exact H. Qed.

Lemma pointer_keeps_coherent_witness :
  coherentGame (ui_game (uiOf startGame))
  /\ exists u',
       onPointerDown noRound noRound (uiOf startGame) (onSquare (0, 7))
       = Done u'
       /\ selectedPiece (ui_game u') = Some 1
       /\ coherentGame (ui_game u').
Proof.
  split; [exact startGame_coherent |].
  destruct (pointer_keeps_coherent noRound noRound (uiOf startGame)
              (onSquare (0, 7)) startGame_coherent
              (square_on_grid (0, 7) eq_refl)) as [u' [E H]].
  exists u'. split; [exact E |].
  split; [vm_compute in E; inversion E; reflexivity |].
  destruct H as [[_ H] | [Ha _]]; [exact H |].
  vm_compute in E. inversion E; subst. discriminate Ha.
Defined.

Lemma update_settles_turn_witness :
  piecesAreAnimating openingMove = true
  /\ wellPlaced (map arrive (pieces openingMove))
  /\ currentPlayer (update openingMove) = 2
  /\ rotationChances (update openingMove) = 2.
Proof.
  destruct openingMove_arrival as [Ha Hw].
  split; [exact Ha |]. split; [exact Hw |].
  destruct (update_settles_turn noRound noRound openingMove Ha Hw)
    as [_ [_ [_ [_ [Hgo _]]]]].
  apply Hgo. vm_compute. reflexivity.
Defined.

Lemma candidate_squares_shape_witness :
  rotation (withRotation 90 sampleSelected) = 90 * 1
  /\ NoDup (getAvailableSquares noRound noRound
              (withRotation 90 sampleSelected))
  /\ ~ In (0, 7) (getAvailableSquares noRound noRound
                    (withRotation 90 sampleSelected)).
Proof.
  split; [reflexivity |].
  destruct (candidate_squares_shape noRound noRound
              (withRotation 90 sampleSelected) 1 eq_refl) as [H1 [H2 _]].
  split; [exact H1 | exact H2].
Defined.

Lemma openingState_coherent : coherentState (snapshotState openingGame).
Proof. split; [exact initPieces_placed | reflexivity]. Qed.

Lemma rotations_stay_right_angles_witness :
  coherentState (snapshotState openingGame)
  /\ (forall p, In p (st_pieces (snapshotState openingGame)) -> rightAngle p)
  /\ forall p,
       In p (st_pieces (applyAction (snapshotState openingGame) sampleAction))
       -> rightAngle p.
Proof.
  assert (H : forall p, In p (st_pieces (snapshotState openingGame)) ->
                        rightAngle p).
  { intros p Hp. vm_compute in Hp.
    repeat (destruct Hp as [<- | Hp]; [left; reflexivity |]). destruct Hp. }
  split; [exact openingState_coherent |]. split; [exact H |].
  exact (proj1 (rotations_stay_right_angles noRound noRound
                  (snapshotState openingGame) sampleAction
                  openingState_coherent eq_refl H)).
Defined.

Lemma evaluation_zero_sum_witness :
  shapedGrid (st_board (snapshotState openingGame))
  /\ (forall p, In p (st_pieces (snapshotState openingGame)) ->
       player p = 1 \/ player p = 2)
  /\ (evaluateState noRound noRound (snapshotState openingGame) 1
      == - evaluateState noRound noRound (snapshotState openingGame) 2)%Q.
Proof.
  assert (H : forall p, In p (st_pieces (snapshotState openingGame)) ->
                        player p = 1 \/ player p = 2).
  { intros p Hp. vm_compute in Hp.
    repeat (destruct Hp as [<- | Hp];
            [first [left; reflexivity | right; reflexivity] |]).
    destruct Hp. }
  pose proof (shapedGrid_rebuildBoard initPieces initPieces_placed) as Hs.
  split; [exact Hs |]. split; [exact H |].
  exact (evaluation_zero_sum noRound noRound (snapshotState openingGame)
           Hs H).
Defined.

Lemma evaluation_bounded_witness :
  coherentState (snapshotState openingGame)
  /\ (-100000 < evaluateState noRound noRound (snapshotState openingGame) 2
      < 100000)%Q.
Proof.
  split; [exact openingState_coherent |].
  apply (evaluation_bounded noRound noRound (snapshotState openingGame) 2
           (or_intror eq_refl) openingState_coherent); simpl; lia.
Defined.

Lemma promoState_coherent : coherentState promoState.
Proof. split; [exact promoPieces_placed | reflexivity]. Qed.

Lemma generated_moves_witness :
  coherentState promoState
  /\ exists res,
       generateMovesForState noRound noRound promoState = Done res
       /\ forall m, In m res ->
            exists p, In p (st_pieces promoState)
                      /\ player p = 1 /\ sm_id m = piece_id p.
Proof.
  split; [exact promoState_coherent |].
  destruct (generated_moves noRound noRound promoState promoState_coherent)
    as [res [Hr Hin]].
  exists res. split; [exact Hr |]. intros m Hm. apply Hin in Hm.
  destruct Hm as [p [H1 [H2 [_ [_ [H3 _]]]]]]. exists p. auto.
Defined.

Lemma promotion_is_generated :
  exists res,
    generateMovesForState noRound noRound promoState = Done res
    /\ exists m, In m res /\ promotingMove promoState m.
Proof.
  destruct (generateMovesLoop_spec noRound noRound promoState
              promoState_coherent (st_pieces promoState) []
              (incl_refl _)) as [res [Hr Hin]].
  exists res. split; [exact Hr |].
  set (p := newPiece 1 1 7 "PL" 1).
  exists {| sm_id := 1; sm_dest := (2, 0);
            sm_score := moveScore promoState p (2, 0) |}.
  split.
  - apply Hin. right. exists p.
    split; [left; reflexivity |]. split; [reflexivity |].
    split; [reflexivity |]. split; [reflexivity |]. split; [reflexivity |].
    split; [| reflexivity]. cbn [sm_dest].
    destruct (rebuildBoard_wf _ promoPieces_placed) as [Hwf [Hon _]].
    destruct (resolve_characterised noRound noRound _ p sourceOrder Hwf
                fair_sourceOrder
                (Hon p (or_introl eq_refl))) as [r [Hres [_ [Hacc _]]]].
    apply Hacc. vm_compute in Hres. inversion Hres; subst r.
    vm_compute. tauto.
  - exists p. split; [left; reflexivity |]. split; reflexivity.
Qed.

Lemma promotion_first_witness :
  coherentState promoState
  /\ exists res h,
       generateMovesForState noRound noRound promoState = Done res
       /\ hd_error (limitedMoves 12 res) = Some h
       /\ promotingMove promoState h.
Proof.
  split; [exact promoState_coherent |].
  assert (Hbw : (0 < 12)%nat) by lia.
  destruct (promotion_first noRound noRound promoState 12
              promoState_coherent Hbw) as [res [Hr Hfirst]].
  destruct promotion_is_generated as [res' [Hr' Hm]].
  assert (E : res' = res) by congruence. subst res'.
  destruct (Hfirst Hm) as [h [H1 [_ H2]]].
  exists res, h. auto.
Defined.

Lemma startUi_in_bounds : chancesInBounds (uiOf startGame).
Proof. split; [simpl; lia | discriminate]. Qed.

Lemma chances_stay_in_bounds_witness :
  coherentGame (ui_game (uiOf startGame))
  /\ chancesInBounds (uiOf startGame)
  /\ exists u',
       onPointerDown noRound noRound (uiOf startGame) (onSquare (0, 7))
       = Done u'
       /\ chancesInBounds u'.
Proof.
  split; [exact startGame_coherent |]. split; [exact startUi_in_bounds |].
  exact (chances_stay_in_bounds noRound noRound (uiOf startGame)
           (onSquare (0, 7)) startGame_coherent
           (square_on_grid (0, 7) eq_refl) startUi_in_bounds).
Defined.

Lemma corner_rotatable : rotatable (uiOf cornerGame) sampleSelected.
Proof.
  split; [exact cornerGame_coherent |].
  repeat split; try reflexivity. discriminate.
Qed.

Lemma done_costs_one_chance_witness :
  rotatable (uiOf cornerGame) sampleSelected
  /\ exists u' sel',
       pointerEvents noRound noRound (uiOf cornerGame)
         (onRotate :: [onSquare (0, 7); onSquare (0, 7); onSquare (0, 7)]
          ++ [onDone]) = Done u'
       /\ rotationChances (ui_game u') = 1
       /\ findPiece 1 (pieces (ui_game u')) = Some sel'
       /\ rotation (settleRotation (turning u') sel') = 90.
Proof.
  split; [exact corner_rotatable |].
  assert (Htaps : Forall (tapOn sampleSelected)
                    [onSquare (0, 7); onSquare (0, 7); onSquare (0, 7)])
    by (repeat constructor).
  destruct (done_costs_one_chance noRound noRound (uiOf cornerGame)
              sampleSelected onRotate onDone
              [onSquare (0, 7); onSquare (0, 7); onSquare (0, 7)]
              corner_rotatable eq_refl Htaps eq_refl eq_refl)
    as [u' [H1 [H2 [_ [_ [sel' [H3 [_ [_ H4]]]]]]]]].
  exists u', sel'. auto.
Defined.

Lemma botGame_coherent : coherentGame botGame.
Proof. apply gameOf_coherent; [exact initPieces_placed | reflexivity]. Qed.

Lemma bot_move_keeps_coherent_witness :
  coherentGame botGame
  /\ isValidPosition (fst (move_dest botAction))
       (snd (move_dest botAction)) = true
  /\ exists g1,
       thinkAndMove noRound noRound botGame botAction = Done g1
       /\ piecesAreAnimating g1 = true
       /\ coherentGame (update g1).
Proof.
  split; [exact botGame_coherent |]. split; [reflexivity |].
  destruct (bot_move_keeps_coherent noRound noRound botGame botAction
              botGame_coherent eq_refl) as [g1 [E [_ H]]].
  exists g1. split; [exact E |].
  assert (Ha : piecesAreAnimating g1 = true)
    by (vm_compute in E; inversion E; reflexivity).
  split; [exact Ha |].
  destruct H as [[Hn _] | [_ H]]; [congruence | exact H].
Defined.

Lemma planned_rotations_agree_witness :
  (forall id p, In id [2; 3] -> findPiece id initPieces = Some p ->
     canRotateType (piece_type p) = true)
  /\ In [(2, 1); (3, 1)] (rotationPlans [2; 3])
  /\ map unflag (fst (liveRotations [(2, 1); (3, 1)] 2 initPieces))
     = map unflag
         (applyRotations (map piece_id initPieces) [(2, 1); (3, 1)] 2
            initPieces).
Proof.
  assert (H : forall id p, In id [2; 3] ->
                findPiece id initPieces = Some p ->
                canRotateType (piece_type p) = true).
  { intros id p [<- | [<- | []]] F; vm_compute in F; inversion F; reflexivity. }
  assert (Hin : In [(2, 1); (3, 1)] (rotationPlans [2; 3]))
    by (simpl; auto 6).
  split; [exact H |]. split; [exact Hin |].
  exact (proj1 (proj2 (planned_rotations_agree initPieces [2; 3]
                         [(2, 1); (3, 1)] H Hin))).
Defined.

Lemma generated_actions_legal_witness :
  wellPlaced (st_pieces promoState)
  /\ exists actions,
       generateTurnActions noRound noRound promoState [2; 3] 12 = Done actions
       /\ (List.length actions <= 60)%nat.
Proof.
  split; [exact promoPieces_placed |].
  destruct (generated_actions_legal noRound noRound promoState [2; 3] 12
              promoPieces_placed) as [actions [H1 [H2 _]]].
  exists actions. auto.
Defined.

Lemma startGame_selection : legalSelection startGame.
Proof. intros sel H. discriminate. Qed.

Lemma selection_stays_legal_witness :
  coherentGame (ui_game (uiOf startGame))
  /\ legalSelection (ui_game (uiOf startGame))
  /\ exists u',
       onPointerDown noRound noRound (uiOf startGame) (onSquare (0, 7))
       = Done u'
       /\ legalSelection (ui_game u').
Proof.
  split; [exact startGame_coherent |]. split; [exact startGame_selection |].
  exact (selection_stays_legal noRound noRound (uiOf startGame)
           (onSquare (0, 7)) startGame_coherent
           (square_on_grid (0, 7) eq_refl) startGame_selection).
Defined.

Lemma botGame_rests :
  forall p, In p (pieces botGame) -> movementPath p = [].
Proof.
  intros p Hp. vm_compute in Hp.
  repeat (destruct Hp as [<- | Hp]; [reflexivity |]). destruct Hp.
Qed.

Lemma botGame_candidates :
  forall id p, In id [20; 19] -> findPiece id (pieces botGame) = Some p ->
    canRotateType (piece_type p) = true.
Proof.
  intros id p [<- | [<- | []]] F; vm_compute in F; inversion F; reflexivity.
Qed.

Lemma simulation_predicts_move_witness :
  coherentGame botGame
  /\ In (rotations botAction) (rotationPlans [20; 19])
  /\ exists g1,
       thinkAndMove noRound noRound botGame botAction = Done g1
       /\ piecesAreAnimating g1 = true
       /\ gameOver (update g1) = false
       /\ map unflag (pieces (update g1))
          = map unflag
              (st_pieces
                 (applyAction (cloneState (snapshotState botGame)) botAction))
       /\ board (update g1)
          = st_board
              (applyAction (cloneState (snapshotState botGame)) botAction).
Proof.
  assert (Hplan : In (rotations botAction) (rotationPlans [20; 19]))
    by (simpl; auto).
  split; [exact botGame_coherent |]. split; [exact Hplan |].
  destruct (simulation_predicts_move noRound noRound botGame botAction
              [20; 19] botGame_coherent botGame_rests botGame_candidates
              Hplan eq_refl) as [g1 [E Hsame]].
  exists g1. split; [exact E |].
  pose proof E as Ev. vm_compute in Ev. injection Ev as Ev.
  assert (Ha : piecesAreAnimating g1 = true)
    by (rewrite <- Ev; reflexivity).
  assert (Ho : gameOver (update g1) = false)
    by (rewrite <- Ev; vm_compute; reflexivity).
  split; [exact Ha |]. split; [exact Ho |].
  assert (Honly : forall p, In p (map arrive (pieces g1)) ->
                    promotes p = true -> piece_id p = move_id botAction).
  { intros p Hp Hpr. rewrite <- Ev in Hp. vm_compute in Hp.
    repeat (destruct Hp as [<- | Hp]; [vm_compute in Hpr; discriminate Hpr |]).
    destruct Hp. }
  destruct (Hsame Ha Honly Ho) as [H1 [H2 _]].
  split; [exact H1 | exact H2].
Defined.

Lemma generated_actions_run_witness :
  coherentGame botGame
  /\ exists actions,
       generateTurnActions noRound noRound (snapshotState botGame)
         [20; 19] 12 = Done actions
       /\ forall a, In a actions ->
            exists g1,
              thinkAndMove noRound noRound botGame a = Done g1
              /\ piecesAreAnimating g1 = true.
Proof.
  split; [exact botGame_coherent |].
  destruct (generated_actions_run noRound noRound botGame [20; 19] 12
              botGame_coherent botGame_rests botGame_candidates)
    as [actions [Hact Hall]].
  exists actions. split; [exact Hact |]. intros a Hin.
  destruct (Hall a Hin) as [g1 [H1 [H2 _]]]. exists g1. auto.
Defined.

Lemma corner_still : allStill (uiOf cornerGame).
Proof. intros p _. reflexivity. Qed.

Lemma sampleSteps_quiet : Forall quietStep sampleSteps.
Proof.
  unfold sampleSteps.
  repeat (apply Forall_cons;
          [cbn; first [lia | repeat split; reflexivity] |]).
  apply Forall_nil.
Qed.

(** In rotate mode the frames turn the piece: after the steps of
    [sampleSteps] the corner piece is at 240 degrees, on its way from 270
    to 180. *)
Example rotation_turns_in_rotate_mode :
  exists v,
    runSteps noRound noRound (uiOf cornerGame) (Tap onRotate :: sampleSteps)
    = Done v
    /\ option_map rotation (findPiece 1 (pieces (ui_game v))) = Some 240
    /\ turningOf (turning v) 1
       = {| initialRotation := 0; targetRotation := 180;
            isRotating := true |}.
Proof.
  destruct (runSteps noRound noRound (uiOf cornerGame)
              (Tap onRotate :: sampleSteps)) as [v | |] eqn:E;
    try (vm_compute in E; discriminate).
  exists v. split; [reflexivity |].
  vm_compute in E. injection E as <-. split; vm_compute; reflexivity.
Qed.

Lemma cancel_restores_witness :
  rotatable (uiOf cornerGame) sampleSelected
  /\ allStill (uiOf cornerGame)
  /\ exists u',
       runSteps noRound noRound (uiOf cornerGame)
         (Tap onRotate :: sampleSteps ++ [Tap onCancel]) = Done u'
       /\ pieces (ui_game u') = initPieces
       /\ rotationChances (ui_game u') = 2
       /\ turningOf (turning u') 1
          = {| initialRotation := 0; targetRotation := 0;
               isRotating := false |}.
Proof.
  split; [exact corner_rotatable |]. split; [exact corner_still |].
  destruct (cancel_restores noRound noRound (uiOf cornerGame) sampleSelected
              onRotate onCancel sampleSteps
              corner_rotatable corner_still eq_refl sampleSteps_quiet
              eq_refl eq_refl eq_refl)
    as [u' [H1 [H2 [_ [H3 [_ [_ [H4 _]]]]]]]].
  exists u'. auto.
Defined.
